(** * drawing_lib: colours, shapes, layers and canvas — a shallow embedding

    The Python package [drawing_lib] is a pydantic data model for vector
    drawings.  This development embeds the parts of [styles.py],
    [shapes.py], [layers.py] and [document.py] that carry validation or
    list/tree manipulation, and proves properties of them.

    Conventions of the embedding.
    - A Python exception is a value of [exn]; a computation that may raise
      returns [result A].
    - Python [float]s and [int]s met in geometry, colours and canvas sizes
      are kept as their exact values, rationals ([Q]): a [float] is a finite
      IEEE double, NaN and the infinities as inputs are outside the model.
      [Shape.get_bounds] adds as the interpreter does, converting to double
      and rounding the sum ([Shape.round_double]); the other arithmetic of
      the model is exact.
    - Python [str] is [string]; its characters are the code points below 256.
    - None of the pydantic models of the package sets [validate_assignment],
      so an attribute assignment on a constructed instance stores the value
      without running any validator; the [set_*] functions below are those
      assignments.
    - [generate_id] draws a fresh identifier ([uuid4]) for every object; a
      constructor of the embedding takes the identifier drawn as an
      argument. *)

From Stdlib Require Import ZArith QArith Qround Qminmax Qabs Qpower List String Ascii Lia
  Lqa Bool Sorted.
From stdpp Require Import gmap strings list.

Local Open Scope Z_scope.

(** ** Exceptions and results *)

Inductive exn : Type :=
| InvalidGeometryError   (* types.py: raised by the shape validators *)
| InvalidStyleError      (* types.py: raised by the style validators *)
| ValidationError        (* pydantic's own error: a Field constraint failed *)
| OverflowError          (* an int too large to convert to a float *)
| RuntimeError.          (* KeyError, IndexError, TypeError or ValueError of
                            the interpreter; the properties below never
                            tell them apart *)

Inductive result (A : Type) : Type :=
| Ok (a : A)
| Raise (e : exn).
Arguments Ok {A} a.
Arguments Raise {A} e.

Definition rbind {A B} (m : result A) (k : A -> result B) : result B :=
  match m with
  | Ok a => k a
  | Raise e => Raise e
  end.

Notation "'do' x <- m ; k" := (rbind m (fun x => k))
  (at level 10, x name, m at level 100, k at level 200,
   format "'[v' 'do'  x  <-  m ; '/' k ']'").

Definition of_option {A} (o : option A) (e : exn) : result A :=
  match o with
  | Some a => Ok a
  | None => Raise e
  end.

(** ** styles.py — colours *)

Module Color.

(** *** Characters and strings *)

Definition is_digit (c : ascii) : bool :=
  let n := nat_of_ascii c in (48 <=? n)%nat && (n <=? 57)%nat.
Definition is_upper_AF (c : ascii) : bool :=
  let n := nat_of_ascii c in (65 <=? n)%nat && (n <=? 70)%nat.
Definition is_lower_af (c : ascii) : bool :=
  let n := nat_of_ascii c in (97 <=? n)%nat && (n <=? 102)%nat.

(** The character class [[0-9A-Fa-f]]. *)
Definition is_hex_digit (c : ascii) : bool :=
  is_digit c || is_upper_AF c || is_lower_af c.

(** [str.upper] and [str.lower], on the ASCII letters. *)
Definition upper_char (c : ascii) : ascii :=
  let n := nat_of_ascii c in
  if (97 <=? n)%nat && (n <=? 122)%nat then ascii_of_nat (n - 32) else c.
Definition lower_char (c : ascii) : ascii :=
  let n := nat_of_ascii c in
  if (65 <=? n)%nat && (n <=? 90)%nat then ascii_of_nat (n + 32) else c.

Fixpoint map_string (f : ascii -> ascii) (s : string) : string :=
  match s with
  | EmptyString => EmptyString
  | String c s' => String (f c) (map_string f s')
  end.

Definition upper : string -> string := map_string upper_char.
Definition lower : string -> string := map_string lower_char.

Fixpoint all_chars (p : ascii -> bool) (s : string) : bool :=
  match s with
  | EmptyString => true
  | String c s' => p c && all_chars p s'
  end.

(** [s[i:j]] and [s[i:]] for non-negative indices. *)
Definition slice (i j : nat) (s : string) : string := substring i (j - i) s.
Definition slice_from (i : nat) (s : string) : string :=
  substring i (String.length s - i) s.

Definition startswith_hash (s : string) : bool :=
  match s with
  | String "#" _ => true
  | _ => false
  end.

(** [re.match(r'^[0-9A-Fa-f]+$', v)]: one or more hex digits up to the end of
    the string; [$] also matches just before a final newline. *)
Fixpoint hex_run_to_end (s : string) : bool :=
  match s with
  | EmptyString => true
  | String c s' =>
      if is_hex_digit c then hex_run_to_end s'
      else if Ascii.eqb c "010" then
             match s' with EmptyString => true | _ => false end
           else false
  end.

Definition re_match_hex (s : string) : bool :=
  match s with
  | String c _ => is_hex_digit c && hex_run_to_end s
  | EmptyString => false
  end.

(** *** int(s, 16) and format(n, '02x') *)

Definition hex_val (c : ascii) : option Z :=
  let n := Z.of_nat (nat_of_ascii c) in
  if is_digit c then Some (n - 48)
  else if is_upper_AF c then Some (n - 55)
  else if is_lower_af c then Some (n - 87)
  else None.

Fixpoint hex_digits_val (acc : Z) (s : string) : option Z :=
  match s with
  | EmptyString => Some acc
  | String c s' =>
      match hex_val c with
      | Some d => hex_digits_val (16 * acc + d) s'
      | None => None
      end
  end.

(** [str.isspace] on the code points below 256. *)
Definition is_space (c : ascii) : bool :=
  let n := nat_of_ascii c in
  ((9 <=? n)%nat && (n <=? 13)%nat) || ((28 <=? n)%nat && (n <=? 32)%nat)
  || (n =? 133)%nat || (n =? 160)%nat.

Fixpoint lstrip (s : string) : string :=
  match s with
  | String c s' => if is_space c then lstrip s' else s
  | EmptyString => EmptyString
  end.

Fixpoint rstrip (s : string) : string :=
  match s with
  | EmptyString => EmptyString
  | String c s' =>
      match rstrip s' with
      | EmptyString => if is_space c then EmptyString else String c EmptyString
      | t => String c t
      end
  end.

(** [int(s, 16)] on the inputs this module gives it: surrounding white space
    is dropped and what is left must be a non-empty run of hex digits,
    otherwise [ValueError].  (Signs, a [0x] prefix and underscores, which
    [int] also reads, never occur in a slice of a validated value.) *)
Definition int16 (s : string) : result Z :=
  match rstrip (lstrip s) with
  | EmptyString => Raise RuntimeError
  | t => of_option (hex_digits_val 0 t) RuntimeError
  end.

Definition hex_char (d : Z) : ascii :=
  if d <? 10 then ascii_of_nat (Z.to_nat (d + 48))
  else ascii_of_nat (Z.to_nat (d + 87)).

(** Lower-case hexadecimal digits of a non-negative integer, most significant
    first ([fuel] bounds the number of digits). *)
Fixpoint hex_digits (fuel : nat) (n : Z) (acc : string) : string :=
  match fuel with
  | O => acc
  | S fuel' =>
      let acc' := String (hex_char (n mod 16)) acc in
      if n / 16 =? 0 then acc' else hex_digits fuel' (n / 16) acc'
  end.

Definition hex_of (n : Z) : string :=
  hex_digits (S (Z.to_nat (Z.log2 n))) n EmptyString.

Fixpoint zero_pad (k : nat) (s : string) : string :=
  match k with
  | O => s
  | S k' => String "0" (zero_pad k' s)
  end.

(** [format(n, '02x')], also what [f"{n:02x}"] prints: the sign counts in the
    width of 2. *)
Definition format_02x (n : Z) : string :=
  if n <? 0 then
    let d := hex_of (- n) in
    String "-" (zero_pad (1 - String.length d) d)
  else
    let d := hex_of n in
    zero_pad (2 - String.length d) d.

(** [round(x)] of Python 3: to the nearest integer, ties to the even one. *)
Definition py_round (x : Q) : Z :=
  let f := Qfloor x in
  match Qcompare (x - inject_Z f) (1 # 2) with
  | Lt => f
  | Gt => f + 1
  | Eq => if Z.even f then f else f + 1
  end.

(** *** The colour models *)

Record RGBColor := { rgb_r : Z; rgb_g : Z; rgb_b : Z }.
Record RGBAColor := { r : Z; g : Z; b : Z; a : Q }.
Record HexColor := { value : string }.

Definition byte_ok (n : Z) : bool := (0 <=? n) && (n <=? 255).

(** [RGBColor(r=.., g=.., b=..)]: the Field bounds [ge=0, le=255]. *)
Definition RGBColor_new (r g b : Z) : result RGBColor :=
  if byte_ok r && byte_ok g && byte_ok b
  then Ok {| rgb_r := r; rgb_g := g; rgb_b := b |}
  else Raise ValidationError.

(** [RGBAColor(r=.., g=.., b=.., a=..)]: the same, and [0.0 <= a <= 1.0]. *)
Definition RGBAColor_new (r g b : Z) (a : Q) : result RGBAColor :=
  if byte_ok r && byte_ok g && byte_ok b && Qle_bool 0 a && Qle_bool a 1
  then Ok {| r := r; g := g; b := b; a := a |}
  else Raise ValidationError.

Definition RGBColor_to_hex (c : RGBColor) : string :=
  String "#" (format_02x (rgb_r c) +:+ format_02x (rgb_g c)
              +:+ format_02x (rgb_b c)).

Definition RGBAColor_to_hex (c : RGBAColor) : string :=
  let alpha_hex := format_02x (py_round (a c * 255)) in
  String "#" (format_02x (r c) +:+ format_02x (g c) +:+ format_02x (b c)
              +:+ alpha_hex).

(** [HexColor.validate_hex_color]. *)
Definition validate_hex_color (v : string) : result string :=
  let v := if startswith_hash v then slice_from 1 v else v in
  let n := String.length v in
  if negb ((n =? 6)%nat || (n =? 8)%nat) then Raise InvalidStyleError
  else if negb (re_match_hex v) then Raise InvalidStyleError
  else Ok (String "#" (upper v)).

(** [HexColor(value=v)]. *)
Definition HexColor_new (v : string) : result HexColor :=
  do v' <- validate_hex_color v; Ok {| value := v' |}.

Definition to_rgb (h : HexColor) : result RGBColor :=
  let hex_value := slice_from 1 (value h) in
  do r <- int16 (slice 0 2 hex_value);
  do g <- int16 (slice 2 4 hex_value);
  do b <- int16 (slice 4 6 hex_value);
  RGBColor_new r g b.

Definition to_rgba (h : HexColor) : result RGBAColor :=
  let hex_value := slice_from 1 (value h) in
  do r <- int16 (slice 0 2 hex_value);
  do g <- int16 (slice 2 4 hex_value);
  do b <- int16 (slice 4 6 hex_value);
  do a <- (if (String.length hex_value =? 8)%nat
           then (do n <- int16 (slice 6 8 hex_value); Ok (inject_Z n / 255)%Q)
           else Ok 1%Q);
  RGBAColor_new r g b a.

(** *** Round trips, and the canonical form *)

(** [HexColor(value=s).to_rgba().to_hex()]. *)
Definition hex_rgba_hex (s : string) : result string :=
  do h <- HexColor_new s; do c <- to_rgba h; Ok (RGBAColor_to_hex c).

(** [HexColor(value=s).to_rgb().to_hex()]. *)
Definition hex_rgb_hex (s : string) : result string :=
  do h <- HexColor_new s; do c <- to_rgb h; Ok (RGBColor_to_hex c).

(** The digits of [s]: [s] without one leading [#]. *)
Definition strip_hash (s : string) : string :=
  if startswith_hash s then slice_from 1 s else s.

(** A canonical upper-case hex colour: [#] and then 6 or 8 characters out of
    [0-9A-F]. *)
Definition is_upper_hex_digit (c : ascii) : bool := is_digit c || is_upper_AF c.
Definition canonical_upper_hex (s : string) : bool :=
  match s with
  | String "#" d =>
      ((String.length d =? 6)%nat || (String.length d =? 8)%nat)
      && all_chars is_upper_hex_digit d
  | _ => false
  end.

End Color.

(** ** styles.py — gradients and fills *)

Module Style.

Definition ID := string.

Record HSLColor := { h : Q; s : Q; l : Q }.

(** [Color = Union[RGBColor, RGBAColor, HSLColor, HexColor]]. *)
Inductive Color : Type :=
| CRGB (c : Color.RGBColor)
| CRGBA (c : Color.RGBAColor)
| CHSL (c : HSLColor)
| CHex (c : Color.HexColor).

Record GradientStop := { position : Q; color : Color }.

(** [GradientStop(position=.., color=..)]: [0.0 <= position <= 1.0]. *)
Definition GradientStop_new (position : Q) (color : Color) : result GradientStop :=
  if Qle_bool 0 position && Qle_bool position 1
  then Ok {| position := position; color := color |}
  else Raise ValidationError.

(** [sorted(v, key=...)]: a stable sort; an element goes in front of the
    first one whose key is not smaller than its own. *)
Section Sorted.
Context {A : Type} (key : A -> Q).

Fixpoint insert_by (x : A) (l : list A) : list A :=
  match l with
  | [] => [x]
  | y :: l' =>
      if Qle_bool (key x) (key y) then x :: l else y :: insert_by x l'
  end.

Fixpoint sorted (l : list A) : list A :=
  match l with
  | [] => []
  | x :: l' => insert_by x (sorted l')
  end.
End Sorted.

(** [len(set(positions))]: the number of positions that differ under [==]. *)
Definition mem_q (x : Q) (l : list Q) : bool := existsb (Qeq_bool x) l.

Fixpoint set_of (l : list Q) : list Q :=
  match l with
  | [] => []
  | x :: l' => if mem_q x l' then set_of l' else x :: set_of l'
  end.

(** [LinearGradient.validate_stops] and [RadialGradient.validate_stops]: the
    two bodies are the same text. *)
Definition validate_stops (v : list GradientStop) : result (list GradientStop) :=
  if (length v <? 2)%nat then Raise InvalidStyleError
  else
    let sorted_stops := sorted position v in
    let positions := map position sorted_stops in
    if negb (length (set_of positions) =? length positions)%nat
    then Raise InvalidStyleError
    else Ok sorted_stops.

Record LinearGradient := {
  lg_id : ID;
  start_x : Q; start_y : Q; end_x : Q; end_y : Q;
  lg_stops : list GradientStop
}.

Record RadialGradient := {
  rg_id : ID;
  center_x : Q; center_y : Q; radius : Q;
  rg_stops : list GradientStop
}.

(** [LinearGradient(id=.., ..., stops=..)].  The Field constraint
    [min_length=2] is checked by pydantic before the field validator runs. *)
Definition LinearGradient_new (id : ID) (sx sy ex ey : Q)
    (stops : list GradientStop) : result LinearGradient :=
  if (length stops <? 2)%nat then Raise ValidationError
  else
    do stops' <- validate_stops stops;
    Ok {| lg_id := id; start_x := sx; start_y := sy; end_x := ex; end_y := ey;
          lg_stops := stops' |}.

(** [RadialGradient(id=.., ..., stops=..)].  A failed Field constraint of
    [radius] ([ge=0.0]) is collected and reported once all fields are
    validated; an [InvalidStyleError] of the stops validator is not a
    [ValueError] and leaves at once. *)
Definition RadialGradient_new (id : ID) (cx cy radius : Q)
    (stops : list GradientStop) : result RadialGradient :=
  let radius_ok := Qle_bool 0 radius in
  if (length stops <? 2)%nat then Raise ValidationError
  else
    do stops' <- validate_stops stops;
    if radius_ok
    then Ok {| rg_id := id; center_x := cx; center_y := cy; radius := radius;
               rg_stops := stops' |}
    else Raise ValidationError.

Record PatternFill := {
  pf_id : ID;
  image_data : string;
  pf_width : Q; pf_height : Q;
  repeat_x : bool; repeat_y : bool
}.

Definition PatternFill_new (id : ID) (image_data : string) (w h : Q)
    (rx ry : bool) : result PatternFill :=
  if negb (Qle_bool w 0) && negb (Qle_bool h 0)
  then Ok {| pf_id := id; image_data := image_data; pf_width := w;
             pf_height := h; repeat_x := rx; repeat_y := ry |}
  else Raise ValidationError.

(** [FillType]. *)
Inductive FillType := SOLID | LINEAR_GRADIENT | RADIAL_GRADIENT | PATTERN.

Definition FillType_eqb (x y : FillType) : bool :=
  match x, y with
  | SOLID, SOLID | LINEAR_GRADIENT, LINEAR_GRADIENT
  | RADIAL_GRADIENT, RADIAL_GRADIENT | PATTERN, PATTERN => true
  | _, _ => false
  end.

Record FillProperties := {
  type : FillType;
  fill_color : option Color;
  linear_gradient : option LinearGradient;
  radial_gradient : option RadialGradient;
  pattern : option PatternFill;
  opacity : Q
}.

(** [not x] for an optional model instance: an instance is always true. *)
Definition is_none {A} (o : option A) : bool :=
  match o with None => true | Some _ => false end.

(** [FillProperties.validate_fill_consistency] (a [mode='after'] model
    validator: it works on the instance and returns it). *)
Definition validate_fill_consistency (self : FillProperties) : result FillProperties :=
  if FillType_eqb (type self) SOLID && is_none (fill_color self)
  then Raise InvalidStyleError
  else if FillType_eqb (type self) LINEAR_GRADIENT && is_none (linear_gradient self)
  then Raise InvalidStyleError
  else if FillType_eqb (type self) RADIAL_GRADIENT && is_none (radial_gradient self)
  then Raise InvalidStyleError
  else if FillType_eqb (type self) PATTERN && is_none (pattern self)
  then Raise InvalidStyleError
  else
    let t := type self in
    Ok {| type := t;
          fill_color := if negb (FillType_eqb t SOLID) then None else fill_color self;
          linear_gradient :=
            if negb (FillType_eqb t LINEAR_GRADIENT) then None else linear_gradient self;
          radial_gradient :=
            if negb (FillType_eqb t RADIAL_GRADIENT) then None else radial_gradient self;
          pattern := if negb (FillType_eqb t PATTERN) then None else pattern self;
          opacity := opacity self |}.

(** [FillProperties(type=.., color=.., ...)]: the Field bounds of [opacity],
    then the model validator. *)
Definition FillProperties_new (t : FillType) (color : option Color)
    (lg : option LinearGradient) (rg : option RadialGradient)
    (pat : option PatternFill) (opacity : Q) : result FillProperties :=
  if Qle_bool 0 opacity && Qle_bool opacity 1
  then validate_fill_consistency
         {| type := t; fill_color := color; linear_gradient := lg;
            radial_gradient := rg; pattern := pat; opacity := opacity |}
  else Raise ValidationError.

(** [fill.type = t] on a constructed instance: the model does not validate
    assignments, the attribute is just stored. *)
Definition set_type (self : FillProperties) (t : FillType) : FillProperties :=
  {| type := t; fill_color := fill_color self;
     linear_gradient := linear_gradient self;
     radial_gradient := radial_gradient self;
     pattern := pattern self; opacity := opacity self |}.

(** *** What a fill has populated *)

(** The payload field that goes with a tag is populated. *)
Definition payload_present (f : FillProperties) (t : FillType) : bool :=
  match t with
  | SOLID => negb (is_none (fill_color f))
  | LINEAR_GRADIENT => negb (is_none (linear_gradient f))
  | RADIAL_GRADIENT => negb (is_none (radial_gradient f))
  | PATTERN => negb (is_none (pattern f))
  end.

(** Exactly the payload field of the instance's own tag is populated. *)
Definition exactly_tag_populated (f : FillProperties) : bool :=
  eqb (payload_present f SOLID) (FillType_eqb (type f) SOLID)
  && eqb (payload_present f LINEAR_GRADIENT) (FillType_eqb (type f) LINEAR_GRADIENT)
  && eqb (payload_present f RADIAL_GRADIENT) (FillType_eqb (type f) RADIAL_GRADIENT)
  && eqb (payload_present f PATTERN) (FillType_eqb (type f) PATTERN).

End Style.

(** ** shapes.py *)

Module Shape.

Definition ID := string.

(** The values a geometry dictionary ([Dict[str, Any]]) holds. *)
#[local] Set Warnings "-register-all".
Inductive pyval : Type :=
| VNone
| VBool (b : bool)
| VInt (n : Z)
| VFloat (q : Q)
| VStr (s : string)
| VList (l : list pyval)
| VTuple (l : list pyval).

(** [isinstance(v, (int, float))]; [bool] is a subclass of [int]. *)
Definition num_of (v : pyval) : option Q :=
  match v with
  | VBool b => Some (if b then 1 else 0)%Q
  | VInt n => Some (inject_Z n)
  | VFloat q => Some q
  | _ => None
  end.

Definition is_number (v : pyval) : bool :=
  match num_of v with Some _ => true | None => false end.

(** [bool(v)]. *)
Definition truthy (v : pyval) : bool :=
  match v with
  | VNone => false
  | VBool b => b
  | VInt n => negb (n =? 0)
  | VFloat q => negb (Qeq_bool q 0)
  | VStr s => negb (String.eqb s EmptyString)
  | VList l | VTuple l => match l with [] => false | _ => true end
  end.

(** [ShapeType]; [OTHER] is a value outside the enumeration, which only an
    assignment can put into the field. *)
Inductive ShapeType : Type :=
| RECTANGLE | CIRCLE | ELLIPSE | LINE | POLYLINE | POLYGON | PATH | GROUP
| OTHER (v : string).

Record Transform := {
  x : Q; y : Q; rotation : Q;
  scale_x : Q; scale_y : Q; skew_x : Q; skew_y : Q
}.

(** [Transform(...)]: [scale_x > 0] and [scale_y > 0]. *)
Definition Transform_new (x y rotation scale_x scale_y skew_x skew_y : Q)
  : result Transform :=
  if negb (Qle_bool scale_x 0) && negb (Qle_bool scale_y 0)
  then Ok {| x := x; y := y; rotation := rotation; scale_x := scale_x;
             scale_y := scale_y; skew_x := skew_x; skew_y := skew_y |}
  else Raise ValidationError.

(** [Transform()]. *)
Definition Transform_default : Transform :=
  {| x := 0; y := 0; rotation := 0; scale_x := 1; scale_y := 1;
     skew_x := 0; skew_y := 0 |}.

(** [StyleProperties]; of its three optional parts only the fill is carried
    here, no function of this module looks inside. *)
Record StyleProperties := { fill : option Style.FillProperties }.

Definition StyleProperties_default : StyleProperties := {| fill := None |}.

Record Shape := {
  id : ID;
  type : ShapeType;
  geometry : gmap string pyval;
  style : option StyleProperties;
  transform : option Transform;
  visible : bool;
  locked : bool;
  name : option string
}.

Definition has_key (k : string) (geometry : gmap string pyval) : bool :=
  match geometry !! k with Some _ => true | None => false end.

(** [not isinstance(v, (int, float)) or v <= 0]. *)
Definition not_positive (v : pyval) : bool :=
  match num_of v with
  | Some q => Qle_bool q 0
  | None => true
  end.

(** [not isinstance(v, (int, float)) or v < 0]. *)
Definition not_non_negative (v : pyval) : bool :=
  match num_of v with
  | Some q => negb (Qle_bool 0 q)
  | None => true
  end.

(** [geometry.get(k)]. *)
Definition get (k : string) (geometry : gmap string pyval) : pyval :=
  match geometry !! k with Some v => v | None => VNone end.

Definition ok : result unit := Ok tt.

Definition _validate_rectangle_geometry (geometry : gmap string pyval) : result unit :=
  if negb (has_key "width" geometry && has_key "height" geometry)
  then Raise InvalidGeometryError
  else
    let width := get "width" geometry in
    let height := get "height" geometry in
    if not_positive width then Raise InvalidGeometryError
    else if not_positive height then Raise InvalidGeometryError
    else
      match geometry !! "corner_radius" with
      | Some radius =>
          if not_non_negative radius then Raise InvalidGeometryError else ok
      | None => ok
      end.

Definition _validate_circle_geometry (geometry : gmap string pyval) : result unit :=
  match geometry !! "radius" with
  | None => Raise InvalidGeometryError
  | Some radius =>
      if not_positive radius then Raise InvalidGeometryError else ok
  end.

Definition _validate_ellipse_geometry (geometry : gmap string pyval) : result unit :=
  match geometry !! "rx", geometry !! "ry" with
  | Some rx, Some ry =>
      if not_positive rx then Raise InvalidGeometryError
      else if not_positive ry then Raise InvalidGeometryError
      else ok
  | _, _ => Raise InvalidGeometryError
  end.

(** The loop over the set of required fields raises the same error whatever
    the order in which the set is walked. *)
Definition _validate_line_geometry (geometry : gmap string pyval) : result unit :=
  let required_fields := ["x1"; "y1"; "x2"; "y2"]%string in
  if negb (forallb (fun k => has_key k geometry) required_fields)
  then Raise InvalidGeometryError
  else if forallb (fun k => is_number (get k geometry)) required_fields
  then ok
  else Raise InvalidGeometryError.

(** The loop over the points, shared word for word by polyline and polygon. *)
Definition point_ok (point : pyval) : bool :=
  match point with
  | VList cs | VTuple cs => (length cs =? 2)%nat && forallb is_number cs
  | _ => false
  end.

Definition _validate_points (least : nat) (geometry : gmap string pyval) : result unit :=
  match geometry !! "points" with
  | None => Raise InvalidGeometryError
  | Some (VList points) =>
      if (length points <? least)%nat then Raise InvalidGeometryError
      else if forallb point_ok points then ok
      else Raise InvalidGeometryError
  | Some _ => Raise InvalidGeometryError
  end.

Definition _validate_polyline_geometry := _validate_points 2.
Definition _validate_polygon_geometry := _validate_points 3.

Definition strip (s : string) : string := Color.rstrip (Color.lstrip s).

Definition valid_commands : list ascii :=
  ["M"; "m"; "L"; "l"; "H"; "h"; "V"; "v"; "C"; "c"; "S"; "s"; "Q"; "q";
   "T"; "t"; "A"; "a"; "Z"; "z"]%char.

Definition _validate_path_geometry (geometry : gmap string pyval) : result unit :=
  match geometry !! "path_data" with
  | None => Raise InvalidGeometryError
  | Some (VStr path_data) =>
      match strip path_data with
      | EmptyString => Raise InvalidGeometryError
      | String first_char _ =>
          if existsb (Ascii.eqb first_char) valid_commands then ok
          else Raise InvalidGeometryError
      end
  | Some _ => Raise InvalidGeometryError
  end.

Definition is_str (v : pyval) : bool :=
  match v with VStr _ => true | _ => false end.

Definition _validate_group_geometry (geometry : gmap string pyval) : result unit :=
  match geometry !! "children" with
  | None => Raise InvalidGeometryError
  | Some (VList children) =>
      if forallb is_str children then ok else Raise InvalidGeometryError
  | Some _ => Raise InvalidGeometryError
  end.

(** The [if]/[elif] chain of [Shape.validate_geometry]: one validator per
    shape type, [InvalidGeometryError] for anything else. *)
Definition validate_by_type (shape_type : ShapeType) (geometry : gmap string pyval)
  : result unit :=
  match shape_type with
  | RECTANGLE => _validate_rectangle_geometry geometry
  | CIRCLE => _validate_circle_geometry geometry
  | ELLIPSE => _validate_ellipse_geometry geometry
  | LINE => _validate_line_geometry geometry
  | POLYLINE => _validate_polyline_geometry geometry
  | POLYGON => _validate_polygon_geometry geometry
  | PATH => _validate_path_geometry geometry
  | GROUP => _validate_group_geometry geometry
  | OTHER _ => Raise InvalidGeometryError
  end.

(** [Shape.validate_geometry], the [mode='after'] model validator. *)
Definition validate_geometry (self : Shape) : result Shape :=
  let style := match style self with
               | None => Some StyleProperties_default | st => st end in
  let transform := match transform self with
                   | None => Some Transform_default | t => t end in
  let geometry := geometry self in
  let shape_type := type self in
  do _u <- validate_by_type shape_type geometry;
  Ok {| id := id self; type := shape_type; geometry := geometry;
        style := style; transform := transform; visible := visible self;
        locked := locked self; name := name self |}.

(** [Shape(id=.., type=.., geometry=.., ...)]: pydantic checks that [type]
    is a member of the enumeration, then runs the model validator. *)
Definition Shape_new (id : ID) (type : ShapeType) (geometry : gmap string pyval)
    (style : option StyleProperties) (transform : option Transform)
    (visible locked : bool) (name : option string) : result Shape :=
  match type with
  | OTHER _ => Raise ValidationError
  | _ =>
      validate_geometry
        {| id := id; type := type; geometry := geometry; style := style;
           transform := transform; visible := visible; locked := locked;
           name := name |}
  end.

(** [shape.geometry = g] and [shape.type = t] on a constructed instance.
    The model does not validate assignments: the attribute is stored and no
    validator runs, so no exception can come out. *)
Definition set_geometry (self : Shape) (g : gmap string pyval) : result Shape :=
  Ok {| id := id self; type := type self; geometry := g; style := style self;
        transform := transform self; visible := visible self;
        locked := locked self; name := name self |}.

Definition set_type (self : Shape) (t : ShapeType) : result Shape :=
  Ok {| id := id self; type := t; geometry := geometry self;
        style := style self; transform := transform self;
        visible := visible self; locked := locked self; name := name self |}.

(** [geometry[k]]: [KeyError] when the key is missing. *)
Definition item (k : string) (geometry : gmap string pyval) : result pyval :=
  of_option (geometry !! k) RuntimeError.

(** Arithmetic and comparison of the interpreter on numbers.  A value that
    is not a number raises where it is first read as one; Python raises its
    [TypeError] at the latest at the addition in [get_bounds], so
    [get_bounds] has the same outcome. *)
Definition as_num (v : pyval) : result Q := of_option (num_of v) RuntimeError.

Definition py_neg (v : pyval) : result Q := do q <- as_num v; Ok (- q)%Q.

(** [min(a, b)] gives [a] unless [b < a]; [max(a, b)] gives [a] unless
    [b > a]. *)
Definition min2 (a b : Q) : Q :=
  match Qcompare b a with Lt => b | _ => a end.
Definition max2 (a b : Q) : Q :=
  match Qcompare b a with Gt => b | _ => a end.

Definition py_min (a b : pyval) : result Q :=
  do p <- as_num a; do q <- as_num b; Ok (min2 p q).
Definition py_max (a b : pyval) : result Q :=
  do p <- as_num a; do q <- as_num b; Ok (max2 p q).

(** [min(xs)] and [max(xs)] of a list: [ValueError] when it is empty. *)
Definition min_list (xs : list Q) : result Q :=
  match xs with
  | [] => Raise RuntimeError
  | x0 :: xs' => Ok (fold_left min2 xs' x0)
  end.
Definition max_list (xs : list Q) : result Q :=
  match xs with
  | [] => Raise RuntimeError
  | x0 :: xs' => Ok (fold_left max2 xs' x0)
  end.

(** [v[i]] for [i] in 0, 1. *)
Definition index (i : nat) (v : pyval) : result pyval :=
  match v with
  | VList l | VTuple l => of_option (nth_error l i) RuntimeError
  | _ => Raise RuntimeError
  end.

(** [[point[i] for point in points]], as numbers. *)
Fixpoint column (i : nat) (points : list pyval) : result (list Q) :=
  match points with
  | [] => Ok []
  | point :: rest =>
      do c <- index i point;
      do q <- as_num c;
      do qs <- column i rest;
      Ok (q :: qs)
  end.

Definition items (v : pyval) : result (list pyval) :=
  match v with
  | VList l | VTuple l => Ok l
  | _ => Raise RuntimeError
  end.

Definition bounds : Type := Q * Q * Q * Q.

(** *** Floating point

    A Python [float] is an IEEE 754 double: 53 significant bits, exponents
    down to that of the subnormals, and the two infinities.  The sum of two
    doubles is their exact sum rounded to the nearest double, to the one
    with the even significand when two are equally near, and to an infinity
    from [2 ** 1024 - 2 ** 970] on.  The two zeros are one value here. *)
Inductive float : Type :=
| Finite (q : Q)     (* a finite double, by its value *)
| PosInf
| NegInf.

(** [2 ** e]. *)
Definition pow2 (e : Z) : Q :=
  if (0 <=? e)%Z then inject_Z (2 ^ e) else 1 # Z.to_pos (2 ^ (- e)).

(** The integer nearest to [q], the even one of two equally near. *)
Definition nearest_even (q : Q) : Z :=
  let f := Qfloor q in
  match Qcompare (q - inject_Z f) (1 # 2) with
  | Lt => f
  | Gt => (f + 1)%Z
  | Eq => if Z.even f then f else (f + 1)%Z
  end.

(** [floor (log2 q)] for [q > 0]. *)
Definition ilog2 (q : Q) : Z :=
  let e := (Z.log2 (Qnum q) - Z.log2 (Zpos (Qden q)))%Z in
  if Qle_bool (pow2 e) q then e else (e - 1)%Z.

(** The double nearest to [q].  The spacing of the doubles around [q] is
    [2 ** k], with [k] 52 below the exponent of [q] and never below
    [-1074]. *)
Definition round_double (q : Q) : float :=
  if Qeq_bool q 0 then Finite 0
  else
    let a := Qabs q in
    let k := Z.max (ilog2 a - 52) (-1074) in
    let r := Qred (inject_Z (nearest_even (a / pow2 k)) * pow2 k) in
    if Qle_bool (pow2 1024) r
    then (if Qle_bool 0 q then PosInf else NegInf)
    else Finite (if Qle_bool 0 q then r else Qred (- r)).

(** [float(v)], the conversion of the left operand of [v + t] when [t] is a
    float.  It leaves a float as it is, rounds an int that is no double
    and raises [OverflowError] for an int too large for a double. *)
Definition to_double (q : Q) : result Q :=
  match round_double q with
  | Finite d => Ok d
  | PosInf | NegInf => Raise OverflowError
  end.

(** [a + t] for a number [a] and a float [t]. *)
Definition float_add (a t : Q) : result float :=
  do a' <- to_double a;
  do t' <- to_double t;
  Ok (round_double (a' + t')).

Definition fbounds : Type := float * float * float * float.

(** [Shape._calculate_base_bounds]. *)
Definition _calculate_base_bounds (self : Shape) : result (option bounds) :=
  let geometry := geometry self in
  match type self with
  | RECTANGLE =>
      do width <- item "width" geometry;
      do height <- item "height" geometry;
      do w <- as_num width;
      do h <- as_num height;
      Ok (Some (0, 0, w, h)%Q)
  | CIRCLE =>
      do radius <- item "radius" geometry;
      do nr <- py_neg radius;
      do r <- as_num radius;
      Ok (Some (nr, nr, r, r))
  | ELLIPSE =>
      do rx <- item "rx" geometry;
      do ry <- item "ry" geometry;
      do nrx <- py_neg rx;
      do nry <- py_neg ry;
      do qrx <- as_num rx;
      do qry <- as_num ry;
      Ok (Some (nrx, nry, qrx, qry))
  | LINE =>
      do x1 <- item "x1" geometry;
      do y1 <- item "y1" geometry;
      do x2 <- item "x2" geometry;
      do y2 <- item "y2" geometry;
      do min_x <- py_min x1 x2;
      do max_x <- py_max x1 x2;
      do min_y <- py_min y1 y2;
      do max_y <- py_max y1 y2;
      Ok (Some (min_x, min_y, max_x, max_y))
  | POLYLINE | POLYGON =>
      do points <- item "points" geometry;
      if negb (truthy points) then Ok None
      else
        do ps <- items points;
        do xs <- column 0 ps;
        do ys <- column 1 ps;
        do min_x <- min_list xs;
        do min_y <- min_list ys;
        do max_x <- max_list xs;
        do max_y <- max_list ys;
        Ok (Some (min_x, min_y, max_x, max_y))
  | _ => Ok None
  end.

(** [Shape.get_bounds]. *)
Definition get_bounds (self : Shape) : result (option fbounds) :=
  let transform := match transform self with
                   | Some t => t | None => Transform_default end in
  do base_bounds <- _calculate_base_bounds self;
  match base_bounds with
  | None => Ok None
  | Some (min_x, min_y, max_x, max_y) =>
      do min_x <- float_add min_x (x transform);
      do min_y <- float_add min_y (y transform);
      do max_x <- float_add max_x (x transform);
      do max_y <- float_add max_y (y transform);
      Ok (Some (min_x, min_y, max_x, max_y))
  end.

(** *** Readings of a geometry and of a transform *)

(** The points of a validated polyline or polygon, as pairs of numbers. *)
Definition point_xy (point : pyval) : option (Q * Q) :=
  match point with
  | VList [cx; cy] | VTuple [cx; cy] =>
      match num_of cx, num_of cy with
      | Some px, Some py => Some (px, py)
      | _, _ => None
      end
  | _ => None
  end.

Fixpoint points_xy (points : list pyval) : option (list (Q * Q)) :=
  match points with
  | [] => Some []
  | p :: rest =>
      match point_xy p, points_xy rest with
      | Some xy, Some xys => Some (xy :: xys)
      | _, _ => None
      end
  end.

(** A number stored under a key. *)
Definition num_at (k : string) (geometry : gmap string pyval) : option Q :=
  match geometry !! k with Some v => num_of v | None => None end.

(** The offset by which a shape is placed. *)
Definition offset (self : Shape) : Q * Q :=
  match transform self with
  | Some t => (x t, y t)
  | None => (0, 0)%Q
  end.

(** A box moved by [(tx, ty)], in the arithmetic of floats. *)
Definition translate (tx ty : Q) (bx : bounds) : result fbounds :=
  match bx with
  | (x0, y0, x1, y1) =>
      do a <- float_add x0 tx;
      do b <- float_add y0 ty;
      do c <- float_add x1 tx;
      do d <- float_add y1 ty;
      Ok (a, b, c, d)
  end.

(** The same for a box that may be missing. *)
Definition translated (tx ty : Q) (bx : option bounds) : result (option fbounds) :=
  match bx with
  | None => Ok None
  | Some b => do b' <- translate tx ty b; Ok (Some b')
  end.

End Shape.

(** ** document.py — canvas *)

Module Document.

(** [Units]; [UNKNOWN] is a value outside the enumeration, which only an
    assignment can put into the field. *)
Inductive Units : Type :=
| PIXELS | MILLIMETERS | INCHES | POINTS | CENTIMETERS
| UNKNOWN (v : string).

Record CanvasSize := { width : Q; height : Q; units : Units }.

(** [CanvasSize(width=.., height=.., units=..)]: both sizes [> 0] and the
    unit a member of the enumeration. *)
Definition CanvasSize_new (width height : Q) (units : Units) : result CanvasSize :=
  match units with
  | UNKNOWN _ => Raise ValidationError
  | _ =>
      if negb (Qle_bool width 0) && negb (Qle_bool height 0)
      then Ok {| width := width; height := height; units := units |}
      else Raise ValidationError
  end.

(** [canvas.units = u] on a constructed instance (not validated). *)
Definition set_units (self : CanvasSize) (u : Units) : CanvasSize :=
  {| width := width self; height := height self; units := u |}.

(** [CanvasSize.to_pixels]. *)
Definition to_pixels (self : CanvasSize) (dpi : Q) : Q * Q :=
  match units self with
  | PIXELS => (width self, height self)
  | INCHES => (width self * dpi, height self * dpi)%Q
  | MILLIMETERS =>
      let inches_width := (width self / 25.4)%Q in
      let inches_height := (height self / 25.4)%Q in
      (inches_width * dpi, inches_height * dpi)%Q
  | CENTIMETERS =>
      let inches_width := (width self / 2.54)%Q in
      let inches_height := (height self / 2.54)%Q in
      (inches_width * dpi, inches_height * dpi)%Q
  | POINTS =>
      let inches_width := (width self / 72)%Q in
      let inches_height := (height self / 72)%Q in
      (inches_width * dpi, inches_height * dpi)%Q
  | UNKNOWN _ => (width self, height self)
  end.

(** The default [dpi=96.0]. *)
Definition default_dpi : Q := 96.

End Document.

(** ** [==] on the models *)

Module PyEq.

Definition option_eqb {A} (eqb : A -> A -> bool) (x y : option A) : bool :=
  match x, y with
  | Some a, Some b => eqb a b
  | None, None => true
  | _, _ => false
  end.

Fixpoint list_eqb {A} (eqb : A -> A -> bool) (l m : list A) : bool :=
  match l, m with
  | [], [] => true
  | a :: l', b :: m' => eqb a b && list_eqb eqb l' m'
  | _, _ => false
  end.

(** [==] on geometry values: numbers by value across [bool], [int] and
    [float]; a list never equals a tuple. *)
Fixpoint pyval_eqb (v w : Shape.pyval) : bool :=
  match v, w with
  | Shape.VNone, Shape.VNone => true
  | Shape.VStr s, Shape.VStr t => String.eqb s t
  | Shape.VList l, Shape.VList m
  | Shape.VTuple l, Shape.VTuple m =>
      (fix go (l m : list Shape.pyval) : bool :=
         match l, m with
         | [], [] => true
         | a :: l', b :: m' => pyval_eqb a b && go l' m'
         | _, _ => false
         end) l m
  | _, _ =>
      match Shape.num_of v, Shape.num_of w with
      | Some p, Some q => Qeq_bool p q
      | _, _ => false
      end
  end.

(** [==] on dictionaries: the same keys with equal values. *)
Definition dict_eqb (d e : gmap string Shape.pyval) : bool :=
  let sub (d e : gmap string Shape.pyval) :=
    forallb (fun kv => match e !! kv.1 with
                       | Some w => pyval_eqb kv.2 w
                       | None => false
                       end) (map_to_list d) in
  sub d e && (size d =? size e)%nat.

Definition RGBColor_eqb (c d : Color.RGBColor) : bool :=
  (Color.rgb_r c =? Color.rgb_r d) && (Color.rgb_g c =? Color.rgb_g d)
  && (Color.rgb_b c =? Color.rgb_b d).

Definition RGBAColor_eqb (c d : Color.RGBAColor) : bool :=
  (Color.r c =? Color.r d) && (Color.g c =? Color.g d)
  && (Color.b c =? Color.b d) && Qeq_bool (Color.a c) (Color.a d).

Definition Color_eqb (c d : Style.Color) : bool :=
  match c, d with
  | Style.CRGB c, Style.CRGB d => RGBColor_eqb c d
  | Style.CRGBA c, Style.CRGBA d => RGBAColor_eqb c d
  | Style.CHSL c, Style.CHSL d =>
      Qeq_bool (Style.h c) (Style.h d) && Qeq_bool (Style.s c) (Style.s d)
      && Qeq_bool (Style.l c) (Style.l d)
  | Style.CHex c, Style.CHex d => String.eqb (Color.value c) (Color.value d)
  | _, _ => false
  end.

Definition GradientStop_eqb (s t : Style.GradientStop) : bool :=
  Qeq_bool (Style.position s) (Style.position t)
  && Color_eqb (Style.color s) (Style.color t).

Definition LinearGradient_eqb (g k : Style.LinearGradient) : bool :=
  String.eqb (Style.lg_id g) (Style.lg_id k)
  && Qeq_bool (Style.start_x g) (Style.start_x k)
  && Qeq_bool (Style.start_y g) (Style.start_y k)
  && Qeq_bool (Style.end_x g) (Style.end_x k)
  && Qeq_bool (Style.end_y g) (Style.end_y k)
  && list_eqb GradientStop_eqb (Style.lg_stops g) (Style.lg_stops k).

Definition RadialGradient_eqb (g k : Style.RadialGradient) : bool :=
  String.eqb (Style.rg_id g) (Style.rg_id k)
  && Qeq_bool (Style.center_x g) (Style.center_x k)
  && Qeq_bool (Style.center_y g) (Style.center_y k)
  && Qeq_bool (Style.radius g) (Style.radius k)
  && list_eqb GradientStop_eqb (Style.rg_stops g) (Style.rg_stops k).

Definition PatternFill_eqb (p q : Style.PatternFill) : bool :=
  String.eqb (Style.pf_id p) (Style.pf_id q)
  && String.eqb (Style.image_data p) (Style.image_data q)
  && Qeq_bool (Style.pf_width p) (Style.pf_width q)
  && Qeq_bool (Style.pf_height p) (Style.pf_height q)
  && Bool.eqb (Style.repeat_x p) (Style.repeat_x q)
  && Bool.eqb (Style.repeat_y p) (Style.repeat_y q).

Definition FillProperties_eqb (f k : Style.FillProperties) : bool :=
  Style.FillType_eqb (Style.type f) (Style.type k)
  && option_eqb Color_eqb (Style.fill_color f) (Style.fill_color k)
  && option_eqb LinearGradient_eqb (Style.linear_gradient f) (Style.linear_gradient k)
  && option_eqb RadialGradient_eqb (Style.radial_gradient f) (Style.radial_gradient k)
  && option_eqb PatternFill_eqb (Style.pattern f) (Style.pattern k)
  && Qeq_bool (Style.opacity f) (Style.opacity k).

Definition StyleProperties_eqb (s t : Shape.StyleProperties) : bool :=
  option_eqb FillProperties_eqb (Shape.fill s) (Shape.fill t).

Definition Transform_eqb (t u : Shape.Transform) : bool :=
  Qeq_bool (Shape.x t) (Shape.x u) && Qeq_bool (Shape.y t) (Shape.y u)
  && Qeq_bool (Shape.rotation t) (Shape.rotation u)
  && Qeq_bool (Shape.scale_x t) (Shape.scale_x u)
  && Qeq_bool (Shape.scale_y t) (Shape.scale_y u)
  && Qeq_bool (Shape.skew_x t) (Shape.skew_x u)
  && Qeq_bool (Shape.skew_y t) (Shape.skew_y u).

Definition ShapeType_eqb (t u : Shape.ShapeType) : bool :=
  match t, u with
  | Shape.RECTANGLE, Shape.RECTANGLE | Shape.CIRCLE, Shape.CIRCLE
  | Shape.ELLIPSE, Shape.ELLIPSE | Shape.LINE, Shape.LINE
  | Shape.POLYLINE, Shape.POLYLINE | Shape.POLYGON, Shape.POLYGON
  | Shape.PATH, Shape.PATH | Shape.GROUP, Shape.GROUP => true
  | Shape.OTHER v, Shape.OTHER w => String.eqb v w
  | _, _ => false
  end.

(** [==] of two [Shape] instances: pydantic compares them field by field. *)
Definition Shape_eqb (s t : Shape.Shape) : bool :=
  String.eqb (Shape.id s) (Shape.id t)
  && ShapeType_eqb (Shape.type s) (Shape.type t)
  && dict_eqb (Shape.geometry s) (Shape.geometry t)
  && option_eqb StyleProperties_eqb (Shape.style s) (Shape.style t)
  && option_eqb Transform_eqb (Shape.transform s) (Shape.transform t)
  && Bool.eqb (Shape.visible s) (Shape.visible t)
  && Bool.eqb (Shape.locked s) (Shape.locked t)
  && option_eqb String.eqb (Shape.name s) (Shape.name t).

End PyEq.

(** ** layers.py — lists of entries *)

Module PyList.
Section Ops.
Context {A : Type}.

(** The first position whose entry satisfies [p]: the search done by
    [list.index], [list.remove], [in] and the [enumerate] loops. *)
Fixpoint find_index (p : A -> bool) (l : list A) : option nat :=
  match l with
  | [] => None
  | y :: l' => if p y then Some O else S <$> find_index p l'
  end.

(** [x in l]. *)
Definition contains (p : A -> bool) (l : list A) : bool :=
  match find_index p l with Some _ => true | None => false end.

(** [l.pop(i)] for [0 <= i < len(l)]: the entry and the rest. *)
Definition pop (i : nat) (l : list A) : option (A * list A) :=
  match l !! i with
  | Some y => Some (y, delete i l)
  | None => None
  end.

(** [l.insert(i, y)] for [0 <= i]; past the end it appends. *)
Definition insert_at (i : nat) (y : A) (l : list A) : list A :=
  take i l ++ y :: drop i l.

(** [max(0, min(new_index, n))]. *)
Definition clamp (new_index : Z) (n : nat) : nat :=
  Z.to_nat (Z.max 0 (Z.min new_index (Z.of_nat n))).

(** The body shared by [Layer.move_shape] and the two arms of
    [LayerGroup.move_child]: find, pop, clamp, insert; [False] when the
    search fails. *)
Definition move (p : A -> bool) (new_index : Z) (l : list A) : bool * list A :=
  match find_index p l with
  | None => (false, l)
  | Some current_index =>
      match pop current_index l with
      | None => (false, l)
      | Some (obj, rest) =>
          let new_index := clamp new_index (length rest) in
          (true, insert_at new_index obj rest)
      end
  end.

(** [l.remove(x)] and the pop-by-id loop: drop the first match. *)
Definition remove (p : A -> bool) (l : list A) : option (A * list A) :=
  match find_index p l with
  | None => None
  | Some i => pop i l
  end.
End Ops.
End PyList.

(** ** layers.py — layers, groups and the manager *)

Module Layers.

Definition ID := string.

Inductive BlendMode : Type :=
| NORMAL | MULTIPLY | SCREEN | OVERLAY | DARKEN | LIGHTEN | COLOR_DODGE
| COLOR_BURN | HARD_LIGHT | SOFT_LIGHT | DIFFERENCE | EXCLUSION.

(** An entry of [Layer.shapes]: [Union[ID, Shape]]. *)
Inductive shape_ref : Type :=
| ShapeId (id : ID)
| ShapeObj (s : Shape.Shape).

(** [==] on entries; a string never equals a model instance. *)
Definition shape_ref_eqb (u v : shape_ref) : bool :=
  match u, v with
  | ShapeId i, ShapeId j => String.eqb i j
  | ShapeObj s, ShapeObj t => PyEq.Shape_eqb s t
  | _, _ => false
  end.

Record Layer := {
  id : ID;
  name : string;
  shapes : list shape_ref;
  z_index : Z;
  visible : bool;
  locked : bool;
  opacity : Q;
  blend_mode : BlendMode;
  parent_id : option ID;
  metadata : gmap string Shape.pyval
}.

Definition with_shapes (self : Layer) (l : list shape_ref) : Layer :=
  {| id := id self; name := name self; shapes := l; z_index := z_index self;
     visible := visible self; locked := locked self; opacity := opacity self;
     blend_mode := blend_mode self; parent_id := parent_id self;
     metadata := metadata self |}.

Definition with_parent (self : Layer) (p : option ID) : Layer :=
  {| id := id self; name := name self; shapes := shapes self;
     z_index := z_index self; visible := visible self; locked := locked self;
     opacity := opacity self; blend_mode := blend_mode self; parent_id := p;
     metadata := metadata self |}.

(** [Layer(name=name)] with the identifier that [generate_id] drew. *)
Definition Layer_new (new_id : ID) (name : string) : Layer :=
  {| id := new_id; name := name; shapes := []; z_index := 0; visible := true;
     locked := false; opacity := 1; blend_mode := NORMAL; parent_id := None;
     metadata := ∅ |}.

(** [Layer.add_shape]. *)
Definition add_shape (self : Layer) (shape : shape_ref) : Layer :=
  if negb (PyList.contains (fun e => shape_ref_eqb e shape) (shapes self))
  then with_shapes self (shapes self ++ [shape])
  else self.

(** [Layer.remove_shape]. *)
Definition remove_shape (self : Layer) (shape : shape_ref) : bool * Layer :=
  match PyList.remove (fun e => shape_ref_eqb e shape) (shapes self) with
  | Some (_, rest) => (true, with_shapes self rest)
  | None => (false, self)
  end.

(** [Layer.move_shape]. *)
Definition move_shape (self : Layer) (shape : shape_ref) (new_index : Z)
  : bool * Layer :=
  let (found, l) :=
    PyList.move (fun e => shape_ref_eqb e shape) new_index (shapes self) in
  (found, if found then with_shapes self l else self).

(** The fields of a [LayerGroup] other than its children. *)
Record GroupFields := {
  g_id : ID;
  g_name : string;
  g_z_index : Z;
  g_visible : bool;
  g_locked : bool;
  g_expanded : bool;
  g_opacity : Q;
  g_blend_mode : BlendMode;
  g_parent_id : option ID;
  g_metadata : gmap string Shape.pyval
}.

(** [LayerGroup]: [children: List[Union['LayerGroup', Layer]]]. *)
#[local] Set Warnings "-register-all".
Inductive LayerGroup : Type :=
| Group (fields : GroupFields) (children : list (Layer + LayerGroup)).

Definition child : Type := (Layer + LayerGroup)%type.

Definition fields (g : LayerGroup) : GroupFields :=
  match g with Group f _ => f end.
Definition children (g : LayerGroup) : list child :=
  match g with Group _ cs => cs end.
Definition group_id (g : LayerGroup) : ID := g_id (fields g).
Definition group_parent_id (g : LayerGroup) : option ID := g_parent_id (fields g).

Definition with_children (g : LayerGroup) (cs : list child) : LayerGroup :=
  Group (fields g) cs.

Definition fields_with_parent (f : GroupFields) (p : option ID) : GroupFields :=
  {| g_id := g_id f; g_name := g_name f; g_z_index := g_z_index f;
     g_visible := g_visible f; g_locked := g_locked f;
     g_expanded := g_expanded f; g_opacity := g_opacity f;
     g_blend_mode := g_blend_mode f; g_parent_id := p;
     g_metadata := g_metadata f |}.

(** [LayerGroup(name=name)] with the identifier that [generate_id] drew. *)
Definition LayerGroup_new (new_id : ID) (name : string) : LayerGroup :=
  Group {| g_id := new_id; g_name := name; g_z_index := 0; g_visible := true;
           g_locked := false; g_expanded := true; g_opacity := 1;
           g_blend_mode := NORMAL; g_parent_id := None; g_metadata := ∅ |} [].

(** [child.id] and [child.parent_id = p] on either kind of child. *)
Definition child_id (c : child) : ID :=
  match c with inl l => id l | inr g => group_id g end.
Definition child_parent_id (c : child) : option ID :=
  match c with inl l => parent_id l | inr g => group_parent_id g end.
Definition child_set_parent (c : child) (p : option ID) : child :=
  match c with
  | inl l => inl (with_parent l p)
  | inr (Group f cs) => inr (Group (fields_with_parent f p) cs)
  end.

(** [==] on layers and groups, field by field. *)
Definition blend_code (m : BlendMode) : nat :=
  match m with
  | NORMAL => 0 | MULTIPLY => 1 | SCREEN => 2 | OVERLAY => 3 | DARKEN => 4
  | LIGHTEN => 5 | COLOR_DODGE => 6 | COLOR_BURN => 7 | HARD_LIGHT => 8
  | SOFT_LIGHT => 9 | DIFFERENCE => 10 | EXCLUSION => 11
  end%nat.
Definition BlendMode_eqb (m n : BlendMode) : bool :=
  (blend_code m =? blend_code n)%nat.

Definition Layer_eqb (k l : Layer) : bool :=
  String.eqb (id k) (id l) && String.eqb (name k) (name l)
  && PyEq.list_eqb shape_ref_eqb (shapes k) (shapes l)
  && (z_index k =? z_index l) && Bool.eqb (visible k) (visible l)
  && Bool.eqb (locked k) (locked l) && Qeq_bool (opacity k) (opacity l)
  && BlendMode_eqb (blend_mode k) (blend_mode l)
  && PyEq.option_eqb String.eqb (parent_id k) (parent_id l)
  && PyEq.dict_eqb (metadata k) (metadata l).

Definition GroupFields_eqb (f h : GroupFields) : bool :=
  String.eqb (g_id f) (g_id h) && String.eqb (g_name f) (g_name h)
  && (g_z_index f =? g_z_index h) && Bool.eqb (g_visible f) (g_visible h)
  && Bool.eqb (g_locked f) (g_locked h)
  && Bool.eqb (g_expanded f) (g_expanded h)
  && Qeq_bool (g_opacity f) (g_opacity h)
  && BlendMode_eqb (g_blend_mode f) (g_blend_mode h)
  && PyEq.option_eqb String.eqb (g_parent_id f) (g_parent_id h)
  && PyEq.dict_eqb (g_metadata f) (g_metadata h).

Fixpoint LayerGroup_eqb (g h : LayerGroup) : bool :=
  match g, h with
  | Group f cs, Group f' cs' =>
      GroupFields_eqb f f'
      && (fix go (cs cs' : list child) : bool :=
            match cs, cs' with
            | [], [] => true
            | inl k :: r, inl l :: r' => Layer_eqb k l && go r r'
            | inr a :: r, inr b :: r' => LayerGroup_eqb a b && go r r'
            | _, _ => false
            end) cs cs'
  end.

Definition child_eqb (c d : child) : bool :=
  match c, d with
  | inl k, inl l => Layer_eqb k l
  | inr g, inr h => LayerGroup_eqb g h
  | _, _ => false
  end.

(** The argument of [remove_child] and [move_child]: an ID string or a child
    object ([isinstance(child, str)] tells them apart). *)
Inductive child_arg : Type :=
| ChildId (i : ID)
| ChildObj (c : child).

(** The test each arm searches with: [existing_child.id == child] for an ID,
    [==] on the objects otherwise. *)
Definition matches (a : child_arg) (c : child) : bool :=
  match a with
  | ChildId i => String.eqb (child_id c) i
  | ChildObj o => child_eqb c o
  end.

(** [LayerGroup.add_child]. *)
Definition add_child (self : LayerGroup) (c : child) : LayerGroup :=
  let c := child_set_parent c (Some (group_id self)) in
  with_children self (children self ++ [c]).

(** [LayerGroup.remove_child]: the result, the group afterwards, and the
    object whose [parent_id] was cleared (the child popped in the ID arm,
    the argument in the object arm). *)
Definition remove_child (self : LayerGroup) (a : child_arg)
  : bool * LayerGroup * option child :=
  match PyList.remove (matches a) (children self) with
  | Some (removed_child, rest) =>
      (true, with_children self rest,
       Some (child_set_parent
               (match a with ChildId _ => removed_child | ChildObj c => c end)
               None))
  | None => (false, self, None)
  end.

(** [LayerGroup.move_child]; its two arms run the same steps. *)
Definition move_child (self : LayerGroup) (a : child_arg) (new_index : Z)
  : bool * LayerGroup :=
  let (found, cs) := PyList.move (matches a) new_index (children self) in
  (found, if found then with_children self cs else self).

(** [LayerGroup.get_all_layers]. *)
Fixpoint get_all_layers (recursive : bool) (self : LayerGroup) : list Layer :=
  match self with
  | Group _ cs =>
      (fix walk (cs : list child) : list Layer :=
         match cs with
         | [] => []
         | inl l :: rest => l :: walk rest
         | inr g :: rest =>
             (if recursive then get_all_layers true g else []) ++ walk rest
         end) cs
  end.

(** [LayerGroup.find_layer_by_id]. *)
Fixpoint find_layer_by_id (layer_id : ID) (recursive : bool) (self : LayerGroup)
  : option Layer :=
  match self with
  | Group _ cs =>
      (fix walk (cs : list child) : option Layer :=
         match cs with
         | [] => None
         | inl l :: rest =>
             if String.eqb (id l) layer_id then Some l else walk rest
         | inr g :: rest =>
             if recursive then
               match find_layer_by_id layer_id true g with
               | Some found => Some found
               | None => walk rest
               end
             else walk rest
         end) cs
  end.

(** [LayerGroup.find_group_by_id]. *)
Fixpoint find_group_by_id (group_id' : ID) (recursive : bool) (self : LayerGroup)
  : option LayerGroup :=
  match self with
  | Group f cs =>
      if String.eqb (g_id f) group_id' then Some self
      else
        (fix walk (cs : list child) : option LayerGroup :=
           match cs with
           | [] => None
           | inl _ :: rest => walk rest
           | inr g :: rest =>
               if String.eqb (group_id g) group_id' then Some g
               else if recursive then
                 match find_group_by_id group_id' true g with
                 | Some found => Some found
                 | None => walk rest
                 end
               else walk rest
           end) cs
  end.

(** A group object inside a tree is named by the way to it from the root:
    the positions of the children to go through. *)
Definition path : Type := list nat.

(** [LayerManager._find_parent_group]: the first group, in the order of the
    search, that has a direct child with the identifier. *)
Fixpoint search_group (child_id' : ID) (group : LayerGroup) : option path :=
  match group with
  | Group _ cs =>
      (fix walk (i : nat) (cs : list child) : option path :=
         match cs with
         | [] => None
         | c :: rest =>
             if String.eqb (child_id c) child_id' then Some []
             else
               match c with
               | inr g =>
                   match search_group child_id' g with
                   | Some p => Some (i :: p)
                   | None => walk (S i) rest
                   end
               | inl _ => walk (S i) rest
               end
         end) O cs
  end.

(** The group at the end of a path. *)
Fixpoint group_at (p : path) (g : LayerGroup) : option LayerGroup :=
  match p with
  | [] => Some g
  | i :: p' =>
      match children g !! i with
      | Some (inr sub) => group_at p' sub
      | _ => None
      end
  end.

(** Run a method on the group at the end of a path, in place. *)
Fixpoint at_path {R : Type} (p : path) (f : LayerGroup -> R * LayerGroup)
    (g : LayerGroup) : option (R * LayerGroup) :=
  match p with
  | [] => Some (f g)
  | i :: p' =>
      match children g !! i with
      | Some (inr sub) =>
          match at_path p' f sub with
          | Some (res, sub') =>
              Some (res, with_children g (<[i := inr sub']> (children g)))
          | None => None
          end
      | _ => None
      end
  end.

Record LayerManager := {
  root_group : LayerGroup;
  active_layer_id : option ID
}.

(** [LayerManager()], with the identifier drawn for the root group. *)
Definition LayerManager_new (root_id : ID) : LayerManager :=
  {| root_group := LayerGroup_new root_id "Root"; active_layer_id := None |}.

(** The [parent_group] argument of [create_layer] and [create_group]: left
    out, a group of the manager's tree, or a group object that is not part of
    the tree. *)
Inductive group_arg : Type :=
| NoGroup
| TreeGroup (p : path)
| OtherGroup (g : LayerGroup).

(** [target_group.add_child(c)] for [target_group = parent_group or
    self.root_group]: the tree afterwards. *)
Definition add_to_target (root : LayerGroup) (parent_group : group_arg) (c : child)
  : LayerGroup :=
  match parent_group with
  | NoGroup => add_child root c
  | TreeGroup p =>
      match at_path p (fun g => (tt, add_child g c)) root with
      | Some (_, root') => root'
      | None => root
      end
  | OtherGroup _ => root
  end.

(** [LayerManager.create_layer]. *)
Definition create_layer (self : LayerManager) (new_id : ID) (name : string)
    (parent_group : group_arg) : LayerManager :=
  let layer := Layer_new new_id name in
  let root := add_to_target (root_group self) parent_group (inl layer) in
  {| root_group := root;
     active_layer_id := match active_layer_id self with
                        | None => Some (id layer)
                        | Some a => Some a
                        end |}.

(** [LayerManager.create_group]. *)
Definition create_group (self : LayerManager) (new_id : ID) (name : string)
    (parent_group : group_arg) : LayerManager :=
  let group := LayerGroup_new new_id name in
  {| root_group := add_to_target (root_group self) parent_group (inr group);
     active_layer_id := active_layer_id self |}.

(** [parent.remove_child(child_id)] on the group that [_find_parent_group]
    returned. *)
Definition remove_from_parent (root : LayerGroup) (p : path) (child_id' : ID)
  : option (bool * LayerGroup) :=
  at_path p (fun g => let '(success, g', _) := remove_child g (ChildId child_id') in
                      (success, g')) root.

(** [LayerManager.delete_layer]. *)
Definition delete_layer (self : LayerManager) (layer_id : ID) : bool * LayerManager :=
  match find_layer_by_id layer_id true (root_group self) with
  | None => (false, self)
  | Some _ =>
      match search_group layer_id (root_group self) with
      | Some parent =>
          match remove_from_parent (root_group self) parent layer_id with
          | Some (success, root') =>
              (success,
               {| root_group := root';
                  active_layer_id :=
                    if PyEq.option_eqb String.eqb
                         (active_layer_id self) (Some layer_id)
                    then None else active_layer_id self |})
          | None => (false, self)
          end
      | None => (false, self)
      end
  end.

(** [LayerManager.delete_group]. *)
Definition delete_group (self : LayerManager) (group_id' : ID) : bool * LayerManager :=
  if String.eqb group_id' (group_id (root_group self)) then (false, self)
  else
    match find_group_by_id group_id' true (root_group self) with
    | None => (false, self)
    | Some _ =>
        match search_group group_id' (root_group self) with
        | Some parent =>
            match remove_from_parent (root_group self) parent group_id' with
            | Some (success, root') =>
                (success,
                 {| root_group := root';
                    active_layer_id := active_layer_id self |})
            | None => (false, self)
            end
        | None => (false, self)
        end
    end.

(** [LayerManager.set_active_layer]. *)
Definition set_active_layer (self : LayerManager) (layer_id : ID)
  : bool * LayerManager :=
  match find_layer_by_id layer_id true (root_group self) with
  | Some _ =>
      (true, {| root_group := root_group self;
                active_layer_id := Some layer_id |})
  | None => (false, self)
  end.

(** *** Sequences of operations *)

(** The public operations, to speak of the states a manager can reach. *)
Inductive op : Type :=
| CreateLayer (new_id : ID) (name : string) (parent_group : group_arg)
| CreateGroup (new_id : ID) (name : string) (parent_group : group_arg)
| DeleteLayer (layer_id : ID)
| DeleteGroup (group_id' : ID)
| SetActiveLayer (layer_id : ID).

Definition step (m : LayerManager) (o : op) : LayerManager :=
  match o with
  | CreateLayer i n pg => create_layer m i n pg
  | CreateGroup i n pg => create_group m i n pg
  | DeleteLayer i => (delete_layer m i).2
  | DeleteGroup i => (delete_group m i).2
  | SetActiveLayer i => (set_active_layer m i).2
  end.

Definition run (m : LayerManager) (ops : list op) : LayerManager :=
  fold_left step ops m.

(** The active layer, when there is one, is a layer of the tree. *)
Definition active_reachable (m : LayerManager) : bool :=
  match active_layer_id m with
  | None => true
  | Some a =>
      match find_layer_by_id a true (root_group m) with
      | Some _ => true
      | None => false
      end
  end.

End Layers.

(** ** layers.py — children as shared objects

    [add_child] and [remove_child] write into the child object as well as
    into the group, and nothing keeps a caller from handing one child object
    to several groups, or from keeping an object that is equal to a child
    without being it.  Here the objects live in a store and are named by
    their place in it, as [id(obj)] names them in the interpreter: a
    children list holds names, and a write through one name shows through
    every other. *)

Module Objects.

Definition ID := string.
Definition ref := nat.

(** A layer, or a group with the names of its children. *)
Inductive obj : Type :=
| LayerObj (l : Layers.Layer)
| GroupObj (f : Layers.GroupFields) (children : list ref).

Definition obj_id (o : obj) : ID :=
  match o with
  | LayerObj l => Layers.id l
  | GroupObj f _ => Layers.g_id f
  end.

Definition parent_id (o : obj) : option ID :=
  match o with
  | LayerObj l => Layers.parent_id l
  | GroupObj f _ => Layers.g_parent_id f
  end.

Definition children (o : obj) : list ref :=
  match o with
  | LayerObj _ => []
  | GroupObj _ cs => cs
  end.

(** [o.parent_id = p] and a change of [o.children] in place. *)
Definition set_parent (p : option ID) (o : obj) : obj :=
  match o with
  | LayerObj l => LayerObj (Layers.with_parent l p)
  | GroupObj f cs => GroupObj (Layers.fields_with_parent f p) cs
  end.

Definition set_children (h : list ref -> list ref) (o : obj) : obj :=
  match o with
  | LayerObj l => LayerObj l
  | GroupObj f cs => GroupObj f (h cs)
  end.

Definition id_of (σ : gmap ref obj) (r : ref) : option ID := obj_id <$> σ !! r.

Definition children_of (σ : gmap ref obj) (g : ref) : list ref :=
  match σ !! g with
  | Some o => children o
  | None => []
  end.

Definition parent_of (σ : gmap ref obj) (c : ref) : option ID :=
  match σ !! c with
  | Some o => parent_id o
  | None => None
  end.

(** [a == b] on two objects of the gmap ref obj.  pydantic compares the classes
    and then the fields, in the order of their declaration, and stops at the
    first that differ: [id] and [name] come first in both classes, and for a
    group [children] comes next.  Two lists are equal when they are equally
    long and their entries are pairwise the same object or [==].  The
    comparison of children nests, and the interpreter gives up with
    [RecursionError], a [RuntimeError], when it nests too deep: [fuel] is
    the depth it allows. *)
Fixpoint eqb (fuel : nat) (σ : gmap ref obj) (a b : ref) : result bool :=
  match fuel with
  | O => Raise RuntimeError
  | S fuel' =>
      match σ !! a, σ !! b with
      | Some (LayerObj k), Some (LayerObj l) => Ok (Layers.Layer_eqb k l)
      | Some (GroupObj f cs), Some (GroupObj h ds) =>
          if negb (String.eqb (Layers.g_id f) (Layers.g_id h)) then Ok false
          else if negb (String.eqb (Layers.g_name f) (Layers.g_name h)) then Ok false
          else if negb (length cs =? length ds)%nat then Ok false
          else
            do same <- (fix walk (cs ds : list ref) : result bool :=
                          match cs, ds with
                          | c :: cs', d :: ds' =>
                              if (c =? d)%nat then walk cs' ds'
                              else
                                do e <- eqb fuel' σ c d;
                                if e then walk cs' ds' else Ok false
                          | _, _ => Ok true
                          end) cs ds;
            Ok (same && Layers.GroupFields_eqb f h)
      | _, _ => Ok false
      end
  end.

(** [LayerGroup.add_child]. *)
Definition add_child (self child : ref) (σ : gmap ref obj) : gmap ref obj :=
  match σ !! self with
  | Some o =>
      let σ := alter (set_parent (Some (obj_id o))) child σ in
      alter (set_children (fun cs => cs ++ [child])) self σ
  | None => σ
  end.

(** The argument of [remove_child]: an ID string or a child object. *)
Inductive child_arg : Type :=
| ChildId (i : ID)
| ChildObj (x : ref).

(** [existing_child.id == child], the test of the loop of the ID arm. *)
Definition has_id (σ : gmap ref obj) (i : ID) (c : ref) : bool :=
  match σ !! c with
  | Some o => String.eqb (obj_id o) i
  | None => false
  end.

(** The search of [self.children.remove(child)]: the first entry that is
    the object [child] or is [==] to it. *)
Fixpoint index_of (fuel : nat) (σ : gmap ref obj) (child : ref) (cs : list ref)
  : result (option nat) :=
  match cs with
  | [] => Ok None
  | c :: rest =>
      if (c =? child)%nat then Ok (Some O)
      else
        do e <- eqb fuel σ c child;
        if e then Ok (Some O)
        else do r <- index_of fuel σ child rest; Ok (S <$> r)
  end.

(** The entry at position [k] leaves [self.children], and [cleared.parent_id]
    is set to [None]. *)
Definition take_out (k : nat) (self cleared : ref) (σ : gmap ref obj) : gmap ref obj :=
  alter (set_parent None) cleared (alter (set_children (delete k)) self σ).

(** [LayerGroup.remove_child].  The ID arm clears the [parent_id] of the
    child it popped; the object arm clears the [parent_id] of its argument,
    whichever entry [remove] took. *)
Definition remove_child (fuel : nat) (self : ref) (child : child_arg) (σ : gmap ref obj)
  : result (bool * gmap ref obj) :=
  match child with
  | ChildId i =>
      match PyList.find_index (has_id σ i) (children_of σ self) with
      | Some k =>
          match children_of σ self !! k with
          | Some removed_child => Ok (true, take_out k self removed_child σ)
          | None => Ok (false, σ)
          end
      | None => Ok (false, σ)
      end
  | ChildObj x =>
      do found <- index_of fuel σ x (children_of σ self);
      match found with
      | Some k => Ok (true, take_out k self x σ)
      | None => Ok (false, σ)
      end
  end.

(** *** Sequences of calls, and what is to hold along them *)

Inductive op : Type :=
| AddChild (self child : ref)
| RemoveChild (self : ref) (child : child_arg).

Definition step (fuel : nat) (σ : gmap ref obj) (o : op) : result (gmap ref obj) :=
  match o with
  | AddChild g c => Ok (add_child g c σ)
  | RemoveChild g a => do r <- remove_child fuel g a σ; Ok r.2
  end.

Fixpoint run (fuel : nat) (σ : gmap ref obj) (ops : list op) : result (gmap ref obj) :=
  match ops with
  | [] => Ok σ
  | o :: rest => do σ' <- step fuel σ o; run fuel σ' rest
  end.

(** The back-references agree with containment: a child of a group carries
    that group's id as its [parent_id], no children list holds an object
    twice, and an object carries a [parent_id] only while it is among the
    children of a group with that id. *)
Definition consistent (σ : gmap ref obj) : Prop :=
  (∀ g c, c ∈ children_of σ g → parent_of σ c = id_of σ g)
  ∧ (∀ g, NoDup (children_of σ g))
  ∧ (∀ c i, parent_of σ c = Some i →
            ∃ g, id_of σ g = Some i ∧ c ∈ children_of σ g).

(** No two objects carry the same id: so it is when every object got its id
    from [generate_id]. *)
Definition ids_apart (σ : gmap ref obj) : Prop :=
  ∀ a b i, id_of σ a = Some i → id_of σ b = Some i → a = b.

Definition is_group (σ : gmap ref obj) (g : ref) : bool :=
  match σ !! g with
  | Some (GroupObj _ _) => true
  | _ => false
  end.

(** An object of the gmap ref obj that is in no group: its [parent_id] is [None]. *)
Definition detached (σ : gmap ref obj) (c : ref) : bool :=
  match σ !! c with
  | Some o => match parent_id o with None => true | Some _ => false end
  | None => false
  end.

(** Every call of the sequence is made on a group, and every [add_child]
    hands it an object that is detached at that moment.  (Nothing is asked
    of what follows a call that raises.) *)
Fixpoint adds_detached (fuel : nat) (σ : gmap ref obj) (ops : list op) : bool :=
  match ops with
  | [] => true
  | o :: rest =>
      match o with
      | AddChild g c => is_group σ g && detached σ c
      | RemoveChild g _ => is_group σ g
      end
      && match step fuel σ o with
         | Ok σ' => adds_detached fuel σ' rest
         | Raise _ => true
         end
  end.

(** The object that an argument of [remove_child] names. *)
Definition names (σ : gmap ref obj) (a : child_arg) (r : ref) : Prop :=
  match a with
  | ChildId i => id_of σ r = Some i
  | ChildObj x => r = x
  end.

(** New objects, in the order they were made. *)
Definition heap (objs : list obj) : gmap ref obj := map_seq 0 objs.

End Objects.

(** ** styles.py — strokes and effects *)

Module Stroke.

Inductive LineCap : Type := BUTT | ROUND | SQUARE.
Inductive LineJoin : Type := MITER | JOIN_ROUND | BEVEL.

Record StrokeProperties := {
  color : Style.Color;
  width : Q;
  cap : LineCap;
  join : LineJoin;
  miter_limit : Q;
  dash_array : option (list Q);
  dash_offset : Q;
  opacity : Q
}.

(** [any(val < 0 for val in v)]. *)
Definition any_negative (v : list Q) : bool :=
  existsb (fun val => negb (Qle_bool 0 val)) v.

(** [StrokeProperties.validate_dash_array]. *)
Definition validate_dash_array (v : option (list Q)) : result (option (list Q)) :=
  match v with
  | Some l =>
      if (length l =? 0)%nat then Ok None
      else if any_negative l then Raise InvalidStyleError
      else Ok v
  | None => Ok v
  end.

(** [StrokeProperties(color=.., width=.., ...)].  The Field bounds
    ([width > 0], [miter_limit > 0], [0 <= opacity <= 1]) are collected and
    reported once all fields are validated; the [InvalidStyleError] of the
    dash validator is not a [ValueError] and leaves at once. *)
Definition StrokeProperties_new (color : Style.Color) (width : Q) (cap : LineCap)
    (join : LineJoin) (miter_limit : Q) (dash_array : option (list Q))
    (dash_offset opacity : Q) : result StrokeProperties :=
  let bounds_ok :=
    negb (Qle_bool width 0) && negb (Qle_bool miter_limit 0)
    && Qle_bool 0 opacity && Qle_bool opacity 1 in
  do dash <- validate_dash_array dash_array;
  if bounds_ok
  then Ok {| color := color; width := width; cap := cap; join := join;
             miter_limit := miter_limit; dash_array := dash;
             dash_offset := dash_offset; opacity := opacity |}
  else Raise ValidationError.

End Stroke.

(** ** layers.py — counting, flattening and ordering *)

Module LayerMore.

(** [Layer.get_shape_count]. *)
Definition get_shape_count (self : Layers.Layer) : nat :=
  length (Layers.shapes self).

(** [Layer.is_empty]. *)
Definition is_empty (self : Layers.Layer) : bool :=
  (length (Layers.shapes self) =? 0)%nat.

(** [Layer.clear_shapes]. *)
Definition clear_shapes (self : Layers.Layer) : Layers.Layer :=
  Layers.with_shapes self [].

(** [Layer.get_shape_ids]. *)
Definition get_shape_ids (self : Layers.Layer) : list Layers.ID :=
  map (fun shape => match shape with
                    | Layers.ShapeObj s => Shape.id s
                    | Layers.ShapeId i => i
                    end) (Layers.shapes self).

End LayerMore.

Module GroupMore.

(** [LayerGroup.get_all_shapes]. *)
Definition get_all_shapes (recursive : bool) (self : Layers.LayerGroup)
  : list Layers.shape_ref :=
  flat_map Layers.shapes (Layers.get_all_layers recursive self).

(** [LayerGroup.get_child_count]. *)
Definition get_child_count (self : Layers.LayerGroup) : nat :=
  length (Layers.children self).

(** [LayerGroup.is_empty]. *)
Definition is_empty (self : Layers.LayerGroup) : bool :=
  (length (Layers.children self) =? 0)%nat.

End GroupMore.

Module Manager.

(** [sorted(xs, key=lambda x: x.z_index)] and
    [xs.sort(key=lambda x: x.z_index)]: a stable sort; an element goes in
    front of the first one whose key is not smaller than its own. *)
Section ZOrder.
Context {A : Type} (z_index : A -> Z).

Fixpoint insert_by (x : A) (l : list A) : list A :=
  match l with
  | [] => [x]
  | y :: l' => if z_index x <=? z_index y then x :: l else y :: insert_by x l'
  end.

Fixpoint sorted (l : list A) : list A :=
  match l with
  | [] => []
  | x :: l' => insert_by x (sorted l')
  end.
End ZOrder.

(** [LayerManager.get_all_layers]. *)
Definition get_all_layers (self : Layers.LayerManager) : list Layers.Layer :=
  Layers.get_all_layers true (Layers.root_group self).

(** [LayerManager.get_layers_by_z_order]. *)
Definition get_layers_by_z_order (self : Layers.LayerManager) : list Layers.Layer :=
  sorted Layers.z_index (get_all_layers self).

(** [LayerManager.find_layer_by_id] and [LayerManager.find_group_by_id]. *)
Definition find_layer_by_id (self : Layers.LayerManager) (layer_id : Layers.ID)
  : option Layers.Layer :=
  Layers.find_layer_by_id layer_id true (Layers.root_group self).
Definition find_group_by_id (self : Layers.LayerManager) (group_id : Layers.ID)
  : option Layers.LayerGroup :=
  Layers.find_group_by_id group_id true (Layers.root_group self).

(** [LayerManager.get_active_layer]; [if self.active_layer_id:] is false for
    [None] and for the empty string. *)
Definition get_active_layer (self : Layers.LayerManager) : option Layers.Layer :=
  match Layers.active_layer_id self with
  | Some a =>
      if String.eqb a EmptyString then None else find_layer_by_id self a
  | None => None
  end.

(** [LayerManager.get_layer_count]. *)
Definition get_layer_count (self : Layers.LayerManager) : nat :=
  length (get_all_layers self).

(** [LayerManager.get_visible_layers] and [get_unlocked_layers]. *)
Definition get_visible_layers (self : Layers.LayerManager) : list Layers.Layer :=
  List.filter Layers.visible (get_all_layers self).
Definition get_unlocked_layers (self : Layers.LayerManager) : list Layers.Layer :=
  List.filter (fun layer => negb (Layers.locked layer)) (get_all_layers self).

(** [child.z_index] on either kind of child. *)
Definition child_z_index (c : Layers.child) : Z :=
  match c with
  | inl l => Layers.z_index l
  | inr g => Layers.g_z_index (Layers.fields g)
  end.

(** [sort_group] of [LayerManager.reorder_layers_by_z_index]: sort the
    children, then go into every child that is a group.  The second step
    walks the sorted list, so the recursion is counted down by [fuel]; it
    returns [None] when the fuel does not reach the deepest group. *)
Fixpoint sort_group (fuel : nat) (group : Layers.LayerGroup)
  : option Layers.LayerGroup :=
  match fuel with
  | O => None
  | S fuel' =>
      let children := sorted child_z_index (Layers.children group) in
      let walk :=
        fix walk (cs : list Layers.child) : option (list Layers.child) :=
          match cs with
          | [] => Some []
          | inl l :: rest =>
              match walk rest with
              | Some rest' => Some (inl l :: rest')
              | None => None
              end
          | inr g :: rest =>
              match sort_group fuel' g, walk rest with
              | Some g', Some rest' => Some (inr g' :: rest')
              | _, _ => None
              end
          end in
      match walk children with
      | Some children' => Some (Layers.with_children group children')
      | None => None
      end
  end.

(** How deep the groups of a tree nest: 1 for a group with no group in it. *)
Fixpoint depth (g : Layers.LayerGroup) : nat :=
  match g with
  | Layers.Group _ cs =>
      S ((fix walk (cs : list Layers.child) : nat :=
            match cs with
            | [] => O
            | inl _ :: rest => walk rest
            | inr g' :: rest => Nat.max (depth g') (walk rest)
            end) cs)
  end.

(** [LayerManager.reorder_layers_by_z_index]: Python recurses as far as the
    tree goes. *)
Definition reorder_layers_by_z_index (self : Layers.LayerManager)
  : option Layers.LayerManager :=
  match sort_group (depth (Layers.root_group self)) (Layers.root_group self) with
  | Some root => Some {| Layers.root_group := root;
                         Layers.active_layer_id := Layers.active_layer_id self |}
  | None => None
  end.

End Manager.

(** ** document.py — background and the document *)

Module Drawing.

Record BackgroundProperties := {
  color : option Style.Color;
  transparent : bool;
  image_url : option string;
  image_opacity : Q
}.

(** [BackgroundProperties.validate_background]. *)
Definition validate_background (self : BackgroundProperties) : BackgroundProperties :=
  if negb (transparent self) && Style.is_none (color self)
  then {| color := Some (Style.CRGB {| Color.rgb_r := 255; Color.rgb_g := 255;
                                       Color.rgb_b := 255 |});
          transparent := transparent self; image_url := image_url self;
          image_opacity := image_opacity self |}
  else self.

(** [BackgroundProperties(color=.., transparent=.., ...)]. *)
Definition BackgroundProperties_new (color : option Style.Color) (transparent : bool)
    (image_url : option string) (image_opacity : Q) : result BackgroundProperties :=
  if Qle_bool 0 image_opacity && Qle_bool image_opacity 1
  then Ok (validate_background
             {| color := color; transparent := transparent;
                image_url := image_url; image_opacity := image_opacity |})
  else Raise ValidationError.

(** [DrawingDocument]: the fields that the methods below read.  The
    metadata with its time stamps and the view and export settings are left
    out. *)
Record DrawingDocument := {
  id : string;
  canvas : Document.CanvasSize;
  background : BackgroundProperties;
  layer_manager : Layers.LayerManager
}.

(** [BackgroundProperties()]: every field at its default. *)
Definition BackgroundProperties_default : BackgroundProperties :=
  validate_background
    {| color := None; transparent := true; image_url := None;
       image_opacity := 1 |}.

(** [DrawingDocument.set_canvas_size]: the new size goes through the
    constructor of [CanvasSize]. *)
Definition set_canvas_size (self : DrawingDocument) (width height : Q)
    (units : Document.Units) : result DrawingDocument :=
  do canvas <- Document.CanvasSize_new width height units;
  Ok {| id := id self; canvas := canvas; background := background self;
        layer_manager := layer_manager self |}.

(** [DrawingDocument.create_layer], with the identifier drawn for the
    layer. *)
Definition create_layer (self : DrawingDocument) (new_id : Layers.ID)
    (name : string) (parent_group : Layers.group_arg) : DrawingDocument :=
  {| id := id self; canvas := canvas self; background := background self;
     layer_manager :=
       Layers.create_layer (layer_manager self) new_id name parent_group |}.

(** [DrawingDocument.create_new], with the identifiers drawn for the
    document, for the root group and for the default layer. *)
Definition create_new (doc_id root_id layer_id : Layers.ID) (width height : Q)
    (units : Document.Units) : result DrawingDocument :=
  do canvas <- Document.CanvasSize_new width height units;
  let doc := {| id := doc_id; canvas := canvas;
                background := BackgroundProperties_default;
                layer_manager := Layers.LayerManager_new root_id |} in
  Ok (create_layer doc layer_id "Layer 1" Layers.NoGroup).

(** [DrawingDocument.get_total_shape_count]. *)
Definition get_total_shape_count (self : DrawingDocument) : nat :=
  fold_left (fun total layer => (total + LayerMore.get_shape_count layer)%nat)
    (Manager.get_all_layers (layer_manager self)) O.

(** [DrawingDocument.get_canvas_bounds] and [get_canvas_center]. *)
Definition get_canvas_bounds (self : DrawingDocument) : Q * Q * Q * Q :=
  (0, 0, Document.width (canvas self), Document.height (canvas self))%Q.
Definition get_canvas_center (self : DrawingDocument) : Q * Q :=
  (Document.width (canvas self) / 2, Document.height (canvas self) / 2)%Q.

(** The report of [validate_document], and its two kinds of finding. *)
Inductive error : Type := CanvasNotPositive.
Inductive warning : Type :=
| VeryLargeCanvas
| NoShapes
| EmptyLayers (names : list string).

Record issues := { errors : list error; warnings : list warning }.

(** [DrawingDocument.validate_document]. *)
Definition validate_document (self : DrawingDocument) : issues :=
  let errors :=
    if Qle_bool (Document.width (canvas self)) 0
       || Qle_bool (Document.height (canvas self)) 0
    then [CanvasNotPositive] else [] in
  let canvas_px := Document.to_pixels (canvas self) Document.default_dpi in
  let total_pixels := (canvas_px.1 * canvas_px.2)%Q in
  let w1 := if negb (Qle_bool total_pixels 100000000)
            then [VeryLargeCanvas] else [] in
  let w2 := if (get_total_shape_count self =? 0)%nat then [NoShapes] else [] in
  let empty_layers :=
    map Layers.name
      (List.filter LayerMore.is_empty
         (Manager.get_all_layers (layer_manager self))) in
  let w3 := match empty_layers with
            | [] => []
            | _ => [EmptyLayers empty_layers]
            end in
  {| errors := errors; warnings := w1 ++ w2 ++ w3 |}.

(** [DrawingDocument.cleanup_empty_layers]: the number of layers removed and
    the document afterwards. *)
Definition cleanup_empty_layers (self : DrawingDocument) : nat * DrawingDocument :=
  let empty_layers :=
    List.filter LayerMore.is_empty (Manager.get_all_layers (layer_manager self)) in
  let '(removed_count, manager) :=
    fold_left
      (fun '(removed_count, manager) layer =>
         let '(success, manager') := Layers.delete_layer manager (Layers.id layer) in
         (if success then S removed_count else removed_count, manager'))
      empty_layers (O, layer_manager self) in
  (removed_count,
   {| id := id self; canvas := canvas self; background := background self;
      layer_manager := manager |}).

End Drawing.

(** ** Notions the properties speak of, and sample values *)

(** A layer holds an entry when one of its shapes is [==] to it. *)
Definition holds (self : Layers.Layer) (shape : Layers.shape_ref) : Prop :=
  exists e, e ∈ Layers.shapes self /\ Layers.shape_ref_eqb e shape = true.

(** A layer with three shape references. *)
Definition layer_abc : Layers.Layer :=
  Layers.with_shapes (Layers.Layer_new "layer-1" "Sketch")
    [Layers.ShapeId "a"; Layers.ShapeId "b"; Layers.ShapeId "c"].

(** [l'] is [l] with the entry at position [i] taken out and put back at
    position [k]: the entry is at [k] now, and without it the two lists are
    the same. *)
Definition moved {A} (l l' : list A) (i k : nat) : Prop :=
  exists obj, l !! i = Some obj /\ l' !! k = Some obj
              /\ delete k l' = delete i l.

(** Position [i] holds the first entry of [l] that passes the test [p]. *)
Definition first_match {A} (p : A -> bool) (l : list A) (i : nat) : Prop :=
  (exists y, l !! i = Some y /\ p y = true)
  /\ forall j z, (j < i)%nat -> l !! j = Some z -> p z = false.

(** [clamp(new_index, lo, hi)] on the integers. *)
Definition clampZ (new_index lo hi : Z) : Z := Z.max lo (Z.min new_index hi).

(** A group has a direct child that the argument of [move_child] names. *)
Definition has_child (self : Layers.LayerGroup) (a : Layers.child_arg) : Prop :=
  exists c, c ∈ Layers.children self /\ Layers.matches a c = true.

(** A group with a layer, a group and another layer as direct children. *)
Definition group_lgl : Layers.LayerGroup :=
  Layers.add_child
    (Layers.add_child
       (Layers.add_child (Layers.LayerGroup_new "group-1" "Folder")
          (inl (Layers.Layer_new "layer-1" "Sketch")))
       (inr (Layers.LayerGroup_new "group-2" "Nested")))
    (inl (Layers.Layer_new "layer-2" "Ink")).

(** A canvas of the given size in a unit. *)
Definition canvas (w h : Q) (u : Document.Units) : Document.CanvasSize :=
  {| Document.width := w; Document.height := h; Document.units := u |}.

(** Two pairs of numbers with equal components. *)
Definition pair_eq (p q : Q * Q) : Prop := (p.1 == q.1 /\ p.2 == q.2)%Q.

(** Sample colours, stops and fills. *)
Definition red : Style.Color :=
  Style.CRGB {| Color.rgb_r := 255; Color.rgb_g := 0; Color.rgb_b := 0 |}.
Definition blue : Style.Color :=
  Style.CRGB {| Color.rgb_r := 0; Color.rgb_g := 0; Color.rgb_b := 255 |}.
Definition stop_at (p : Q) (c : Style.Color) : Style.GradientStop :=
  {| Style.position := p; Style.color := c |}.

(** The arguments of a [FillProperties] construction, as an instance that no
    validator has seen yet. *)
Definition fill_args (t : Style.FillType) (color : option Style.Color)
    (lg : option Style.LinearGradient) (rg : option Style.RadialGradient)
    (pat : option Style.PatternFill) (opacity : Q) : Style.FillProperties :=
  {| Style.type := t; Style.fill_color := color; Style.linear_gradient := lg;
     Style.radial_gradient := rg; Style.pattern := pat;
     Style.opacity := opacity |}.

(** The payload of its own tag is the one that [given] had. *)
Definition payload_kept (given f : Style.FillProperties) : Prop :=
  match Style.type f with
  | Style.SOLID => Style.fill_color f = Style.fill_color given
  | Style.LINEAR_GRADIENT => Style.linear_gradient f = Style.linear_gradient given
  | Style.RADIAL_GRADIENT => Style.radial_gradient f = Style.radial_gradient given
  | Style.PATTERN => Style.pattern f = Style.pattern given
  end.

(** Two of the stops, at different places of the list, have equal
    positions. *)
Definition duplicate_position (stops : list Style.GradientStop) : Prop :=
  exists i j a b, (i < j)%nat /\ stops !! i = Some a /\ stops !! j = Some b
                  /\ (Style.position a == Style.position b)%Q.

(** Ascending by position, with no two positions equal. *)
Definition ascending (stops : list Style.GradientStop) : Prop :=
  forall i j a b, (i < j)%nat -> stops !! i = Some a -> stops !! j = Some b ->
                  (Style.position a < Style.position b)%Q.

(** No position occurs twice in a list of positions. *)
Fixpoint nodup_q (l : list Q) : bool :=
  match l with
  | [] => true
  | x :: r => negb (Style.mem_q x r) && nodup_q r
  end.

(** A number is stored under a key: the entry, and its value. *)
Definition number_at (k : string) (g : gmap string Shape.pyval) (q : Q) : Prop :=
  exists v, g !! k = Some v /\ Shape.num_of v = Some q.

(** The order that [sorted] sorts by. *)
Definition key_le {A} (key : A -> Q) (a b : A) : Prop := (key a <= key b)%Q.

(** A geometry dictionary from a list of entries. *)
Definition dict (entries : list (string * Shape.pyval)) : gmap string Shape.pyval :=
  list_to_map entries.

(** The rectangle of the specification, and a payload that no rectangle
    may have. *)
Definition rect_geometry : gmap string Shape.pyval :=
  dict [("width", Shape.VFloat 100); ("height", Shape.VFloat 50)]%string.
Definition bad_rect_geometry : gmap string Shape.pyval :=
  dict [("width", Shape.VFloat (-1)); ("height", Shape.VFloat 50)]%string.

(** A shape as its constructor leaves it when validation passes: the
    arguments, with the default style and transform filled in. *)
Definition shape_of (id : Shape.ID) (ty : Shape.ShapeType)
    (g : gmap string Shape.pyval) (style : option Shape.StyleProperties)
    (transform : option Shape.Transform) (visible locked : bool)
    (name : option string) : Shape.Shape :=
  {| Shape.id := id; Shape.type := ty; Shape.geometry := g;
     Shape.style := Some (default Shape.StyleProperties_default style);
     Shape.transform := Some (default Shape.Transform_default transform);
     Shape.visible := visible; Shape.locked := locked; Shape.name := name |}.

(** A shape with another geometry, and with another type. *)
Definition with_geometry (s : Shape.Shape) (g : gmap string Shape.pyval) : Shape.Shape :=
  {| Shape.id := Shape.id s; Shape.type := Shape.type s; Shape.geometry := g;
     Shape.style := Shape.style s; Shape.transform := Shape.transform s;
     Shape.visible := Shape.visible s; Shape.locked := Shape.locked s;
     Shape.name := Shape.name s |}.
Definition with_type (s : Shape.Shape) (ty : Shape.ShapeType) : Shape.Shape :=
  {| Shape.id := Shape.id s; Shape.type := ty; Shape.geometry := Shape.geometry s;
     Shape.style := Shape.style s; Shape.transform := Shape.transform s;
     Shape.visible := Shape.visible s; Shape.locked := Shape.locked s;
     Shape.name := Shape.name s |}.
Definition with_transform (s : Shape.Shape) (t : Shape.Transform) : Shape.Shape :=
  {| Shape.id := Shape.id s; Shape.type := Shape.type s;
     Shape.geometry := Shape.geometry s; Shape.style := Shape.style s;
     Shape.transform := Some t; Shape.visible := Shape.visible s;
     Shape.locked := Shape.locked s; Shape.name := Shape.name s |}.

(** The error a construction ends with when it fails: pydantic's for a type
    outside the enumeration, the package's for a payload that does not fit
    the type. *)
Definition construction_error (ty : Shape.ShapeType) : exn :=
  match ty with
  | Shape.OTHER _ => ValidationError
  | _ => InvalidGeometryError
  end.

(** [m] is the least, and [M] the greatest, of the numbers of a list. *)
Definition is_min (m : Q) (xs : list Q) : Prop :=
  m ∈ xs /\ forall x, x ∈ xs -> (m <= x)%Q.
Definition is_max (M : Q) (xs : list Q) : Prop :=
  M ∈ xs /\ forall x, x ∈ xs -> (x <= M)%Q.

(** The axis-aligned box of a list of points. *)
Definition box_of_points (pts : list (Q * Q)) (bx : Shape.bounds) : Prop :=
  match bx with
  | (x0, y0, x1, y1) =>
      is_min x0 pts.*1 /\ is_min y0 pts.*2
      /\ is_max x1 pts.*1 /\ is_max y1 pts.*2
  end.

(** A number that a double holds: [m * 2 ** k] with a significand [m] of
    at most 53 bits, an exponent [k] from -1074 up, and a magnitude below
    [2 ** 1024]. *)
Definition is_double (q : Q) : Prop :=
  exists m k : Z,
    Z.abs m < 2 ^ 53 /\ -1074 <= k
    /\ (q == inject_Z m * Shape.pow2 k)%Q /\ (Qabs q < Shape.pow2 1024)%Q.

(** The local box of a shape of each kind, read off its geometry; there is
    none for a path or a group. *)
Definition local_box (ty : Shape.ShapeType) (g : gmap string Shape.pyval)
    (bx : option Shape.bounds) : Prop :=
  match ty with
  | Shape.RECTANGLE =>
      exists w h, Shape.num_at "width" g = Some w
                  /\ Shape.num_at "height" g = Some h
                  /\ bx = Some (0, 0, w, h)%Q
  | Shape.CIRCLE =>
      exists r, Shape.num_at "radius" g = Some r
                /\ bx = Some (- r, - r, r, r)%Q
  | Shape.ELLIPSE =>
      exists rx ry, Shape.num_at "rx" g = Some rx
                    /\ Shape.num_at "ry" g = Some ry
                    /\ bx = Some (- rx, - ry, rx, ry)%Q
  | Shape.LINE =>
      exists x1 y1 x2 y2,
        Shape.num_at "x1" g = Some x1 /\ Shape.num_at "y1" g = Some y1
        /\ Shape.num_at "x2" g = Some x2 /\ Shape.num_at "y2" g = Some y2
        /\ bx = Some (Qmin x1 x2, Qmin y1 y2, Qmax x1 x2, Qmax y1 y2)
  | Shape.POLYLINE | Shape.POLYGON =>
      exists points pts b,
        g !! "points"%string = Some (Shape.VList points)
        /\ Shape.points_xy points = Some pts
        /\ box_of_points pts b /\ bx = Some b
  | Shape.PATH | Shape.GROUP => bx = None
  | Shape.OTHER _ => False
  end.

(** A circle and a rectangle with sizes that are ints beyond the doubles'
    reach; the doubles nearest to one tenth, one fifth and three tenths,
    and the double that follows the last. *)
Definition huge_circle_geometry : gmap string Shape.pyval :=
  dict [("radius", Shape.VInt (2 ^ 1024))]%string.
Definition wide_rect_geometry : gmap string Shape.pyval :=
  dict [("width", Shape.VInt (2 ^ 64 + 1)); ("height", Shape.VFloat 50)]%string.
Definition tenth : Q := 3602879701896397 # 36028797018963968.
Definition fifth : Q := 3602879701896397 # 18014398509481984.
Definition three_tenths : Q := 5404319552844595 # 18014398509481984.
Definition above_three_tenths : Q := 1351079888211149 # 4503599627370496.

(** A polyline placed at (1, 2), turned and scaled. *)
Definition polyline_geometry : gmap string Shape.pyval :=
  dict [("points",
         Shape.VList [Shape.VList [Shape.VFloat 10; Shape.VFloat 20];
                      Shape.VList [Shape.VInt 50; Shape.VFloat 5];
                      Shape.VTuple [Shape.VFloat 30; Shape.VFloat 40]])]%string.
Definition polyline_shape : Shape.Shape :=
  shape_of "shape-2" Shape.POLYLINE polyline_geometry None
    (Some {| Shape.x := 1; Shape.y := 2; Shape.rotation := 45;
             Shape.scale_x := 2; Shape.scale_y := 3;
             Shape.skew_x := 0; Shape.skew_y := 0 |})
    true false None.

(** The value of a hex digit (0 for any other character). *)
Definition digit_value (c : ascii) : Z :=
  match Color.hex_val c with Some v => v | None => 0 end.

(** The numbers 0 to 15. *)
Definition nibbles : list Z := map Z.of_nat (seq 0 16).

(** The digits of a colour string are valid: 6 or 8 of them, all hex
    digits. *)
Definition valid_hex_digits (d : string) : Prop :=
  (String.length d = 6%nat \/ String.length d = 8%nat)
  /\ Color.all_chars Color.is_hex_digit d = true.

(** The alpha of the colour that the digits denote: [1.0] for six digits,
    the fourth byte over 255 for eight. *)
Definition alpha_of (d : string) : Q :=
  if (String.length d =? 8)%nat
  then match Color.hex_digits_val 0 (Color.slice 6 8 d) with
       | Some n => inject_Z n / 255
       | None => 1
       end
  else 1.

(** [valid_hex_digits], as a test. *)
Definition valid_hex_digits_b (d : string) : bool :=
  ((String.length d =? 6)%nat || (String.length d =? 8)%nat)
  && Color.all_chars Color.is_hex_digit d.

(** Two new groups and a new layer, in the order they were made; and a
    group with two layers that were made with one and the same id. *)
Definition three_objects : gmap Objects.ref Objects.obj :=
  Objects.heap
    [Objects.GroupObj (Layers.fields (Layers.LayerGroup_new "group-1" "Folder")) [];
     Objects.GroupObj (Layers.fields (Layers.LayerGroup_new "group-2" "Archive")) [];
     Objects.LayerObj (Layers.Layer_new "layer-1" "Sketch")].

Definition twin_layers : gmap Objects.ref Objects.obj :=
  Objects.heap
    [Objects.GroupObj (Layers.fields (Layers.LayerGroup_new "group-1" "Folder")) [];
     Objects.LayerObj (Layers.Layer_new "layer-1" "Sketch");
     Objects.LayerObj (Layers.Layer_new "layer-1" "Sketch")].

(** A manager with one group under the root and one layer in that group;
    the layer, the first one created, is the active layer. *)
Definition manager_with_nested_layer : Layers.LayerManager :=
  Layers.run (Layers.LayerManager_new "root")
    [Layers.CreateGroup "group-1" "Folder" Layers.NoGroup;
     Layers.CreateLayer "layer-1" "Sketch" (Layers.TreeGroup [0%nat])].

(** The ids of the layers of a tree, in the order of [get_all_layers], and
    the ids of the layers below one child. *)
Definition layer_ids (g : Layers.LayerGroup) : list Layers.ID :=
  Layers.id <$> Layers.get_all_layers true g.
Definition child_layer_ids (c : Layers.child) : list Layers.ID :=
  match c with
  | inl l => [Layers.id l]
  | inr g => layer_ids g
  end.

(** The walks of [_find_parent_group] (from position [i] on) and of
    [find_group_by_id] over the children of one group. *)
Section Walks.
Variable child_id' : Layers.ID.

Fixpoint search_walk (i : nat) (cs : list Layers.child) : option Layers.path :=
  match cs with
  | [] => None
  | c :: rest =>
      if String.eqb (Layers.child_id c) child_id' then Some []
      else
        match c with
        | inr g =>
            match Layers.search_group child_id' g with
            | Some p => Some (i :: p)
            | None => search_walk (S i) rest
            end
        | inl _ => search_walk (S i) rest
        end
  end.

Fixpoint find_group_walk (cs : list Layers.child) : option Layers.LayerGroup :=
  match cs with
  | [] => None
  | inl _ :: rest => find_group_walk rest
  | inr g :: rest =>
      if String.eqb (Layers.group_id g) child_id' then Some g
      else
        match Layers.find_group_by_id child_id' true g with
        | Some found => Some found
        | None => find_group_walk rest
        end
  end.
End Walks.

(** The operations of a sequence stay within the manager's own tree: a
    parent group given to [create_layer] or [create_group] is a group of the
    tree, no group carries the id that [delete_layer] is called with
    (identifiers are drawn apart), and no group is deleted. *)
Definition within_tree (m : Layers.LayerManager) (o : Layers.op) : bool :=
  match o with
  | Layers.CreateLayer _ _ pg | Layers.CreateGroup _ _ pg =>
      match pg with
      | Layers.NoGroup => true
      | Layers.TreeGroup p =>
          match Layers.group_at p (Layers.root_group m) with
          | Some _ => true
          | None => false
          end
      | Layers.OtherGroup _ => false
      end
  | Layers.DeleteLayer i =>
      match Layers.find_group_by_id i true (Layers.root_group m) with
      | Some _ => false
      | None => true
      end
  | Layers.DeleteGroup _ => false
  | Layers.SetActiveLayer _ => true
  end.

Fixpoint all_within_tree (m : Layers.LayerManager) (ops : list Layers.op) : bool :=
  match ops with
  | [] => true
  | o :: rest => within_tree m o && all_within_tree (Layers.step m o) rest
  end.

(** ** Notions for the further properties *)

(** No entry of a list of shapes is [==] to a later one. *)
Definition distinct_shapes (l : list Layers.shape_ref) : Prop :=
  forall i j u v, (i < j)%nat -> l !! i = Some u -> l !! j = Some v ->
                  Layers.shape_ref_eqb u v = false.

(** The calls that change the shapes of a layer one at a time. *)
Inductive shape_op : Type :=
| AddShape (shape : Layers.shape_ref)
| RemoveShape (shape : Layers.shape_ref)
| ClearShapes.

Definition shape_step (self : Layers.Layer) (o : shape_op) : Layers.Layer :=
  match o with
  | AddShape shape => Layers.add_shape self shape
  | RemoveShape shape => (Layers.remove_shape self shape).2
  | ClearShapes => LayerMore.clear_shapes self
  end.

(** The layers that one child contributes to [get_all_layers]. *)
Definition child_layers (recursive : bool) (c : Layers.child) : list Layers.Layer :=
  match c with
  | inl l => [l]
  | inr g => if recursive then Layers.get_all_layers true g else []
  end.

(** The layers of a tree that [get_all_layers] lists before those of the
    group at the end of a path, and the ones it lists after them. *)
Fixpoint layers_before (p : Layers.path) (g : Layers.LayerGroup) : list Layers.Layer :=
  match p with
  | [] => []
  | i :: p' =>
      (take i (Layers.children g) ≫= child_layers true)
      ++ match Layers.children g !! i with
         | Some (inr sub) => layers_before p' sub
         | _ => []
         end
  end.

Fixpoint layers_after (p : Layers.path) (g : Layers.LayerGroup) : list Layers.Layer :=
  match p with
  | [] => []
  | i :: p' =>
      match Layers.children g !! i with
      | Some (inr sub) => layers_after p' sub
      | _ => []
      end
      ++ (drop (S i) (Layers.children g) ≫= child_layers true)
  end.

(** The way to the group that [create_layer] adds to, for a parent group
    that is left out or is part of the tree. *)
Definition target_path (parent_group : Layers.group_arg) : option Layers.path :=
  match parent_group with
  | Layers.NoGroup => Some []
  | Layers.TreeGroup p => Some p
  | Layers.OtherGroup _ => None
  end.

(** A layer carries the identifier asked for. *)
Definition has_id (layer_id : Layers.ID) (l : Layers.Layer) : bool :=
  String.eqb (Layers.id l) layer_id.

(** The order that the manager sorts by, and the entries of a list with one
    given key. *)
Definition z_le {A} (key : A -> Z) (a b : A) : Prop := key a <= key b.
Definition with_key {A} (key : A -> Z) (z : Z) (l : list A) : list A :=
  List.filter (fun a => key a =? z) l.

(** Identifiers are drawn apart: no two layers of the manager share one, and
    no group carries the identifier of a layer. *)
Definition ids_apart (m : Layers.LayerManager) : Prop :=
  NoDup (Layers.id <$> Manager.get_all_layers m)
  /\ forall l, l ∈ Manager.get_all_layers m ->
               Layers.find_group_by_id (Layers.id l) true (Layers.root_group m) = None.

(** A layer that has shapes. *)
Definition has_shapes (l : Layers.Layer) : bool := negb (LayerMore.is_empty l).

(** A document around a manager, and a manager with an empty layer, a layer
    with a shape in a group, and another empty layer. *)
Definition document_of (c : Document.CanvasSize) (m : Layers.LayerManager)
  : Drawing.DrawingDocument :=
  {| Drawing.id := "document-1"; Drawing.canvas := c;
     Drawing.background :=
       {| Drawing.color := None; Drawing.transparent := true;
          Drawing.image_url := None; Drawing.image_opacity := 1 |};
     Drawing.layer_manager := m |}.

Definition manager_with_empty_layers : Layers.LayerManager :=
  {| Layers.root_group :=
       Layers.add_child
         (Layers.add_child
            (Layers.add_child (Layers.LayerGroup_new "root" "Root")
               (inl (Layers.Layer_new "layer-1" "Empty")))
            (inr (Layers.add_child (Layers.LayerGroup_new "group-1" "Folder")
                    (inl (Layers.add_shape (Layers.Layer_new "layer-2" "Sketch")
                            (Layers.ShapeId "shape-1"))))))
         (inl (Layers.Layer_new "layer-3" "Blank"));
     Layers.active_layer_id := Some "layer-1"%string |}.

(** The loop of [cleanup_empty_layers]: [delete_layer] for each layer of a
    list, counting the calls that returned [True]. *)
Definition delete_each (layers : list Layers.Layer)
    (start : nat * Layers.LayerManager) : nat * Layers.LayerManager :=
  fold_left
    (fun '(removed_count, manager) layer =>
       let '(success, manager') := Layers.delete_layer manager (Layers.id layer) in
       (if success then S removed_count else removed_count, manager'))
    layers start.

(** No layer of a list shares the identifier of the layer. *)
Definition kept (gone : list Layers.Layer) (l : Layers.Layer) : bool :=
  forallb (fun e => negb (String.eqb (Layers.id e) (Layers.id l))) gone.

(** The numbers 0 to 255. *)
Definition bytes : list Z := map Z.of_nat (seq 0 256).

(** [format(n, '02x')] gives two hex digits with the value [n]. *)
Definition two_digits_of (n : Z) : bool :=
  match Color.format_02x n with
  | String c1 (String c2 EmptyString) =>
      Color.is_hex_digit c1 && Color.is_hex_digit c2
      && (16 * digit_value c1 + digit_value c2 =? n)
  | _ => false
  end.

(** The tree with the children of every group in the order of their
    [z_index]: what [reorder_layers_by_z_index] is to produce.  Sorting
    inside a child does not change the child's own [z_index], so the
    children can be put in order after their own children have been. *)
Fixpoint sort_tree (g : Layers.LayerGroup) : Layers.LayerGroup :=
  match g with
  | Layers.Group f cs =>
      Layers.Group f
        (Manager.sorted Manager.child_z_index
           ((fix walk (cs : list Layers.child) : list Layers.child :=
               match cs with
               | [] => []
               | inl l :: rest => inl l :: walk rest
               | inr g' :: rest => inr (sort_tree g') :: walk rest
               end) cs))
  end.

Definition sort_child (c : Layers.child) : Layers.child :=
  match c with
  | inl l => inl l
  | inr g => inr (sort_tree g)
  end.

(** The second step of [sort_group], over the children of one group. *)
Section SortWalk.
Variable sort_sub : Layers.LayerGroup -> option Layers.LayerGroup.

Fixpoint sort_walk (cs : list Layers.child) : option (list Layers.child) :=
  match cs with
  | [] => Some []
  | inl l :: rest =>
      match sort_walk rest with
      | Some rest' => Some (inl l :: rest')
      | None => None
      end
  | inr g :: rest =>
      match sort_sub g, sort_walk rest with
      | Some g', Some rest' => Some (inr g' :: rest')
      | _, _ => None
      end
  end.
End SortWalk.

(** The greatest depth of the groups among some children. *)
Fixpoint depth_walk (cs : list Layers.child) : nat :=
  match cs with
  | [] => O
  | inl _ :: rest => depth_walk rest
  | inr g :: rest => Nat.max (Manager.depth g) (depth_walk rest)
  end.

(** The children of every group of a tree are in ascending order of
    [z_index]. *)
Fixpoint ordered (g : Layers.LayerGroup) : Prop :=
  match g with
  | Layers.Group _ cs =>
      StronglySorted (z_le Manager.child_z_index) cs
      /\ (fix all (cs : list Layers.child) : Prop :=
            match cs with
            | [] => True
            | inl _ :: rest => all rest
            | inr g' :: rest => ordered g' /\ all rest
            end) cs
  end.

(** A manager with layers and a group out of order. *)
Definition manager_out_of_order : Layers.LayerManager :=
  {| Layers.root_group :=
       Layers.Group (Layers.fields (Layers.LayerGroup_new "root" "Root"))
         [inl (Layers.with_parent
                 {| Layers.id := "layer-1"; Layers.name := "Top";
                    Layers.shapes := []; Layers.z_index := 5;
                    Layers.visible := true; Layers.locked := false;
                    Layers.opacity := 1; Layers.blend_mode := Layers.NORMAL;
                    Layers.parent_id := None; Layers.metadata := ∅ |}
                 (Some "root"%string));
          inr (Layers.add_child
                 (Layers.add_child (Layers.LayerGroup_new "group-1" "Folder")
                    (inl {| Layers.id := "layer-2"; Layers.name := "Ink";
                            Layers.shapes := []; Layers.z_index := 3;
                            Layers.visible := true; Layers.locked := false;
                            Layers.opacity := 1; Layers.blend_mode := Layers.NORMAL;
                            Layers.parent_id := None; Layers.metadata := ∅ |}))
                 (inl {| Layers.id := "layer-3"; Layers.name := "Sketch";
                         Layers.shapes := []; Layers.z_index := 1;
                         Layers.visible := true; Layers.locked := false;
                         Layers.opacity := 1; Layers.blend_mode := Layers.NORMAL;
                         Layers.parent_id := None; Layers.metadata := ∅ |}))]
     ; Layers.active_layer_id := Some "layer-1"%string |}.

(** The keys of the geometry dictionary that the code reads for a shape of
    each kind. *)
Definition keys_read (ty : Shape.ShapeType) : list string :=
  match ty with
  | Shape.RECTANGLE => ["width"; "height"; "corner_radius"]
  | Shape.CIRCLE => ["radius"]
  | Shape.ELLIPSE => ["rx"; "ry"]
  | Shape.LINE => ["x1"; "y1"; "x2"; "y2"]
  | Shape.POLYLINE | Shape.POLYGON => ["points"]
  | Shape.PATH => ["path_data"]
  | Shape.GROUP => ["children"]
  | Shape.OTHER _ => []
  end%string.

(** ** Proof steps used more than once *)

Create HintDb same.

(** A conjunction of field comparisons, each of a value with itself. *)
Ltac same_fields :=
  repeat match goal with
         | |- (_ && _)%bool = true => apply andb_true_intro; split
         end;
  auto with same.

(** * Properties *)

(** ** Entries of a list: search, pop, insert *)

Section PyListFacts.
Context {A : Type}.
Implicit Types (p : A -> bool) (l : list A).

Lemma find_index_Some p l i :
  PyList.find_index p l = Some i ->
  exists y, l !! i = Some y /\ p y = true
            /\ forall j z, (j < i)%nat -> l !! j = Some z -> p z = false.
Proof.
  revert i. induction l as [|y l IH]; intros i; simpl; [discriminate|].
  destruct (p y) eqn:Hp.
  - intros [= <-]. exists y. repeat split; auto. intros j z Hj. lia.
  - destruct (PyList.find_index p l) as [k|] eqn:Hk; simpl; [|discriminate].
    intros [= <-]. destruct (IH k eq_refl) as (z & Hz & Hpz & Hbefore).
    exists z. repeat split; auto.
    intros [|j] w Hj; simpl.
    + intros [= <-]. exact Hp.
    + apply Hbefore. lia.
Qed.

Lemma find_index_None p l :
  PyList.find_index p l = None <-> forall y, y ∈ l -> p y = false.
Proof.
  induction l as [|y l IH]; simpl.
  - split; [intros _ z Hz; inversion Hz | reflexivity].
  - destruct (p y) eqn:Hp.
    + split; [discriminate|]. intros H. specialize (H y (list_elem_of_here _ _)).
      congruence.
    + destruct (PyList.find_index p l) eqn:Hk; simpl.
      * split; [discriminate|]. intros H.
        assert (Some n = None) as Hn; [|discriminate Hn].
        apply IH. intros z Hz. apply H. now apply list_elem_of_further.
      * split; [|reflexivity]. intros _ z Hz.
        apply elem_of_cons in Hz as [->|Hz]; [exact Hp|].
        now apply IH.
Qed.

Lemma contains_true p l :
  PyList.contains p l = true <-> exists y, y ∈ l /\ p y = true.
Proof.
  unfold PyList.contains.
  destruct (PyList.find_index p l) as [i|] eqn:Hi.
  - split; [intros _|reflexivity].
    destruct (find_index_Some _ _ _ Hi) as (y & Hy & Hp & _).
    exists y. split; [|exact Hp]. apply list_elem_of_lookup. eauto.
  - split; [discriminate|]. intros (y & Hy & Hp).
    rewrite (proj1 (find_index_None p l) Hi y Hy) in Hp. discriminate.
Qed.

Lemma insert_at_lookup (k : nat) (y : A) l :
  (k <= length l)%nat -> PyList.insert_at k y l !! k = Some y.
Proof.
  intros Hk. unfold PyList.insert_at.
  rewrite lookup_app_r; rewrite length_take; [|lia].
  replace (k - k `min` length l)%nat with 0%nat by lia. reflexivity.
Qed.

Lemma insert_at_delete (k : nat) (y : A) l :
  (k <= length l)%nat -> delete k (PyList.insert_at k y l) = l.
Proof.
  intros Hk. unfold PyList.insert_at.
  assert (length (take k l) = k) as Hlen by (rewrite length_take; lia).
  rewrite <- (take_drop k l) at 3.
  clear Hk. revert Hlen. generalize (take k l) (drop k l). intros t d <-.
  induction t as [|z t IH]; simpl; [reflexivity|].
  f_equal. exact IH.
Qed.

Lemma insert_at_length (k : nat) (y : A) l :
  length (PyList.insert_at k y l) = S (length l).
Proof.
  unfold PyList.insert_at. rewrite length_app. simpl.
  rewrite length_take, length_drop. lia.
Qed.

Lemma clamp_spec (n : Z) (len : nat) :
  Z.of_nat (PyList.clamp n len) = Z.max 0 (Z.min n (Z.of_nat len))
  /\ (PyList.clamp n len <= len)%nat.
Proof. unfold PyList.clamp. lia. Qed.

(** What a successful move does to the list. *)
Lemma move_found p l i (n : Z) :
  PyList.find_index p l = Some i ->
  exists obj l',
    PyList.move p n l = (true, l')
    /\ l !! i = Some obj /\ p obj = true
    /\ l' !! PyList.clamp n (length l - 1) = Some obj
    /\ delete (PyList.clamp n (length l - 1)) l' = delete i l
    /\ length l' = length l.
Proof.
  intros Hi. destruct (find_index_Some _ _ _ Hi) as (obj & Hobj & Hp & _).
  unfold PyList.move, PyList.pop. rewrite Hi, Hobj.
  assert (i < length l)%nat as Hlt by (eapply lookup_lt_Some; eauto).
  assert (length (delete i l) = (length l - 1)%nat) as Hlen.
  { rewrite length_delete by eauto. lia. }
  rewrite Hlen.
  destruct (clamp_spec n (length l - 1)) as [_ Hle].
  eexists obj, _. split; [reflexivity|]. repeat split; auto.
  - apply insert_at_lookup. lia.
  - apply insert_at_delete. lia.
  - rewrite insert_at_length. lia.
Qed.

Lemma move_not_found p l (n : Z) :
  PyList.find_index p l = None -> PyList.move p n l = (false, l).
Proof. intros Hi. unfold PyList.move. now rewrite Hi. Qed.
End PyListFacts.

(** ** [==] is reflexive on the models *)

Section EqRefl.
Lemma Qeq_bool_same (q : Q) : Qeq_bool q q = true.
Proof. apply Qeq_bool_iff. reflexivity. Qed.

Lemma string_eqb_same (s : string) : String.eqb s s = true.
Proof. apply String.eqb_refl. Qed.

Lemma option_eqb_same {A} (eqb : A -> A -> bool) (o : option A) :
  (forall a, eqb a a = true) -> PyEq.option_eqb eqb o o = true.
Proof. intros H. destruct o; simpl; auto. Qed.

Lemma list_eqb_same {A} (eqb : A -> A -> bool) (l : list A) :
  (forall a, eqb a a = true) -> PyEq.list_eqb eqb l l = true.
Proof. intros H. induction l; simpl; [reflexivity|]. now rewrite H, IHl. Qed.

Lemma pyval_eqb_same : forall v, PyEq.pyval_eqb v v = true.
Proof.
  fix IH 1. intros [ | b | n | q | s | l | l]; simpl.
  - reflexivity.
  - apply Qeq_bool_same.
  - apply Qeq_bool_same.
  - apply Qeq_bool_same.
  - apply string_eqb_same.
  - revert l. fix IHl 1. intros [|v l]; [reflexivity|].
    rewrite (IH v). simpl. apply IHl.
  - revert l. fix IHl 1. intros [|v l]; [reflexivity|].
    rewrite (IH v). simpl. apply IHl.
Qed.

Lemma dict_eqb_same (d : gmap string Shape.pyval) : PyEq.dict_eqb d d = true.
Proof.
  unfold PyEq.dict_eqb. rewrite Nat.eqb_refl, andb_true_r.
  apply forallb_forall. intros [k v] Hin. simpl.
  apply list_elem_of_In, elem_of_map_to_list in Hin. rewrite Hin.
  apply pyval_eqb_same.
Qed.
End EqRefl.

#[local] Hint Resolve Qeq_bool_same string_eqb_same Z.eqb_refl Nat.eqb_refl
  Bool.eqb_reflx dict_eqb_same option_eqb_same list_eqb_same : same.

Lemma Color_eqb_same (c : Style.Color) : PyEq.Color_eqb c c = true.
Proof.
  destruct c as [c|c|c|c]; simpl;
    unfold PyEq.RGBColor_eqb, PyEq.RGBAColor_eqb; same_fields.
Qed.

Lemma GradientStop_eqb_same (s : Style.GradientStop) : PyEq.GradientStop_eqb s s = true.
Proof. unfold PyEq.GradientStop_eqb. same_fields. apply Color_eqb_same. Qed.

Lemma FillType_eqb_same (t : Style.FillType) : Style.FillType_eqb t t = true.
Proof. now destruct t. Qed.

Lemma FillProperties_eqb_same (f : Style.FillProperties) :
  PyEq.FillProperties_eqb f f = true.
Proof.
  unfold PyEq.FillProperties_eqb. same_fields.
  - apply FillType_eqb_same.
  - apply option_eqb_same, Color_eqb_same.
  - apply option_eqb_same. intros g. unfold PyEq.LinearGradient_eqb. same_fields.
    apply list_eqb_same, GradientStop_eqb_same.
  - apply option_eqb_same. intros g. unfold PyEq.RadialGradient_eqb. same_fields.
    apply list_eqb_same, GradientStop_eqb_same.
  - apply option_eqb_same. intros g. unfold PyEq.PatternFill_eqb. same_fields.
Qed.

Lemma Shape_eqb_same (s : Shape.Shape) : PyEq.Shape_eqb s s = true.
Proof.
  unfold PyEq.Shape_eqb. same_fields.
  - destruct (Shape.type s); simpl; auto using string_eqb_same.
  - apply option_eqb_same. intros st. unfold PyEq.StyleProperties_eqb.
    apply option_eqb_same, FillProperties_eqb_same.
  - apply option_eqb_same. intros t. unfold PyEq.Transform_eqb. same_fields.
Qed.

Lemma shape_ref_eqb_same (u : Layers.shape_ref) : Layers.shape_ref_eqb u u = true.
Proof. destruct u; simpl; [apply string_eqb_same | apply Shape_eqb_same]. Qed.

(** ** Layer.add_shape *)

Lemma holds_contains self shape :
  holds self shape <->
  PyList.contains (fun e => Layers.shape_ref_eqb e shape) (Layers.shapes self) = true.
Proof. unfold holds. symmetry. apply contains_true. Qed.

Lemma add_shape_holds self shape : holds (Layers.add_shape self shape) shape.
Proof.
  unfold Layers.add_shape.
  destruct (PyList.contains _ _) eqn:Hc; simpl.
  - now apply holds_contains.
  - exists shape. split; [|apply shape_ref_eqb_same].
    simpl. apply elem_of_app. right. apply list_elem_of_singleton. reflexivity.
Qed.

(** C10. [add_shape] with a shape or shape ID that the layer already holds
    changes nothing, so no entry is added a second time: adding the same
    shape twice gives the layer that adding it once gives. *)
Theorem add_shape_no_duplicate (self : Layers.Layer) (shape : Layers.shape_ref) :
  (holds self shape -> Layers.add_shape self shape = self)
  /\ Layers.add_shape (Layers.add_shape self shape) shape
     = Layers.add_shape self shape
  /\ (~ holds self shape ->
      Layers.shapes (Layers.add_shape self shape) = Layers.shapes self ++ [shape]).
Proof.
  assert (forall l, holds l shape -> Layers.add_shape l shape = l) as Hnoop.
  { intros l Hl. apply holds_contains in Hl. unfold Layers.add_shape.
    now rewrite Hl. }
  split; [apply Hnoop|]. split.
  - apply Hnoop, add_shape_holds.
  - intros Hn. unfold Layers.add_shape.
    destruct (PyList.contains _ _) eqn:Hc; [|reflexivity].
    now apply holds_contains in Hc.
Qed.

Lemma add_shape_no_duplicate_witness :
  Layers.add_shape layer_abc (Layers.ShapeId "b") = layer_abc.
Proof.
  apply (proj1 (add_shape_no_duplicate layer_abc (Layers.ShapeId "b"))).
  exists (Layers.ShapeId "b"). split; [|reflexivity].
  apply list_elem_of_In. simpl. auto.
Defined.

(** ** Layer.move_shape and LayerGroup.move_child *)

Lemma move_list_found {A} (p : A -> bool) (l : list A) (n : Z) :
  (exists y, y ∈ l /\ p y = true) ->
  exists i k l',
    PyList.move p n l = (true, l')
    /\ first_match p l i
    /\ moved l l' i k
    /\ Z.of_nat k = clampZ n 0 (Z.of_nat (length l) - 1)
    /\ length l' = length l.
Proof.
  intros Hex. apply contains_true in Hex. unfold PyList.contains in Hex.
  destruct (PyList.find_index p l) as [i|] eqn:Hi; [|discriminate].
  destruct (move_found p l i n Hi) as (obj & l' & Hmove & Hobj & _ & Hk & Hdel & Hlen).
  exists i, (PyList.clamp n (length l - 1)), l'.
  split; [exact Hmove|]. split; [|split; [|split; [|exact Hlen]]].
  - destruct (find_index_Some _ _ _ Hi) as (y & Hy & Hp & Hfirst).
    split; [eauto|exact Hfirst].
  - exists obj. auto.
  - assert (i < length l)%nat by (eapply lookup_lt_Some; eauto).
    unfold clampZ. destruct (clamp_spec n (length l - 1)) as [-> _]. lia.
Qed.

Lemma move_list_missing {A} (p : A -> bool) (l : list A) (n : Z) :
  ~ (exists y, y ∈ l /\ p y = true) -> PyList.move p n l = (false, l).
Proof.
  intros Hno. apply move_not_found.
  destruct (PyList.find_index p l) as [i|] eqn:Hi; [|reflexivity].
  exfalso. apply Hno, contains_true. unfold PyList.contains. now rewrite Hi.
Qed.

(** C7. Moving an entry that a layer holds (a child that a group has) takes
    the first match out and puts it back at index
    [clamp(new_index, 0, length after the removal)], whatever integer
    [new_index] is, and returns [True]; the other entries keep their order.
    Moving an entry that is not there returns [False] and changes nothing. *)
Theorem move_reinserts_at_clamped_index (new_index : Z) :
  (forall (self : Layers.Layer) (shape : Layers.shape_ref),
      (holds self shape ->
       exists i k self',
         Layers.move_shape self shape new_index = (true, self')
         /\ self' = Layers.with_shapes self (Layers.shapes self')
         /\ first_match (fun e => Layers.shape_ref_eqb e shape)
              (Layers.shapes self) i
         /\ moved (Layers.shapes self) (Layers.shapes self') i k
         /\ Z.of_nat k
            = clampZ new_index 0 (Z.of_nat (length (Layers.shapes self)) - 1)
         /\ length (Layers.shapes self') = length (Layers.shapes self))
      /\ (~ holds self shape ->
          Layers.move_shape self shape new_index = (false, self)))
  /\ (forall (self : Layers.LayerGroup) (a : Layers.child_arg),
         (has_child self a ->
          exists i k self',
            Layers.move_child self a new_index = (true, self')
            /\ Layers.fields self' = Layers.fields self
            /\ first_match (Layers.matches a) (Layers.children self) i
            /\ moved (Layers.children self) (Layers.children self') i k
            /\ Z.of_nat k
               = clampZ new_index 0 (Z.of_nat (length (Layers.children self)) - 1)
            /\ length (Layers.children self') = length (Layers.children self))
         /\ (~ has_child self a ->
             Layers.move_child self a new_index = (false, self))).
Proof.
  split.
  - intros self shape. split.
    + intros Hh.
      destruct (move_list_found _ _ new_index Hh)
        as (i & k & l' & Hm & Hfirst & Hmv & Hk & Hlen).
      exists i, k, (Layers.with_shapes self l').
      unfold Layers.move_shape. rewrite Hm. simpl. auto 10.
    + intros Hn. unfold Layers.move_shape.
      now rewrite (move_list_missing _ _ new_index Hn).
  - intros self a. split.
    + intros Hh.
      destruct (move_list_found _ _ new_index Hh)
        as (i & k & l' & Hm & Hfirst & Hmv & Hk & Hlen).
      exists i, k, (Layers.with_children self l').
      unfold Layers.move_child. rewrite Hm. simpl. auto 10.
    + intros Hn. unfold Layers.move_child.
      now rewrite (move_list_missing _ _ new_index Hn).
Qed.

Lemma move_reinserts_at_clamped_index_witness :
  exists i k self',
    Layers.move_shape layer_abc (Layers.ShapeId "a") 999 = (true, self')
    /\ self' = Layers.with_shapes layer_abc (Layers.shapes self')
    /\ first_match (fun e => Layers.shape_ref_eqb e (Layers.ShapeId "a"))
         (Layers.shapes layer_abc) i
    /\ moved (Layers.shapes layer_abc) (Layers.shapes self') i k
    /\ Z.of_nat k = clampZ 999 0 (Z.of_nat (length (Layers.shapes layer_abc)) - 1)
    /\ length (Layers.shapes self') = length (Layers.shapes layer_abc).
Proof.
  apply (proj1 (proj1 (move_reinserts_at_clamped_index 999) layer_abc
                  (Layers.ShapeId "a"))).
  exists (Layers.ShapeId "a"). split; [|reflexivity].
  apply list_elem_of_In. simpl. auto.
Defined.

(** The example of the specification: index 999 in a layer of three. *)
Example move_shape_999 :
  Layers.shapes (Layers.move_shape layer_abc (Layers.ShapeId "a") 999).2
  = [Layers.ShapeId "b"; Layers.ShapeId "c"; Layers.ShapeId "a"]
  /\ clampZ 999 0 (3 - 1) = 2
  /\ Layers.move_shape layer_abc (Layers.ShapeId "zz") 1 = (false, layer_abc).
Proof. repeat split. Qed.

Example move_child_negative :
  Layers.child_id <$> Layers.children
     (Layers.move_child group_lgl (Layers.ChildId "layer-2") (-7)).2
  = ["layer-2"; "layer-1"; "group-2"]
  /\ Layers.child_id <$> Layers.children
       (Layers.move_child group_lgl
          (Layers.ChildObj (inr (Layers.Group
             (Layers.fields_with_parent
                (Layers.fields (Layers.LayerGroup_new "group-2" "Nested"))
                (Some "group-1")) []))) 1).2
     = ["layer-1"; "group-2"; "layer-2"].
Proof. split; reflexivity. Qed.

(** ** CanvasSize.to_pixels *)


(** The same length in the four physical units comes to the same pixels. *)
Lemma to_pixels_units_agree (x y dpi : Q) :
  pair_eq (Document.to_pixels (canvas (x * 25.4) (y * 25.4) Document.MILLIMETERS) dpi)
          (Document.to_pixels (canvas x y Document.INCHES) dpi)
  /\ pair_eq (Document.to_pixels (canvas (x * 2.54) (y * 2.54) Document.CENTIMETERS) dpi)
             (Document.to_pixels (canvas x y Document.INCHES) dpi)
  /\ pair_eq (Document.to_pixels (canvas (x * 72) (y * 72) Document.POINTS) dpi)
             (Document.to_pixels (canvas x y Document.INCHES) dpi).
Proof. unfold pair_eq; simpl; repeat split; field. Qed.

(** The example of the specification: A4 in millimeters at 96 dpi is
    (793.7, 1122.5) to within 0.1. *)
Example to_pixels_a4 :
  let '(wpx, hpx) :=
    Document.to_pixels (canvas 210 297 Document.MILLIMETERS) Document.default_dpi in
  (Qabs (wpx - 793.7) <= 0.1 /\ Qabs (hpx - 1122.5) <= 0.1)%Q.
Proof. split; vm_compute; discriminate. Qed.

(** A canvas can be constructed only with a unit of the enumeration; the
    last case above is met after an assignment to [units]. *)
Lemma CanvasSize_new_units (w h : Q) (u : Document.Units) (c : Document.CanvasSize) :
  Document.CanvasSize_new w h u = Ok c ->
  c = canvas w h u /\ (forall v, u <> Document.UNKNOWN v) /\ (0 < w /\ 0 < h)%Q.
Proof.
  unfold Document.CanvasSize_new.
  assert (forall q, negb (Qle_bool q 0) = true -> (0 < q)%Q) as Hpos.
  { intros q Hq. apply negb_true_iff in Hq. apply Qnot_le_lt. intros Hle.
    apply Qle_bool_iff in Hle. congruence. }
  destruct u; try discriminate;
    (destruct (negb (Qle_bool w 0)) eqn:Hw; [|discriminate]);
    (destruct (negb (Qle_bool h 0)) eqn:Hh; [|discriminate]);
    simpl; intros [= <-]; repeat split; auto; discriminate.
Qed.

(** ** FillProperties *)

Lemma validate_fill_absent (given : Style.FillProperties) :
  Style.payload_present given (Style.type given) = false ->
  Style.validate_fill_consistency given = Raise InvalidStyleError.
Proof.
  destruct given as [t c lg rg pat o]. unfold Style.validate_fill_consistency.
  destruct t; simpl; destruct c, lg, rg, pat; simpl; intros H;
    try discriminate H; reflexivity.
Qed.

Lemma validate_fill_present (given : Style.FillProperties) :
  Style.payload_present given (Style.type given) = true ->
  exists f, Style.validate_fill_consistency given = Ok f
            /\ Style.type f = Style.type given
            /\ Style.exactly_tag_populated f = true
            /\ payload_kept given f
            /\ Style.opacity f = Style.opacity given.
Proof.
  destruct given as [t c lg rg pat o]. unfold Style.validate_fill_consistency.
  destruct t; simpl; destruct c, lg, rg, pat; simpl; intros H;
    try discriminate H; eexists; (split; [reflexivity|]); repeat split.
Qed.

(** C6, as the code has it.  Constructing a [FillProperties] with tag [t]
    fails with [InvalidStyleError] when the payload field of [t] is absent;
    otherwise the instance has tag [t], exactly the field of [t] populated
    (with the payload given) and the other payload fields [None].  An
    assignment to the tag of a constructed instance is not validated: it
    stores the tag and leaves every payload field as it was. *)
Theorem fill_construction_consistent (t : Style.FillType)
    (color : option Style.Color) (lg : option Style.LinearGradient)
    (rg : option Style.RadialGradient) (pat : option Style.PatternFill)
    (opacity : Q)
    (Hopacity : Qle_bool 0 opacity && Qle_bool opacity 1 = true) :
  (Style.payload_present (fill_args t color lg rg pat opacity) t = false ->
   Style.FillProperties_new t color lg rg pat opacity = Raise InvalidStyleError)
  /\ (Style.payload_present (fill_args t color lg rg pat opacity) t = true ->
      exists f, Style.FillProperties_new t color lg rg pat opacity = Ok f
                /\ Style.type f = t
                /\ Style.exactly_tag_populated f = true
                /\ payload_kept (fill_args t color lg rg pat opacity) f
                /\ Style.opacity f = opacity)
  /\ (forall f t',
         Style.set_type f t' = fill_args t' (Style.fill_color f)
                                 (Style.linear_gradient f) (Style.radial_gradient f)
                                 (Style.pattern f) (Style.opacity f)).
Proof.
  unfold Style.FillProperties_new. rewrite Hopacity.
  split; [|split].
  - apply (validate_fill_absent (fill_args t color lg rg pat opacity)).
  - apply (validate_fill_present (fill_args t color lg rg pat opacity)).
  - reflexivity.
Qed.

Lemma fill_construction_consistent_witness :
  exists f, Style.FillProperties_new Style.SOLID (Some red) None None None 0.8 = Ok f
            /\ Style.type f = Style.SOLID
            /\ Style.exactly_tag_populated f = true
            /\ payload_kept (fill_args Style.SOLID (Some red) None None None 0.8) f
            /\ Style.opacity f = 0.8%Q.
Proof.
  apply (proj1 (proj2 (fill_construction_consistent Style.SOLID (Some red)
                         None None None 0.8 eq_refl))).
  reflexivity.
Defined.

(** A solid fill whose tag is then set to [PATTERN], with no pattern data:
    nothing fails, the colour stays, and the instance no longer has the field
    of its tag populated. *)
Lemma fill_tag_assignment_unchecked :
  exists f, Style.FillProperties_new Style.SOLID (Some red) None None None 1 = Ok f
            /\ Style.payload_present f Style.PATTERN = false
            /\ Style.type (Style.set_type f Style.PATTERN) = Style.PATTERN
            /\ Style.pattern (Style.set_type f Style.PATTERN) = None
            /\ Style.fill_color (Style.set_type f Style.PATTERN) = Some red
            /\ Style.exactly_tag_populated (Style.set_type f Style.PATTERN) = false.
Proof. eexists. split; [reflexivity|]. repeat split. Qed.

(** The cases of the tests: a linear-gradient fill built with a stray colour
    has the colour cleared; a tag without its payload is refused. *)
Example fill_tests :
  Style.FillProperties_new Style.SOLID None None None None 1 = Raise InvalidStyleError
  /\ Style.FillProperties_new Style.LINEAR_GRADIENT (Some red) None None None 1
     = Raise InvalidStyleError
  /\ Style.FillProperties_new Style.PATTERN (Some red) None None None 1
     = Raise InvalidStyleError
  /\ Style.FillProperties_new Style.SOLID (Some red) None None None 2
     = Raise ValidationError.
Proof. repeat split. Qed.

(** ** Gradient stops *)

Section Positions.
Implicit Types (x y : Q) (l : list Q).

Lemma mem_q_true x l :
  Style.mem_q x l = true <-> exists y, y ∈ l /\ (x == y)%Q.
Proof.
  unfold Style.mem_q. rewrite existsb_exists. split.
  - intros (y & Hin & Heq). exists y. split; [now apply list_elem_of_In|].
    now apply Qeq_bool_iff.
  - intros (y & Hin & Heq). exists y. split; [now apply list_elem_of_In|].
    now apply Qeq_bool_iff.
Qed.

Lemma mem_q_perm x l l' : l ≡ₚ l' -> Style.mem_q x l = Style.mem_q x l'.
Proof.
  intros Hp. apply eq_true_iff_eq. rewrite !mem_q_true.
  split; intros (y & Hin & Heq); exists y; split; auto.
  - now rewrite <- Hp.
  - now rewrite Hp.
Qed.

Lemma mem_q_eq x y l : (x == y)%Q -> Style.mem_q x l = Style.mem_q y l.
Proof.
  intros Hxy. apply eq_true_iff_eq. rewrite !mem_q_true.
  split; intros (z & Hin & Heq); exists z; split; auto.
  - now rewrite <- Hxy.
  - now rewrite Hxy.
Qed.

Lemma Qeq_bool_sym x y : Qeq_bool x y = Qeq_bool y x.
Proof.
  apply eq_true_iff_eq. rewrite !Qeq_bool_iff. split; intros H; now symmetry.
Qed.

Lemma nodup_q_perm l l' : l ≡ₚ l' -> nodup_q l = nodup_q l'.
Proof.
  induction 1 as [|x l l' Hp IH|x y l|l l' l'' _ IH1 _ IH2]; simpl.
  - reflexivity.
  - now rewrite IH, (mem_q_perm x l l' Hp).
  - unfold Style.mem_q at 1 3. simpl. fold (Style.mem_q y l) (Style.mem_q x l).
    rewrite (Qeq_bool_sym y x).
    destruct (Qeq_bool x y), (Style.mem_q x l), (Style.mem_q y l); reflexivity.
  - congruence.
Qed.

Lemma set_of_length l : (length (Style.set_of l) <= length l)%nat.
Proof.
  induction l as [|x l IH]; simpl; [lia|].
  destruct (Style.mem_q x l); simpl; lia.
Qed.

(** The test [len(set(positions)) != len(positions)] finds a repeated
    position. *)
Lemma set_of_length_nodup l :
  (length (Style.set_of l) =? length l)%nat = nodup_q l.
Proof.
  induction l as [|x l IH]; simpl; [reflexivity|].
  pose proof (set_of_length l) as Hle.
  destruct (Style.mem_q x l); simpl.
  - apply Nat.eqb_neq. lia.
  - exact IH.
Qed.

Lemma nodup_q_false l :
  nodup_q l = false ->
  exists i j x y, (i < j)%nat /\ l !! i = Some x /\ l !! j = Some y /\ (x == y)%Q.
Proof.
  induction l as [|x l IH]; simpl; [discriminate|].
  destruct (Style.mem_q x l) eqn:Hm; simpl.
  - intros _. apply mem_q_true in Hm as (y & Hin & Heq).
    apply list_elem_of_lookup in Hin as [j Hj].
    exists 0%nat, (S j), x, y. repeat split; auto. lia.
  - intros H. destruct (IH H) as (i & j & a & b & Hij & Hi & Hj & Heq).
    exists (S i), (S j), a, b. repeat split; auto. lia.
Qed.

Lemma nodup_q_true l :
  nodup_q l = true ->
  forall i j x y, (i < j)%nat -> l !! i = Some x -> l !! j = Some y -> ~ (x == y)%Q.
Proof.
  induction l as [|x l IH]; simpl; [intros _ i j a b _ Hi; discriminate Hi|].
  intros H. apply andb_true_iff in H as [Hm Hn]. apply negb_true_iff in Hm.
  intros [|i] [|j] a b Hij; try lia; simpl.
  - intros [= <-] Hj Heq.
    assert (Style.mem_q x l = true) as Hc; [|congruence].
    apply mem_q_true. exists b. split; [|exact Heq].
    apply list_elem_of_lookup. eauto.
  - apply IH; [exact Hn|lia].
Qed.
End Positions.

Section SortedFacts.
Context {A : Type} (key : A -> Q).
Implicit Types (x : A) (l : list A).

#[local] Abbreviation key_le := (key_le key).

Lemma insert_by_perm x l : Style.insert_by key x l ≡ₚ x :: l.
Proof.
  induction l as [|y l IH]; simpl; [reflexivity|].
  destruct (Qle_bool (key x) (key y)); [reflexivity|].
  rewrite IH. apply Permutation_swap.
Qed.

Lemma sorted_perm l : Style.sorted key l ≡ₚ l.
Proof.
  induction l as [|x l IH]; simpl; [reflexivity|].
  now rewrite insert_by_perm, IH.
Qed.

Lemma insert_by_sorted x l :
  StronglySorted key_le l -> StronglySorted key_le (Style.insert_by key x l).
Proof.
  induction 1 as [|y l Hs IH Hall]; simpl.
  - repeat constructor.
  - destruct (Qle_bool (key x) (key y)) eqn:Hxy.
    + apply Qle_bool_iff in Hxy. constructor; [now constructor|].
      constructor; [exact Hxy|].
      eapply Forall_impl; [exact Hall|]. intros z Hz. unfold key_le in *.
      now apply Qle_trans with (key y).
    + assert (key y <= key x)%Q as Hyx.
      { apply Qlt_le_weak, Qnot_le_lt. intros Hle.
        apply Qle_bool_iff in Hle. congruence. }
      constructor; [exact IH|].
      rewrite insert_by_perm. constructor; [exact Hyx|exact Hall].
Qed.

Lemma sorted_sorted l : StronglySorted key_le (Style.sorted key l).
Proof.
  induction l as [|x l IH]; simpl; [constructor|]. now apply insert_by_sorted.
Qed.

Lemma strongly_sorted_lookup l i j a b :
  StronglySorted key_le l -> (i < j)%nat ->
  l !! i = Some a -> l !! j = Some b -> (key a <= key b)%Q.
Proof.
  intros Hs. revert i j. induction Hs as [|y l Hs IH Hall]; intros i j Hij.
  - intros Hi. discriminate Hi.
  - destruct i as [|i], j as [|j]; try lia; simpl.
    + intros [= <-] Hj. rewrite Forall_forall in Hall. apply Hall.
      apply list_elem_of_lookup. eauto.
    + apply IH. lia.
Qed.
End SortedFacts.

Lemma duplicate_position_nodup (stops : list Style.GradientStop) :
  duplicate_position stops <-> nodup_q (Style.position <$> stops) = false.
Proof.
  split.
  - intros (i & j & a & b & Hij & Hi & Hj & Heq).
    destruct (nodup_q (Style.position <$> stops)) eqn:Hn; [|reflexivity].
    exfalso. refine (nodup_q_true _ Hn i j _ _ Hij _ _ Heq).
    + now rewrite list_lookup_fmap, Hi.
    + now rewrite list_lookup_fmap, Hj.
  - intros Hn. destruct (nodup_q_false _ Hn) as (i & j & x & y & Hij & Hi & Hj & Heq).
    rewrite list_lookup_fmap in Hi, Hj.
    destruct (stops !! i) as [a|] eqn:Ha; [|discriminate].
    destruct (stops !! j) as [b|] eqn:Hb; [|discriminate].
    simpl in Hi, Hj. injection Hi as <-. injection Hj as <-.
    exists i, j, a, b. auto.
Qed.

(** What the field validator makes of a list of stops that is long enough. *)
Lemma validate_stops_long (stops : list Style.GradientStop) :
  (2 <= length stops)%nat ->
  (duplicate_position stops ->
   Style.validate_stops stops = Raise InvalidStyleError)
  /\ (~ duplicate_position stops ->
      Style.validate_stops stops = Ok (Style.sorted Style.position stops)
      /\ ascending (Style.sorted Style.position stops)).
Proof.
  intros Hlen. unfold Style.validate_stops.
  assert ((length stops <? 2)%nat = false) as -> by (apply Nat.ltb_ge; lia).
  change (map Style.position (Style.sorted Style.position stops))
    with (Style.position <$> Style.sorted Style.position stops).
  rewrite set_of_length_nodup.
  rewrite (nodup_q_perm _ (Style.position <$> stops))
    by (apply fmap_Permutation, sorted_perm).
  split.
  - intros Hd. apply duplicate_position_nodup in Hd. now rewrite Hd.
  - intros Hd.
    destruct (nodup_q (Style.position <$> stops)) eqn:Hn.
    2:{ exfalso. now apply Hd, duplicate_position_nodup. }
    split; [reflexivity|].
    intros i j a b Hij Hi Hj.
    pose proof (strongly_sorted_lookup Style.position _ i j a b
                  (sorted_sorted Style.position stops) Hij Hi Hj) as Hle.
    apply Qle_lt_or_eq in Hle as [Hlt|Heq]; [exact Hlt|].
    exfalso.
    assert (nodup_q (Style.position <$> Style.sorted Style.position stops) = true)
      as Hn'.
    { rewrite (nodup_q_perm _ (Style.position <$> stops)); [exact Hn|].
      apply fmap_Permutation, sorted_perm. }
    refine (nodup_q_true _ Hn' i j _ _ Hij _ _ Heq).
    + now rewrite list_lookup_fmap, Hi.
    + now rewrite list_lookup_fmap, Hj.
Qed.

(** C5, as the code has it.  A gradient built from at least two stops with
    no two positions equal stores the stops sorted ascending by position (a
    rearrangement of the stops supplied); with two equal positions the
    construction fails with [InvalidStyleError]; with fewer than two stops
    it fails with pydantic's [ValidationError], raised for the field's
    [min_length=2] before the validator of the stops is reached.  Linear and
    radial gradients alike. *)
Theorem gradient_stops_sorted_or_rejected (stops : list Style.GradientStop)
    (id : Style.ID) (sx sy ex ey cx cy radius : Q) :
  ((length stops < 2)%nat ->
   Style.LinearGradient_new id sx sy ex ey stops = Raise ValidationError
   /\ Style.RadialGradient_new id cx cy radius stops = Raise ValidationError)
  /\ ((2 <= length stops)%nat -> duplicate_position stops ->
      Style.LinearGradient_new id sx sy ex ey stops = Raise InvalidStyleError
      /\ Style.RadialGradient_new id cx cy radius stops = Raise InvalidStyleError)
  /\ ((2 <= length stops)%nat -> ~ duplicate_position stops ->
      exists stored,
        stored ≡ₚ stops /\ ascending stored
        /\ Style.LinearGradient_new id sx sy ex ey stops
           = Ok {| Style.lg_id := id; Style.start_x := sx; Style.start_y := sy;
                   Style.end_x := ex; Style.end_y := ey;
                   Style.lg_stops := stored |}
        /\ Style.RadialGradient_new id cx cy radius stops
           = if Qle_bool 0 radius
             then Ok {| Style.rg_id := id; Style.center_x := cx;
                        Style.center_y := cy; Style.radius := radius;
                        Style.rg_stops := stored |}
             else Raise ValidationError).
Proof.
  unfold Style.LinearGradient_new, Style.RadialGradient_new.
  split; [|split].
  - intros Hlen. apply Nat.ltb_lt in Hlen. now rewrite Hlen.
  - intros Hlen Hd.
    assert ((length stops <? 2)%nat = false) as -> by (apply Nat.ltb_ge; lia).
    destruct (validate_stops_long stops Hlen) as [Hdup _].
    now rewrite (Hdup Hd).
  - intros Hlen Hd.
    assert ((length stops <? 2)%nat = false) as -> by (apply Nat.ltb_ge; lia).
    destruct (validate_stops_long stops Hlen) as [_ Hok].
    destruct (Hok Hd) as [Hv Hasc].
    exists (Style.sorted Style.position stops).
    split; [apply sorted_perm|]. split; [exact Hasc|].
    rewrite Hv. simpl. split; reflexivity.
Qed.

Lemma gradient_stops_sorted_or_rejected_witness :
  Style.LinearGradient_new "g" 0 0 1 1 [stop_at 0 red; stop_at 0 blue]
  = Raise InvalidStyleError
  /\ Style.RadialGradient_new "g" 0.5 0.5 0.5 [stop_at 0 red; stop_at 0 blue]
     = Raise InvalidStyleError.
Proof.
  apply (proj1 (proj2 (gradient_stops_sorted_or_rejected
                         [stop_at 0 red; stop_at 0 blue] "g" 0 0 1 1 0.5 0.5 0.5))).
  - simpl. lia.
  - exists 0%nat, 1%nat, (stop_at 0 red), (stop_at 0 blue).
    repeat split. lia.
Defined.

(** A single stop is refused by pydantic, not by the validator of the
    package: the error is a [ValidationError], as the test of the package
    says; the validator's own test of the length is never the one that
    fails. *)
Lemma gradient_too_short_validation_error :
  Style.LinearGradient_new "g" 0 0 1 1 [stop_at 0 red] = Raise ValidationError
  /\ Style.RadialGradient_new "g" 0.5 0.5 0.5 [stop_at 0 red] = Raise ValidationError
  /\ Style.LinearGradient_new "g" 0 0 1 1 [] = Raise ValidationError
  /\ Style.validate_stops [stop_at 0 red] = Raise InvalidStyleError.
Proof. repeat split. Qed.

(** The examples of the specification. *)
Example gradient_positions :
  (do g <- Style.LinearGradient_new "g" 0 0 1 1
             [stop_at 0.3 red; stop_at 0.1 blue; stop_at 0.7 red];
   Ok (Style.position <$> Style.lg_stops g)) = Ok [0.1; 0.3; 0.7]%Q
  /\ Style.LinearGradient_new "g" 0 0 1 1 [stop_at 0.2 red; stop_at 0.2 blue]
     = Raise InvalidStyleError
  /\ Style.RadialGradient_new "g" 0.5 0.5 (-1) [stop_at 0.2 red; stop_at 0.2 blue]
     = Raise InvalidStyleError
  /\ Style.RadialGradient_new "g" 0.5 0.5 (-1) [stop_at 0.2 red; stop_at 0.4 blue]
     = Raise ValidationError.
Proof. repeat split. Qed.

(** ** Shape: validation at construction *)

Lemma validate_by_type_error ty g e :
  Shape.validate_by_type ty g = Raise e -> e = InvalidGeometryError.
Proof.
  destruct ty; simpl;
    unfold Shape._validate_rectangle_geometry, Shape._validate_circle_geometry,
      Shape._validate_ellipse_geometry, Shape._validate_line_geometry,
      Shape._validate_polyline_geometry, Shape._validate_polygon_geometry,
      Shape._validate_points, Shape._validate_path_geometry,
      Shape._validate_group_geometry, Shape.ok;
    repeat match goal with
           | |- context [match ?x with _ => _ end] => destruct x
           end;
    congruence.
Qed.

Lemma validate_geometry_inv (s0 s : Shape.Shape) :
  Shape.validate_geometry s0 = Ok s ->
  Shape.validate_by_type (Shape.type s0) (Shape.geometry s0) = Ok tt
  /\ s = shape_of (Shape.id s0) (Shape.type s0) (Shape.geometry s0)
           (Shape.style s0) (Shape.transform s0) (Shape.visible s0)
           (Shape.locked s0) (Shape.name s0).
Proof.
  unfold Shape.validate_geometry.
  destruct (Shape.validate_by_type _ _) as [[]|e]; simpl; [|discriminate].
  intros [= <-]. split; [reflexivity|].
  unfold shape_of. destruct (Shape.style s0), (Shape.transform s0); reflexivity.
Qed.

Lemma validate_geometry_raise (s0 : Shape.Shape) (e : exn) :
  Shape.validate_geometry s0 = Raise e ->
  Shape.validate_by_type (Shape.type s0) (Shape.geometry s0)
  = Raise InvalidGeometryError
  /\ e = InvalidGeometryError.
Proof.
  unfold Shape.validate_geometry.
  destruct (Shape.validate_by_type _ _) as [[]|e'] eqn:Hv; simpl; [discriminate|].
  intros [= <-]. now rewrite (validate_by_type_error _ _ _ Hv).
Qed.

Lemma validate_geometry_again (s0 s : Shape.Shape) :
  Shape.validate_geometry s0 = Ok s -> Shape.validate_geometry s = Ok s.
Proof.
  intros H. apply validate_geometry_inv in H as [Hv ->].
  unfold Shape.validate_geometry, shape_of. simpl. rewrite Hv. reflexivity.
Qed.

(** C2, as the code has it.  Validation runs on every construction: a
    [Shape] is either built, and then passes the validation of its type (to
    validate it again changes nothing), or the construction raises and there
    is no shape: [InvalidGeometryError] when the payload fails the validation
    of the type, whatever the other arguments are.  An assignment to
    [geometry] or [type] of a constructed shape runs no validator: it stores
    the value and raises nothing. *)
Theorem shape_validated_at_construction (id : Shape.ID) (ty : Shape.ShapeType)
    (g : gmap string Shape.pyval) (style : option Shape.StyleProperties)
    (transform : option Shape.Transform) (visible locked : bool)
    (name : option string) :
  match Shape.Shape_new id ty g style transform visible locked name with
  | Ok s =>
      s = shape_of id ty g style transform visible locked name
      /\ Shape.validate_by_type ty g = Ok tt
      /\ Shape.validate_geometry s = Ok s
  | Raise e =>
      e = construction_error ty
      /\ Shape.validate_by_type ty g = Raise InvalidGeometryError
      /\ (forall id' style' transform' visible' locked' name',
             Shape.Shape_new id' ty g style' transform' visible' locked' name'
             = Raise e)
  end
  /\ (forall s g', Shape.set_geometry s g' = Ok (with_geometry s g'))
  /\ (forall s ty', Shape.set_type s ty' = Ok (with_type s ty')).
Proof.
  split; [|split; reflexivity].
  destruct (Shape.Shape_new id ty g style transform visible locked name)
    as [s|e] eqn:Hnew.
  - assert (Shape.validate_geometry
              {| Shape.id := id; Shape.type := ty; Shape.geometry := g;
                 Shape.style := style; Shape.transform := transform;
                 Shape.visible := visible; Shape.locked := locked;
                 Shape.name := name |} = Ok s) as Hv.
    { destruct ty; try exact Hnew. discriminate Hnew. }
    pose proof (validate_geometry_again _ _ Hv) as Hagain.
    apply validate_geometry_inv in Hv as [Hv ->]. auto.
  - assert (forall id' style' transform' visible' locked' name',
               Shape.Shape_new id' ty g style' transform' visible' locked' name'
               = Raise (construction_error ty)
               /\ Shape.validate_by_type ty g = Raise InvalidGeometryError)
      as Hall.
    { intros id' style' transform' visible' locked' name'.
      destruct ty as [| | | | | | | |v];
        try (simpl in Hnew |- *;
             apply validate_geometry_raise in Hnew as [Hv _]; simpl in Hv;
             split; [|exact Hv];
             unfold Shape.validate_geometry; simpl; now rewrite Hv).
      split; reflexivity. }
    destruct (Hall id style transform visible locked name) as [He Hv].
    rewrite Hnew in He. injection He as ->.
    split; [reflexivity|]. split; [exact Hv|].
    intros. apply Hall.
Qed.

(** The example of the specification: a rectangle of 100 by 50 is built,
    its geometry is then set to a width of -1; nothing is raised, the new
    payload is in place, and the shape no longer passes validation.  The same
    payload is refused by the constructor. *)
Lemma geometry_assignment_unchecked :
  exists s s',
    Shape.Shape_new "shape-1" Shape.RECTANGLE rect_geometry None None true false None
    = Ok s
    /\ Shape.set_geometry s bad_rect_geometry = Ok s'
    /\ Shape.geometry s' = bad_rect_geometry
    /\ Shape.geometry s' <> Shape.geometry s
    /\ Shape.validate_geometry s' = Raise InvalidGeometryError
    /\ Shape.Shape_new "shape-1" Shape.RECTANGLE bad_rect_geometry None None
         true false None = Raise InvalidGeometryError.
Proof.
  eexists. eexists. split; [reflexivity|]. split; [reflexivity|].
  split; [reflexivity|]. split; [|split; reflexivity].
  simpl. intros Heq.
  assert (bad_rect_geometry !! "width"%string = rect_geometry !! "width"%string)
    as Hw by now rewrite Heq.
  vm_compute in Hw. discriminate Hw.
Qed.

(** ** Shape.get_bounds *)

Section MinMax.
Implicit Types (a b x : Q) (xs : list Q).

Lemma min2_Qmin a b : Shape.min2 a b = Qmin a b.
Proof.
  unfold Shape.min2, Qmin, GenericMinMax.gmin.
  rewrite <- (Qcompare_antisym a b). now destruct (a ?= b)%Q.
Qed.

Lemma max2_Qmax a b : Shape.max2 a b = Qmax a b.
Proof.
  unfold Shape.max2, Qmax, GenericMinMax.gmax.
  rewrite <- (Qcompare_antisym a b). now destruct (a ?= b)%Q.
Qed.

Lemma min2_cases a b :
  (Shape.min2 a b = a \/ Shape.min2 a b = b)
  /\ (Shape.min2 a b <= a)%Q /\ (Shape.min2 a b <= b)%Q.
Proof.
  unfold Shape.min2. destruct (b ?= a)%Q eqn:Hc.
  - apply Qeq_alt in Hc. repeat split; auto; [apply Qle_refl|].
    rewrite Hc. apply Qle_refl.
  - apply Qlt_alt in Hc. repeat split; auto; [now apply Qlt_le_weak|apply Qle_refl].
  - apply Qgt_alt in Hc. repeat split; auto; [apply Qle_refl|now apply Qlt_le_weak].
Qed.

Lemma max2_cases a b :
  (Shape.max2 a b = a \/ Shape.max2 a b = b)
  /\ (a <= Shape.max2 a b)%Q /\ (b <= Shape.max2 a b)%Q.
Proof.
  unfold Shape.max2. destruct (b ?= a)%Q eqn:Hc.
  - apply Qeq_alt in Hc. repeat split; auto; [apply Qle_refl|].
    rewrite Hc. apply Qle_refl.
  - apply Qlt_alt in Hc. repeat split; auto; [apply Qle_refl|now apply Qlt_le_weak].
  - apply Qgt_alt in Hc. repeat split; auto; [now apply Qlt_le_weak|apply Qle_refl].
Qed.

Lemma fold_min2_is_min xs a : is_min (fold_left Shape.min2 xs a) (a :: xs).
Proof.
  revert a. induction xs as [|x xs IH]; intros a; simpl.
  - split; [apply list_elem_of_here|].
    intros y Hy. apply list_elem_of_singleton in Hy as ->. apply Qle_refl.
  - destruct (IH (Shape.min2 a x)) as [Hin Hle].
    destruct (min2_cases a x) as (Hc & Hma & Hmx).
    split.
    + apply elem_of_cons in Hin as [->|Hin].
      * destruct Hc as [->| ->]; [apply list_elem_of_here|].
        apply list_elem_of_further, list_elem_of_here.
      * now do 2 apply list_elem_of_further.
    + intros y Hy.
      assert (fold_left Shape.min2 xs (Shape.min2 a x) <= Shape.min2 a x)%Q as Hm.
      { apply Hle, list_elem_of_here. }
      apply elem_of_cons in Hy as [->|Hy]; [now apply Qle_trans with (Shape.min2 a x)|].
      apply elem_of_cons in Hy as [->|Hy]; [now apply Qle_trans with (Shape.min2 a x)|].
      apply Hle. now apply list_elem_of_further.
Qed.

Lemma fold_max2_is_max xs a : is_max (fold_left Shape.max2 xs a) (a :: xs).
Proof.
  revert a. induction xs as [|x xs IH]; intros a; simpl.
  - split; [apply list_elem_of_here|].
    intros y Hy. apply list_elem_of_singleton in Hy as ->. apply Qle_refl.
  - destruct (IH (Shape.max2 a x)) as [Hin Hle].
    destruct (max2_cases a x) as (Hc & Hma & Hmx).
    split.
    + apply elem_of_cons in Hin as [->|Hin].
      * destruct Hc as [->| ->]; [apply list_elem_of_here|].
        apply list_elem_of_further, list_elem_of_here.
      * now do 2 apply list_elem_of_further.
    + intros y Hy.
      assert (Shape.max2 a x <= fold_left Shape.max2 xs (Shape.max2 a x))%Q as Hm.
      { apply Hle, list_elem_of_here. }
      apply elem_of_cons in Hy as [->|Hy]; [now apply Qle_trans with (Shape.max2 a x)|].
      apply elem_of_cons in Hy as [->|Hy]; [now apply Qle_trans with (Shape.max2 a x)|].
      apply Hle. now apply list_elem_of_further.
Qed.
End MinMax.

Lemma not_positive_number (v : Shape.pyval) :
  Shape.not_positive v = false -> exists q, Shape.num_of v = Some q /\ (0 < q)%Q.
Proof.
  unfold Shape.not_positive. destruct (Shape.num_of v) as [q|]; [|discriminate].
  intros Hq. exists q. split; [reflexivity|].
  apply Qnot_le_lt. intros Hle. apply Qle_bool_iff in Hle. congruence.
Qed.

Lemma is_number_num (v : Shape.pyval) :
  Shape.is_number v = true -> exists q, Shape.num_of v = Some q.
Proof. unfold Shape.is_number. destruct (Shape.num_of v); [eauto|discriminate]. Qed.

Lemma has_key_lookup (k : string) (g : gmap string Shape.pyval) :
  Shape.has_key k g = true -> exists v, g !! k = Some v /\ Shape.get k g = v.
Proof.
  unfold Shape.has_key, Shape.get. destruct (g !! k); [eauto|discriminate].
Qed.

Lemma number_at_num_at k g q : number_at k g q -> Shape.num_at k g = Some q.
Proof. intros (v & Hv & Hq). unfold Shape.num_at. now rewrite Hv. Qed.

Lemma rectangle_valid (g : gmap string Shape.pyval) :
  Shape._validate_rectangle_geometry g = Ok tt ->
  exists w h, number_at "width" g w /\ number_at "height" g h
              /\ (0 < w)%Q /\ (0 < h)%Q.
Proof.
  unfold Shape._validate_rectangle_geometry.
  destruct (Shape.has_key "width" g) eqn:Hkw; [|discriminate].
  destruct (Shape.has_key "height" g) eqn:Hkh; [|discriminate]. simpl.
  apply has_key_lookup in Hkw as (vw & Hw & ->).
  apply has_key_lookup in Hkh as (vh & Hh & ->).
  destruct (Shape.not_positive vw) eqn:Hpw; [discriminate|].
  destruct (Shape.not_positive vh) eqn:Hph; [discriminate|]. intros _.
  apply not_positive_number in Hpw as (w & Hnw & Hw0).
  apply not_positive_number in Hph as (h & Hnh & Hh0).
  exists w, h. repeat split; auto; [exists vw|exists vh]; auto.
Qed.

Lemma circle_valid (g : gmap string Shape.pyval) :
  Shape._validate_circle_geometry g = Ok tt ->
  exists r, number_at "radius" g r /\ (0 < r)%Q.
Proof.
  unfold Shape._validate_circle_geometry.
  destruct (g !! "radius"%string) as [v|] eqn:Hv; [|discriminate].
  destruct (Shape.not_positive v) eqn:Hp; [discriminate|]. intros _.
  apply not_positive_number in Hp as (r & Hr & Hr0).
  exists r. split; [exists v|]; auto.
Qed.

Lemma ellipse_valid (g : gmap string Shape.pyval) :
  Shape._validate_ellipse_geometry g = Ok tt ->
  exists rx ry, number_at "rx" g rx /\ number_at "ry" g ry
                /\ (0 < rx)%Q /\ (0 < ry)%Q.
Proof.
  unfold Shape._validate_ellipse_geometry.
  destruct (g !! "rx"%string) as [vx|] eqn:Hx; [|discriminate].
  destruct (g !! "ry"%string) as [vy|] eqn:Hy; [|discriminate].
  destruct (Shape.not_positive vx) eqn:Hpx; [discriminate|].
  destruct (Shape.not_positive vy) eqn:Hpy; [discriminate|]. intros _.
  apply not_positive_number in Hpx as (rx & Hrx & Hx0).
  apply not_positive_number in Hpy as (ry & Hry & Hy0).
  exists rx, ry. repeat split; auto; [exists vx|exists vy]; auto.
Qed.

Lemma line_valid (g : gmap string Shape.pyval) :
  Shape._validate_line_geometry g = Ok tt ->
  exists x1 y1 x2 y2, number_at "x1" g x1 /\ number_at "y1" g y1
                      /\ number_at "x2" g x2 /\ number_at "y2" g y2.
Proof.
  unfold Shape._validate_line_geometry. simpl.
  destruct (Shape.has_key "x1" g) eqn:K1; [|discriminate].
  destruct (Shape.has_key "y1" g) eqn:K2; [|discriminate].
  destruct (Shape.has_key "x2" g) eqn:K3; [|discriminate].
  destruct (Shape.has_key "y2" g) eqn:K4; [|discriminate]. simpl.
  apply has_key_lookup in K1 as (v1 & H1 & ->).
  apply has_key_lookup in K2 as (v2 & H2 & ->).
  apply has_key_lookup in K3 as (v3 & H3 & ->).
  apply has_key_lookup in K4 as (v4 & H4 & ->).
  destruct (Shape.is_number v1) eqn:N1; [|discriminate].
  destruct (Shape.is_number v2) eqn:N2; [|discriminate].
  destruct (Shape.is_number v3) eqn:N3; [|discriminate].
  destruct (Shape.is_number v4) eqn:N4; [|discriminate]. intros _.
  apply is_number_num in N1 as [x1 N1]. apply is_number_num in N2 as [y1 N2].
  apply is_number_num in N3 as [x2 N3]. apply is_number_num in N4 as [y2 N4].
  exists x1, y1, x2, y2.
  repeat split; [exists v1|exists v2|exists v3|exists v4]; auto.
Qed.

Lemma point_ok_xy (point : Shape.pyval) :
  Shape.point_ok point = true ->
  exists xy, Shape.point_xy point = Some xy
             /\ (do c <- Shape.index 0 point; Shape.as_num c) = Ok xy.1
             /\ (do c <- Shape.index 1 point; Shape.as_num c) = Ok xy.2.
Proof.
  assert (forall cs, (length cs =? 2)%nat && forallb Shape.is_number cs = true ->
                     exists cx cy px py, cs = [cx; cy]
                                         /\ Shape.num_of cx = Some px
                                         /\ Shape.num_of cy = Some py) as Hcs.
  { intros [|cx [|cy [|c cs]]]; simpl; try discriminate.
    intros H. apply andb_true_iff in H as [Hx H].
    apply andb_true_iff in H as [Hy _].
    apply is_number_num in Hx as [px Hx]. apply is_number_num in Hy as [py Hy].
    exists cx, cy, px, py. auto. }
  destruct point; simpl; try discriminate; intros H;
    destruct (Hcs _ H) as (cx & cy & px & py & -> & Hx & Hy);
    exists (px, py); simpl; unfold Shape.as_num; rewrite Hx, Hy; auto.
Qed.

Lemma points_ok_xy (points : list Shape.pyval) :
  forallb Shape.point_ok points = true ->
  exists pts, Shape.points_xy points = Some pts
              /\ Shape.column 0 points = Ok pts.*1
              /\ Shape.column 1 points = Ok pts.*2
              /\ length pts = length points.
Proof.
  induction points as [|p points IH]; simpl.
  - intros _. exists []. auto.
  - intros H. apply andb_true_iff in H as [Hp H].
    destruct (IH H) as (pts & Hxy & Hc0 & Hc1 & Hlen).
    destruct (point_ok_xy p Hp) as (xy & Hpxy & H0 & H1).
    exists (xy :: pts). rewrite Hpxy, Hxy, Hc0, Hc1. simpl.
    unfold rbind in H0, H1 |- *.
    destruct (Shape.index 0 p) as [c0|]; [|discriminate]. rewrite H0.
    destruct (Shape.index 1 p) as [c1|]; [|discriminate]. rewrite H1.
    auto.
Qed.

Lemma points_valid (least : nat) (g : gmap string Shape.pyval) :
  Shape._validate_points least g = Ok tt ->
  exists points pts,
    g !! "points"%string = Some (Shape.VList points)
    /\ (least <= length points)%nat
    /\ Shape.points_xy points = Some pts
    /\ Shape.column 0 points = Ok pts.*1
    /\ Shape.column 1 points = Ok pts.*2
    /\ length pts = length points.
Proof.
  unfold Shape._validate_points.
  destruct (g !! "points"%string) as [[| | | | |points|]|]; try discriminate.
  destruct (length points <? least)%nat eqn:Hlen; [discriminate|].
  destruct (forallb Shape.point_ok points) eqn:Hok; [|discriminate]. intros _.
  destruct (points_ok_xy points Hok) as (pts & H1 & H2 & H3 & H4).
  exists points, pts. apply Nat.ltb_ge in Hlen. auto 10.
Qed.

(** The bounds of a shape with validated points. *)
Lemma points_bounds (s : Shape.Shape) (points : list Shape.pyval)
    (pts : list (Q * Q)) :
  Shape.type s = Shape.POLYLINE \/ Shape.type s = Shape.POLYGON ->
  Shape.geometry s !! "points"%string = Some (Shape.VList points) ->
  (1 <= length points)%nat ->
  Shape.column 0 points = Ok pts.*1 ->
  Shape.column 1 points = Ok pts.*2 ->
  length pts = length points ->
  exists b, box_of_points pts b
            /\ Shape._calculate_base_bounds s = Ok (Some b).
Proof.
  intros Hty Hg Hlen H0 H1 Hl.
  destruct pts as [|[px py] pts]; [simpl in Hl; lia|].
  exists (fold_left Shape.min2 pts.*1 px, fold_left Shape.min2 pts.*2 py,
          fold_left Shape.max2 pts.*1 px, fold_left Shape.max2 pts.*2 py).
  split.
  - repeat split; simpl;
      try apply (fold_min2_is_min _ _); try apply (fold_max2_is_max _ _).
  - unfold Shape._calculate_base_bounds, Shape.item.
    assert (Shape.truthy (Shape.VList points) = true) as Ht.
    { destruct points; [simpl in Hlen; lia|reflexivity]. }
    destruct Hty as [-> | ->]; rewrite Hg; simpl of_option; unfold rbind at 1;
      rewrite Ht; simpl; rewrite H0, H1; reflexivity.
Qed.

Lemma get_bounds_transform (s : Shape.Shape) (t : Shape.Transform) :
  Shape.get_bounds (with_transform s t)
  = do base_bounds <- Shape._calculate_base_bounds s;
    Shape.translated (Shape.x t) (Shape.y t) base_bounds.
Proof.
  unfold Shape.get_bounds. simpl.
  change (Shape._calculate_base_bounds (with_transform s t))
    with (Shape._calculate_base_bounds s).
  destruct (Shape._calculate_base_bounds s) as [[[[[x0 y0] x1] y1]|]|e];
    try reflexivity.
  unfold Shape.translated, Shape.translate, rbind.
  destruct (Shape.float_add x0 (Shape.x t)); [|reflexivity].
  destruct (Shape.float_add y0 (Shape.y t)); [|reflexivity].
  destruct (Shape.float_add x1 (Shape.x t)); [|reflexivity].
  destruct (Shape.float_add y1 (Shape.y t)); reflexivity.
Qed.

Lemma float_add_raise (a t : Q) (e : exn) :
  Shape.float_add a t = Raise e -> e = OverflowError.
Proof.
  unfold Shape.float_add, Shape.to_double, rbind.
  destruct (Shape.round_double a); destruct (Shape.round_double t);
    intros H; now inversion H.
Qed.

Lemma translated_raise (tx ty : Q) (bx : option Shape.bounds) (e : exn) :
  Shape.translated tx ty bx = Raise e -> e = OverflowError.
Proof.
  destruct bx as [[[[x0 y0] x1] y1]|]; [|discriminate].
  unfold Shape.translated, Shape.translate, rbind.
  destruct (Shape.float_add x0 tx) eqn:Ha;
    [|intros H; inversion H; subst; eapply float_add_raise; eauto].
  destruct (Shape.float_add y0 ty) eqn:Hb;
    [|intros H; inversion H; subst; eapply float_add_raise; eauto].
  destruct (Shape.float_add x1 tx) eqn:Hc;
    [|intros H; inversion H; subst; eapply float_add_raise; eauto].
  destruct (Shape.float_add y1 ty) eqn:Hd;
    [|intros H; inversion H; subst; eapply float_add_raise; eauto].
  discriminate.
Qed.

Lemma base_bounds_local_box (ty : Shape.ShapeType) (g : gmap string Shape.pyval)
    (s : Shape.Shape) :
  Shape.type s = ty -> Shape.geometry s = g ->
  Shape.validate_by_type ty g = Ok tt ->
  exists bx, local_box ty g bx /\ Shape._calculate_base_bounds s = Ok bx.
Proof.
  intros Hty Hg Hv. unfold Shape._calculate_base_bounds, Shape.item.
  rewrite Hty, Hg.
  destruct ty; simpl in Hv |- *.
  - destruct (rectangle_valid g Hv) as (w & h & (vw & Hw & Hnw) & (vh & Hh & Hnh) & _).
    exists (Some (0, 0, w, h)%Q). split.
    + exists w, h. unfold Shape.num_at. rewrite Hw, Hh. auto.
    + rewrite Hw, Hh. simpl. unfold Shape.as_num. rewrite Hnw, Hnh. reflexivity.
  - destruct (circle_valid g Hv) as (r & (v & Hr & Hnr) & _).
    exists (Some (- r, - r, r, r)%Q). split.
    + exists r. unfold Shape.num_at. rewrite Hr. auto.
    + rewrite Hr. simpl. unfold Shape.py_neg, Shape.as_num. rewrite Hnr. reflexivity.
  - destruct (ellipse_valid g Hv) as (rx & ry & (vx & Hx & Hnx) & (vy & Hy & Hny) & _).
    exists (Some (- rx, - ry, rx, ry)%Q). split.
    + exists rx, ry. unfold Shape.num_at. rewrite Hx, Hy. auto.
    + rewrite Hx, Hy. simpl. unfold Shape.py_neg, Shape.as_num.
      rewrite Hnx, Hny. reflexivity.
  - destruct (line_valid g Hv)
      as (x1 & y1 & x2 & y2 & (v1 & H1 & N1) & (v2 & H2 & N2)
          & (v3 & H3 & N3) & (v4 & H4 & N4)).
    exists (Some (Qmin x1 x2, Qmin y1 y2, Qmax x1 x2, Qmax y1 y2)). split.
    + exists x1, y1, x2, y2. unfold Shape.num_at. rewrite H1, H2, H3, H4. auto 10.
    + rewrite H1, H2, H3, H4. simpl. unfold Shape.py_min, Shape.py_max, Shape.as_num.
      rewrite N1, N2, N3, N4. simpl. now rewrite !min2_Qmin, !max2_Qmax.
  - destruct (points_valid 2 g Hv) as (points & pts & Hp & Hlen & Hxy & H0 & H1 & Hl).
    destruct (points_bounds s points pts) as (b & Hbox & Hb);
      auto; try lia; [now rewrite Hg|].
    exists (Some b). split; [exists points, pts, b; auto|].
    unfold Shape._calculate_base_bounds, Shape.item in Hb.
    now rewrite Hty, Hg in Hb.
  - destruct (points_valid 3 g Hv) as (points & pts & Hp & Hlen & Hxy & H0 & H1 & Hl).
    destruct (points_bounds s points pts) as (b & Hbox & Hb);
      auto; try lia; [now rewrite Hg|].
    exists (Some b). split; [exists points, pts, b; auto|].
    unfold Shape._calculate_base_bounds, Shape.item in Hb.
    now rewrite Hty, Hg in Hb.
  - exists None. auto.
  - exists None. auto.
  - discriminate Hv.
Qed.

(** *** Doubles *)

Lemma pow2_Qpower (e : Z) : (Shape.pow2 e == 2 ^ e)%Q.
Proof.
  unfold Shape.pow2. destruct (0 <=? e) eqn:He.
  - apply Z.leb_le in He. rewrite (Zpower_Qpower 2 e He). reflexivity.
  - apply Z.leb_gt in He. destruct e as [|p|p]; try lia.
    change (- Z.neg p) with (Z.pos p).
    change (2 ^ Z.neg p)%Q with (/ (2 ^ Z.pos p))%Q.
    rewrite <- (Zpower_Qpower 2 (Z.pos p)) by lia.
    assert (0 < 2 ^ Z.pos p) as Hpos by (apply Z.pow_pos_nonneg; lia).
    destruct (2 ^ Z.pos p) as [|n|n]; try lia. reflexivity.
Qed.

Lemma pow2_add (a b : Z) : (Shape.pow2 (a + b) == Shape.pow2 a * Shape.pow2 b)%Q.
Proof. rewrite !pow2_Qpower. apply Qpower_plus. discriminate. Qed.

Lemma pow2_pos (e : Z) : (0 < Shape.pow2 e)%Q.
Proof. rewrite pow2_Qpower. apply Qpower_0_lt. reflexivity. Qed.

Lemma pow2_of_nonneg (e : Z) : 0 <= e -> Shape.pow2 e = inject_Z (2 ^ e).
Proof. intros He. unfold Shape.pow2. destruct (Z.leb_spec 0 e); [reflexivity|lia]. Qed.

(** [ilog2] never overshoots. *)
Lemma ilog2_le (a : Q) : (0 < a)%Q -> (Shape.pow2 (Shape.ilog2 a) <= a)%Q.
Proof.
  intros Ha. unfold Shape.ilog2. destruct a as [n d]. cbn [Qnum Qden].
  set (e := Z.log2 n - Z.log2 (Z.pos d)).
  destruct (Qle_bool (Shape.pow2 e) (n # d)) eqn:Hb;
    [apply Qle_bool_iff; exact Hb|].
  assert (0 < n) as Hn by (unfold Qlt in Ha; simpl in Ha; lia).
  pose proof (Z.log2_spec n Hn) as [Hlo _].
  pose proof (Z.log2_spec (Z.pos d) eq_refl) as [_ Hhi].
  pose proof (Z.log2_nonneg n) as Hln.
  pose proof (Z.log2_nonneg (Z.pos d)) as Hld.
  rewrite Qmake_Qdiv. apply Qle_shift_div_l; [reflexivity|].
  apply Qle_trans with (Shape.pow2 (e - 1) * Shape.pow2 (Z.log2 (Z.pos d) + 1))%Q.
  - apply Qmult_le_l; [apply pow2_pos|].
    rewrite pow2_of_nonneg by lia. rewrite <- Zle_Qle.
    replace (Z.log2 (Z.pos d) + 1) with (Z.succ (Z.log2 (Z.pos d))) by lia. lia.
  - rewrite <- pow2_add.
    replace (e - 1 + (Z.log2 (Z.pos d) + 1)) with (Z.log2 n) by (unfold e; lia).
    rewrite pow2_of_nonneg by lia. rewrite <- Zle_Qle. exact Hlo.
Qed.

Lemma nearest_even_Z (x : Q) (n : Z) : (x == inject_Z n)%Q -> Shape.nearest_even x = n.
Proof.
  intros Hx. unfold Shape.nearest_even.
  rewrite (Qfloor_comp _ _ Hx), Qfloor_Z.
  assert ((x - inject_Z n ?= 1 # 2)%Q = Lt) as ->; [|reflexivity].
  apply Qlt_alt. rewrite Hx.
  assert (inject_Z n - inject_Z n == 0)%Q as -> by ring. reflexivity.
Qed.

Lemma Qabs_inject_Z (m : Z) : (Qabs (inject_Z m) == inject_Z (Z.abs m))%Q.
Proof. destruct m; reflexivity. Qed.

(** A number that a double can hold, [m * 2 ** k] with [m] of 53 bits at
    most, [k] no less than -1074 and a magnitude below [2 ** 1024], is its
    own nearest double. *)
Lemma round_double_exact (q : Q) (m k : Z) :
  (q == inject_Z m * Shape.pow2 k)%Q -> Z.abs m < 2 ^ 53 -> -1074 <= k ->
  (Qabs q < Shape.pow2 1024)%Q ->
  Shape.round_double q = Shape.Finite (Qred q).
Proof.
  intros Hq Hm Hk Hmax. unfold Shape.round_double.
  destruct (Qeq_bool q 0) eqn:H0.
  - apply Qeq_bool_eq in H0. rewrite (Qred_complete q 0 H0). reflexivity.
  - apply Qeq_bool_neq in H0.
    assert (0 < Qabs q)%Q as Ha.
    { destruct (Qlt_le_dec 0 (Qabs q)) as [H|H]; [exact H|].
      exfalso. apply H0. apply Qabs_Qle_condition in H. lra. }
    assert (Qabs q == inject_Z (Z.abs m) * Shape.pow2 k)%Q as Hav.
    { rewrite Hq, Qabs_Qmult, Qabs_inject_Z.
      rewrite (Qabs_pos (Shape.pow2 k)) by (apply Qlt_le_weak, pow2_pos).
      reflexivity. }
    pose proof (ilog2_le (Qabs q) Ha) as Hlo.
    assert (Shape.ilog2 (Qabs q) < 53 + k) as He.
    { apply (Qpower_lt_compat_l_inv 2); [|reflexivity].
      rewrite <- !pow2_Qpower. eapply Qle_lt_trans; [exact Hlo|].
      rewrite Hav, pow2_add, (pow2_of_nonneg 53) by lia.
      apply Qmult_lt_compat_r; [apply pow2_pos|].
      rewrite <- Zlt_Qlt. exact Hm. }
    set (K := Z.max (Shape.ilog2 (Qabs q) - 52) (-1074)).
    assert (K <= k) as HK by lia.
    pose proof (pow2_pos K) as HKpos.
    assert (Qabs q / Shape.pow2 K == inject_Z (Z.abs m * 2 ^ (k - K)))%Q as Hn.
    { rewrite Hav. replace k with (K + (k - K)) at 1 by lia.
      rewrite pow2_add, (pow2_of_nonneg (k - K)) by lia.
      rewrite inject_Z_mult. field. lra. }
    rewrite (nearest_even_Z _ _ Hn).
    assert (inject_Z (Z.abs m * 2 ^ (k - K)) * Shape.pow2 K == Qabs q)%Q as Hr.
    { rewrite <- Hn. field. lra. }
    assert (Qle_bool (Shape.pow2 1024)
              (Qred (inject_Z (Z.abs m * 2 ^ (k - K)) * Shape.pow2 K)) = false) as ->.
    { destruct (Qle_bool _ _) eqn:Hb; [|reflexivity].
      apply Qle_bool_iff in Hb. rewrite Qred_correct, Hr in Hb. lra. }
    destruct (Qle_bool 0 q) eqn:Hs; f_equal.
    + apply Qle_bool_iff in Hs. apply Qred_complete.
      rewrite Hr. apply Qabs_pos, Hs.
    + apply Qred_complete. rewrite Qred_correct, Hr.
      assert (q <= 0)%Q as Hneg.
      { destruct (Qlt_le_dec 0 q) as [H|H]; [|exact H].
        apply Qlt_le_weak, Qle_bool_iff in H. congruence. }
      rewrite (Qabs_neg q Hneg). lra.
Qed.

(** [ilog2] is the exponent: the next power of two is beyond. *)
Lemma ilog2_lt (a : Q) : (0 < a)%Q -> (a < Shape.pow2 (Shape.ilog2 a + 1))%Q.
Proof.
  intros Ha. unfold Shape.ilog2. destruct a as [n d]. cbn [Qnum Qden].
  set (e := Z.log2 n - Z.log2 (Z.pos d)).
  assert (0 < n) as Hn by (unfold Qlt in Ha; simpl in Ha; lia).
  pose proof (Z.log2_spec n Hn) as [_ Hhi].
  pose proof (Z.log2_spec (Z.pos d) eq_refl) as [Hlo _].
  pose proof (Z.log2_nonneg n) as Hln.
  pose proof (Z.log2_nonneg (Z.pos d)) as Hld.
  destruct (Qle_bool (Shape.pow2 e) (n # d)) eqn:Hb.
  - rewrite Qmake_Qdiv. apply Qlt_shift_div_r; [reflexivity|].
    apply Qlt_le_trans
      with (Shape.pow2 (e + 1) * Shape.pow2 (Z.log2 (Z.pos d)))%Q.
    + rewrite <- pow2_add.
      replace (e + 1 + Z.log2 (Z.pos d)) with (Z.succ (Z.log2 n)) by (unfold e; lia).
      rewrite pow2_of_nonneg by lia. rewrite <- Zlt_Qlt. exact Hhi.
    + apply Qmult_le_l; [apply pow2_pos|].
      rewrite pow2_of_nonneg by lia. rewrite <- Zle_Qle. exact Hlo.
  - replace (e - 1 + 1) with e by lia. apply Qnot_le_lt. intros Hle.
    apply Qle_bool_iff in Hle. congruence.
Qed.

Lemma nearest_even_near (x : Q) :
  (inject_Z (Shape.nearest_even x) - x <= 1 # 2)%Q
  /\ (x - inject_Z (Shape.nearest_even x) <= 1 # 2)%Q.
Proof.
  unfold Shape.nearest_even.
  pose proof (Qfloor_le x) as Hlo. pose proof (Qlt_floor x) as Hhi.
  rewrite inject_Z_plus in Hhi. change (inject_Z 1) with 1%Q in Hhi.
  destruct (Qcompare (x - inject_Z (Qfloor x)) (1 # 2)) eqn:Hcmp.
  - apply Qeq_alt in Hcmp.
    destruct (Z.even (Qfloor x));
      [|rewrite inject_Z_plus; change (inject_Z 1) with 1%Q]; split; lra.
  - apply Qlt_alt in Hcmp. split; lra.
  - apply Qgt_alt in Hcmp. rewrite inject_Z_plus.
    change (inject_Z 1) with 1%Q. split; lra.
Qed.

Lemma pow2_half (e : Z) : (Shape.pow2 e * (1 # 2) == Shape.pow2 (e - 1))%Q.
Proof.
  replace (e - 1) with (e + -1) by lia. rewrite pow2_add. reflexivity.
Qed.

(** Rounding to a multiple of [2 ** K] moves a number by half of
    [2 ** K] at most. *)
Lemma scaled_near (a : Q) (K : Z) :
  (inject_Z (Shape.nearest_even (a / Shape.pow2 K)) * Shape.pow2 K - a
   <= Shape.pow2 (K - 1))%Q
  /\ (a - inject_Z (Shape.nearest_even (a / Shape.pow2 K)) * Shape.pow2 K
      <= Shape.pow2 (K - 1))%Q.
Proof.
  pose proof (pow2_pos K) as HKpos.
  pose proof (nearest_even_near (a / Shape.pow2 K)) as [Hup Hdown].
  set (n := Shape.nearest_even (a / Shape.pow2 K)) in *.
  assert (a / Shape.pow2 K * Shape.pow2 K == a)%Q as Hdiv by (field; lra).
  split.
  - rewrite <- pow2_half, <- Hdiv at 1.
    assert (inject_Z n * Shape.pow2 K - a / Shape.pow2 K * Shape.pow2 K
            == (inject_Z n - a / Shape.pow2 K) * Shape.pow2 K)%Q as -> by ring.
    rewrite (Qmult_comm (Shape.pow2 K) (1 # 2)).
    apply Qmult_le_compat_r; [exact Hup|lra].
  - rewrite <- pow2_half, <- Hdiv at 1.
    assert (a / Shape.pow2 K * Shape.pow2 K - inject_Z n * Shape.pow2 K
            == (a / Shape.pow2 K - inject_Z n) * Shape.pow2 K)%Q as -> by ring.
    rewrite (Qmult_comm (Shape.pow2 K) (1 # 2)).
    apply Qmult_le_compat_r; [exact Hdown|lra].
Qed.

(** The nearest double is near: within half the spacing of the doubles
    around the number, which is [2 ** -53] of its magnitude, or
    [2 ** -1075] among the subnormals. *)
Lemma round_double_near (q r : Q) :
  Shape.round_double q = Shape.Finite r ->
  (Qabs (r - q) <= Qmax (Qabs q * Shape.pow2 (-53)) (Shape.pow2 (-1075)))%Q.
Proof.
  unfold Shape.round_double.
  destruct (Qeq_bool q 0) eqn:H0.
  - apply Qeq_bool_eq in H0. intros [= <-].
    apply Qle_trans with (Shape.pow2 (-1075)); [|apply Q.le_max_r].
    apply Qabs_Qle_condition. rewrite H0. split; [|discriminate].
    vm_compute. discriminate.
  - apply Qeq_bool_neq in H0.
    assert (0 < Qabs q)%Q as Ha.
    { destruct (Qlt_le_dec 0 (Qabs q)) as [H|H]; [exact H|].
      exfalso. apply H0. apply Qabs_Qle_condition in H. lra. }
    pose proof (ilog2_le (Qabs q) Ha) as Hlo.
    set (K := Z.max (Shape.ilog2 (Qabs q) - 52) (-1074)).
    pose proof (pow2_pos K) as HKpos.
    pose proof (scaled_near (Qabs q) K) as [Hhi Hlow].
    assert (Shape.pow2 (K - 1)
            <= Qmax (Qabs q * Shape.pow2 (-53)) (Shape.pow2 (-1075)))%Q as Hulp.
    { destruct (Z.max_spec (Shape.ilog2 (Qabs q) - 52) (-1074)) as [[_ HK]|[_ HK]];
        fold K in HK; rewrite HK.
      - apply Q.le_max_r.
      - apply Qle_trans with (Qabs q * Shape.pow2 (-53))%Q; [|apply Q.le_max_l].
        replace (Shape.ilog2 (Qabs q) - 52 - 1)
          with (Shape.ilog2 (Qabs q) + -53) by lia.
        rewrite pow2_add. apply Qmult_le_compat_r; [exact Hlo|].
        apply Qlt_le_weak, pow2_pos. }
    destruct (Qle_bool (Shape.pow2 1024) _); [destruct (Qle_bool 0 q); discriminate|].
    destruct (Qle_bool 0 q) eqn:Hs; intros [= <-];
      eapply Qle_trans; try exact Hulp; apply Qabs_Qle_condition;
      rewrite ?Qred_correct.
    + apply Qle_bool_iff in Hs. pose proof (Qabs_pos q Hs) as Habs. split; lra.
    + assert (q <= 0)%Q as Hneg.
      { destruct (Qlt_le_dec 0 q) as [H|H]; [|exact H].
        apply Qlt_le_weak, Qle_bool_iff in H. congruence. }
      pose proof (Qabs_neg q Hneg) as Habs. split; lra.
Qed.

Lemma is_double_Qeq (p q : Q) : (p == q)%Q -> is_double p -> is_double q.
Proof.
  intros Hpq (m & k & Hm & Hk & Hp & Hmax). exists m, k.
  rewrite <- Hpq. auto.
Qed.

Lemma round_double_of_double (q : Q) :
  is_double q -> Shape.round_double q = Shape.Finite (Qred q).
Proof. intros (m & k & Hm & Hk & Hq & Hmax). eapply round_double_exact; eauto. Qed.

Lemma pow2_le (a b : Z) : a <= b -> (Shape.pow2 a <= Shape.pow2 b)%Q.
Proof.
  intros Hab. rewrite !pow2_Qpower. apply Qpower_le_compat_l; [exact Hab|].
  discriminate.
Qed.

(** What [round_double] gives is a double. *)
Lemma round_double_double (q r : Q) :
  Shape.round_double q = Shape.Finite r -> is_double r.
Proof.
  unfold Shape.round_double.
  destruct (Qeq_bool q 0) eqn:H0.
  - intros [= <-]. exists 0, 0. repeat split; try lia; reflexivity.
  - apply Qeq_bool_neq in H0.
    assert (0 < Qabs q)%Q as Ha.
    { destruct (Qlt_le_dec 0 (Qabs q)) as [H|H]; [exact H|].
      exfalso. apply H0. apply Qabs_Qle_condition in H. lra. }
    pose proof (ilog2_lt (Qabs q) Ha) as Hhi.
    set (K := Z.max (Shape.ilog2 (Qabs q) - 52) (-1074)).
    pose proof (pow2_pos K) as HKpos.
    pose proof (nearest_even_near (Qabs q / Shape.pow2 K)) as [Hup Hdown].
    set (n := Shape.nearest_even (Qabs q / Shape.pow2 K)) in *.
    assert (0 < Qabs q / Shape.pow2 K)%Q as Hx.
    { apply Qlt_shift_div_l; [exact HKpos|]. lra. }
    assert (Qabs q / Shape.pow2 K < inject_Z (2 ^ 53))%Q as Hx53.
    { apply Qlt_shift_div_r; [exact HKpos|].
      rewrite <- (pow2_of_nonneg 53), <- pow2_add by lia.
      eapply Qlt_le_trans; [exact Hhi|]. apply pow2_le. lia. }
    assert (0 <= n <= 2 ^ 53) as Hn.
    { split.
      - assert (inject_Z (-1) < inject_Z n)%Q as H
          by (change (inject_Z (-1)) with (-1)%Q; lra).
        rewrite <- Zlt_Qlt in H. lia.
      - assert (inject_Z n < inject_Z (2 ^ 53 + 1))%Q as H.
        { rewrite inject_Z_plus. change (inject_Z 1) with 1%Q. lra. }
        rewrite <- Zlt_Qlt in H. lia. }
    set (R := Qred (inject_Z n * Shape.pow2 K)).
    assert (R == inject_Z n * Shape.pow2 K)%Q as HR by apply Qred_correct.
    assert (0 <= R)%Q as HR0.
    { rewrite HR. apply Qmult_le_0_compat; [|lra].
      change 0%Q with (inject_Z 0). rewrite <- Zle_Qle. lia. }
    destruct (Qle_bool (Shape.pow2 1024) R) eqn:Hb;
      [destruct (Qle_bool 0 q); discriminate|].
    assert (R < Shape.pow2 1024)%Q as Hmax.
    { apply Qnot_le_lt. intros Hle. apply Qle_bool_iff in Hle. congruence. }
    assert (exists m k, Z.abs m < 2 ^ 53 /\ -1074 <= k
                        /\ (R == inject_Z m * Shape.pow2 k)%Q) as (m & k & Hm & Hk & Hmk).
    { destruct (Z.eq_dec n (2 ^ 53)) as [Heq|Hne].
      - exists (2 ^ 52), (K + 1). split; [lia|]. split; [lia|].
        rewrite HR, Heq, pow2_add. vm_compute (Shape.pow2 1).
        change (2 ^ 53) with (2 ^ 52 * 2). rewrite inject_Z_mult.
        change (inject_Z 2) with 2%Q. ring.
      - exists n, K. split; [lia|]. split; [lia|exact HR]. }
    destruct (Qle_bool 0 q); intros [= <-].
    + exists m, k. split; [exact Hm|]. split; [exact Hk|]. split; [exact Hmk|].
      rewrite (Qabs_pos R HR0). exact Hmax.
    + exists (- m), k. split; [lia|]. split; [exact Hk|]. split.
      * rewrite Qred_correct, Hmk, inject_Z_opp. ring.
      * rewrite Qred_correct, Qabs_opp, (Qabs_pos R HR0). exact Hmax.
Qed.

(** The sum of two doubles, as [+] gives it: exact when a double holds it,
    and always a double near it or an infinity. *)
Lemma float_add_doubles (a t : Q) :
  is_double a -> is_double t ->
  exists r,
    Shape.float_add a t = Ok r
    /\ (is_double (a + t) -> r = Shape.Finite (Qred (a + t)))
    /\ (forall v, r = Shape.Finite v ->
                  is_double v
                  /\ (Qabs (v - (a + t))
                      <= Qmax (Qabs (a + t) * Shape.pow2 (-53)) (Shape.pow2 (-1075)))%Q).
Proof.
  intros Ha Ht. unfold Shape.float_add, Shape.to_double.
  rewrite (round_double_of_double a Ha), (round_double_of_double t Ht).
  cbn [rbind]. eexists. split; [reflexivity|].
  assert (Qred a + Qred t == a + t)%Q as Hsum by (rewrite !Qred_correct; reflexivity).
  split.
  - intros Hd. rewrite (round_double_of_double (Qred a + Qred t)).
    + f_equal. apply Qred_complete. exact Hsum.
    + eapply is_double_Qeq; [|exact Hd]. symmetry. exact Hsum.
  - intros v Hv. split; [eapply round_double_double; exact Hv|].
    pose proof (round_double_near _ _ Hv) as Hnear.
    rewrite Hsum in Hnear. exact Hnear.
Qed.

(** Only a number of magnitude [2 ** 1024 - 2 ** 970] or more is rounded
    to an infinity. *)
Lemma round_double_overflow (q : Q) :
  (forall r, Shape.round_double q <> Shape.Finite r) ->
  (Shape.pow2 1024 - Shape.pow2 970 <= Qabs q)%Q.
Proof.
  intros Hinf.
  destruct (Qlt_le_dec (Qabs q) (Shape.pow2 1024)) as [Hsmall|Hbig];
    [|pose proof (pow2_pos 970); lra].
  revert Hinf. unfold Shape.round_double.
  destruct (Qeq_bool q 0) eqn:H0; [intros H; now destruct (H 0%Q)|].
  apply Qeq_bool_neq in H0.
  assert (0 < Qabs q)%Q as Ha.
  { destruct (Qlt_le_dec 0 (Qabs q)) as [H|H]; [exact H|].
    exfalso. apply H0. apply Qabs_Qle_condition in H. lra. }
  pose proof (ilog2_le (Qabs q) Ha) as Hlo.
  assert (Shape.ilog2 (Qabs q) < 1024) as He.
  { apply (Qpower_lt_compat_l_inv 2); [|reflexivity].
    rewrite <- !pow2_Qpower. eapply Qle_lt_trans; [exact Hlo|exact Hsmall]. }
  set (K := Z.max (Shape.ilog2 (Qabs q) - 52) (-1074)).
  pose proof (scaled_near (Qabs q) K) as [Hup _].
  destruct (Qle_bool (Shape.pow2 1024) _) eqn:Hb.
  2:{ intros H. exfalso. destruct (Qle_bool 0 q); eapply H; reflexivity. }
  intros _. apply Qle_bool_iff in Hb. rewrite Qred_correct in Hb.
  assert (Shape.pow2 (K - 1) <= Shape.pow2 970)%Q as HK by (apply pow2_le; lia).
  lra.
Qed.

(** The conversion of a number to a float raises only for a magnitude of
    [2 ** 1024 - 2 ** 970] or more; a double it leaves as it is. *)
Lemma to_double_cases (a : Q) :
  match Shape.to_double a with
  | Ok d =>
      is_double d /\ (is_double a -> d = Qred a)
      /\ (Qabs (d - a) <= Qmax (Qabs a * Shape.pow2 (-53)) (Shape.pow2 (-1075)))%Q
  | Raise e =>
      e = OverflowError /\ (Shape.pow2 1024 - Shape.pow2 970 <= Qabs a)%Q
  end.
Proof.
  unfold Shape.to_double.
  destruct (Shape.round_double a) as [d| |] eqn:Hr.
  - split; [eapply round_double_double; exact Hr|]. split.
    + intros Ha. rewrite (round_double_of_double a Ha) in Hr. congruence.
    + apply round_double_near. exact Hr.
  - split; [reflexivity|]. apply round_double_overflow. rewrite Hr. discriminate.
  - split; [reflexivity|]. apply round_double_overflow. rewrite Hr. discriminate.
Qed.

(** [a + t] for a float [t] raises only [OverflowError], and only for an
    [a] too large for a double. *)
Lemma float_add_overflow (a t : Q) (e : exn) :
  is_double t -> Shape.float_add a t = Raise e ->
  e = OverflowError /\ (Shape.pow2 1024 - Shape.pow2 970 <= Qabs a)%Q.
Proof.
  intros Ht. unfold Shape.float_add.
  pose proof (to_double_cases a) as Ha.
  destruct (Shape.to_double a) as [d|e']; cbn [rbind].
  - unfold Shape.to_double. rewrite (round_double_of_double t Ht). discriminate.
  - intros [= <-]. exact Ha.
Qed.

(** C8. For a shape that passed validation, [get_bounds] is [None] for a
    path and for a group; for the other kinds it is the local axis-aligned
    box of the geometry (rectangle [(0, 0, w, h)], circle [(-r, -r, r, r)],
    ellipse [(-rx, -ry, rx, ry)], line and point lists the least and greatest
    coordinates) moved by the transform's [x] and [y] in the arithmetic of
    floats: each coordinate is converted to a double and the sum is rounded
    to the nearest double.  The call raises only when a coordinate is an int
    too large for a double, and then [OverflowError].  Nothing else of the
    transform counts: any transform with the same [x] and [y] gives the same
    outcome.  A polyline or polygon whose points list is empty (which no
    validated shape has) gets [None].  Of the sums: the sum of two doubles
    never raises; it is the exact sum when a double holds that, and
    otherwise an infinity or a double that differs from the exact sum by at
    most [2 ** -53] times its magnitude ([2 ** -1075] among the smallest
    numbers); and a sum raises only for a coordinate of magnitude
    [2 ** 1024 - 2 ** 970] or more. *)
Theorem get_bounds_local_box_translated (s0 s : Shape.Shape)
    (Hvalid : Shape.validate_geometry s0 = Ok s) :
  (exists bx,
      local_box (Shape.type s) (Shape.geometry s) bx
      /\ Shape.get_bounds s
         = Shape.translated (Shape.offset s).1 (Shape.offset s).2 bx)
  /\ (forall e, Shape.get_bounds s = Raise e -> e = OverflowError)
  /\ (forall t, Shape.x t = (Shape.offset s).1 -> Shape.y t = (Shape.offset s).2 ->
                Shape.get_bounds (with_transform s t) = Shape.get_bounds s)
  /\ (forall u, Shape.type u = Shape.POLYLINE \/ Shape.type u = Shape.POLYGON ->
                Shape.geometry u !! "points"%string = Some (Shape.VList []) ->
                Shape.get_bounds u = Ok None)
  /\ (forall a t,
         is_double a -> is_double t ->
         exists r,
           Shape.float_add a t = Ok r
           /\ (is_double (a + t) -> r = Shape.Finite (Qred (a + t)))
           /\ (forall v, r = Shape.Finite v ->
                         is_double v
                         /\ (Qabs (v - (a + t))
                             <= Qmax (Qabs (a + t) * Shape.pow2 (-53))
                                  (Shape.pow2 (-1075)))%Q))
  /\ (forall a t e,
         is_double t -> Shape.float_add a t = Raise e ->
         e = OverflowError
         /\ (Shape.pow2 1024 - Shape.pow2 970 <= Qabs a)%Q).
Proof.
  destruct s0 as [id ty g st tr vis lk nm].
  apply validate_geometry_inv in Hvalid as [Hv ->].
  cbn [Shape.id Shape.type Shape.geometry Shape.style Shape.transform
       Shape.visible Shape.locked Shape.name] in *.
  set (t0 := default Shape.Transform_default tr).
  assert (Shape.get_bounds (shape_of id ty g st tr vis lk nm)
          = do base_bounds <- Shape._calculate_base_bounds
                                (shape_of id ty g st tr vis lk nm);
            Shape.translated (Shape.x t0) (Shape.y t0) base_bounds) as Hgb.
  { now rewrite <- get_bounds_transform. }
  destruct (base_bounds_local_box ty g (shape_of id ty g st tr vis lk nm))
    as (bx & Hbox & Hbase); auto.
  split; [|split; [|split; [|split; [|split]]]];
    [| | | |exact float_add_doubles|exact float_add_overflow].
  - exists bx. split; [exact Hbox|]. rewrite Hgb, Hbase. reflexivity.
  - intros e. rewrite Hgb, Hbase. apply translated_raise.
  - intros t Hx Hy. rewrite Hgb, get_bounds_transform.
    simpl in Hx, Hy. now rewrite Hx, Hy.
  - intros u Hty Hg. unfold Shape.get_bounds, Shape._calculate_base_bounds, Shape.item.
    destruct Hty as [-> | ->]; rewrite Hg; reflexivity.
Qed.

Lemma get_bounds_local_box_translated_witness :
  exists bx,
    local_box (Shape.type polyline_shape) (Shape.geometry polyline_shape) bx
    /\ Shape.get_bounds polyline_shape
       = Shape.translated (Shape.offset polyline_shape).1
                          (Shape.offset polyline_shape).2 bx.
Proof.
  apply (proj1 (get_bounds_local_box_translated polyline_shape polyline_shape
                  eq_refl)).
Defined.

(** Not every validated shape has bounds, and the box is not always moved
    by exactly [x] and [y].  A circle whose radius is the int [2 ** 1024]
    passes validation and [get_bounds] raises [OverflowError] on it.  A
    rectangle whose width is the int [2 ** 64 + 1], not moved at all, gets
    the greatest [x] of [2 ** 64].  And the point [0.1] moved by [0.2] lands
    on [0.30000000000000004], the double above the double nearest to three
    tenths: the sum of the two doubles is rounded. *)
Lemma get_bounds_overflow_and_rounding :
  (exists s,
      Shape.Shape_new "shape-3" Shape.CIRCLE huge_circle_geometry
        None None true false None = Ok s
      /\ local_box (Shape.type s) (Shape.geometry s)
           (Some (- inject_Z (2 ^ 1024), - inject_Z (2 ^ 1024),
                  inject_Z (2 ^ 1024), inject_Z (2 ^ 1024))%Q)
      /\ Shape.offset s = (0, 0)%Q
      /\ Shape.get_bounds s = Raise OverflowError)
  /\ (exists s,
         Shape.Shape_new "shape-4" Shape.RECTANGLE wide_rect_geometry
           None None true false None = Ok s
         /\ local_box (Shape.type s) (Shape.geometry s)
              (Some (0, 0, inject_Z (2 ^ 64 + 1), 50)%Q)
         /\ Shape.offset s = (0, 0)%Q
         /\ Shape.get_bounds s
            = Ok (Some (Shape.Finite 0, Shape.Finite 0,
                        Shape.Finite (inject_Z (2 ^ 64)), Shape.Finite 50)))
  /\ Shape.round_double (1 # 10) = Shape.Finite tenth
  /\ Shape.round_double (2 # 10) = Shape.Finite fifth
  /\ Shape.round_double (3 # 10) = Shape.Finite three_tenths
  /\ Shape.float_add tenth fifth = Ok (Shape.Finite above_three_tenths)
  /\ (three_tenths < tenth + fifth < above_three_tenths)%Q.
Proof.
  split; [|split; [|repeat split; vm_compute; reflexivity]].
  - eexists. split; [reflexivity|]. split; [|split].
    + exists (inject_Z (2 ^ 1024)). split; reflexivity.
    + reflexivity.
    + vm_compute. reflexivity.
  - eexists. split; [reflexivity|]. split; [|split].
    + exists (inject_Z (2 ^ 64 + 1)), 50%Q. repeat split; reflexivity.
    + reflexivity.
    + vm_compute. reflexivity.
Qed.

(** The numbers of the example above are doubles, and so are the integers
    of up to 53 bits. *)
Example doubles :
  is_double tenth /\ is_double fifth /\ is_double three_tenths
  /\ is_double above_three_tenths
  /\ (forall n : Z, Z.abs n < 2 ^ 53 -> is_double (inject_Z n)).
Proof.
  split; [exists 3602879701896397, (-55); repeat split; lia|].
  split; [exists 3602879701896397, (-54); repeat split; lia|].
  split; [exists 5404319552844595, (-54); repeat split; lia|].
  split; [exists 1351079888211149, (-52); repeat split; lia|].
  intros n Hn. exists n, 0. split; [exact Hn|]. split; [lia|]. split.
  - change (Shape.pow2 0) with 1%Q. ring.
  - rewrite Qabs_inject_Z, (pow2_of_nonneg 1024) by lia. rewrite <- Zlt_Qlt.
    assert (2 ^ 53 < 2 ^ 1024) by (apply Z.pow_lt_mono_r; lia). lia.
Qed.

(** The bounds that the tests of the package expect. *)
Example get_bounds_tests :
  (do s <- Shape.Shape_new "s" Shape.RECTANGLE rect_geometry None None true false None;
   Shape.get_bounds s)
  = Ok (Some (Shape.Finite 0, Shape.Finite 0, Shape.Finite 100, Shape.Finite 50))
  /\ Shape.get_bounds polyline_shape
     = Ok (Some (Shape.Finite 11, Shape.Finite 7, Shape.Finite 51, Shape.Finite 42))
  /\ (do s <- Shape.Shape_new "s" Shape.PATH
                (dict [("path_data", Shape.VStr "M 10,10 L 50,50")]%string)
                None None true false None;
      Shape.get_bounds s) = Ok None
  /\ (do s <- Shape.Shape_new "s" Shape.GROUP
                (dict [("children", Shape.VList [Shape.VStr "a"])]%string)
                None None true false None;
      Shape.get_bounds s) = Ok None.
Proof. repeat split; vm_compute; reflexivity. Qed.

(** ** Hex colours *)

Lemma hex_char_facts (c : ascii) :
  Color.is_hex_digit c = true ->
  Color.hex_val (Color.upper_char c) = Some (digit_value c)
  /\ Color.hex_val c = Some (digit_value c)
  /\ Color.hex_char (digit_value c) = Color.lower_char c
  /\ Color.is_space (Color.upper_char c) = false
  /\ Color.is_upper_hex_digit (Color.upper_char c) = true
  /\ In (digit_value c) nibbles.
Proof.
  destruct c as [[] [] [] [] [] [] [] []]; intros H; vm_compute in H;
    try discriminate H; vm_compute; intuition congruence.
Qed.

Lemma format_02x_nibbles :
  forallb (fun v1 =>
    forallb (fun v2 =>
      String.eqb (Color.format_02x (16 * v1 + v2))
        (String (Color.hex_char v1) (String (Color.hex_char v2) EmptyString)))
      nibbles) nibbles = true.
Proof. vm_compute. reflexivity. Qed.

Lemma format_02x_byte (v1 v2 : Z) :
  In v1 nibbles -> In v2 nibbles ->
  Color.format_02x (16 * v1 + v2)
  = String (Color.hex_char v1) (String (Color.hex_char v2) EmptyString).
Proof.
  intros H1 H2. pose proof format_02x_nibbles as H.
  rewrite forallb_forall in H. specialize (H v1 H1).
  rewrite forallb_forall in H. specialize (H v2 H2).
  now apply String.eqb_eq.
Qed.

Lemma nibbles_range (v : Z) : In v nibbles -> 0 <= v < 16.
Proof.
  unfold nibbles. rewrite in_map_iff. intros (n & <- & Hn).
  apply in_seq in Hn. lia.
Qed.

(** Two hex digits, read by [int(.., 16)] after [upper], and printed by
    [format(.., '02x')]. *)
Lemma byte_pair (c1 c2 : ascii) :
  Color.is_hex_digit c1 = true -> Color.is_hex_digit c2 = true ->
  let n := 16 * digit_value c1 + digit_value c2 in
  Color.int16 (String (Color.upper_char c1)
                 (String (Color.upper_char c2) EmptyString)) = Ok n
  /\ Color.byte_ok n = true
  /\ Color.format_02x n
     = String (Color.lower_char c1) (String (Color.lower_char c2) EmptyString).
Proof.
  intros H1 H2.
  destruct (hex_char_facts c1 H1) as (Hv1 & _ & Hc1 & Hs1 & _ & Hn1).
  destruct (hex_char_facts c2 H2) as (Hv2 & _ & Hc2 & Hs2 & _ & Hn2).
  split; [|split].
  - unfold Color.int16. cbn [Color.lstrip]. rewrite Hs1.
    cbn [Color.rstrip]. rewrite Hs2. cbn [Color.hex_digits_val of_option].
    rewrite Hv1. cbn [Color.hex_digits_val]. rewrite Hv2. reflexivity.
  - apply nibbles_range in Hn1, Hn2. unfold Color.byte_ok. lia.
  - rewrite format_02x_byte by assumption. now rewrite Hc1, Hc2.
Qed.

Lemma py_round_integer (x : Q) (n : Z) : (x == inject_Z n)%Q -> Color.py_round x = n.
Proof.
  intros Hx. unfold Color.py_round.
  assert (Qfloor x = n) as -> by (rewrite Hx; apply Qfloor_Z).
  assert (Qcompare (x - inject_Z n) (1 # 2) = Lt) as ->; [|reflexivity].
  apply Qlt_alt. rewrite Hx. unfold Qminus. rewrite Qplus_opp_r. reflexivity.
Qed.

Lemma alpha_byte (n : Z) :
  0 <= n <= 255 ->
  Qle_bool 0 (inject_Z n / 255) = true
  /\ Qle_bool (inject_Z n / 255) 1 = true
  /\ Color.py_round (inject_Z n / 255 * 255) = n.
Proof.
  intros Hn. split; [|split].
  - apply Qle_bool_iff. unfold Qle. simpl. lia.
  - apply Qle_bool_iff. unfold Qle. simpl. lia.
  - apply py_round_integer. field.
Qed.

Lemma hex_run_all (d : string) :
  Color.all_chars Color.is_hex_digit d = true -> Color.hex_run_to_end d = true.
Proof.
  induction d as [|c d IH]; simpl; [reflexivity|].
  intros H. apply andb_true_iff in H as [Hc Hd]. rewrite Hc. now apply IH.
Qed.

Lemma upper_hex_canonical (d : string) :
  Color.all_chars Color.is_hex_digit d = true ->
  Color.all_chars Color.is_upper_hex_digit (Color.upper d) = true
  /\ String.length (Color.upper d) = String.length d.
Proof.
  unfold Color.upper. induction d as [|c d IH]; simpl; [auto|].
  intros H. apply andb_true_iff in H as [Hc Hd].
  destruct (IH Hd) as [-> ->].
  destruct (hex_char_facts c Hc) as (_ & _ & _ & _ & -> & _). auto.
Qed.

(** Parsing valid digits stores them in upper case behind a [#]. *)
Lemma HexColor_new_valid (s : string) :
  valid_hex_digits (Color.strip_hash s) ->
  Color.HexColor_new s = Ok {| Color.value := String "#" (Color.upper (Color.strip_hash s)) |}
  /\ Color.canonical_upper_hex (String "#" (Color.upper (Color.strip_hash s))) = true.
Proof.
  intros [Hlen Hhex].
  unfold Color.HexColor_new, Color.validate_hex_color.
  fold (Color.strip_hash s). set (d := Color.strip_hash s) in *.
  assert (((String.length d =? 6)%nat || (String.length d =? 8)%nat) = true) as Hl.
  { destruct Hlen as [-> | ->]; reflexivity. }
  assert (Color.re_match_hex d = true) as Hre.
  { unfold Color.re_match_hex. destruct d as [|c d'].
    - simpl in Hlen. lia.
    - rewrite (hex_run_all _ Hhex). simpl in Hhex.
      apply andb_true_iff in Hhex as [-> _]. reflexivity. }
  rewrite Hl, Hre. simpl. split; [reflexivity|].
  destruct (upper_hex_canonical d Hhex) as [-> ->]. now rewrite Hl.
Qed.

Lemma string_of_length_6 (d : string) :
  String.length d = 6%nat ->
  exists c1 c2 c3 c4 c5 c6,
    d = String c1 (String c2 (String c3 (String c4 (String c5
          (String c6 EmptyString))))).
Proof.
  destruct d as [|c1 [|c2 [|c3 [|c4 [|c5 [|c6 [|c7 d]]]]]]]; simpl;
    try discriminate. intros _. now exists c1, c2, c3, c4, c5, c6.
Qed.

Lemma string_of_length_8 (d : string) :
  String.length d = 8%nat ->
  exists c1 c2 c3 c4 c5 c6 c7 c8,
    d = String c1 (String c2 (String c3 (String c4 (String c5
          (String c6 (String c7 (String c8 EmptyString))))))).
Proof.
  destruct d as [|c1 [|c2 [|c3 [|c4 [|c5 [|c6 [|c7 [|c8 [|c9 d]]]]]]]]]; simpl;
    try discriminate. intros _. now exists c1, c2, c3, c4, c5, c6, c7, c8.
Qed.

(** C1, as the code has it.  A string whose digits (what is left without
    one leading [#]) are 6 or 8 hex digits parses to the canonical upper-case
    value [#] + digits.  Converting that to RGBA and back to hex gives [#]
    and eight lower-case digits: the digits of the source in lower case,
    followed by [ff] when the source had six.  The alpha is [1.0] when the
    source had six digits and the fourth byte over 255 when it had eight;
    through RGB the alpha is dropped and six lower-case digits come back. *)
Theorem hex_round_trip_lower_case (s : string)
    (Hvalid : valid_hex_digits (Color.strip_hash s)) :
  exists h c rgb,
    Color.HexColor_new s = Ok h
    /\ Color.value h = String "#" (Color.upper (Color.strip_hash s))
    /\ Color.canonical_upper_hex (Color.value h) = true
    /\ Color.to_rgba h = Ok c
    /\ Color.a c = alpha_of (Color.strip_hash s)
    /\ Color.RGBAColor_to_hex c
       = String "#" (Color.lower (Color.strip_hash s)
                     +:+ (if (String.length (Color.strip_hash s) =? 6)%nat
                          then "ff" else ""))
    /\ Color.to_rgb h = Ok rgb
    /\ Color.RGBColor_to_hex rgb
       = String "#" (Color.lower (Color.slice 0 6 (Color.strip_hash s))).
Proof.
  destruct (HexColor_new_valid s Hvalid) as [Hnew Hcanon].
  destruct Hvalid as [Hlen Hhex].
  set (d := Color.strip_hash s) in *.
  exists {| Color.value := String "#" (Color.upper d) |}.
  rewrite Hnew. clearbody d. clear Hnew s.
  destruct Hlen as [Hlen|Hlen].
  - destruct (string_of_length_6 d Hlen) as (c1 & c2 & c3 & c4 & c5 & c6 & ->).
    simpl in Hhex.
    repeat match type of Hhex with
           | (_ && _)%bool = true => apply andb_true_iff in Hhex as [? Hhex]
           end.
    destruct (byte_pair c1 c2) as (Hi1 & Hb1 & Hf1); auto.
    destruct (byte_pair c3 c4) as (Hi2 & Hb2 & Hf2); auto.
    destruct (byte_pair c5 c6) as (Hi3 & Hb3 & Hf3); auto.
    cbv zeta in Hi1, Hi2, Hi3, Hb1, Hb2, Hb3, Hf1, Hf2, Hf3.
    unfold Color.to_rgba, Color.to_rgb, Color.RGBAColor_new, Color.RGBColor_new.
    cbn [Color.value Color.upper Color.map_string Color.slice_from Color.slice
         String.length substring Nat.sub Nat.eqb].
    rewrite Hi1, Hi2, Hi3. cbn [rbind]. rewrite Hb1, Hb2, Hb3. cbn [andb Qle_bool].
    eexists. eexists.
    split; [reflexivity|]. split; [reflexivity|]. split; [exact Hcanon|].
    split; [reflexivity|]. split; [reflexivity|].
    split; [|split; [reflexivity|]].
    + unfold Color.RGBAColor_to_hex. cbn [Color.r Color.g Color.b Color.a].
      rewrite Hf1, Hf2, Hf3. reflexivity.
    + unfold Color.RGBColor_to_hex. cbn [Color.rgb_r Color.rgb_g Color.rgb_b].
      rewrite Hf1, Hf2, Hf3. reflexivity.
  - destruct (string_of_length_8 d Hlen)
      as (c1 & c2 & c3 & c4 & c5 & c6 & c7 & c8 & ->).
    simpl in Hhex.
    repeat match type of Hhex with
           | (_ && _)%bool = true => apply andb_true_iff in Hhex as [? Hhex]
           end.
    destruct (byte_pair c1 c2) as (Hi1 & Hb1 & Hf1); auto.
    destruct (byte_pair c3 c4) as (Hi2 & Hb2 & Hf2); auto.
    destruct (byte_pair c5 c6) as (Hi3 & Hb3 & Hf3); auto.
    destruct (byte_pair c7 c8) as (Hi4 & Hb4 & Hf4); auto.
    cbv zeta in Hi1, Hi2, Hi3, Hi4, Hb1, Hb2, Hb3, Hb4, Hf1, Hf2, Hf3, Hf4.
    assert (0 <= 16 * digit_value c7 + digit_value c8 <= 255) as Hrange.
    { unfold Color.byte_ok in Hb4. lia. }
    destruct (alpha_byte _ Hrange) as (Ha0 & Ha1 & Hround).
    unfold Color.to_rgba, Color.to_rgb, Color.RGBAColor_new, Color.RGBColor_new.
    cbn [Color.value Color.upper Color.map_string Color.slice_from Color.slice
         String.length substring Nat.sub Nat.eqb].
    rewrite Hi1, Hi2, Hi3, Hi4. cbn [rbind]. rewrite Hb1, Hb2, Hb3, Ha0, Ha1.
    cbn [andb].
    eexists. eexists.
    split; [reflexivity|]. split; [reflexivity|]. split; [exact Hcanon|].
    split; [reflexivity|]. split; [|split; [|split; [reflexivity|]]].
    + unfold alpha_of.
      cbn [Color.a Color.slice String.length substring Nat.sub Nat.eqb
           Color.hex_digits_val].
      destruct (hex_char_facts c7) as (_ & -> & _); [assumption|].
      destruct (hex_char_facts c8) as (_ & -> & _); [assumption|].
      reflexivity.
    + unfold Color.RGBAColor_to_hex. cbn [Color.r Color.g Color.b Color.a].
      rewrite Hround, Hf1, Hf2, Hf3, Hf4. reflexivity.
    + unfold Color.RGBColor_to_hex. cbn [Color.rgb_r Color.rgb_g Color.rgb_b].
      rewrite Hf1, Hf2, Hf3. reflexivity.
Qed.

Lemma hex_round_trip_lower_case_witness :
  exists h c rgb,
    Color.HexColor_new "#Ff804080" = Ok h
    /\ Color.value h = String "#" (Color.upper (Color.strip_hash "#Ff804080"))
    /\ Color.canonical_upper_hex (Color.value h) = true
    /\ Color.to_rgba h = Ok c
    /\ Color.a c = alpha_of (Color.strip_hash "#Ff804080")
    /\ Color.RGBAColor_to_hex c
       = String "#" (Color.lower (Color.strip_hash "#Ff804080")
                     +:+ (if (String.length (Color.strip_hash "#Ff804080") =? 6)%nat
                          then "ff" else ""))
    /\ Color.to_rgb h = Ok rgb
    /\ Color.RGBColor_to_hex rgb
       = String "#" (Color.lower (Color.slice 0 6 (Color.strip_hash "#Ff804080"))).
Proof.
  apply (hex_round_trip_lower_case "#Ff804080").
  split; [right; reflexivity | reflexivity].
Defined.

(** Six upper-case digits come back, through RGBA, as eight lower-case
    ones, which is not the canonical upper-case form; through RGB an
    eight-digit source loses its alpha too.  The tests of the package expect
    the lower case ([to_hex() == "#ff8040"]). *)
Lemma hex_round_trip_not_upper_case :
  valid_hex_digits_b "FF8040" = true
  /\ Color.hex_rgba_hex "FF8040" = Ok "#ff8040ff"%string
  /\ Color.canonical_upper_hex "#ff8040ff" = false
  /\ Color.hex_rgba_hex "#FF804080" = Ok "#ff804080"%string
  /\ Color.canonical_upper_hex "#ff804080" = false
  /\ Color.hex_rgb_hex "#FF804080" = Ok "#ff8040"%string.
Proof. repeat split. Qed.

Example hex_tests :
  Color.HexColor_new "FF8040" = Ok {| Color.value := "#FF8040" |}
  /\ Color.HexColor_new "#FF80" = Raise InvalidStyleError
  /\ Color.HexColor_new "#FF80403G" = Raise InvalidStyleError
  /\ Color.HexColor_new "#FF8040ABC" = Raise InvalidStyleError
  /\ Color.RGBAColor_to_hex
       {| Color.r := 255; Color.g := 128; Color.b := 64; Color.a := 0.5 |}
     = "#ff804080"%string.
Proof. repeat split. Qed.

(** ** Children and their back-references *)

Section ObjectFacts.
Implicit Types (σ : gmap Objects.ref Objects.obj) (g c r : Objects.ref) (o : Objects.obj).

Lemma obj_id_set_parent p o : Objects.obj_id (Objects.set_parent p o) = Objects.obj_id o.
Proof. destruct o; reflexivity. Qed.

Lemma obj_id_set_children h o :
  Objects.obj_id (Objects.set_children h o) = Objects.obj_id o.
Proof. destruct o; reflexivity. Qed.

Lemma id_of_alter (f : Objects.obj -> Objects.obj) r σ x :
  (forall o, Objects.obj_id (f o) = Objects.obj_id o) ->
  Objects.id_of (alter f r σ) x = Objects.id_of σ x.
Proof.
  intros Hf. unfold Objects.id_of. rewrite lookup_alter.
  destruct (decide (r = x)) as [->|_]; [|reflexivity].
  destruct (σ !! x) as [o|]; simpl; [|reflexivity]. now rewrite Hf.
Qed.

Lemma is_group_alter (f : Objects.obj -> Objects.obj) r σ g :
  (forall o, match f o, o with
             | Objects.GroupObj _ _, Objects.GroupObj _ _
             | Objects.LayerObj _, Objects.LayerObj _ => True
             | _, _ => False
             end) ->
  Objects.is_group (alter f r σ) g = Objects.is_group σ g.
Proof.
  intros Hf. unfold Objects.is_group. rewrite lookup_alter.
  destruct (decide (r = g)) as [->|_]; [|reflexivity].
  destruct (σ !! g) as [o|]; simpl; [|reflexivity].
  specialize (Hf o). destruct (f o), o; tauto.
Qed.

Lemma children_of_set_parent p r σ g :
  Objects.children_of (alter (Objects.set_parent p) r σ) g = Objects.children_of σ g.
Proof.
  unfold Objects.children_of. rewrite lookup_alter.
  destruct (decide (r = g)) as [->|_]; [|reflexivity].
  destruct (σ !! g) as [[l|f cs]|]; reflexivity.
Qed.

Lemma parent_of_set_parent p r σ c :
  Objects.parent_of (alter (Objects.set_parent p) r σ) c
  = if decide (c = r)
    then match σ !! c with Some _ => p | None => None end
    else Objects.parent_of σ c.
Proof.
  unfold Objects.parent_of. rewrite lookup_alter.
  destruct (decide (r = c)) as [->|Hne].
  - rewrite decide_True by reflexivity.
    destruct (σ !! c) as [[l|f cs]|]; reflexivity.
  - rewrite decide_False by congruence. reflexivity.
Qed.

Lemma children_of_set_children h r σ g :
  Objects.is_group σ r = true ->
  Objects.children_of (alter (Objects.set_children h) r σ) g
  = if decide (g = r) then h (Objects.children_of σ r) else Objects.children_of σ g.
Proof.
  unfold Objects.children_of, Objects.is_group. rewrite lookup_alter.
  destruct (decide (r = g)) as [->|Hne].
  - rewrite decide_True by reflexivity.
    destruct (σ !! g) as [[l|f cs]|]; simpl; intros; congruence.
  - rewrite decide_False by congruence. reflexivity.
Qed.

Lemma parent_of_set_children h r σ c :
  Objects.parent_of (alter (Objects.set_children h) r σ) c = Objects.parent_of σ c.
Proof.
  unfold Objects.parent_of. rewrite lookup_alter.
  destruct (decide (r = c)) as [->|_]; [|reflexivity].
  destruct (σ !! c) as [[l|f cs]|]; reflexivity.
Qed.

Lemma is_group_set_parent p r σ g :
  Objects.is_group (alter (Objects.set_parent p) r σ) g = Objects.is_group σ g.
Proof. apply is_group_alter. intros [l|f cs]; exact I. Qed.

Lemma children_nonempty_group σ g c :
  c ∈ Objects.children_of σ g -> Objects.is_group σ g = true.
Proof.
  unfold Objects.children_of, Objects.is_group.
  destruct (σ !! g) as [[l|f cs]|]; simpl; auto; intros H; inversion H.
Qed.

Lemma is_group_id σ g :
  Objects.is_group σ g = true -> exists i, Objects.id_of σ g = Some i.
Proof.
  unfold Objects.is_group, Objects.id_of.
  destruct (σ !! g) as [o|]; [|discriminate]. simpl. eauto.
Qed.

(** *** [add_child] *)

Lemma add_child_children σ g c g' :
  Objects.is_group σ g = true ->
  Objects.children_of (Objects.add_child g c σ) g'
  = if decide (g' = g) then Objects.children_of σ g ++ [c]
    else Objects.children_of σ g'.
Proof.
  intros Hg. unfold Objects.add_child.
  destruct (σ !! g) as [o|] eqn:Ho;
    [|unfold Objects.is_group in Hg; rewrite Ho in Hg; discriminate].
  rewrite children_of_set_children by (now rewrite is_group_set_parent).
  rewrite !children_of_set_parent. reflexivity.
Qed.

Lemma add_child_parent σ g c c' :
  Objects.is_group σ g = true ->
  Objects.parent_of (Objects.add_child g c σ) c'
  = if decide (c' = c)
    then match σ !! c with Some _ => Objects.id_of σ g | None => None end
    else Objects.parent_of σ c'.
Proof.
  intros Hg. unfold Objects.add_child, Objects.id_of.
  destruct (σ !! g) as [o|] eqn:Ho;
    [|unfold Objects.is_group in Hg; rewrite Ho in Hg; discriminate].
  rewrite parent_of_set_children, parent_of_set_parent.
  destruct (decide (c' = c)) as [->|_]; reflexivity.
Qed.

Lemma add_child_id σ g c x :
  Objects.id_of (Objects.add_child g c σ) x = Objects.id_of σ x.
Proof.
  unfold Objects.add_child. destruct (σ !! g) as [o|]; [|reflexivity].
  rewrite id_of_alter by (intros; apply obj_id_set_children).
  apply id_of_alter. intros; apply obj_id_set_parent.
Qed.

(** [add_child] keeps the back-references right when the child handed over
    is in no group. *)
Lemma add_child_consistent σ g c :
  Objects.consistent σ -> Objects.is_group σ g = true ->
  Objects.detached σ c = true ->
  Objects.consistent (Objects.add_child g c σ).
Proof.
  intros (Hpar & Hnd & Hback) Hg Hc.
  assert (is_Some (σ !! c) /\ Objects.parent_of σ c = None) as [[o Ho] Hpc].
  { unfold Objects.detached, Objects.parent_of in *.
    destruct (σ !! c) as [o|]; [|discriminate].
    destruct (Objects.parent_id o); [discriminate|eauto]. }
  destruct (is_group_id σ g Hg) as [i Hi].
  assert (forall g', c ∉ Objects.children_of σ g') as Hfree.
  { intros g' Hin. pose proof (Hpar _ _ Hin) as Hp. rewrite Hpc in Hp.
    destruct (is_group_id σ g' (children_nonempty_group _ _ _ Hin)) as [j Hj].
    congruence. }
  split; [|split].
  - intros g' c'. rewrite add_child_children, add_child_parent, add_child_id, Ho
      by exact Hg.
    destruct (decide (g' = g)) as [->|Hne].
    + intros Hin. apply elem_of_app in Hin as [Hin|Hin].
      * destruct (decide (c' = c)) as [->|_]; [reflexivity|]. now apply Hpar.
      * apply list_elem_of_singleton in Hin as ->.
        now rewrite decide_True by reflexivity.
    + intros Hin. destruct (decide (c' = c)) as [->|_].
      * now destruct (Hfree g').
      * now apply Hpar.
  - intros g'. rewrite add_child_children by exact Hg.
    destruct (decide (g' = g)) as [->|_]; [|apply Hnd].
    apply NoDup_app. split; [apply Hnd|]. split; [|apply NoDup_singleton].
    intros x Hx Hxc. apply list_elem_of_singleton in Hxc as ->.
    now apply (Hfree g).
  - intros c' j. rewrite add_child_parent, Ho by exact Hg.
    destruct (decide (c' = c)) as [->|Hne].
    + intros Hj. exists g. rewrite add_child_id, add_child_children by exact Hg.
      split; [exact Hj|]. rewrite decide_True by reflexivity.
      apply elem_of_app. right. apply list_elem_of_here.
    + intros Hp. destruct (Hback _ _ Hp) as (g' & Hg' & Hin).
      exists g'. rewrite add_child_id, add_child_children by exact Hg.
      split; [exact Hg'|].
      destruct (decide (g' = g)) as [->|_]; [|exact Hin].
      apply elem_of_app. now left.
Qed.

(** *** [remove_child] *)

Lemma take_out_children σ g r k g' :
  Objects.is_group σ g = true ->
  Objects.children_of (Objects.take_out k g r σ) g'
  = if decide (g' = g) then delete k (Objects.children_of σ g)
    else Objects.children_of σ g'.
Proof.
  intros Hg. unfold Objects.take_out.
  rewrite children_of_set_parent. now apply children_of_set_children.
Qed.

Lemma take_out_parent σ g r k c :
  Objects.parent_of (Objects.take_out k g r σ) c
  = if decide (c = r) then None else Objects.parent_of σ c.
Proof.
  unfold Objects.take_out.
  rewrite parent_of_set_parent, parent_of_set_children.
  destruct (decide (c = r)) as [->|_]; [|reflexivity].
  destruct (alter _ g σ !! r); reflexivity.
Qed.

Lemma take_out_id σ g r k x :
  Objects.id_of (Objects.take_out k g r σ) x = Objects.id_of σ x.
Proof.
  unfold Objects.take_out.
  rewrite id_of_alter by (intros; apply obj_id_set_parent).
  apply id_of_alter. intros; apply obj_id_set_children.
Qed.

Lemma NoDup_delete_lookup (cs : list Objects.ref) i c :
  NoDup cs -> cs !! i = Some c ->
  NoDup (delete i cs) /\ (c ∉ delete i cs)
  /\ (forall x, x ∈ cs -> x <> c -> x ∈ delete i cs).
Proof.
  intros Hnd Hi. rewrite delete_take_drop.
  rewrite <- (take_drop_middle cs i c Hi) in Hnd.
  apply NoDup_app in Hnd as (Hnt & Hdis & Hnc).
  apply NoDup_cons in Hnc as [Hcd Hnd].
  split; [|split].
  - apply NoDup_app. split; [exact Hnt|]. split; [|exact Hnd].
    intros x Hx Hxd. apply (Hdis x Hx). now apply list_elem_of_further.
  - intros Hin. apply elem_of_app in Hin as [Hin|Hin]; [|contradiction].
    apply (Hdis c Hin). apply list_elem_of_here.
  - intros x Hx Hne. rewrite <- (take_drop_middle cs i c Hi) in Hx.
    apply elem_of_app in Hx as [Hx|Hx]; apply elem_of_app; [now left|].
    apply elem_of_cons in Hx as [->|Hx]; [contradiction|now right].
Qed.

(** Where ids are apart a child is in one group only. *)
Lemma one_group σ g1 g2 c :
  Objects.consistent σ -> Objects.ids_apart σ ->
  c ∈ Objects.children_of σ g1 -> c ∈ Objects.children_of σ g2 -> g1 = g2.
Proof.
  intros (Hpar & _ & _) Hids H1 H2.
  destruct (is_group_id σ g1 (children_nonempty_group _ _ _ H1)) as [i Hi].
  apply (Hids g1 g2 i Hi).
  rewrite <- (Hpar _ _ H2), (Hpar _ _ H1). exact Hi.
Qed.

(** Taking a child out of its group and clearing the [parent_id] of that
    same child keeps the back-references right. *)
Lemma take_out_consistent σ g r k :
  Objects.consistent σ -> Objects.ids_apart σ ->
  Objects.children_of σ g !! k = Some r ->
  Objects.consistent (Objects.take_out k g r σ)
  /\ Objects.parent_of (Objects.take_out k g r σ) r = None
  /\ forall g', r ∉ Objects.children_of (Objects.take_out k g r σ) g'.
Proof.
  intros Hcons Hids Hk. pose proof Hcons as (Hpar & Hnd & Hback).
  assert (r ∈ Objects.children_of σ g) as Hin by (eapply list_elem_of_lookup_2, Hk).
  pose proof (children_nonempty_group _ _ _ Hin) as Hg.
  destruct (NoDup_delete_lookup _ k r (Hnd g) Hk) as (Hnd' & Hnotin & Hkeep).
  assert (forall g', r ∉ Objects.children_of (Objects.take_out k g r σ) g') as Hgone.
  { intros g'. rewrite take_out_children by exact Hg.
    destruct (decide (g' = g)) as [->|Hne]; [exact Hnotin|].
    intros Hin'. apply Hne. exact (one_group σ g' g r Hcons Hids Hin' Hin). }
  split; [|split; [|exact Hgone]].
  - split; [|split].
    + intros g' c' Hin'. rewrite take_out_parent, take_out_id.
      destruct (decide (c' = r)) as [->|Hne]; [now destruct (Hgone g')|].
      rewrite take_out_children in Hin' by exact Hg.
      destruct (decide (g' = g)) as [->|_]; [|now apply Hpar].
      apply Hpar. eapply list_elem_of_delete_inv, Hin'.
    + intros g'. rewrite take_out_children by exact Hg.
      destruct (decide (g' = g)) as [->|_]; [exact Hnd'|apply Hnd].
    + intros c' j. rewrite take_out_parent.
      destruct (decide (c' = r)) as [->|Hne]; [discriminate|].
      intros Hp. destruct (Hback _ _ Hp) as (g' & Hg' & Hin').
      exists g'. rewrite take_out_id, take_out_children by exact Hg.
      split; [exact Hg'|].
      destruct (decide (g' = g)) as [->|_]; [|exact Hin']. now apply Hkeep.
  - rewrite take_out_parent. now rewrite decide_True by reflexivity.
Qed.

(** Two objects with different ids are not [==], and telling so takes one
    level of the comparison. *)
Lemma eqb_apart fuel σ a b :
  Objects.ids_apart σ -> a <> b ->
  Objects.eqb (S fuel) σ a b = Ok false.
Proof.
  intros Hids Hne. cbn [Objects.eqb].
  destruct (σ !! a) as [[k|f cs]|] eqn:Ha; [| |reflexivity];
    destruct (σ !! b) as [[l|h ds]|] eqn:Hb; try reflexivity.
  - assert (String.eqb (Layers.id k) (Layers.id l) = false) as Hid.
    { apply String.eqb_neq. intros Heq. apply Hne.
      apply (Hids a b (Layers.id k)); unfold Objects.id_of.
      - rewrite Ha. reflexivity.
      - rewrite Hb. simpl. now rewrite Heq. }
    unfold Layers.Layer_eqb. rewrite Hid. reflexivity.
  - assert (String.eqb (Layers.g_id f) (Layers.g_id h) = false) as Hid.
    { apply String.eqb_neq. intros Heq. apply Hne.
      apply (Hids a b (Layers.g_id f)); unfold Objects.id_of.
      - rewrite Ha. reflexivity.
      - rewrite Hb. simpl. now rewrite Heq. }
    rewrite Hid. reflexivity.
Qed.

(** So [remove] finds the object itself or nothing. *)
Lemma index_of_apart fuel σ x (cs : list Objects.ref) :
  Objects.ids_apart σ ->
  Objects.index_of (S fuel) σ x cs
  = Ok (PyList.find_index (fun c => (c =? x)%nat) cs).
Proof.
  intros Hids. induction cs as [|c cs IH]; [reflexivity|].
  cbn [Objects.index_of PyList.find_index].
  destruct (c =? x)%nat eqn:Hc; [reflexivity|].
  apply Nat.eqb_neq in Hc. rewrite (eqb_apart fuel σ c x Hids Hc).
  cbn [rbind]. rewrite IH. reflexivity.
Qed.

(** The two outcomes of [remove_child] where ids are apart: nothing that the
    argument names is among the children, and nothing changes; or a child
    that the argument names leaves, and it is the one whose [parent_id] is
    cleared. *)
Lemma remove_child_cases fuel σ g (a : Objects.child_arg) :
  Objects.ids_apart σ ->
  (Objects.remove_child (S fuel) g a σ = Ok (false, σ)
   /\ forall r, Objects.names σ a r -> r ∉ Objects.children_of σ g)
  \/ (exists k r,
        Objects.children_of σ g !! k = Some r /\ Objects.names σ a r
        /\ Objects.remove_child (S fuel) g a σ = Ok (true, Objects.take_out k g r σ)).
Proof.
  intros Hids. destruct a as [i|x]; cbn [Objects.remove_child Objects.names].
  - destruct (PyList.find_index (Objects.has_id σ i) (Objects.children_of σ g))
      as [k|] eqn:Hf.
    + right. destruct (find_index_Some _ _ _ Hf) as (r & Hr & Hp & _).
      exists k, r. rewrite Hr. split; [reflexivity|]. split; [|reflexivity].
      unfold Objects.has_id in Hp. unfold Objects.id_of.
      destruct (σ !! r) as [o|]; [|discriminate]. simpl.
      apply String.eqb_eq in Hp. now rewrite Hp.
    + left. split; [reflexivity|]. intros r Hr Hin.
      pose proof (proj1 (find_index_None _ _) Hf r Hin) as Hp.
      unfold Objects.has_id in Hp. unfold Objects.id_of in Hr.
      destruct (σ !! r) as [o|]; [|discriminate]. simpl in Hr.
      injection Hr as <-. rewrite String.eqb_refl in Hp. discriminate.
  - rewrite index_of_apart by exact Hids. cbn [rbind].
    destruct (PyList.find_index (fun c => (c =? x)%nat) (Objects.children_of σ g))
      as [k|] eqn:Hf.
    + right. destruct (find_index_Some _ _ _ Hf) as (r & Hr & Hp & _).
      apply Nat.eqb_eq in Hp as ->. exists k, x. auto.
    + left. split; [reflexivity|]. intros r -> Hin.
      pose proof (proj1 (find_index_None _ _) Hf x Hin) as Hp.
      cbv beta in Hp. rewrite Nat.eqb_refl in Hp. discriminate.
Qed.

Lemma ids_apart_same σ σ' :
  (forall x, Objects.id_of σ' x = Objects.id_of σ x) ->
  Objects.ids_apart σ -> Objects.ids_apart σ'.
Proof. intros Hsame Hids a b i. rewrite !Hsame. apply Hids. Qed.

(** A step of a sequence neither raises nor breaks the back-references. *)
Lemma step_consistent fuel σ (o : Objects.op) :
  Objects.consistent σ -> Objects.ids_apart σ ->
  match o with
  | Objects.AddChild g c =>
      Objects.is_group σ g = true /\ Objects.detached σ c = true
  | Objects.RemoveChild _ _ => True
  end ->
  exists σ', Objects.step (S fuel) σ o = Ok σ'
             /\ Objects.consistent σ' /\ Objects.ids_apart σ'.
Proof.
  intros Hcons Hids Ho. destruct o as [g c|g a]; cbn [Objects.step].
  - destruct Ho as [Hg Hc]. eexists. split; [reflexivity|]. split.
    + now apply add_child_consistent.
    + eapply ids_apart_same; [|exact Hids]. intros x. apply add_child_id.
  - destruct (remove_child_cases fuel σ g a Hids)
      as [[-> _]|(k & r & Hk & _ & ->)]; cbn [rbind snd].
    + eauto.
    + eexists. split; [reflexivity|]. split.
      * now apply take_out_consistent.
      * eapply ids_apart_same; [|exact Hids]. intros x. apply take_out_id.
Qed.

Lemma run_consistent fuel σ (ops : list Objects.op) :
  Objects.consistent σ -> Objects.ids_apart σ ->
  Objects.adds_detached (S fuel) σ ops = true ->
  exists σ', Objects.run (S fuel) σ ops = Ok σ'
             /\ Objects.consistent σ' /\ Objects.ids_apart σ'.
Proof.
  revert σ. induction ops as [|o ops IH]; intros σ Hcons Hids Hops.
  - exists σ. auto.
  - cbn [Objects.adds_detached] in Hops. apply andb_true_iff in Hops as [Ho Hops].
    destruct (step_consistent fuel σ o Hcons Hids) as (σ1 & Hstep & Hcons1 & Hids1).
    { destruct o as [g c|g a]; [|exact I]. now apply andb_true_iff in Ho. }
    rewrite Hstep in Hops. cbn [Objects.run]. rewrite Hstep. cbn [rbind].
    exact (IH σ1 Hcons1 Hids1 Hops).
Qed.

(** New objects are in no group and hold none. *)
Lemma heap_consistent (objs : list Objects.obj) :
  Forall (fun o => Objects.parent_id o = None /\ Objects.children o = []) objs ->
  Objects.consistent (Objects.heap objs).
Proof.
  intros Hnew.
  assert (forall r o, Objects.heap objs !! r = Some o ->
                      Objects.parent_id o = None /\ Objects.children o = []) as Hat.
  { intros r o Hr. unfold Objects.heap in Hr. rewrite lookup_map_seq_0 in Hr.
    exact (proj1 (Forall_lookup _ _) Hnew r o Hr). }
  assert (forall g, Objects.children_of (Objects.heap objs) g = []) as Hch.
  { intros g. unfold Objects.children_of.
    destruct (Objects.heap objs !! g) as [o|] eqn:Ho; [|reflexivity].
    exact (proj2 (Hat _ _ Ho)). }
  assert (forall c, Objects.parent_of (Objects.heap objs) c = None) as Hp.
  { intros c. unfold Objects.parent_of.
    destruct (Objects.heap objs !! c) as [o|] eqn:Ho; [|reflexivity].
    exact (proj1 (Hat _ _ Ho)). }
  split; [|split].
  - intros g c. rewrite Hch. intros H. inversion H.
  - intros g. rewrite Hch. constructor.
  - intros c i. rewrite Hp. discriminate.
Qed.

Lemma heap_ids_apart (objs : list Objects.obj) :
  NoDup (Objects.obj_id <$> objs) -> Objects.ids_apart (Objects.heap objs).
Proof.
  intros Hnd a b i. unfold Objects.id_of, Objects.heap.
  rewrite !lookup_map_seq_0, <- !list_lookup_fmap. intros Ha Hb.
  exact (NoDup_lookup _ a b i Hnd Ha Hb).
Qed.
End ObjectFacts.

(** C4, as the code has it.  Take objects that carry different ids, as
    [generate_id] gives them, and any sequence of [add_child] and
    [remove_child] calls, by id or by object, in which every [add_child]
    hands over a node that is in no group at that moment (new, or removed
    since).  No call raises, and afterwards the back-references agree with
    containment: a node is among the children of at most one group, and once
    only; while it is, its [parent_id] is that group's id; and a [parent_id]
    is set only while the node is contained.  A [remove_child] then either
    finds nothing that its argument names among the children, returns
    [False] and changes nothing, or takes a node that its argument names out
    of the group and leaves that node with [parent_id] [None], in no group.
    ([add_child] itself takes a child out of no group, and the object arm of
    [remove_child] clears the [parent_id] of its argument, not of the entry
    it removed: the two can differ when ids are shared.) *)
Theorem parent_id_consistent_when_added_detached
    (fuel : nat) (σ : gmap Objects.ref Objects.obj) (ops : list Objects.op)
    (Hfuel : (0 < fuel)%nat)
    (Hstart : Objects.consistent σ) (Hids : Objects.ids_apart σ)
    (Hops : Objects.adds_detached fuel σ ops = true) :
  exists σ',
    Objects.run fuel σ ops = Ok σ'
    /\ (forall g c, c ∈ Objects.children_of σ' g ->
                    Objects.parent_of σ' c = Objects.id_of σ' g)
    /\ (forall g1 g2 c, c ∈ Objects.children_of σ' g1 ->
                        c ∈ Objects.children_of σ' g2 -> g1 = g2)
    /\ (forall g, NoDup (Objects.children_of σ' g))
    /\ (forall c i, Objects.parent_of σ' c = Some i ->
                    exists g, Objects.id_of σ' g = Some i
                              /\ c ∈ Objects.children_of σ' g)
    /\ (forall g a,
           (Objects.remove_child fuel g a σ' = Ok (false, σ')
            /\ forall r, Objects.names σ' a r -> r ∉ Objects.children_of σ' g)
           \/ (exists r σ'',
                  Objects.remove_child fuel g a σ' = Ok (true, σ'')
                  /\ Objects.names σ' a r
                  /\ r ∈ Objects.children_of σ' g
                  /\ Objects.parent_of σ'' r = None
                  /\ forall g', r ∉ Objects.children_of σ'' g')).
Proof.
  destruct fuel as [|fuel]; [lia|].
  destruct (run_consistent fuel σ ops Hstart Hids Hops) as (σ' & Hrun & Hcons & Hids').
  pose proof Hcons as (Hpar & Hnd & Hback).
  exists σ'. split; [exact Hrun|]. split; [exact Hpar|].
  split; [|split; [exact Hnd|split; [exact Hback|]]].
  - intros g1 g2 c. now apply one_group.
  - intros g a.
    destruct (remove_child_cases fuel σ' g a Hids')
      as [Hnone|(k & r & Hk & Hr & Hrm)]; [left; exact Hnone|right].
    destruct (take_out_consistent σ' g r k Hcons Hids' Hk) as (_ & Hp & Hgone).
    exists r, (Objects.take_out k g r σ'). split; [exact Hrm|].
    split; [exact Hr|]. split; [eapply list_elem_of_lookup_2, Hk|]. auto.
Qed.

Lemma parent_id_consistent_when_added_detached_witness :
  exists σ',
    Objects.run 1000 three_objects
      [Objects.AddChild 0 2;
       Objects.RemoveChild 0 (Objects.ChildObj 2);
       Objects.AddChild 1 2;
       Objects.AddChild 0 1;
       Objects.RemoveChild 1 (Objects.ChildId "layer-1")]%nat = Ok σ'
    /\ Objects.consistent σ'.
Proof.
  assert (Objects.consistent three_objects) as Hstart.
  { apply heap_consistent. repeat constructor. }
  assert (Objects.ids_apart three_objects) as Hids.
  { apply heap_ids_apart. compute_done. }
  destruct (parent_id_consistent_when_added_detached 1000 three_objects
              [Objects.AddChild 0 2;
               Objects.RemoveChild 0 (Objects.ChildObj 2);
               Objects.AddChild 1 2;
               Objects.AddChild 0 1;
               Objects.RemoveChild 1 (Objects.ChildId "layer-1")]%nat
              ltac:(lia) Hstart Hids eq_refl)
    as (σ' & Hrun & Hpar & _ & Hnd & Hback & _).
  exists σ'. split; [exact Hrun|]. exact (conj Hpar (conj Hnd Hback)).
Defined.

(** One layer handed to two groups, one after the other: it is among the
    children of both, and points to the second only.  Removing it from the
    second then clears its [parent_id] while the first still holds it. *)
Lemma child_added_to_two_groups :
  Objects.consistent three_objects
  /\ Objects.ids_apart three_objects
  /\ exists σ1 σ2,
       Objects.run 1000 three_objects
         [Objects.AddChild 0 2; Objects.AddChild 1 2]%nat = Ok σ1
       /\ Objects.children_of σ1 0%nat = [2%nat]
       /\ Objects.children_of σ1 1%nat = [2%nat]
       /\ Objects.parent_of σ1 2%nat = Some "group-2"%string
       /\ Objects.run 1000 three_objects
            [Objects.AddChild 0 2; Objects.AddChild 1 2;
             Objects.RemoveChild 1 (Objects.ChildObj 2)]%nat = Ok σ2
       /\ Objects.children_of σ2 0%nat = [2%nat]
       /\ Objects.children_of σ2 1%nat = []
       /\ Objects.parent_of σ2 2%nat = None.
Proof.
  split; [apply heap_consistent; repeat constructor|].
  split; [apply heap_ids_apart; compute_done|].
  eexists. eexists. split; [vm_compute; reflexivity|].
  split; [vm_compute; reflexivity|]. split; [vm_compute; reflexivity|].
  split; [vm_compute; reflexivity|]. split; [vm_compute; reflexivity|].
  repeat split; vm_compute; reflexivity.
Qed.

(** Two layers with the same id and equal fields, both added to one group,
    each while detached: they are [==].  [remove_child] called with the
    second takes the first out of the list, the first entry that is [==] to
    its argument, and clears the [parent_id] of the second.  So the second
    is a child without a [parent_id], and the first keeps a [parent_id] and
    is no child. *)
Lemma remove_child_clears_its_argument :
  Objects.consistent twin_layers
  /\ Objects.adds_detached 1000 twin_layers
       [Objects.AddChild 0 1; Objects.AddChild 0 2;
        Objects.RemoveChild 0 (Objects.ChildObj 2)]%nat = true
  /\ exists σ1 σ2,
       Objects.run 1000 twin_layers
         [Objects.AddChild 0 1; Objects.AddChild 0 2]%nat = Ok σ1
       /\ Objects.children_of σ1 0%nat = [1; 2]%nat
       /\ Objects.eqb 1000 σ1 1%nat 2%nat = Ok true
       /\ Objects.remove_child 1000 0%nat (Objects.ChildObj 2%nat) σ1 = Ok (true, σ2)
       /\ Objects.children_of σ2 0%nat = [2%nat]
       /\ Objects.parent_of σ2 2%nat = None
       /\ Objects.parent_of σ2 1%nat = Some "group-1"%string.
Proof.
  split; [apply heap_consistent; repeat constructor|].
  split; [vm_compute; reflexivity|].
  eexists. eexists. split; [vm_compute; reflexivity|].
  split; [vm_compute; reflexivity|]. split; [vm_compute; reflexivity|].
  split; [vm_compute; reflexivity|].
  repeat split; vm_compute; reflexivity.
Qed.

(** On a tree of values the two methods do the same: the child appended
    carries the group's id, the child taken out carries none. *)
Lemma tree_add_remove_child (self : Layers.LayerGroup) (c : Layers.child) :
  Layers.children (Layers.add_child self c)
  = Layers.children self ++ [Layers.child_set_parent c (Some (Layers.group_id self))]
  /\ Layers.child_parent_id
       (Layers.child_set_parent c (Some (Layers.group_id self)))
     = Some (Layers.group_id self)
  /\ (forall a,
         match Layers.remove_child self a with
         | (true, _, Some removed) => Layers.child_parent_id removed = None
         | (true, _, None) => False
         | (false, self', gone) => self' = self /\ gone = None
         end).
Proof.
  split; [reflexivity|]. split.
  - destruct c as [l|[f cs]]; reflexivity.
  - intros a. unfold Layers.remove_child.
    destruct (PyList.remove (Layers.matches a) (Layers.children self))
      as [[removed rest]|]; [|auto].
    destruct a as [i|[l|[f cs]]]; try reflexivity.
    destruct removed as [l|[f cs]]; reflexivity.
Qed.

(** ** LayerManager: the active layer *)

Lemma delete_group_keeps_active (m : Layers.LayerManager) (group_id : Layers.ID) :
  Layers.active_layer_id (Layers.delete_group m group_id).2
  = Layers.active_layer_id m.
Proof.
  unfold Layers.delete_group.
  destruct (String.eqb _ _); [reflexivity|].
  destruct (Layers.find_group_by_id _ _ _); [|reflexivity].
  destruct (Layers.search_group _ _); [|reflexivity].
  destruct (Layers.remove_from_parent _ _ _) as [[success root']|]; reflexivity.
Qed.

Lemma delete_layer_clears_active (m : Layers.LayerManager) (layer_id : Layers.ID) :
  Layers.active_layer_id m = Some layer_id ->
  (Layers.delete_layer m layer_id).1 = true ->
  Layers.active_layer_id (Layers.delete_layer m layer_id).2 = None.
Proof.
  intros Ha. unfold Layers.delete_layer.
  destruct (Layers.find_layer_by_id _ _ _); [|discriminate].
  destruct (Layers.search_group _ _); [|discriminate].
  destruct (Layers.remove_from_parent _ _ _) as [[success root']|]; [|discriminate].
  simpl. intros _. rewrite Ha. simpl. now rewrite String.eqb_refl.
Qed.

(** C3, where the code leaves it.  [delete_group] never touches
    [active_layer_id].  On a manager whose active layer lies in a group under
    the root, deleting that group succeeds and takes the layer out of the
    tree, and [active_layer_id] still names it; [delete_layer] on the same
    manager clears it. *)
Theorem delete_group_leaves_active_dangling :
  Layers.active_layer_id manager_with_nested_layer = Some "layer-1"%string
  /\ Layers.active_reachable manager_with_nested_layer = true
  /\ (Layers.delete_group manager_with_nested_layer "group-1").1 = true
  /\ Layers.get_all_layers true
       (Layers.root_group
          (Layers.delete_group manager_with_nested_layer "group-1").2) = []
  /\ Layers.active_layer_id
       (Layers.delete_group manager_with_nested_layer "group-1").2
     = Some "layer-1"%string
  /\ Layers.find_layer_by_id "layer-1" true
       (Layers.root_group
          (Layers.delete_group manager_with_nested_layer "group-1").2) = None
  /\ Layers.active_reachable
       (Layers.delete_group manager_with_nested_layer "group-1").2 = false
  /\ (Layers.delete_layer manager_with_nested_layer "layer-1").1 = true
  /\ Layers.active_layer_id
       (Layers.delete_layer manager_with_nested_layer "layer-1").2 = None.
Proof. repeat split. Qed.

(** The cases of the tests: the first layer created becomes the active one
    and stays it; an unknown id is not made active; the root group is not
    deleted. *)
Example manager_tests :
  Layers.active_layer_id
    (Layers.run (Layers.LayerManager_new "root")
       [Layers.CreateLayer "layer-1" "Layer 1" Layers.NoGroup;
        Layers.CreateLayer "layer-2" "Layer 2" Layers.NoGroup])
  = Some "layer-1"%string
  /\ Layers.set_active_layer manager_with_nested_layer "non-existent"
     = (false, manager_with_nested_layer)
  /\ Layers.delete_group manager_with_nested_layer "root"
     = (false, manager_with_nested_layer)
  /\ Layers.delete_layer manager_with_nested_layer "non-existent"
     = (false, manager_with_nested_layer).
Proof. repeat split. Qed.

(** *** The other operations keep the active layer in the tree *)

Section TreeFacts.
Implicit Types (f : Layers.GroupFields) (cs : list Layers.child)
  (g : Layers.LayerGroup) (a : Layers.ID).

Lemma LayerGroup_induction (P : Layers.LayerGroup -> Prop) :
  (forall f cs, (forall g, inr g ∈ cs -> P g) -> P (Layers.Group f cs)) ->
  forall g, P g.
Proof.
  intros Hstep. fix IH 1. intros [f cs]. apply Hstep.
  revert cs. fix IHcs 1. intros [|[l|g0] cs] g Hin.
  - inversion Hin.
  - apply (IHcs cs). apply elem_of_cons in Hin as [Heq|Hin]; [discriminate|exact Hin].
  - apply elem_of_cons in Hin as [Heq|Hin].
    + injection Heq as ->. apply IH.
    + apply (IHcs cs), Hin.
Qed.

Lemma layer_ids_children f cs :
  layer_ids (Layers.Group f cs) = cs ≫= child_layer_ids.
Proof.
  unfold layer_ids. induction cs as [|[l|g] cs IH].
  - reflexivity.
  - change (Layers.get_all_layers true (Layers.Group f (inl l :: cs)))
      with (l :: Layers.get_all_layers true (Layers.Group f cs)).
    rewrite fmap_cons, IH. reflexivity.
  - change (Layers.get_all_layers true (Layers.Group f (inr g :: cs)))
      with (Layers.get_all_layers true g
            ++ Layers.get_all_layers true (Layers.Group f cs)).
    rewrite fmap_app, IH. reflexivity.
Qed.

Lemma find_layer_iff a g :
  is_Some (Layers.find_layer_by_id a true g) <-> a ∈ layer_ids g.
Proof.
  induction g as [f cs IH] using LayerGroup_induction.
  rewrite layer_ids_children.
  induction cs as [|[l|g] cs IHcs].
  - simpl. split; [intros [x Hx]; discriminate|intros H; inversion H].
  - change (Layers.find_layer_by_id a true (Layers.Group f (inl l :: cs)))
      with (if String.eqb (Layers.id l) a then Some l
            else Layers.find_layer_by_id a true (Layers.Group f cs)).
    rewrite bind_cons. simpl. rewrite elem_of_cons.
    destruct (String.eqb (Layers.id l) a) eqn:Hl.
    + apply String.eqb_eq in Hl. split; [auto|eauto].
    + apply String.eqb_neq in Hl.
      pose proof (IHcs (fun g' Hg' => IH g' (list_elem_of_further _ _ _ Hg')))
        as Hcs.
      split; [intros H; right; now apply Hcs|].
      intros [->|H]; [congruence|now apply Hcs].
  - change (Layers.find_layer_by_id a true (Layers.Group f (inr g :: cs)))
      with (match Layers.find_layer_by_id a true g with
            | Some found => Some found
            | None => Layers.find_layer_by_id a true (Layers.Group f cs)
            end).
    rewrite bind_cons. cbn [child_layer_ids]. rewrite elem_of_app.
    pose proof (IH g (list_elem_of_here _ _)) as Hg.
    pose proof (IHcs (fun g' Hg' => IH g' (list_elem_of_further _ _ _ Hg')))
      as Hcs.
    destruct (Layers.find_layer_by_id a true g) as [x|].
    + split; [intros _; left; apply Hg; eauto|eauto].
    + split; [intros H; right; now apply Hcs|].
      intros [H|H]; [|now apply Hcs].
      apply Hg in H as [x Hx]. discriminate.
Qed.

Lemma active_reachable_iff (m : Layers.LayerManager) :
  Layers.active_reachable m = true <->
  forall a, Layers.active_layer_id m = Some a -> a ∈ layer_ids (Layers.root_group m).
Proof.
  unfold Layers.active_reachable. destruct (Layers.active_layer_id m) as [a|].
  - pose proof (find_layer_iff a (Layers.root_group m)) as Hfind.
    destruct (Layers.find_layer_by_id a true (Layers.root_group m)) as [l|].
    + split; [|reflexivity]. intros _ b [= <-]. apply Hfind. eauto.
    + split; [discriminate|]. intros H.
      destruct (proj2 Hfind (H a eq_refl)) as [x Hx]. discriminate.
  - split; [intros _ a Ha; discriminate|reflexivity].
Qed.
End TreeFacts.

Section TreeUpdates.
Implicit Types (f : Layers.GroupFields) (cs : list Layers.child)
  (g : Layers.LayerGroup) (a : Layers.ID) (p : Layers.path).

Lemma layer_ids_group g : layer_ids g = Layers.children g ≫= child_layer_ids.
Proof. destruct g as [f cs]. apply layer_ids_children. Qed.

Lemma child_set_parent_ids (c : Layers.child) (q : option Layers.ID) :
  child_layer_ids (Layers.child_set_parent c q) = child_layer_ids c.
Proof.
  destruct c as [l|[f cs]]; [reflexivity|].
  simpl. now rewrite !layer_ids_children.
Qed.

Lemma add_child_ids g (c : Layers.child) :
  layer_ids (Layers.add_child g c) = layer_ids g ++ child_layer_ids c.
Proof.
  unfold Layers.add_child, Layers.with_children.
  rewrite layer_ids_children, bind_app, bind_singleton, child_set_parent_ids.
  now rewrite <- layer_ids_group.
Qed.

(** How a method run on the group at the end of a path shows in the layers
    of the whole tree. *)
Lemma at_path_ids {R : Type} (h : Layers.LayerGroup -> R * Layers.LayerGroup) p :
  forall g,
    match Layers.at_path p h g with
    | Some (res, g') =>
        exists target,
          Layers.group_at p g = Some target /\ res = (h target).1
          /\ (forall a, a ∈ layer_ids (h target).2 -> a ∈ layer_ids g')
          /\ (forall a, (a ∈ layer_ids target -> a ∈ layer_ids (h target).2) ->
                        a ∈ layer_ids g -> a ∈ layer_ids g')
    | None => Layers.group_at p g = None
    end.
Proof.
  induction p as [|i p IH]; intros g.
  - simpl. destruct (h g) as [res g'] eqn:Hh. exists g. rewrite Hh. auto.
  - simpl. destruct (Layers.children g !! i) as [[l|sub]|] eqn:Hi; try reflexivity.
    specialize (IH sub).
    destruct (Layers.at_path p h sub) as [[res sub']|]; [|exact IH].
    destruct IH as (target & Ht & Hres & Hnew & Hold).
    exists target. split; [exact Ht|]. split; [exact Hres|].
    assert (i < length (Layers.children g))%nat as Hlt
      by (eapply lookup_lt_Some; eauto).
    unfold Layers.with_children. split.
    + intros a Ha. rewrite layer_ids_children. apply list_elem_of_bind.
      exists (inr sub'). split; [now apply Hnew|].
      now apply list_elem_of_insert.
    + intros a Hmono Ha. rewrite layer_ids_group in Ha.
      apply list_elem_of_bind in Ha as (c & Hac & Hc).
      apply list_elem_of_lookup in Hc as [j Hj].
      rewrite layer_ids_children. apply list_elem_of_bind.
      destruct (decide (i = j)) as [Heq|Hne].
      * assert (c = inr sub) as ->.
        { apply (inj Some). rewrite <- Hj, <- Heq. exact Hi. }
        exists (inr sub'). split; [now apply Hold|now apply list_elem_of_insert].
      * exists c. split; [exact Hac|].
        apply list_elem_of_lookup. exists j. now rewrite list_lookup_insert_ne.
Qed.

(** A child added to a group of the tree adds its layers and hides none. *)
Lemma add_to_target_ids (root : Layers.LayerGroup) (pg : Layers.group_arg)
    (c : Layers.child) :
  match pg with
  | Layers.NoGroup => True
  | Layers.TreeGroup p => is_Some (Layers.group_at p root)
  | Layers.OtherGroup _ => False
  end ->
  forall a, a ∈ layer_ids root \/ a ∈ child_layer_ids c ->
            a ∈ layer_ids (Layers.add_to_target root pg c).
Proof.
  destruct pg as [|p|g0]; simpl; [intros _|intros [target Ht]|intros []].
  - intros a Ha. rewrite add_child_ids. now apply elem_of_app.
  - pose proof (at_path_ids (fun g => (tt, Layers.add_child g c)) p root) as Hp.
    destruct (Layers.at_path p _ root) as [[[] root']|]; [|congruence].
    destruct Hp as (target' & Ht' & _ & Hnew & Hold). simpl in Hnew, Hold.
    intros a [Ha|Ha].
    + apply Hold; [|exact Ha]. intros H. rewrite add_child_ids.
      apply elem_of_app. now left.
    + apply Hnew. rewrite add_child_ids. apply elem_of_app. now right.
Qed.
End TreeUpdates.

Section TreeSearch.
Implicit Types (f : Layers.GroupFields) (cs : list Layers.child)
  (g : Layers.LayerGroup) (a : Layers.ID) (p : Layers.path).
Variable child_id' : Layers.ID.

Lemma search_group_walk f cs :
  Layers.search_group child_id' (Layers.Group f cs) = search_walk child_id' 0 cs.
Proof. reflexivity. Qed.

Lemma find_group_by_id_walk f cs :
  Layers.find_group_by_id child_id' true (Layers.Group f cs)
  = if String.eqb (Layers.g_id f) child_id' then Some (Layers.Group f cs)
    else find_group_walk child_id' cs.
Proof. reflexivity. Qed.

Lemma find_group_absent g :
  Layers.find_group_by_id child_id' true g = None ->
  Layers.group_id g <> child_id'
  /\ forall sub, inr sub ∈ Layers.children g ->
                 Layers.find_group_by_id child_id' true sub = None.
Proof.
  destruct g as [f cs]. rewrite find_group_by_id_walk. unfold Layers.group_id. simpl.
  destruct (String.eqb (Layers.g_id f) child_id') eqn:Hf; [discriminate|].
  apply String.eqb_neq in Hf. intros Hw. split; [exact Hf|].
  induction cs as [|[l|g] cs IH]; intros sub Hin.
  - inversion Hin.
  - apply elem_of_cons in Hin as [Heq|Hin]; [discriminate|]. now apply IH.
  - simpl in Hw.
    destruct (String.eqb (Layers.group_id g) child_id'); [discriminate|].
    destruct (Layers.find_group_by_id child_id' true g) eqn:Hg; [discriminate|].
    apply elem_of_cons in Hin as [Heq|Hin]; [now injection Heq as ->|].
    now apply IH.
Qed.

Lemma find_group_absent_at p :
  forall g target,
    Layers.find_group_by_id child_id' true g = None ->
    Layers.group_at p g = Some target ->
    Layers.find_group_by_id child_id' true target = None.
Proof.
  induction p as [|i p IH]; intros g target Hg; simpl.
  - now intros [= <-].
  - destruct (Layers.children g !! i) as [[l|sub]|] eqn:Hi; try discriminate.
    apply IH. apply (find_group_absent g Hg). eapply list_elem_of_lookup_2, Hi.
Qed.

(** Where the walk of [_find_parent_group] stops. *)
Lemma search_walk_cases cs :
  forall i p,
    search_walk child_id' i cs = Some p ->
    (p = [] /\ exists before c after,
        cs = before ++ c :: after
        /\ (forall x, x ∈ before -> String.eqb (Layers.child_id x) child_id' = false)
        /\ String.eqb (Layers.child_id c) child_id' = true)
    \/ (exists k sub p',
           p = (i + k)%nat :: p' /\ cs !! k = Some (inr sub)
           /\ Layers.search_group child_id' sub = Some p').
Proof.
  induction cs as [|c cs IH]; intros i p; simpl; [discriminate|].
  destruct (String.eqb (Layers.child_id c) child_id') eqn:Hc.
  - intros [= <-]. left. split; [reflexivity|].
    exists [], c, cs. split; [reflexivity|]. split; [|exact Hc].
    intros x Hx. inversion Hx.
  - assert (search_walk child_id' (S i) cs = Some p ->
            (p = [] /\ exists before c0 after,
                c :: cs = before ++ c0 :: after
                /\ (forall x, x ∈ before ->
                              String.eqb (Layers.child_id x) child_id' = false)
                /\ String.eqb (Layers.child_id c0) child_id' = true)
            \/ (exists k sub p',
                   p = (i + k)%nat :: p' /\ (c :: cs) !! k = Some (inr sub)
                   /\ Layers.search_group child_id' sub = Some p')) as Hrest.
    { intros Hw. destruct (IH _ _ Hw) as [(-> & before & c0 & after & -> & Hb & Hc0)
                                         |(k & sub & p' & -> & Hk & Hs)].
      - left. split; [reflexivity|]. exists (c :: before), c0, after.
        split; [reflexivity|]. split; [|exact Hc0].
        intros x Hx. apply elem_of_cons in Hx as [->|Hx]; auto.
      - right. exists (S k), sub, p'. split; [f_equal; lia|]. auto. }
    destruct c as [l|g]; [exact Hrest|].
    destruct (Layers.search_group child_id' g) as [p0|] eqn:Hg; [|exact Hrest].
    intros [= <-]. right. exists 0%nat, g, p0.
    split; [f_equal; lia|]. auto.
Qed.

(** The group that [_find_parent_group] returns has the child, and the
    first of its children with that id is the one [remove_child] takes. *)
Lemma search_group_target :
  forall g p,
    Layers.search_group child_id' g = Some p ->
    exists target before c after,
      Layers.group_at p g = Some target
      /\ Layers.children target = before ++ c :: after
      /\ (forall x, x ∈ before -> String.eqb (Layers.child_id x) child_id' = false)
      /\ String.eqb (Layers.child_id c) child_id' = true.
Proof.
  intros g. induction g as [f cs IH] using LayerGroup_induction. intros p.
  rewrite search_group_walk. intros Hw.
  destruct (search_walk_cases cs 0 p Hw)
    as [(-> & before & c & after & -> & Hb & Hc)|(k & sub & p' & -> & Hk & Hs)].
  - exists (Layers.Group f (before ++ c :: after)), before, c, after. auto.
  - destruct (IH sub (list_elem_of_lookup_2 _ _ _ Hk) p' Hs)
      as (target & before & c & after & Ht & Hch & Hb & Hc).
    exists target, before, c, after. simpl. rewrite Hk. auto.
Qed.

Lemma find_index_first {A} (q : A -> bool) (before after : list A) (c : A) :
  (forall x, x ∈ before -> q x = false) -> q c = true ->
  PyList.find_index q (before ++ c :: after) = Some (length before).
Proof.
  intros Hb Hc. induction before as [|x before IH]; simpl.
  - now rewrite Hc.
  - rewrite (Hb x) by apply list_elem_of_here.
    rewrite IH; [reflexivity|]. intros y Hy. apply Hb. now apply list_elem_of_further.
Qed.

(** Deleting a layer by id takes that layer out of the tree and no other. *)
Lemma remove_from_parent_ids (root : Layers.LayerGroup) p :
  Layers.find_group_by_id child_id' true root = None ->
  Layers.search_group child_id' root = Some p ->
  exists root',
    Layers.remove_from_parent root p child_id' = Some (true, root')
    /\ forall a, a <> child_id' -> a ∈ layer_ids root -> a ∈ layer_ids root'.
Proof.
  intros Hnone Hsearch.
  destruct (search_group_target root p Hsearch)
    as (target & before & c & after & Ht & Hch & Hb & Hc).
  pose proof (find_group_absent_at p root target Hnone Ht) as Hnt.
  assert (exists l, c = inl l) as [l ->].
  { destruct c as [l|sub]; [eauto|]. exfalso.
    destruct (find_group_absent target Hnt) as [_ Hsub].
    assert (inr sub ∈ Layers.children target) as Hin.
    { rewrite Hch. apply elem_of_app. right. apply list_elem_of_here. }
    destruct (find_group_absent sub (Hsub sub Hin)) as [Hne _].
    apply String.eqb_eq in Hc. contradiction. }
  assert (Layers.remove_child target (Layers.ChildId child_id')
          = (true, Layers.with_children target (before ++ after),
             Some (Layers.child_set_parent (inl l) None))) as Hrm.
  { unfold Layers.remove_child, PyList.remove, PyList.pop. rewrite Hch.
    rewrite (find_index_first _ before after (inl l)) by assumption.
    rewrite list_lookup_middle by reflexivity. now rewrite delete_middle. }
  unfold Layers.remove_from_parent.
  pose proof (at_path_ids
                (fun g => let '(success, g', _) :=
                            Layers.remove_child g (Layers.ChildId child_id') in
                          (success, g')) p root) as Hp.
  destruct (Layers.at_path p _ root) as [[res root']|]; [|congruence].
  destruct Hp as (target' & Ht' & Hres & _ & Hold).
  rewrite Ht in Ht'. injection Ht' as <-. rewrite Hrm in Hres, Hold.
  simpl in Hres, Hold. subst res.
  exists root'. split; [reflexivity|]. intros a Hne. apply Hold.
  rewrite layer_ids_group, Hch. unfold Layers.with_children.
  rewrite layer_ids_children, !bind_app, bind_cons. simpl.
  rewrite !elem_of_app, elem_of_cons. apply String.eqb_eq in Hc. simpl in Hc.
  intros [H|[H|H]]; auto. congruence.
Qed.
End TreeSearch.

(** Each operation other than [delete_group] leaves the active layer, when
    there is one, a layer of the tree. *)
Lemma step_keeps_active (m : Layers.LayerManager) (o : Layers.op) :
  within_tree m o = true ->
  Layers.active_reachable m = true ->
  Layers.active_reachable (Layers.step m o) = true.
Proof.
  intros Hin Hact. rewrite active_reachable_iff in Hact |- *.
  destruct o as [new_id nm pg|new_id nm pg|layer_id|group_id|layer_id]; simpl in *.
  - assert (match pg with
            | Layers.NoGroup => True
            | Layers.TreeGroup p => is_Some (Layers.group_at p (Layers.root_group m))
            | Layers.OtherGroup _ => False
            end) as Hpg.
    { destruct pg as [|p|g0]; [exact I| |discriminate].
      destruct (Layers.group_at p (Layers.root_group m)); [eauto|discriminate]. }
    intros a Ha. apply add_to_target_ids; [exact Hpg|].
    destruct (Layers.active_layer_id m) as [b|].
    + injection Ha as <-. left. now apply Hact.
    + injection Ha as <-. right. simpl. apply list_elem_of_here.
  - assert (match pg with
            | Layers.NoGroup => True
            | Layers.TreeGroup p => is_Some (Layers.group_at p (Layers.root_group m))
            | Layers.OtherGroup _ => False
            end) as Hpg.
    { destruct pg as [|p|g0]; [exact I| |discriminate].
      destruct (Layers.group_at p (Layers.root_group m)); [eauto|discriminate]. }
    intros a Ha. apply add_to_target_ids; [exact Hpg|]. left. now apply Hact.
  - unfold Layers.delete_layer.
    destruct (Layers.find_group_by_id layer_id true (Layers.root_group m)) eqn:Hg;
      [discriminate|].
    destruct (Layers.find_layer_by_id layer_id true (Layers.root_group m));
      [|exact Hact].
    destruct (Layers.search_group layer_id (Layers.root_group m)) as [p|] eqn:Hs;
      [|exact Hact].
    destruct (remove_from_parent_ids layer_id _ p Hg Hs) as (root' & -> & Hids).
    simpl. intros a.
    destruct (Layers.active_layer_id m) as [b|]; simpl; [|discriminate].
    destruct (String.eqb b layer_id) eqn:Hb; [discriminate|].
    intros [= <-]. apply String.eqb_neq in Hb. apply Hids; auto.
  - discriminate.
  - unfold Layers.set_active_layer.
    pose proof (find_layer_iff layer_id (Layers.root_group m)) as Hfind.
    destruct (Layers.find_layer_by_id layer_id true (Layers.root_group m));
      [|exact Hact].
    simpl. intros a [= <-]. apply Hfind. eauto.
Qed.

Lemma run_keeps_active (ops : list Layers.op) :
  forall m,
    all_within_tree m ops = true ->
    Layers.active_reachable m = true ->
    Layers.active_reachable (Layers.run m ops) = true.
Proof.
  induction ops as [|o ops IH]; intros m Hops Hact; [exact Hact|].
  simpl in Hops. apply andb_true_iff in Hops as [Ho Hops].
  apply (IH (Layers.step m o)); [exact Hops|]. now apply step_keeps_active.
Qed.

(** From a new manager, whatever is created, deleted layer by layer or made
    active within the manager's own tree, the active layer is a layer of the
    tree: [delete_group] is the one operation that lets it go astray. *)
Corollary active_reachable_without_delete_group (root_id : Layers.ID)
    (ops : list Layers.op) :
  all_within_tree (Layers.LayerManager_new root_id) ops = true ->
  Layers.active_reachable (Layers.run (Layers.LayerManager_new root_id) ops) = true.
Proof. intros Hops. now apply run_keeps_active. Qed.

Example active_reachable_sample :
  Layers.active_reachable
    (Layers.run (Layers.LayerManager_new "root")
       [Layers.CreateGroup "group-1" "Folder" Layers.NoGroup;
        Layers.CreateLayer "layer-1" "Sketch" (Layers.TreeGroup [0%nat]);
        Layers.CreateLayer "layer-2" "Ink" Layers.NoGroup;
        Layers.DeleteLayer "layer-1";
        Layers.SetActiveLayer "layer-2"]) = true.
Proof. now apply active_reachable_without_delete_group. Qed.
(** * Further properties of the code *)

(** ** Shapes of a layer *)

Lemma with_shapes_same (self : Layers.Layer) :
  Layers.with_shapes self (Layers.shapes self) = self.
Proof. destruct self; reflexivity. Qed.

Lemma find_index_app_last {A} (p : A -> bool) (l : list A) (x : A) :
  (forall y, y ∈ l -> p y = false) -> p x = true ->
  PyList.find_index p (l ++ [x]) = Some (length l).
Proof.
  intros Hl Hx.
  apply (find_index_first p l [] x); assumption.
Qed.

Lemma remove_shape_cases (self : Layers.Layer) (shape : Layers.shape_ref) :
  match PyList.find_index (fun e => Layers.shape_ref_eqb e shape)
          (Layers.shapes self) with
  | Some i =>
      Layers.remove_shape self shape
      = (true, Layers.with_shapes self (delete i (Layers.shapes self)))
      /\ (i < length (Layers.shapes self))%nat
  | None => Layers.remove_shape self shape = (false, self)
  end.
Proof.
  unfold Layers.remove_shape, PyList.remove, PyList.pop.
  destruct (PyList.find_index _ _) as [i|] eqn:Hi; [|reflexivity].
  apply find_index_Some in Hi as (y & Hy & _).
  rewrite Hy. split; [reflexivity|]. eapply lookup_lt_Some; eauto.
Qed.

Lemma add_shape_new (self : Layers.Layer) (shape : Layers.shape_ref) :
  (forall y, y ∈ Layers.shapes self -> Layers.shape_ref_eqb y shape = false) ->
  Layers.add_shape self shape
  = Layers.with_shapes self (Layers.shapes self ++ [shape]).
Proof.
  intros Hnone. unfold Layers.add_shape, PyList.contains.
  apply find_index_None in Hnone. rewrite Hnone. reflexivity.
Qed.

(** X1.  [remove_shape] undoes [add_shape]: on a layer that does not hold
    the shape yet, adding it and then removing it returns [True] and gives
    the layer back as it was.  A second [remove_shape] then finds nothing,
    returns [False] and changes nothing. *)
Theorem remove_shape_undoes_add_shape (self : Layers.Layer)
    (shape : Layers.shape_ref) (Hnew : ~ holds self shape) :
  Layers.remove_shape (Layers.add_shape self shape) shape = (true, self)
  /\ Layers.remove_shape self shape = (false, self).
Proof.
  assert (forall y, y ∈ Layers.shapes self -> Layers.shape_ref_eqb y shape = false)
    as Hnone.
  { intros y Hy. destruct (Layers.shape_ref_eqb y shape) eqn:E; [|reflexivity].
    exfalso. apply Hnew. exists y. auto. }
  split.
  - rewrite (add_shape_new self shape Hnone).
    pose proof (remove_shape_cases
                  (Layers.with_shapes self (Layers.shapes self ++ [shape])) shape)
      as Hr.
    destruct self as [i n l z v k o b q m]. cbn in *.
    rewrite (find_index_app_last _ _ shape Hnone (shape_ref_eqb_same shape)) in Hr.
    destruct Hr as [-> _]. unfold Layers.with_shapes; cbn.
    rewrite delete_middle, app_nil_r. reflexivity.
  - pose proof (remove_shape_cases self shape) as Hr.
    apply find_index_None in Hnone. rewrite Hnone in Hr. exact Hr.
Qed.

Lemma remove_shape_undoes_add_shape_witness :
  Layers.remove_shape (Layers.add_shape layer_abc (Layers.ShapeId "d"))
    (Layers.ShapeId "d") = (true, layer_abc)
  /\ Layers.remove_shape layer_abc (Layers.ShapeId "d") = (false, layer_abc).
Proof.
  apply (remove_shape_undoes_add_shape layer_abc (Layers.ShapeId "d")).
  intros (e & He & Heq).
  apply list_elem_of_In in He. simpl in He.
  destruct He as [<-|[<-|[<-|[]]]]; vm_compute in Heq; discriminate.
Defined.

Lemma distinct_shapes_nil : distinct_shapes [].
Proof. intros i j u v _ Hi. rewrite lookup_nil in Hi. discriminate. Qed.

Lemma distinct_shapes_snoc (l : list Layers.shape_ref) (x : Layers.shape_ref) :
  distinct_shapes l ->
  (forall y, y ∈ l -> Layers.shape_ref_eqb y x = false) ->
  distinct_shapes (l ++ [x]).
Proof.
  intros Hd Hx i j u v Hij Hi Hj.
  assert (j < length (l ++ [x]))%nat as Hlen by (eapply lookup_lt_Some; eauto).
  rewrite length_app in Hlen. simpl in Hlen.
  destruct (decide (j < length l)%nat) as [Hjl|Hjl].
  - rewrite lookup_app_l in Hi, Hj by lia. exact (Hd i j u v Hij Hi Hj).
  - assert (j = length l) as -> by lia.
    rewrite lookup_app_l in Hi by lia.
    rewrite list_lookup_middle in Hj by reflexivity.
    injection Hj as <-. apply Hx. eapply list_elem_of_lookup_2; eauto.
Qed.

Lemma distinct_shapes_delete (l : list Layers.shape_ref) (k : nat) :
  distinct_shapes l -> distinct_shapes (delete k l).
Proof.
  intros Hd i j u v Hij Hi Hj.
  rewrite list_lookup_delete in Hi, Hj.
  destruct (decide (i < k)%nat), (decide (j < k)%nat); try lia;
    eapply Hd; try exact Hi; try exact Hj; lia.
Qed.

Lemma shape_step_distinct (self : Layers.Layer) (o : shape_op) :
  distinct_shapes (Layers.shapes self) ->
  distinct_shapes (Layers.shapes (shape_step self o)).
Proof.
  intros Hd. destruct o as [shape|shape|]; simpl.
  - unfold Layers.add_shape, PyList.contains.
    destruct (PyList.find_index _ _) eqn:Hf; simpl; [exact Hd|].
    pose proof (proj1 (find_index_None _ _) Hf) as Hnone.
    destruct self; cbn in *. apply distinct_shapes_snoc; assumption.
  - pose proof (remove_shape_cases self shape) as Hr.
    destruct (PyList.find_index _ _) as [i|].
    + destruct Hr as [-> _]. destruct self; cbn in *.
      apply distinct_shapes_delete, Hd.
    + rewrite Hr. exact Hd.
  - destruct self; cbn. apply distinct_shapes_nil.
Qed.

(** X2.  A layer never holds a shape twice when its shapes are changed by
    [add_shape], [remove_shape] and [clear_shapes] only: starting from a
    layer in which no shape is [==] to a later one (a new layer, say), no
    sequence of these calls produces such a pair. *)
Theorem shapes_stay_distinct (self : Layers.Layer) (ops : list shape_op)
    (Hstart : distinct_shapes (Layers.shapes self)) :
  distinct_shapes (Layers.shapes (fold_left shape_step ops self)).
Proof.
  revert self Hstart. induction ops as [|o ops IH]; intros self Hstart; simpl.
  - exact Hstart.
  - apply IH, shape_step_distinct, Hstart.
Qed.

Lemma shapes_stay_distinct_witness :
  distinct_shapes
    (Layers.shapes
       (fold_left shape_step
          [AddShape (Layers.ShapeId "a"); AddShape (Layers.ShapeId "b");
           AddShape (Layers.ShapeId "a"); RemoveShape (Layers.ShapeId "b");
           AddShape (Layers.ShapeId "b")]
          (Layers.Layer_new "layer-1" "Sketch"))).
Proof.
  apply (shapes_stay_distinct (Layers.Layer_new "layer-1" "Sketch")).
  simpl. exact distinct_shapes_nil.
Defined.

Lemma move_Permutation {A} (p : A -> bool) (n : Z) (l : list A) :
  (PyList.move p n l).2 ≡ₚ l.
Proof.
  destruct (PyList.find_index p l) as [i|] eqn:Hi.
  - destruct (move_found p l i n Hi) as (obj & l' & -> & Hobj & _ & Hk & Hdel & _).
    simpl. rewrite (delete_Permutation l' _ obj Hk), Hdel.
    symmetry. apply delete_Permutation, Hobj.
  - rewrite (move_not_found p l n Hi). reflexivity.
Qed.

(** X3.  Moving loses nothing and doubles nothing.  Whatever the index and
    whether or not the entry is found, the shapes of a layer after
    [move_shape] are the shapes before in another order, and so are the
    children of a group after [move_child]; no other field changes. *)
Theorem move_keeps_entries (new_index : Z) :
  (forall (self : Layers.Layer) (shape : Layers.shape_ref),
      Layers.shapes (Layers.move_shape self shape new_index).2
      ≡ₚ Layers.shapes self
      /\ Layers.with_shapes (Layers.move_shape self shape new_index).2
           (Layers.shapes self) = self)
  /\ (forall (self : Layers.LayerGroup) (a : Layers.child_arg),
         Layers.children (Layers.move_child self a new_index).2
         ≡ₚ Layers.children self
         /\ Layers.fields (Layers.move_child self a new_index).2
            = Layers.fields self).
Proof.
  split.
  - intros self shape. unfold Layers.move_shape.
    pose proof (move_Permutation (fun e => Layers.shape_ref_eqb e shape)
                  new_index (Layers.shapes self)) as Hp.
    destruct (PyList.move _ _ _) as [[|] l]; simpl in *.
    + split; [exact Hp|]. destruct self; reflexivity.
    + split; [reflexivity|]. destruct self; reflexivity.
  - intros self a. unfold Layers.move_child.
    pose proof (move_Permutation (Layers.matches a) new_index
                  (Layers.children self)) as Hp.
    destruct (PyList.move _ _ _) as [[|] l]; simpl in *.
    + split; [exact Hp|]. destruct self; reflexivity.
    + split; reflexivity.
Qed.

(** ** Searching the tree of layers *)

Lemma find_app_cases {A} (p : A -> bool) (l k : list A) :
  List.find p (l ++ k)
  = match List.find p l with Some x => Some x | None => List.find p k end.
Proof.
  induction l as [|x l IH]; simpl; [reflexivity|].
  destruct (p x); [reflexivity|exact IH].
Qed.

Lemma get_all_layers_children (recursive : bool) (f : Layers.GroupFields)
    (cs : list Layers.child) :
  Layers.get_all_layers recursive (Layers.Group f cs)
  = cs ≫= child_layers recursive.
Proof.
  simpl. induction cs as [|[l|g] cs IH].
  - reflexivity.
  - rewrite bind_cons. simpl. f_equal. exact IH.
  - rewrite bind_cons. simpl. f_equal. exact IH.
Qed.

Lemma find_layer_by_id_walk (layer_id : Layers.ID) (recursive : bool)
    (f : Layers.GroupFields) (cs : list Layers.child) :
  (forall g, inr g ∈ cs ->
             Layers.find_layer_by_id layer_id true g
             = List.find (has_id layer_id) (Layers.get_all_layers true g)) ->
  Layers.find_layer_by_id layer_id recursive (Layers.Group f cs)
  = List.find (has_id layer_id) (cs ≫= child_layers recursive).
Proof.
  intros IH. simpl. induction cs as [|[l|g] cs IHcs].
  - reflexivity.
  - rewrite bind_cons. simpl. unfold has_id at 1.
    destruct (String.eqb (Layers.id l) layer_id); [reflexivity|].
    apply IHcs. intros g Hg. apply IH. right. exact Hg.
  - rewrite bind_cons, find_app_cases. simpl.
    destruct recursive.
    + rewrite (IH g) by left.
      destruct (List.find _ (Layers.get_all_layers true g)); [reflexivity|].
      apply IHcs. intros g' Hg. apply IH. right. exact Hg.
    + simpl. apply IHcs. intros g' Hg. apply IH. right. exact Hg.
Qed.

Lemma find_layer_by_id_find (layer_id : Layers.ID) (recursive : bool)
    (self : Layers.LayerGroup) :
  Layers.find_layer_by_id layer_id recursive self
  = List.find (has_id layer_id) (Layers.get_all_layers recursive self).
Proof.
  assert (forall g, Layers.find_layer_by_id layer_id true g
                    = List.find (has_id layer_id) (Layers.get_all_layers true g))
    as Htrue.
  { induction g as [f cs IH] using LayerGroup_induction.
    rewrite get_all_layers_children. apply find_layer_by_id_walk. exact IH. }
  destruct self as [f cs]. rewrite get_all_layers_children.
  apply find_layer_by_id_walk. intros g _. apply Htrue.
Qed.

(** X4.  [find_layer_by_id] returns the first layer of [get_all_layers]
    that carries the identifier, for either value of [recursive], and [None]
    when there is none; so a layer it returns has the identifier asked for
    and is one of the layers of the group, and the manager's
    [find_layer_by_id] searches the manager's [get_all_layers]. *)
Theorem find_layer_by_id_first (layer_id : Layers.ID) (recursive : bool)
    (self : Layers.LayerGroup) :
  Layers.find_layer_by_id layer_id recursive self
  = List.find (has_id layer_id) (Layers.get_all_layers recursive self)
  /\ (forall found,
         Layers.find_layer_by_id layer_id recursive self = Some found ->
         Layers.id found = layer_id
         /\ found ∈ Layers.get_all_layers recursive self)
  /\ (forall m, Manager.find_layer_by_id m layer_id
                = List.find (has_id layer_id) (Manager.get_all_layers m)).
Proof.
  split; [apply find_layer_by_id_find|]. split.
  - intros found Hfound. rewrite find_layer_by_id_find in Hfound.
    apply find_some in Hfound as [Hin Hid]. split.
    + apply String.eqb_eq. exact Hid.
    + apply list_elem_of_In. exact Hin.
  - intros m. apply find_layer_by_id_find.
Qed.

Lemma find_group_walk_found (group_id' : Layers.ID) (cs : list Layers.child)
    (found : Layers.LayerGroup) :
  (forall g, inr g ∈ cs -> forall h,
      Layers.find_group_by_id group_id' true g = Some h ->
      Layers.group_id h = group_id' /\ exists p, Layers.group_at p g = Some h) ->
  find_group_walk group_id' cs = Some found ->
  Layers.group_id found = group_id'
  /\ exists i sub p, cs !! i = Some (inr sub) /\ Layers.group_at p sub = Some found.
Proof.
  induction cs as [|[l|g] cs IHcs]; intros IH Hw; simpl in Hw.
  - discriminate.
  - destruct IHcs as (Hid & i & sub & p & Hi & Hp); [|exact Hw|].
    + intros g Hg. apply IH. right. exact Hg.
    + split; [exact Hid|]. exists (S i), sub, p. auto.
  - destruct (String.eqb (Layers.group_id g) group_id') eqn:Hg.
    + injection Hw as <-. split; [apply String.eqb_eq, Hg|].
      exists 0%nat, g, []. auto.
    + destruct (Layers.find_group_by_id group_id' true g) as [h|] eqn:Hh.
      * injection Hw as <-.
        destruct (IH g (list_elem_of_here _ _) h Hh) as (Hid & p & Hp).
        split; [exact Hid|]. exists 0%nat, g, p. auto.
      * destruct IHcs as (Hid & i & sub & p & Hi & Hp); [|exact Hw|].
        -- intros g' Hg'. apply IH. right. exact Hg'.
        -- split; [exact Hid|]. exists (S i), sub, p. auto.
Qed.

Lemma find_group_by_id_deep (group_id' : Layers.ID) :
  forall g h,
    Layers.find_group_by_id group_id' true g = Some h ->
    Layers.group_id h = group_id' /\ exists p, Layers.group_at p g = Some h.
Proof.
  induction g as [f cs IH] using LayerGroup_induction. intros h Hh.
  rewrite find_group_by_id_walk in Hh.
  destruct (String.eqb (Layers.g_id f) group_id') eqn:Hf.
  - injection Hh as <-. split; [apply String.eqb_eq, Hf|]. exists []. reflexivity.
  - destruct (find_group_walk_found group_id' cs h IH Hh)
      as (Hid & i & sub & p & Hi & Hp).
    split; [exact Hid|]. exists (i :: p). simpl. rewrite Hi. exact Hp.
Qed.

(** X5.  A group that [find_group_by_id] returns carries the identifier
    asked for and is a group of the tree it was looked for in: the group
    itself or one reached from it through children.  The group itself is
    found before any of its descendants, and a search for the identifier of
    the root never looks below it. *)
Theorem find_group_by_id_found (group_id' : Layers.ID) (self found : Layers.LayerGroup)
    (Hfound : Layers.find_group_by_id group_id' true self = Some found) :
  Layers.group_id found = group_id'
  /\ (exists p, Layers.group_at p self = Some found)
  /\ (Layers.group_id self = group_id' -> found = self).
Proof.
  destruct (find_group_by_id_deep group_id' self found Hfound) as [Hid Hp].
  split; [exact Hid|]. split; [exact Hp|].
  intros Hself. destruct self as [f cs].
  rewrite find_group_by_id_walk in Hfound.
  unfold Layers.group_id in Hself. simpl in Hself.
  apply String.eqb_eq in Hself. rewrite Hself in Hfound.
  injection Hfound as <-. reflexivity.
Qed.

Lemma find_group_by_id_found_witness :
  exists found,
    Layers.find_group_by_id "group-1" true
      (Layers.root_group manager_with_nested_layer) = Some found
    /\ Layers.group_id found = "group-1"%string
    /\ (exists p, Layers.group_at p (Layers.root_group manager_with_nested_layer)
                  = Some found).
Proof.
  eexists. split; [reflexivity|].
  refine (let H := find_group_by_id_found "group-1"
                     (Layers.root_group manager_with_nested_layer) _ eq_refl in
          conj (proj1 H) (proj1 (proj2 H))).
Defined.

(** ** Ordering by z-index *)

Section ZOrderFacts.
Context {A : Type} (key : A -> Z).
Implicit Types (x : A) (l : list A).

Lemma z_insert_by_perm x l : Manager.insert_by key x l ≡ₚ x :: l.
Proof.
  induction l as [|y l IH]; simpl; [reflexivity|].
  destruct (key x <=? key y); [reflexivity|].
  rewrite IH. apply Permutation_swap.
Qed.

Lemma z_sorted_perm l : Manager.sorted key l ≡ₚ l.
Proof.
  induction l as [|x l IH]; simpl; [reflexivity|].
  rewrite z_insert_by_perm, IH. reflexivity.
Qed.

Lemma z_insert_by_sorted x l :
  StronglySorted (z_le key) l -> StronglySorted (z_le key) (Manager.insert_by key x l).
Proof.
  induction 1 as [|y l Hs IH Hy]; simpl.
  - repeat constructor.
  - destruct (key x <=? key y) eqn:Hxy.
    + apply Z.leb_le in Hxy. constructor.
      * constructor; assumption.
      * constructor; [exact Hxy|].
        eapply Forall_impl; [exact Hy|]. unfold z_le. intros; simpl in *; lia.
    + apply Z.leb_gt in Hxy. constructor; [exact IH|].
      rewrite (z_insert_by_perm x l). constructor; [unfold z_le; lia|exact Hy].
Qed.

Lemma z_sorted_sorted l : StronglySorted (z_le key) (Manager.sorted key l).
Proof.
  induction l as [|x l IH]; simpl; [constructor|].
  apply z_insert_by_sorted, IH.
Qed.

Lemma z_insert_by_with_key x l (z : Z) :
  with_key key z (Manager.insert_by key x l) = with_key key z (x :: l).
Proof.
  unfold with_key. induction l as [|y l IH]; simpl; [reflexivity|].
  destruct (key x <=? key y) eqn:Hxy; [reflexivity|].
  apply Z.leb_gt in Hxy. simpl in *. rewrite IH.
  destruct (key y =? z) eqn:Hy, (key x =? z) eqn:Hx; try reflexivity.
  apply Z.eqb_eq in Hy, Hx. lia.
Qed.

Lemma z_sorted_with_key l (z : Z) :
  with_key key z (Manager.sorted key l) = with_key key z l.
Proof.
  induction l as [|x l IH]; simpl; [reflexivity|].
  rewrite z_insert_by_with_key. unfold with_key in *. simpl. rewrite IH. reflexivity.
Qed.

Lemma z_sorted_fixed l :
  StronglySorted (z_le key) l -> Manager.sorted key l = l.
Proof.
  induction 1 as [|y l Hs IH Hy]; simpl; [reflexivity|].
  rewrite IH. destruct l as [|y' l]; simpl; [reflexivity|].
  apply Forall_cons in Hy as [Hy _]. unfold z_le in Hy.
  destruct (key y <=? key y') eqn:E; [reflexivity|]. apply Z.leb_gt in E. lia.
Qed.
End ZOrderFacts.

(** X6.  [get_layers_by_z_order] gives every layer of the document once
    more, in ascending order of [z_index], and layers with the same
    [z_index] stay in the order that [get_all_layers] has them in; when
    [get_all_layers] is in ascending order already, the result is the
    same list. *)
Theorem get_layers_by_z_order_stable (self : Layers.LayerManager) :
  Manager.get_layers_by_z_order self ≡ₚ Manager.get_all_layers self
  /\ StronglySorted (z_le Layers.z_index) (Manager.get_layers_by_z_order self)
  /\ (forall z, with_key Layers.z_index z (Manager.get_layers_by_z_order self)
                = with_key Layers.z_index z (Manager.get_all_layers self))
  /\ (StronglySorted (z_le Layers.z_index) (Manager.get_all_layers self) ->
      Manager.get_layers_by_z_order self = Manager.get_all_layers self).
Proof.
  unfold Manager.get_layers_by_z_order. repeat split.
  - apply z_sorted_perm.
  - apply z_sorted_sorted.
  - intros z. apply z_sorted_with_key.
  - apply z_sorted_fixed.
Qed.

(** ** The active layer *)

(** X7.  After [set_active_layer] has returned [True], [get_active_layer]
    returns the layer that [find_layer_by_id] finds for the identifier, and
    that layer carries the identifier — unless the identifier is the empty
    string, for which [get_active_layer] returns [None] although the layer
    exists and was made active.  When [set_active_layer] returns [False],
    no layer has the identifier and the manager is as before. *)
Theorem get_active_layer_after_set_active_layer (self : Layers.LayerManager)
    (layer_id : Layers.ID) :
  match Layers.set_active_layer self layer_id with
  | (true, self') =>
      exists layer,
        Manager.find_layer_by_id self layer_id = Some layer
        /\ Layers.id layer = layer_id
        /\ layer ∈ Manager.get_all_layers self'
        /\ Manager.get_active_layer self'
           = if String.eqb layer_id EmptyString then None else Some layer
  | (false, self') =>
      self' = self
      /\ forall layer, layer ∈ Manager.get_all_layers self ->
                       Layers.id layer <> layer_id
  end.
Proof.
  unfold Layers.set_active_layer.
  pose proof (find_layer_by_id_find layer_id true (Layers.root_group self))
    as Hfirst.
  destruct (Layers.find_layer_by_id layer_id true (Layers.root_group self))
    as [layer|] eqn:Hfind.
  - symmetry in Hfirst. apply find_some in Hfirst as [Hin Hid].
    exists layer. repeat split.
    + exact Hfind.
    + apply String.eqb_eq. exact Hid.
    + apply list_elem_of_In. exact Hin.
    + unfold Manager.get_active_layer, Manager.find_layer_by_id. simpl.
      rewrite Hfind. reflexivity.
  - split; [reflexivity|]. intros layer Hin Hid.
    symmetry in Hfirst.
    pose proof (find_none _ _ Hfirst layer
                  (proj1 (list_elem_of_In _ _) Hin)) as Hno.
    unfold has_id in Hno. rewrite Hid, string_eqb_same in Hno. discriminate.
Qed.

Example get_active_layer_empty_id :
  let m := Layers.create_layer (Layers.LayerManager_new "root") "" "Layer 1"
             Layers.NoGroup in
  Layers.active_layer_id m = Some ""%string
  /\ (Layers.set_active_layer m "").1 = true
  /\ Manager.get_layer_count m = 1%nat
  /\ Manager.get_active_layer m = None.
Proof. repeat split. Qed.

(** ** Layers of a tree under [create_layer] and [delete_layer] *)

Lemma bind_child_layers_split (cs : list Layers.child) (i : nat) (c : Layers.child) :
  cs !! i = Some c ->
  cs ≫= child_layers true
  = (take i cs ≫= child_layers true) ++ child_layers true c
    ++ (drop (S i) cs ≫= child_layers true).
Proof.
  intros Hi. rewrite <- (take_drop_middle cs i c Hi) at 1.
  rewrite bind_app, bind_cons. reflexivity.
Qed.

Lemma get_all_layers_group (g : Layers.LayerGroup) :
  Layers.get_all_layers true g = Layers.children g ≫= child_layers true.
Proof. destruct g as [f cs]. apply get_all_layers_children. Qed.

(** What a method run on a group of the tree does to the tree: the group
    at the end of the path is replaced by what the method leaves, the
    layers of that group are a stretch of the layers of the tree, and only
    that stretch changes. *)
Lemma at_path_stretch (p : Layers.path) :
  forall g target,
    Layers.group_at p g = Some target ->
    Layers.get_all_layers true g
    = layers_before p g ++ Layers.get_all_layers true target ++ layers_after p g
    /\ forall (R : Type) (h : Layers.LayerGroup -> R * Layers.LayerGroup),
         exists g',
           Layers.at_path p h g = Some ((h target).1, g')
           /\ Layers.group_at p g' = Some (h target).2
           /\ Layers.get_all_layers true g'
              = layers_before p g ++ Layers.get_all_layers true (h target).2
                ++ layers_after p g.
Proof.
  induction p as [|i p IH]; intros g target Hat; simpl in Hat.
  - injection Hat as <-. split.
    + simpl. rewrite app_nil_r. reflexivity.
    + intros R h. exists (h g).2. simpl. rewrite app_nil_r.
      split; [destruct (h g); reflexivity|]. split; reflexivity.
  - destruct (Layers.children g !! i) as [[l|sub]|] eqn:Hi; try discriminate.
    destruct (IH sub target Hat) as (Hsub & Hh).
    cbn [layers_before layers_after]. rewrite Hi.
    split.
    + rewrite get_all_layers_group, (bind_child_layers_split _ i _ Hi).
      simpl. rewrite Hsub. rewrite <- !app_assoc. reflexivity.
    + intros R h. destruct (Hh R h) as (sub' & Hsub' & Hat' & Hlayers).
      exists (Layers.with_children g (<[i := inr sub']> (Layers.children g))).
      assert (i < length (Layers.children g))%nat as Hlt
        by (eapply lookup_lt_Some; eauto).
      split; [simpl; rewrite Hi, Hsub'; reflexivity|].
      destruct g as [f cs].
      cbn [Layers.children] in *. unfold Layers.with_children. split.
      * cbn [Layers.group_at Layers.children].
        rewrite list_lookup_insert_eq by exact Hlt. exact Hat'.
      * rewrite get_all_layers_children.
        rewrite insert_take_drop by exact Hlt.
        rewrite bind_app, bind_cons. cbn [child_layers]. rewrite Hlayers.
        rewrite <- !app_assoc. reflexivity.
Qed.

Lemma at_path_layers (p : Layers.path) :
  forall g target,
    Layers.group_at p g = Some target ->
    exists pre post,
      Layers.get_all_layers true g
      = pre ++ Layers.get_all_layers true target ++ post
      /\ forall (R : Type) (h : Layers.LayerGroup -> R * Layers.LayerGroup),
           exists g',
             Layers.at_path p h g = Some ((h target).1, g')
             /\ Layers.get_all_layers true g'
                = pre ++ Layers.get_all_layers true (h target).2 ++ post.
Proof.
  intros g target Hat. destruct (at_path_stretch p g target Hat) as (Hl & Hh).
  exists (layers_before p g), (layers_after p g). split; [exact Hl|].
  intros R h. destruct (Hh R h) as (g' & H1 & _ & H3). exists g'. auto.
Qed.

Lemma add_child_layers (g : Layers.LayerGroup) (l : Layers.Layer) :
  Layers.get_all_layers true (Layers.add_child g (inl l))
  = Layers.get_all_layers true g
    ++ [Layers.with_parent l (Some (Layers.group_id g))].
Proof.
  rewrite !get_all_layers_group. destruct g as [f cs]. simpl.
  rewrite bind_app. reflexivity.
Qed.

(** X8.  [create_layer] adds exactly one layer, to the group it is given.
    When the parent group is left out (then the target is the root group)
    or is a group of the manager's tree, the target group afterwards is the
    one before with one more child at the end: the new layer, which has the
    name given, no shapes, and the target group's id as its [parent_id].
    The layers of the document afterwards are the layers before with the
    new layer put in right behind the last layer of the target group; no
    other layer changes or moves, and the count goes up by one. *)
Theorem create_layer_adds_one_layer (self : Layers.LayerManager)
    (new_id : Layers.ID) (name : string) (parent_group : Layers.group_arg)
    (Htree : within_tree self (Layers.CreateLayer new_id name parent_group) = true) :
  exists p target target',
    let root := Layers.root_group self in
    let self' := Layers.create_layer self new_id name parent_group in
    let layer := Layers.with_parent (Layers.Layer_new new_id name)
                   (Some (Layers.group_id target)) in
    target_path parent_group = Some p
    /\ Layers.group_at p root = Some target
    /\ Layers.group_at p (Layers.root_group self') = Some target'
    /\ Layers.fields target' = Layers.fields target
    /\ Layers.children target' = Layers.children target ++ [inl layer]
    /\ Manager.get_all_layers self
       = layers_before p root ++ Layers.get_all_layers true target
         ++ layers_after p root
    /\ Manager.get_all_layers self'
       = layers_before p root ++ (Layers.get_all_layers true target ++ [layer])
         ++ layers_after p root
    /\ Manager.get_layer_count self' = S (Manager.get_layer_count self).
Proof.
  assert (exists p target, target_path parent_group = Some p
                           /\ Layers.group_at p (Layers.root_group self) = Some target)
    as (p & target & Hp & Hat).
  { destruct parent_group as [|p|other]; simpl in Htree.
    - exists [], (Layers.root_group self). split; reflexivity.
    - destruct (Layers.group_at p (Layers.root_group self)) as [target|] eqn:Hat;
        [|discriminate].
      exists p, target. split; [reflexivity|exact Hat].
    - discriminate. }
  destruct (at_path_stretch p _ _ Hat) as (Hbefore & Hh).
  destruct (Hh unit (fun g => (tt, Layers.add_child g
                                     (inl (Layers.Layer_new new_id name)))))
    as (root' & Hroot' & Hat' & Hafter).
  cbn [fst snd] in Hroot', Hat', Hafter. rewrite add_child_layers in Hafter.
  assert (Layers.root_group (Layers.create_layer self new_id name parent_group)
          = root') as Hroot.
  { unfold Layers.create_layer, Layers.add_to_target. cbn [Layers.root_group].
    destruct parent_group as [|q|other]; simpl in Hp; try discriminate;
      injection Hp as <-.
    - simpl in Hroot'. now injection Hroot' as <-.
    - rewrite Hroot'. reflexivity. }
  exists p, target,
    (Layers.add_child target (inl (Layers.Layer_new new_id name))).
  cbn zeta. unfold Manager.get_layer_count, Manager.get_all_layers.
  rewrite Hroot.
  split; [exact Hp|]. split; [exact Hat|]. split; [exact Hat'|].
  split; [destruct target; reflexivity|].
  split; [destruct target; reflexivity|].
  split; [exact Hbefore|]. split; [exact Hafter|].
  rewrite Hbefore, Hafter. repeat (rewrite length_app || simpl). lia.
Qed.

Lemma create_layer_adds_one_layer_witness :
  exists target',
    let layer := Layers.with_parent (Layers.Layer_new "layer-2" "Ink")
                   (Some "group-1"%string) in
    Layers.group_at [0%nat]
      (Layers.root_group
         (Layers.create_layer manager_with_nested_layer "layer-2" "Ink"
            (Layers.TreeGroup [0%nat]))) = Some target'
    /\ Layers.children target'
       = [inl (Layers.with_parent (Layers.Layer_new "layer-1" "Sketch")
                 (Some "group-1"%string));
          inl layer]
    /\ Manager.get_layer_count
         (Layers.create_layer manager_with_nested_layer "layer-2" "Ink"
            (Layers.TreeGroup [0%nat])) = 2%nat.
Proof.
  destruct (create_layer_adds_one_layer manager_with_nested_layer "layer-2" "Ink"
              (Layers.TreeGroup [0%nat]) eq_refl)
    as (p & target & target' & Hp & Hat & Hat' & _ & Hch & _ & _ & Hn).
  injection Hp as <-. injection Hat as <-.
  exists target'. split; [exact Hat'|]. split; [exact Hch|exact Hn].
Defined.

Section TreeDelete.
Variable a : Layers.ID.
Implicit Types (cs : list Layers.child) (g : Layers.LayerGroup).

Lemma search_walk_None cs :
  forall i, search_walk a i cs = None ->
  forall c, c ∈ cs ->
    String.eqb (Layers.child_id c) a = false
    /\ forall g, c = inr g -> Layers.search_group a g = None.
Proof.
  induction cs as [|c0 cs IH]; intros i Hw c Hc.
  - apply elem_of_nil in Hc as [].
  - simpl in Hw.
    destruct (String.eqb (Layers.child_id c0) a) eqn:Hc0; [discriminate|].
    apply elem_of_cons in Hc as [->|Hc].
    + split; [exact Hc0|]. intros g ->.
      destruct (Layers.search_group a g); [discriminate|reflexivity].
    + destruct c0 as [l|g0].
      * exact (IH _ Hw c Hc).
      * destruct (Layers.search_group a g0); [discriminate|].
        exact (IH _ Hw c Hc).
Qed.

Lemma search_walk_Some cs :
  forall i p, search_walk a i cs = Some p ->
  exists before c after,
    cs = before ++ c :: after
    /\ (forall x, x ∈ before ->
          String.eqb (Layers.child_id x) a = false
          /\ forall g, x = inr g -> Layers.search_group a g = None)
    /\ ((p = [] /\ String.eqb (Layers.child_id c) a = true)
        \/ (String.eqb (Layers.child_id c) a = false
            /\ exists sub p', c = inr sub /\ p = (i + length before)%nat :: p'
                              /\ Layers.search_group a sub = Some p')).
Proof.
  induction cs as [|c0 cs IH]; intros i p Hw; simpl in Hw; [discriminate|].
  destruct (String.eqb (Layers.child_id c0) a) eqn:Hc0.
  - injection Hw as <-. exists [], c0, cs. split; [reflexivity|]. split.
    + intros x Hx. apply elem_of_nil in Hx as [].
    + left. auto.
  - assert (forall q, search_walk a (S i) cs = Some q ->
              (forall g, c0 = inr g -> Layers.search_group a g = None) ->
              exists before c after,
                c0 :: cs = before ++ c :: after
                /\ (forall x, x ∈ before ->
                      String.eqb (Layers.child_id x) a = false
                      /\ forall g, x = inr g -> Layers.search_group a g = None)
                /\ ((q = [] /\ String.eqb (Layers.child_id c) a = true)
                    \/ (String.eqb (Layers.child_id c) a = false
                        /\ exists sub p', c = inr sub
                             /\ q = (i + length before)%nat :: p'
                             /\ Layers.search_group a sub = Some p'))) as Hrest.
    { intros q Hq Hnone.
      destruct (IH _ _ Hq) as (before & c & after & -> & Hb & Hc).
      exists (c0 :: before), c, after. split; [reflexivity|]. split.
      - intros x Hx. apply elem_of_cons in Hx as [->|Hx]; [|exact (Hb x Hx)].
        split; [exact Hc0|exact Hnone].
      - destruct Hc as [Hc|(Hc & sub & p' & -> & -> & Hs)]; [left; exact Hc|].
        right. split; [exact Hc|]. exists sub, p'. repeat split; [|exact Hs].
        f_equal. simpl. lia. }
    destruct c0 as [l|g0].
    + apply Hrest; [exact Hw|discriminate].
    + destruct (Layers.search_group a g0) as [p0|] eqn:Hg0.
      * injection Hw as <-. exists [], (inr g0), cs. split; [reflexivity|]. split.
        -- intros x Hx. apply elem_of_nil in Hx as [].
        -- right. split; [exact Hc0|]. exists g0, p0. repeat split; [|exact Hg0].
           f_equal. simpl. lia.
      * apply Hrest; [exact Hw|]. intros g [= <-]. exact Hg0.
Qed.

Lemma find_group_walk_None (b : Layers.ID) cs :
  find_group_walk b cs = None <->
  forall sub, inr sub ∈ cs -> Layers.find_group_by_id b true sub = None.
Proof.
  induction cs as [|[l|g0] cs IH]; simpl.
  - split; [|reflexivity]. intros _ sub Hs. apply elem_of_nil in Hs as [].
  - rewrite IH. split; intros H sub Hs.
    + apply elem_of_cons in Hs as [Hs|Hs]; [discriminate|]. exact (H sub Hs).
    + apply H. right. exact Hs.
  - split.
    + intros H sub Hs.
      destruct (String.eqb (Layers.group_id g0) b); [discriminate|].
      destruct (Layers.find_group_by_id b true g0) eqn:Hg0; [discriminate|].
      apply elem_of_cons in Hs as [[= ->]|Hs]; [exact Hg0|].
      exact (proj1 IH H sub Hs).
    + intros H. pose proof (H g0 (list_elem_of_here _ _)) as Hg0.
      destruct (find_group_absent b g0 Hg0) as [Hid _].
      apply String.eqb_neq in Hid. rewrite Hid, Hg0.
      apply IH. intros sub Hs. apply H. right. exact Hs.
Qed.

Lemma find_group_None (b : Layers.ID) (f : Layers.GroupFields) cs :
  Layers.find_group_by_id b true (Layers.Group f cs) = None <->
  Layers.g_id f <> b
  /\ forall sub, inr sub ∈ cs -> Layers.find_group_by_id b true sub = None.
Proof.
  rewrite find_group_by_id_walk, <- find_group_walk_None.
  destruct (String.eqb (Layers.g_id f) b) eqn:Hf.
  - apply String.eqb_eq in Hf. split; [discriminate|]. intros [H _]. contradiction.
  - apply String.eqb_neq in Hf. tauto.
Qed.

Lemma remove_child_id_at (f : Layers.GroupFields)
    (before after : list Layers.child) (c : Layers.child) :
  (forall x, x ∈ before -> String.eqb (Layers.child_id x) a = false) ->
  String.eqb (Layers.child_id c) a = true ->
  Layers.remove_from_parent (Layers.Group f (before ++ c :: after)) [] a
  = Some (true, Layers.Group f (before ++ after)).
Proof.
  intros Hb Hc. unfold Layers.remove_from_parent. simpl.
  unfold Layers.remove_child, PyList.remove, PyList.pop.
  cbn [Layers.children].
  rewrite (find_index_first (Layers.matches (Layers.ChildId a)) before after c Hb Hc).
  rewrite list_lookup_middle by reflexivity.
  rewrite delete_middle. reflexivity.
Qed.

Lemma child_layers_without (c : Layers.child) :
  String.eqb (Layers.child_id c) a = false ->
  (forall g, c = inr g ->
             forall x, x ∈ Layers.get_all_layers true g -> Layers.id x <> a) ->
  forall x, x ∈ child_layers true c -> Layers.id x <> a.
Proof.
  intros Hc Hg x Hx. destruct c as [l|g]; simpl in Hx.
  - apply list_elem_of_singleton in Hx as ->.
    apply String.eqb_neq. exact Hc.
  - exact (Hg g eq_refl x Hx).
Qed.

(** What [delete_layer] does to the tree when no group carries the
    identifier: the first layer with the identifier, in the order of
    [get_all_layers], is taken out of its group. *)
Lemma delete_from_tree :
  forall g,
    Layers.find_group_by_id a true g = None ->
    match Layers.search_group a g with
    | Some p =>
        exists pre l post g',
          Layers.remove_from_parent g p a = Some (true, g')
          /\ Layers.get_all_layers true g = pre ++ l :: post
          /\ Layers.id l = a
          /\ (forall x, x ∈ pre -> Layers.id x <> a)
          /\ Layers.get_all_layers true g' = pre ++ post
          /\ Layers.fields g' = Layers.fields g
          /\ (forall b, Layers.find_group_by_id b true g = None ->
                        Layers.find_group_by_id b true g' = None)
    | None => forall x, x ∈ Layers.get_all_layers true g -> Layers.id x <> a
    end.
Proof.
  induction g as [f cs IH] using LayerGroup_induction. intros Hno.
  apply find_group_None in Hno as [Hf Hsubs].
  rewrite search_group_walk.
  destruct (search_walk a 0 cs) as [p|] eqn:Hw.
  - destruct (search_walk_Some cs 0 p Hw)
      as (before & c & after & -> & Hbefore & Hc).
    assert (forall x, x ∈ before ≫= child_layers true -> Layers.id x <> a) as Hpre.
    { intros x Hx. apply list_elem_of_bind in Hx as (c' & Hx & Hc').
      destruct (Hbefore c' Hc') as [Hid Hsearch].
      apply (child_layers_without c' Hid); [|exact Hx].
      intros g' -> y Hy.
      assert (inr g' ∈ before ++ c :: after) as Hin
        by (apply elem_of_app; left; exact Hc').
      pose proof (IH g' Hin (Hsubs g' Hin)) as Hg'.
      rewrite (Hsearch g' eq_refl) in Hg'. exact (Hg' y Hy). }
    assert (c ∈ before ++ c :: after) as Hcin
      by (apply elem_of_app; right; left).
    destruct Hc as [[-> Hc]|(Hc & sub & p' & -> & -> & Hs)].
    + destruct c as [l|sub].
      * exists (before ≫= child_layers true), l, (after ≫= child_layers true),
          (Layers.Group f (before ++ after)).
        split; [apply remove_child_id_at;
                [intros x Hx; exact (proj1 (Hbefore x Hx))|exact Hc]|].
        split; [rewrite get_all_layers_children, bind_app, bind_cons; reflexivity|].
        split; [apply String.eqb_eq; exact Hc|].
        split; [exact Hpre|].
        split; [rewrite get_all_layers_children, bind_app; reflexivity|].
        split; [reflexivity|].
        intros b Hb. apply find_group_None in Hb as [Hbf Hbs].
        apply find_group_None. split; [exact Hbf|].
        intros sub Hsub. apply Hbs.
        apply elem_of_app in Hsub as [Hsub|Hsub]; apply elem_of_app;
          [left|right; right]; exact Hsub.
      * exfalso. destruct (find_group_absent a sub (Hsubs sub Hcin)) as [Hid _].
        apply Hid. apply String.eqb_eq. exact Hc.
    + pose proof (IH sub Hcin (Hsubs sub Hcin)) as Hsub. rewrite Hs in Hsub.
      destruct Hsub as (pre & l & post & sub' & Hrm & Hl & Hid & Hpre' & Hl' & _ & Hgr).
      exists ((before ≫= child_layers true) ++ pre), l,
        (post ++ (after ≫= child_layers true)),
        (Layers.Group f (before ++ inr sub' :: after)).
      split.
      { unfold Layers.remove_from_parent in *. simpl.
        rewrite list_lookup_middle by reflexivity.
        rewrite Hrm. unfold Layers.with_children. simpl.
        rewrite (insert_app_r_alt before _ (length before)) by apply Nat.le_refl.
        rewrite Nat.sub_diag. reflexivity. }
      split.
      { rewrite get_all_layers_children, bind_app, bind_cons.
        cbn [child_layers]. rewrite Hl, <- !app_assoc. reflexivity. }
      split; [exact Hid|].
      split.
      { intros x Hx. apply elem_of_app in Hx as [Hx|Hx];
          [exact (Hpre x Hx)|exact (Hpre' x Hx)]. }
      split.
      { rewrite get_all_layers_children, bind_app, bind_cons.
        cbn [child_layers]. rewrite Hl', <- !app_assoc. reflexivity. }
      split; [reflexivity|].
      intros b Hb. apply find_group_None in Hb as [Hbf Hbs].
      apply find_group_None. split; [exact Hbf|].
      intros g0 Hg0. apply elem_of_app in Hg0 as [Hg0|Hg0].
      * apply Hbs, elem_of_app. left. exact Hg0.
      * apply elem_of_cons in Hg0 as [[= ->]|Hg0].
        -- apply Hgr, Hbs. exact Hcin.
        -- apply Hbs, elem_of_app. right. right. exact Hg0.
  - intros x Hx. rewrite get_all_layers_children in Hx.
    apply list_elem_of_bind in Hx as (c & Hx & Hc).
    destruct (search_walk_None cs 0 Hw c Hc) as [Hid Hsearch].
    apply (child_layers_without c Hid); [|exact Hx].
    intros g' -> y Hy.
    pose proof (IH g' Hc (Hsubs g' Hc)) as Hg'.
    rewrite (Hsearch g' eq_refl) in Hg'. exact (Hg' y Hy).
Qed.
End TreeDelete.

Lemma find_first_split {A} (p : A -> bool) (pre post : list A) (x : A) :
  (forall y, y ∈ pre -> p y = false) -> p x = true ->
  List.find p (pre ++ x :: post) = Some x.
Proof.
  intros Hpre Hx. induction pre as [|y pre IH]; simpl.
  - rewrite Hx. reflexivity.
  - rewrite (Hpre y) by left. apply IH. intros z Hz. apply Hpre. right. exact Hz.
Qed.

Lemma delete_layer_tree (self : Layers.LayerManager) (a : Layers.ID)
    (l : Layers.Layer) :
  Layers.find_group_by_id a true (Layers.root_group self) = None ->
  Manager.find_layer_by_id self a = Some l ->
  exists pre post root',
    Layers.delete_layer self a
    = (true, {| Layers.root_group := root';
                Layers.active_layer_id :=
                  if PyEq.option_eqb String.eqb (Layers.active_layer_id self) (Some a)
                  then None else Layers.active_layer_id self |})
    /\ Manager.get_all_layers self = pre ++ l :: post
    /\ (forall x, x ∈ pre -> Layers.id x <> a)
    /\ Layers.get_all_layers true root' = pre ++ post
    /\ (forall b, Layers.find_group_by_id b true (Layers.root_group self) = None ->
                  Layers.find_group_by_id b true root' = None).
Proof.
  intros Hno Hfind. unfold Manager.find_layer_by_id in Hfind.
  unfold Layers.delete_layer, Manager.get_all_layers. rewrite Hfind.
  pose proof (delete_from_tree a (Layers.root_group self) Hno) as Htree.
  rewrite find_layer_by_id_find in Hfind.
  destruct (Layers.search_group a (Layers.root_group self)) as [p|].
  - destruct Htree as (pre & l' & post & root' & -> & Hl & Hid & Hpre & Hl' & _ & Hgr).
    assert (l' = l) as ->.
    { rewrite Hl in Hfind. rewrite find_first_split in Hfind.
      - injection Hfind as ->. reflexivity.
      - intros y Hy. apply String.eqb_neq, Hpre, Hy.
      - apply String.eqb_eq, Hid. }
    exists pre, post, root'. auto.
  - exfalso. apply find_some in Hfind as [Hin Hid].
    apply (Htree l); [apply list_elem_of_In, Hin|apply String.eqb_eq, Hid].
Qed.

(** X9.  [delete_layer], called with an identifier that no group carries,
    takes out exactly one layer: the first layer of [get_all_layers] with
    the identifier, the one that [find_layer_by_id] returns.  Every other
    layer stays, in the same order; the count goes down by one; and the
    active layer is cleared when it was the identifier.  When no layer has
    the identifier, [delete_layer] returns [False] and changes nothing. *)
Theorem delete_layer_removes_first (self : Layers.LayerManager)
    (layer_id : Layers.ID)
    (Hapart : Layers.find_group_by_id layer_id true (Layers.root_group self) = None) :
  match Manager.find_layer_by_id self layer_id with
  | Some layer =>
      exists pre post self',
        Layers.delete_layer self layer_id = (true, self')
        /\ Manager.get_all_layers self = pre ++ layer :: post
        /\ (forall x, x ∈ pre -> Layers.id x <> layer_id)
        /\ Manager.get_all_layers self' = pre ++ post
        /\ S (Manager.get_layer_count self') = Manager.get_layer_count self
        /\ Layers.active_layer_id self'
           = (if PyEq.option_eqb String.eqb (Layers.active_layer_id self)
                   (Some layer_id)
              then None else Layers.active_layer_id self)
  | None => Layers.delete_layer self layer_id = (false, self)
  end.
Proof.
  destruct (Manager.find_layer_by_id self layer_id) as [layer|] eqn:Hfind.
  - destruct (delete_layer_tree self layer_id layer Hapart Hfind)
      as (pre & post & root' & Hdel & Hl & Hpre & Hl' & _).
    exists pre, post. eexists. split; [exact Hdel|].
    unfold Manager.get_layer_count. rewrite Hl.
    unfold Manager.get_all_layers. cbn [Layers.root_group].
    rewrite Hl'. repeat split; try assumption.
    rewrite !length_app. simpl. lia.
  - unfold Layers.delete_layer. unfold Manager.find_layer_by_id in Hfind.
    rewrite Hfind. reflexivity.
Qed.

Lemma delete_layer_removes_first_witness :
  exists pre post self',
    Layers.delete_layer manager_with_nested_layer "layer-1" = (true, self')
    /\ Manager.get_all_layers manager_with_nested_layer
       = pre ++ Layers.with_parent (Layers.Layer_new "layer-1" "Sketch")
                  (Some "group-1"%string) :: post
    /\ Manager.get_all_layers self' = pre ++ post
    /\ Layers.active_layer_id self' = None.
Proof.
  destruct (delete_layer_removes_first manager_with_nested_layer "layer-1" eq_refl)
    as (pre & post & self' & H1 & H2 & _ & H4 & _ & H6).
  exists pre, post, self'. auto.
Defined.

(** ** The document *)

Lemma total_shape_count_from (layers : list Layers.Layer) (n : nat) :
  fold_left (fun total layer => (total + LayerMore.get_shape_count layer)%nat)
    layers n
  = (n + length (flat_map Layers.shapes layers))%nat.
Proof.
  revert n. induction layers as [|l layers IH]; intros n; simpl.
  - lia.
  - rewrite IH, length_app. unfold LayerMore.get_shape_count. lia.
Qed.

Lemma flat_map_shapes_nil (layers : list Layers.Layer) :
  flat_map Layers.shapes layers = []
  <-> forall l, l ∈ layers -> LayerMore.is_empty l = true.
Proof.
  induction layers as [|l layers IH]; simpl.
  - split; [|reflexivity]. intros _ l Hl. apply elem_of_nil in Hl as [].
  - split.
    + intros H. apply app_eq_nil in H as [Hl Hrest].
      intros x Hx. apply elem_of_cons in Hx as [->|Hx].
      * unfold LayerMore.is_empty. rewrite Hl. reflexivity.
      * exact (proj1 IH Hrest x Hx).
    + intros H. pose proof (H l (list_elem_of_here _ _)) as Hl.
      unfold LayerMore.is_empty in Hl. apply Nat.eqb_eq in Hl.
      destruct (Layers.shapes l); [|discriminate]. simpl.
      apply IH. intros x Hx. apply H. right. exact Hx.
Qed.

Lemma get_total_shape_count_zero (self : Drawing.DrawingDocument) :
  Drawing.get_total_shape_count self
  = length (flat_map Layers.shapes
              (Manager.get_all_layers (Drawing.layer_manager self)))
  /\ (Drawing.get_total_shape_count self = 0%nat <->
      forall l, l ∈ Manager.get_all_layers (Drawing.layer_manager self) ->
                LayerMore.is_empty l = true).
Proof.
  unfold Drawing.get_total_shape_count.
  rewrite total_shape_count_from. simpl. split; [reflexivity|].
  rewrite <- flat_map_shapes_nil. split.
  - intros H. destruct (flat_map _ _); [reflexivity|discriminate].
  - intros ->. reflexivity.
Qed.

(** X10.  [get_total_shape_count] counts the entries of
    [root_group.get_all_shapes()]: the shapes of all layers at any depth,
    each layer's shapes counted as often as the layer holds them.  It is 0
    exactly when every layer of the document is empty. *)
Theorem get_total_shape_count_all_shapes (self : Drawing.DrawingDocument) :
  Drawing.get_total_shape_count self
  = length (GroupMore.get_all_shapes true
              (Layers.root_group (Drawing.layer_manager self)))
  /\ (Drawing.get_total_shape_count self = 0%nat <->
      forall l, l ∈ Manager.get_all_layers (Drawing.layer_manager self) ->
                LayerMore.is_empty l = true).
Proof.
  destruct (get_total_shape_count_zero self) as [Hcount Hzero].
  split; [exact Hcount|exact Hzero].
Qed.

Lemma filter_all {A} (p : A -> bool) (l : list A) :
  (forall x, x ∈ l -> p x = true) -> List.filter p l = l.
Proof.
  induction l as [|x l IH]; intros H; simpl; [reflexivity|].
  rewrite (H x) by left. f_equal. apply IH. intros y Hy. apply H. right. exact Hy.
Qed.

(** X11.  What [validate_document] reports.  A document whose canvas came
    out of the [CanvasSize] constructor has no errors: the one error there is
    needs a width or height that is not positive.  The no-shapes warning is
    given exactly when every layer is empty; so when it is given and the
    document has a layer, the empty-layers warning is given as well, and it
    names every layer of the document, in the order of [get_all_layers]. *)
Theorem validate_document_findings (self : Drawing.DrawingDocument) :
  (forall w h u, Document.CanvasSize_new w h u = Ok (Drawing.canvas self) ->
                 Drawing.errors (Drawing.validate_document self) = [])
  /\ (Drawing.errors (Drawing.validate_document self) = [] <->
      (0 < Document.width (Drawing.canvas self)
       /\ 0 < Document.height (Drawing.canvas self))%Q)
  /\ (Drawing.NoShapes ∈ Drawing.warnings (Drawing.validate_document self) <->
      forall l, l ∈ Manager.get_all_layers (Drawing.layer_manager self) ->
                LayerMore.is_empty l = true)
  /\ (Drawing.NoShapes ∈ Drawing.warnings (Drawing.validate_document self) ->
      Manager.get_all_layers (Drawing.layer_manager self) <> [] ->
      Drawing.EmptyLayers
        (Layers.name <$> Manager.get_all_layers (Drawing.layer_manager self))
      ∈ Drawing.warnings (Drawing.validate_document self)).
Proof.
  assert (Drawing.errors (Drawing.validate_document self) = [] <->
          (0 < Document.width (Drawing.canvas self)
           /\ 0 < Document.height (Drawing.canvas self))%Q) as Herr.
  { unfold Drawing.validate_document. cbn [Drawing.errors].
    destruct (Qle_bool (Document.width (Drawing.canvas self)) 0) eqn:Hw;
      destruct (Qle_bool (Document.height (Drawing.canvas self)) 0) eqn:Hh;
      simpl; split; try discriminate; try reflexivity;
      try (intros [Hw' Hh'];
           try (apply Qle_bool_iff in Hw; exfalso; apply (Qlt_not_le _ _ Hw' Hw));
           try (apply Qle_bool_iff in Hh; exfalso; apply (Qlt_not_le _ _ Hh' Hh))).
    intros _. split; apply Qnot_le_lt; intros H; apply Qle_bool_iff in H;
      congruence. }
  assert (Drawing.NoShapes ∈ Drawing.warnings (Drawing.validate_document self) <->
          forall l, l ∈ Manager.get_all_layers (Drawing.layer_manager self) ->
                    LayerMore.is_empty l = true) as Hno.
  { rewrite <- (proj2 (get_total_shape_count_zero self)).
    unfold Drawing.validate_document. cbn [Drawing.warnings].
    rewrite !elem_of_app.
    destruct (Drawing.get_total_shape_count self =? 0)%nat eqn:Hz.
    - apply Nat.eqb_eq in Hz. split; [intros _; exact Hz|].
      intros _. right. left. left.
    - apply Nat.eqb_neq in Hz. split; [|contradiction].
      intros [H|[H|H]].
      + destruct (negb _); [apply list_elem_of_singleton in H; discriminate
                           |apply elem_of_nil in H as []].
      + apply elem_of_nil in H as [].
      + destruct (map _ _); [apply elem_of_nil in H as []
                            |apply list_elem_of_singleton in H; discriminate]. }
  split; [|split; [exact Herr|split; [exact Hno|]]].
  - intros w h u Hc. apply Herr.
    destruct (CanvasSize_new_units w h u _ Hc) as (-> & _ & Hw & Hh).
    split; assumption.
  - intros Hshapes Hlayers. pose proof (proj1 Hno Hshapes) as Hall.
    unfold Drawing.validate_document. cbn [Drawing.warnings].
    rewrite !elem_of_app. right. right.
    rewrite (filter_all _ _ Hall).
    destruct (Manager.get_all_layers (Drawing.layer_manager self)) as [|l ls];
      [contradiction|]. left.
Qed.

Lemma NoDup_fmap_eq {A B} (f : A -> B) (l : list A) (x y : A) :
  NoDup (f <$> l) -> x ∈ l -> y ∈ l -> f x = f y -> x = y.
Proof.
  induction l as [|z l IH]; intros Hnd Hx Hy Hxy.
  - apply elem_of_nil in Hx as [].
  - rewrite fmap_cons in Hnd. apply NoDup_cons in Hnd as [Hz Hnd].
    apply elem_of_cons in Hx as [->|Hx]; apply elem_of_cons in Hy as [->|Hy].
    + reflexivity.
    + exfalso. apply Hz. rewrite Hxy. apply list_elem_of_fmap. eauto.
    + exfalso. apply Hz. rewrite <- Hxy. apply list_elem_of_fmap. eauto.
    + exact (IH Hnd Hx Hy Hxy).
Qed.

Lemma filter_sublist {A} (p : A -> bool) (l : list A) :
  List.filter p l `sublist_of` l.
Proof.
  induction l as [|x l IH]; simpl; [constructor|].
  destruct (p x); constructor; exact IH.
Qed.

Lemma filter_and {A} (p q : A -> bool) (l : list A) :
  List.filter (fun x => p x && q x) l = List.filter q (List.filter p l).
Proof.
  induction l as [|x l IH]; simpl; [reflexivity|].
  destruct (p x); simpl; [|exact IH]. destruct (q x); [f_equal|]; exact IH.
Qed.

Lemma filter_other_ids (pre post : list Layers.Layer) (e : Layers.Layer) :
  NoDup (Layers.id <$> pre ++ e :: post) ->
  List.filter (fun l => negb (String.eqb (Layers.id e) (Layers.id l)))
    (pre ++ e :: post) = pre ++ post.
Proof.
  intros Hnd. rewrite List.filter_app. simpl.
  rewrite string_eqb_same. simpl.
  assert (forall x, x ∈ pre ++ post ->
            negb (String.eqb (Layers.id e) (Layers.id x)) = true) as Hother.
  { intros x Hx. apply negb_true_iff, String.eqb_neq. intros Heq.
    assert (e = x) as <-.
    { apply (NoDup_fmap_eq Layers.id (pre ++ e :: post)); [exact Hnd| | |exact Heq].
      - apply elem_of_app. right. left.
      - apply elem_of_app in Hx as [Hx|Hx]; apply elem_of_app;
          [left|right; right]; exact Hx. }
    rewrite fmap_app, fmap_cons in Hnd.
    apply NoDup_app in Hnd as (_ & Hpre & Hpost).
    apply NoDup_cons in Hpost as [Hpost _].
    apply elem_of_app in Hx as [Hx|Hx].
    - apply (Hpre (Layers.id e)); [apply list_elem_of_fmap; eauto|left].
    - apply Hpost. apply list_elem_of_fmap. eauto. }
  f_equal; apply filter_all; intros x Hx; apply Hother, elem_of_app; auto.
Qed.

Lemma find_layer_by_id_unique (m : Layers.LayerManager) (e : Layers.Layer) :
  NoDup (Layers.id <$> Manager.get_all_layers m) ->
  e ∈ Manager.get_all_layers m ->
  Manager.find_layer_by_id m (Layers.id e) = Some e.
Proof.
  intros Hnd He. unfold Manager.find_layer_by_id.
  rewrite find_layer_by_id_find.
  destruct (List.find _ _) as [l|] eqn:Hfind.
  - apply find_some in Hfind as [Hl Hid].
    f_equal. apply (NoDup_fmap_eq Layers.id _ _ _ Hnd).
    + apply list_elem_of_In. exact Hl.
    + exact He.
    + apply String.eqb_eq. exact Hid.
  - pose proof (find_none _ _ Hfind e (proj1 (list_elem_of_In _ _) He)) as Hno.
    unfold has_id in Hno. rewrite string_eqb_same in Hno. discriminate.
Qed.

Lemma delete_each_apart (gone : list Layers.Layer) :
  forall (n : nat) (m : Layers.LayerManager),
    ids_apart m ->
    NoDup (Layers.id <$> gone) ->
    (forall e, e ∈ gone -> e ∈ Manager.get_all_layers m) ->
    exists m',
      delete_each gone (n, m) = ((n + length gone)%nat, m')
      /\ Manager.get_all_layers m'
         = List.filter (kept gone) (Manager.get_all_layers m).
Proof.
  induction gone as [|e gone IH]; intros n m [Hnd Hgroups] Hgone Hin.
  - exists m. split; [simpl; f_equal; lia|].
    symmetry. apply filter_all. reflexivity.
  - rewrite fmap_cons in Hgone. apply NoDup_cons in Hgone as [He Hgone].
    pose proof (Hin e (list_elem_of_here _ _)) as Hein.
    destruct (delete_layer_tree m (Layers.id e) e (Hgroups e Hein)
                (find_layer_by_id_unique m e Hnd Hein))
      as (pre & post & root' & Hdel & Hl & _ & Hl' & Hgr).
    set (m1 := {| Layers.root_group := root';
                  Layers.active_layer_id :=
                    if PyEq.option_eqb String.eqb (Layers.active_layer_id m)
                         (Some (Layers.id e))
                    then None else Layers.active_layer_id m |}) in *.
    assert (Manager.get_all_layers m1 = pre ++ post) as Hm1 by exact Hl'.
    assert (pre ++ post `sublist_of` pre ++ e :: post) as Hsub
      by (apply sublist_app; [reflexivity|apply sublist_cons; reflexivity]).
    destruct (IH (S n) m1) as (m' & Hfold & Hlayers).
    + split.
      * rewrite Hm1.
        apply (sublist_NoDup _ (Layers.id <$> pre ++ e :: post));
          [rewrite <- Hl; exact Hnd|apply fmap_sublist; exact Hsub].
      * intros l Hlin. apply Hgr, Hgroups. rewrite Hl.
        rewrite Hm1 in Hlin. exact (elem_of_sublist _ _ _ Hlin Hsub).
    + exact Hgone.
    + intros e' He'. rewrite Hm1.
      pose proof (Hin e' (list_elem_of_further _ _ _ He')) as He'in.
      rewrite Hl in He'in.
      apply elem_of_app in He'in as [H|H]; [apply elem_of_app; left; exact H|].
      apply elem_of_cons in H as [->|H]; [|apply elem_of_app; right; exact H].
      exfalso. apply He. apply list_elem_of_fmap. eauto.
    + exists m'. split.
      * unfold delete_each in *. simpl. rewrite Hdel. fold m1.
        rewrite Hfold. f_equal. lia.
      * rewrite Hlayers, Hm1, Hl.
        change (kept (e :: gone))
          with (fun l => negb (String.eqb (Layers.id e) (Layers.id l))
                         && kept gone l).
        rewrite filter_and. rewrite filter_other_ids by (rewrite <- Hl; exact Hnd).
        reflexivity.
Qed.

Lemma kept_empty_layers (layers : list Layers.Layer) (l : Layers.Layer) :
  NoDup (Layers.id <$> layers) -> l ∈ layers ->
  kept (List.filter LayerMore.is_empty layers) l = has_shapes l.
Proof.
  intros Hnd Hl. unfold has_shapes.
  destruct (LayerMore.is_empty l) eqn:Hempty; simpl.
  - destruct (kept _ l) eqn:Hk; [|reflexivity]. exfalso.
    unfold kept in Hk. rewrite forallb_forall in Hk.
    assert (In l (List.filter LayerMore.is_empty layers)) as Hin
      by (apply filter_In; split; [apply list_elem_of_In, Hl|exact Hempty]).
    specialize (Hk l Hin). rewrite string_eqb_same in Hk. discriminate.
  - unfold kept. apply forallb_forall. intros e He.
    apply filter_In in He as [He Hee].
    apply negb_true_iff, String.eqb_neq. intros Heq.
    assert (e = l) as -> by
      (apply (NoDup_fmap_eq Layers.id layers); auto; apply list_elem_of_In, He).
    congruence.
Qed.

Lemma flat_map_has_shapes (layers : list Layers.Layer) :
  flat_map Layers.shapes (List.filter has_shapes layers)
  = flat_map Layers.shapes layers.
Proof.
  induction layers as [|l layers IH]; simpl; [reflexivity|].
  unfold has_shapes at 1, LayerMore.is_empty.
  destruct (Layers.shapes l) eqn:Hs; simpl; [exact IH|].
  rewrite Hs, IH. reflexivity.
Qed.

(** X12.  [cleanup_empty_layers] on a document whose identifiers are drawn
    apart (no two layers share one, no group carries a layer's) removes every
    empty layer and nothing else: the number it returns is the number of
    empty layers; the layers afterwards are the layers that have shapes, in
    the order they had; no empty layer is left; the total number of shapes is
    the same; and the canvas is untouched. *)
Theorem cleanup_empty_layers_removes_all (self : Drawing.DrawingDocument)
    (Hids : ids_apart (Drawing.layer_manager self)) :
  (Drawing.cleanup_empty_layers self).1
  = length (List.filter LayerMore.is_empty
              (Manager.get_all_layers (Drawing.layer_manager self)))
  /\ Manager.get_all_layers
       (Drawing.layer_manager (Drawing.cleanup_empty_layers self).2)
     = List.filter has_shapes (Manager.get_all_layers (Drawing.layer_manager self))
  /\ (forall l,
         l ∈ Manager.get_all_layers
               (Drawing.layer_manager (Drawing.cleanup_empty_layers self).2) ->
         LayerMore.is_empty l = false)
  /\ Drawing.get_total_shape_count (Drawing.cleanup_empty_layers self).2
     = Drawing.get_total_shape_count self
  /\ Drawing.canvas (Drawing.cleanup_empty_layers self).2 = Drawing.canvas self.
Proof.
  pose proof Hids as [Hnd Hgroups].
  destruct (delete_each_apart
              (List.filter LayerMore.is_empty
                 (Manager.get_all_layers (Drawing.layer_manager self)))
              0 (Drawing.layer_manager self) Hids)
    as (m' & Hfold & Hlayers).
  { eapply sublist_NoDup; [exact Hnd|]. apply fmap_sublist, filter_sublist. }
  { intros e He. apply list_elem_of_In, filter_In in He as [He _].
    apply list_elem_of_In. exact He. }
  assert (Manager.get_all_layers m'
          = List.filter has_shapes
              (Manager.get_all_layers (Drawing.layer_manager self))) as Hkept.
  { rewrite Hlayers. apply filter_ext_in. intros l Hl.
    apply kept_empty_layers; [exact Hnd|apply list_elem_of_In, Hl]. }
  assert (Drawing.cleanup_empty_layers self
          = (length (List.filter LayerMore.is_empty
                       (Manager.get_all_layers (Drawing.layer_manager self))),
             {| Drawing.id := Drawing.id self; Drawing.canvas := Drawing.canvas self;
                Drawing.background := Drawing.background self;
                Drawing.layer_manager := m' |})) as ->.
  { unfold Drawing.cleanup_empty_layers. unfold delete_each in Hfold.
    rewrite Hfold. reflexivity. }
  cbn [fst snd Drawing.layer_manager Drawing.canvas].
  split; [reflexivity|]. split; [exact Hkept|]. split; [|split; [|reflexivity]].
  - intros l Hl. rewrite Hkept in Hl.
    apply list_elem_of_In, filter_In in Hl as [_ Hl].
    unfold has_shapes in Hl. apply negb_true_iff. exact Hl.
  - rewrite (proj1 (get_total_shape_count_zero self)).
    rewrite (proj1 (get_total_shape_count_zero _)).
    cbn [Drawing.layer_manager]. rewrite Hkept, flat_map_has_shapes. reflexivity.
Qed.

Lemma cleanup_empty_layers_removes_all_witness :
  (Drawing.cleanup_empty_layers
     (document_of (canvas 800 600 Document.PIXELS) manager_with_empty_layers)).1
  = 2%nat
  /\ Layers.id <$> Manager.get_all_layers
       (Drawing.layer_manager
          (Drawing.cleanup_empty_layers
             (document_of (canvas 800 600 Document.PIXELS)
                manager_with_empty_layers)).2)
     = ["layer-2"%string].
Proof.
  assert (ids_apart manager_with_empty_layers) as Hids.
  { split.
    - apply (bool_decide_unpack _). vm_compute. reflexivity.
    - intros l Hl. apply list_elem_of_In in Hl. simpl in Hl.
      destruct Hl as [<-|[<-|[<-|[]]]]; reflexivity. }
  destruct (cleanup_empty_layers_removes_all
              (document_of (canvas 800 600 Document.PIXELS)
                 manager_with_empty_layers) Hids) as (H1 & H2 & _).
  split; [rewrite H1; reflexivity|rewrite H2; reflexivity].
Defined.

(** ** Strokes, backgrounds and the canvas *)

Lemma any_negative_false (v : list Q) :
  Stroke.any_negative v = false <-> Forall (fun val => (0 <= val)%Q) v.
Proof.
  unfold Stroke.any_negative. induction v as [|x v IH]; simpl.
  - split; [constructor|reflexivity].
  - rewrite orb_false_iff, IH, Forall_cons, negb_false_iff, Qle_bool_iff.
    reflexivity.
Qed.

(** X13.  The dash pattern of a stroke that was constructed is [None] or a
    list that is not empty and has no negative entry: an empty list is
    stored as [None], and a list with a negative entry ends the
    construction with [InvalidStyleError], whatever the other arguments
    are.  The stroke also has a positive width and miter limit and an
    opacity between 0 and 1; a construction that fails in another way had
    one of these out of bounds, and no negative dash. *)
Theorem stroke_dash_array_normalised (color : Style.Color) (width : Q)
    (cap : Stroke.LineCap) (join : Stroke.LineJoin) (miter_limit : Q)
    (dash_array : option (list Q)) (dash_offset opacity : Q) :
  match Stroke.StrokeProperties_new color width cap join miter_limit dash_array
          dash_offset opacity with
  | Ok s =>
      match Stroke.dash_array s with
      | None => dash_array = None \/ dash_array = Some []
      | Some l => dash_array = Some l /\ l <> []
                  /\ Forall (fun val => (0 <= val)%Q) l
      end
      /\ (0 < Stroke.width s)%Q /\ (0 < Stroke.miter_limit s)%Q
      /\ (0 <= Stroke.opacity s <= 1)%Q
  | Raise InvalidStyleError =>
      exists l val, dash_array = Some l /\ val ∈ l /\ (val < 0)%Q
  | Raise _ =>
      ~ ((0 < width)%Q /\ (0 < miter_limit)%Q /\ (0 <= opacity <= 1)%Q)
      /\ match dash_array with
         | Some l => Forall (fun val => (0 <= val)%Q) l
         | None => True
         end
  end.
Proof.
  unfold Stroke.StrokeProperties_new, Stroke.validate_dash_array.
  assert (forall x, negb (Qle_bool x 0) = true <-> (0 < x)%Q) as Hpos.
  { intros x. rewrite negb_true_iff. split.
    - intros H. apply Qnot_le_lt. intros Hle. apply Qle_bool_iff in Hle. congruence.
    - intros H. destruct (Qle_bool x 0) eqn:E; [|reflexivity].
      apply Qle_bool_iff in E. exfalso. exact (Qlt_not_le _ _ H E). }
  assert (negb (Qle_bool width 0) && negb (Qle_bool miter_limit 0)
          && Qle_bool 0 opacity && Qle_bool opacity 1 = true
          <-> (0 < width)%Q /\ (0 < miter_limit)%Q /\ (0 <= opacity <= 1)%Q)
    as Hbounds.
  { rewrite !andb_true_iff, !Hpos, !Qle_bool_iff. tauto. }
  destruct dash_array as [[|x l]|]; cbn [length Nat.eqb rbind].
  - destruct (_ && _) eqn:Hb; simpl.
    + split; [right; reflexivity|exact (proj1 Hbounds eq_refl)].
    + split; [|constructor]. intros H. apply Hbounds in H. discriminate.
  - destruct (Stroke.any_negative (x :: l)) eqn:Hneg; simpl.
    + unfold Stroke.any_negative in Hneg.
      destruct (proj1 (existsb_exists _ _) Hneg) as (val & Hin & Hval).
      exists (x :: l), val. split; [reflexivity|].
      split; [apply list_elem_of_In; exact Hin|].
      apply Qnot_le_lt. intros Hle. apply Qle_bool_iff in Hle.
      rewrite Hle in Hval. discriminate.
    + destruct (_ && _) eqn:Hb; simpl.
      * split; [|exact (proj1 Hbounds eq_refl)].
        split; [reflexivity|]. split; [discriminate|].
        apply any_negative_false. exact Hneg.
      * split; [|apply any_negative_false; exact Hneg].
        intros H. apply Hbounds in H. discriminate.
  - destruct (_ && _) eqn:Hb; simpl.
    + split; [left; reflexivity|exact (proj1 Hbounds eq_refl)].
    + split; [|exact I]. intros H. apply Hbounds in H. discriminate.
Qed.

Example stroke_tests :
  (do s <- Stroke.StrokeProperties_new red 2 Stroke.BUTT Stroke.MITER 4
             (Some []) 0 1;
   Ok (Stroke.dash_array s)) = Ok None
  /\ Stroke.StrokeProperties_new red 2 Stroke.BUTT Stroke.MITER 4
       (Some [5; -1]%Q) 0 1 = Raise InvalidStyleError
  /\ Stroke.StrokeProperties_new red 0 Stroke.BUTT Stroke.MITER 4
       (Some [5; -1]%Q) 0 1 = Raise InvalidStyleError
  /\ Stroke.StrokeProperties_new red 0 Stroke.BUTT Stroke.MITER 4
       (Some [5; 3]%Q) 0 1 = Raise ValidationError.
Proof. repeat split. Qed.

(** ** Colours through hex and back *)

Lemma two_digits_of_bytes : forallb two_digits_of bytes = true.
Proof. vm_compute. reflexivity. Qed.

Lemma byte_two_digits (n : Z) :
  Color.byte_ok n = true ->
  exists c1 c2,
    Color.format_02x n = String c1 (String c2 EmptyString)
    /\ Color.is_hex_digit c1 = true /\ Color.is_hex_digit c2 = true
    /\ 16 * digit_value c1 + digit_value c2 = n.
Proof.
  intros Hn. unfold Color.byte_ok in Hn.
  assert (In n bytes) as Hin.
  { unfold bytes. apply in_map_iff. exists (Z.to_nat n). split; [lia|].
    apply in_seq. lia. }
  pose proof two_digits_of_bytes as H. rewrite forallb_forall in H.
  specialize (H n Hin). unfold two_digits_of in H.
  destruct (Color.format_02x n) as [|c1 [|c2 [|c3 s]]]; try discriminate.
  exists c1, c2. apply andb_true_iff in H as [H H3].
  apply andb_true_iff in H as [H1 H2]. apply Z.eqb_eq in H3. auto.
Qed.

Lemma byte_read_back (n : Z) :
  Color.byte_ok n = true ->
  exists c1 c2,
    Color.format_02x n = String c1 (String c2 EmptyString)
    /\ Color.is_hex_digit c1 = true /\ Color.is_hex_digit c2 = true
    /\ Color.int16 (String (Color.upper_char c1)
                      (String (Color.upper_char c2) EmptyString)) = Ok n.
Proof.
  intros Hn. destruct (byte_two_digits n Hn) as (c1 & c2 & Hf & H1 & H2 & Hv).
  exists c1, c2. repeat split; try assumption.
  destruct (byte_pair c1 c2 H1 H2) as (Hi & _). cbv zeta in Hi.
  rewrite Hv in Hi. exact Hi.
Qed.

(** X15.  An RGB colour survives the way through hex: the string that
    [to_hex] prints is accepted by [HexColor], and [to_rgb] of that gives the
    colour back, component by component; [to_rgba] gives the same
    components with alpha [1.0]. *)
Theorem rgb_hex_rgb_round_trip (r g b : Z) (c : Color.RGBColor)
    (Hc : Color.RGBColor_new r g b = Ok c) :
  exists h,
    Color.HexColor_new (Color.RGBColor_to_hex c) = Ok h
    /\ Color.to_rgb h = Ok c
    /\ Color.to_rgba h = Ok {| Color.r := r; Color.g := g; Color.b := b;
                               Color.a := 1 |}.
Proof.
  unfold Color.RGBColor_new in Hc.
  destruct (Color.byte_ok r) eqn:Hr; [|discriminate].
  destruct (Color.byte_ok g) eqn:Hg; [|discriminate].
  destruct (Color.byte_ok b) eqn:Hb; [|discriminate].
  injection Hc as <-.
  destruct (byte_read_back r Hr) as (c1 & c2 & Hf1 & H1 & H2 & Hi1).
  destruct (byte_read_back g Hg) as (c3 & c4 & Hf2 & H3 & H4 & Hi2).
  destruct (byte_read_back b Hb) as (c5 & c6 & Hf3 & H5 & H6 & Hi3).
  unfold Color.RGBColor_to_hex. cbn [Color.rgb_r Color.rgb_g Color.rgb_b].
  rewrite Hf1, Hf2, Hf3. cbn [String.append].
  set (d := String c1 (String c2 (String c3 (String c4 (String c5
               (String c6 EmptyString)))))).
  assert (valid_hex_digits (Color.strip_hash (String "#" d))) as Hvalid.
  { split; [left; reflexivity|]. unfold d. simpl.
    rewrite H1, H2, H3, H4, H5, H6. reflexivity. }
  destruct (HexColor_new_valid _ Hvalid) as [Hnew _].
  eexists. split; [exact Hnew|].
  unfold Color.to_rgba, Color.to_rgb, Color.RGBAColor_new, Color.RGBColor_new.
  unfold d.
  cbn [Color.value Color.upper Color.map_string Color.slice_from Color.slice
       String.length substring Nat.sub Nat.eqb Color.strip_hash
       Color.startswith_hash].
  rewrite Hi1, Hi2, Hi3. cbn [rbind]. rewrite Hr, Hg, Hb. cbn [andb Qle_bool].
  split; reflexivity.
Qed.

Lemma rgb_hex_rgb_round_trip_witness :
  exists h,
    Color.HexColor_new
      (Color.RGBColor_to_hex
         {| Color.rgb_r := 255; Color.rgb_g := 128; Color.rgb_b := 64 |}) = Ok h
    /\ Color.to_rgb h
       = Ok {| Color.rgb_r := 255; Color.rgb_g := 128; Color.rgb_b := 64 |}
    /\ Color.to_rgba h = Ok {| Color.r := 255; Color.g := 128; Color.b := 64;
                               Color.a := 1 |}.
Proof. exact (rgb_hex_rgb_round_trip 255 128 64 _ eq_refl). Defined.

Lemma upper_char_twice (c : ascii) :
  Color.upper_char (Color.upper_char c) = Color.upper_char c.
Proof. destruct c as [[] [] [] [] [] [] [] []]; reflexivity. Qed.

Lemma upper_twice (d : string) : Color.upper (Color.upper d) = Color.upper d.
Proof.
  unfold Color.upper. induction d as [|c d IH]; simpl; [reflexivity|].
  rewrite upper_char_twice, IH. reflexivity.
Qed.

Lemma upper_length (d : string) : String.length (Color.upper d) = String.length d.
Proof.
  unfold Color.upper. induction d as [|c d IH]; simpl; [reflexivity|].
  rewrite IH. reflexivity.
Qed.

Lemma upper_char_hex (c : ascii) :
  Color.is_hex_digit c = true -> Color.is_hex_digit (Color.upper_char c) = true.
Proof.
  destruct c as [[] [] [] [] [] [] [] []]; intros H; vm_compute in H;
    try discriminate H; reflexivity.
Qed.

Lemma hex_run_upper (d : string) :
  Color.hex_run_to_end d = true -> Color.hex_run_to_end (Color.upper d) = true.
Proof.
  unfold Color.upper. induction d as [|c d IH]; simpl; [reflexivity|].
  destruct (Color.is_hex_digit c) eqn:Hc.
  - rewrite (upper_char_hex c Hc). exact IH.
  - destruct (Ascii.eqb c "010") eqn:Hn; [|discriminate].
    apply Ascii.eqb_eq in Hn as ->. destruct d; [|discriminate]. reflexivity.
Qed.

Lemma slice_from_1 (c : ascii) (d : string) : Color.slice_from 1 (String c d) = d.
Proof.
  unfold Color.slice_from. simpl. rewrite Nat.sub_0_r.
  induction d as [|c' d IH]; simpl; [reflexivity|]. rewrite IH. reflexivity.
Qed.

(** The value that [HexColor] stores: [#] and the digits in upper case; the
    digits are 6 or 8 characters that the pattern accepts. *)
Lemma HexColor_new_inv (s : string) (h : Color.HexColor) :
  Color.HexColor_new s = Ok h ->
  h = {| Color.value := String "#" (Color.upper (Color.strip_hash s)) |}
  /\ (String.length (Color.strip_hash s) = 6%nat
      \/ String.length (Color.strip_hash s) = 8%nat)
  /\ Color.re_match_hex (Color.strip_hash s) = true.
Proof.
  unfold Color.HexColor_new, Color.validate_hex_color.
  fold (Color.strip_hash s). set (d := Color.strip_hash s).
  destruct (String.length d =? 6)%nat eqn:H6; simpl.
  - destruct (Color.re_match_hex d); simpl; [|discriminate].
    intros [= <-]. apply Nat.eqb_eq in H6. auto.
  - destruct (String.length d =? 8)%nat eqn:H8; simpl; [|discriminate].
    destruct (Color.re_match_hex d); simpl; [|discriminate].
    intros [= <-]. apply Nat.eqb_eq in H8. auto.
Qed.

Lemma re_match_upper (d : string) :
  Color.re_match_hex d = true -> Color.re_match_hex (Color.upper d) = true.
Proof.
  unfold Color.re_match_hex. destruct d as [|c d]; [discriminate|].
  intros H. apply andb_true_iff in H as [Hc Hrun].
  apply hex_run_upper in Hrun. unfold Color.upper in *. simpl in *.
  rewrite (upper_char_hex c Hc) in *. exact Hrun.
Qed.

Lemma HexColor_new_again (s : string) (h : Color.HexColor) :
  Color.HexColor_new s = Ok h -> Color.HexColor_new (Color.value h) = Ok h.
Proof.
  intros Hh. destruct (HexColor_new_inv s h Hh) as (-> & Hlen & Hre).
  set (d := Color.strip_hash s) in *. cbn [Color.value].
  unfold Color.HexColor_new, Color.validate_hex_color.
  cbn [Color.startswith_hash]. rewrite slice_from_1, upper_length.
  rewrite (re_match_upper d Hre), upper_twice.
  destruct Hlen as [-> | ->]; reflexivity.
Qed.

Lemma hex_run_chars (d : string) :
  Color.hex_run_to_end d = true ->
  forall i c, String.get i d = Some c ->
              Color.is_hex_digit c = true
              \/ (c = "010"%char /\ S i = String.length d).
Proof.
  induction d as [|c0 d IH]; intros Hrun i c Hget; [discriminate|].
  simpl in Hrun. destruct i as [|i]; simpl in Hget.
  - injection Hget as <-.
    destruct (Color.is_hex_digit c0); [left; reflexivity|].
    destruct (Ascii.eqb c0 "010") eqn:Hn; [|discriminate].
    apply Ascii.eqb_eq in Hn as ->. destruct d; [|discriminate].
    right. split; reflexivity.
  - destruct (Color.is_hex_digit c0).
    + destruct (IH Hrun i c Hget) as [H|[-> H]]; [left; exact H|].
      right. split; [reflexivity|]. simpl. rewrite H. reflexivity.
    + destruct (Ascii.eqb c0 "010"); [|discriminate].
      destruct d; [discriminate|discriminate].
Qed.

Lemma int16_pair (c1 c2 : ascii) :
  Color.is_hex_digit c1 = true ->
  Color.is_hex_digit c2 = true \/ c2 = "010"%char ->
  exists n,
    Color.int16 (String (Color.upper_char c1)
                   (String (Color.upper_char c2) EmptyString)) = Ok n
    /\ Color.byte_ok n = true.
Proof.
  intros H1 [H2| ->].
  - destruct (byte_pair c1 c2 H1 H2) as (Hi & Hb & _). eauto.
  - destruct (hex_char_facts c1 H1) as (Hv & _ & _ & Hs & _ & Hn).
    exists (digit_value c1). split.
    + unfold Color.int16. cbn [Color.lstrip]. rewrite Hs.
      change (Color.upper_char "010") with "010"%char.
      cbn [Color.rstrip]. change (Color.is_space "010") with true.
      cbv iota. rewrite Hs.
      cbn [Color.hex_digits_val of_option]. rewrite Hv. reflexivity.
    + apply nibbles_range in Hn. unfold Color.byte_ok. lia.
Qed.

Lemma byte_alpha (n : Z) :
  Color.byte_ok n = true ->
  Qle_bool 0 (inject_Z n / 255) && Qle_bool (inject_Z n / 255) 1 = true.
Proof.
  intros Hn. unfold Color.byte_ok in Hn.
  destruct (alpha_byte n) as (-> & -> & _); [lia|reflexivity].
Qed.

(** X17.  A [HexColor] that was constructed can be constructed again from
    its own value and comes out the same; and [to_rgb] and [to_rgba] never
    raise on it: they give colours with the same red, green and blue, and
    [to_rgba] gives alpha [1.0] when the value has six digits.  This holds
    for every value that the constructor lets through, also for one that
    ends in a newline, which the pattern of the validator accepts in the
    place of the last digit. *)
Theorem hex_color_conversions_total (s : string) (h : Color.HexColor)
    (Hh : Color.HexColor_new s = Ok h) :
  Color.HexColor_new (Color.value h) = Ok h
  /\ exists rgb c,
       Color.to_rgb h = Ok rgb /\ Color.to_rgba h = Ok c
       /\ Color.r c = Color.rgb_r rgb /\ Color.g c = Color.rgb_g rgb
       /\ Color.b c = Color.rgb_b rgb
       /\ (String.length (Color.value h) = 7%nat -> Color.a c = 1%Q).
Proof.
  split; [exact (HexColor_new_again s h Hh)|].
  destruct (HexColor_new_inv s h Hh) as (-> & Hlen & Hre).
  set (d := Color.strip_hash s) in *. clearbody d. clear Hh s.
  unfold Color.re_match_hex in Hre.
  destruct d as [|c0 d0] eqn:Hd; [discriminate|].
  apply andb_true_iff in Hre as [_ Hrun]. rewrite <- Hd in *.
  pose proof (hex_run_chars d Hrun) as Hchars. clear Hrun Hd c0 d0.
  assert (forall i c1 c2,
            String.get i d = Some c1 -> String.get (S i) d = Some c2 ->
            exists n,
              Color.int16 (String (Color.upper_char c1)
                             (String (Color.upper_char c2) EmptyString)) = Ok n
              /\ Color.byte_ok n = true) as Hpair.
  { intros i c1 c2 H1 H2. apply int16_pair.
    - destruct (Hchars i c1 H1) as [H|[_ H]]; [exact H|].
      exfalso. assert (S i < String.length d)%nat; [|lia].
      clear -H2. revert i H2. induction d as [|c d IH]; intros i H2; [discriminate|].
      destruct i as [|i]; simpl in *; [destruct d; [discriminate|simpl; lia]|].
      apply IH in H2. lia.
    - destruct (Hchars (S i) c2 H2) as [H|[H _]]; auto. }
  destruct Hlen as [Hlen|Hlen].
  - destruct (string_of_length_6 d Hlen) as (c1 & c2 & c3 & c4 & c5 & c6 & ->).
    destruct (Hpair 0%nat c1 c2 eq_refl eq_refl) as (n1 & Hi1 & Hb1).
    destruct (Hpair 2%nat c3 c4 eq_refl eq_refl) as (n2 & Hi2 & Hb2).
    destruct (Hpair 4%nat c5 c6 eq_refl eq_refl) as (n3 & Hi3 & Hb3).
    unfold Color.to_rgba, Color.to_rgb, Color.RGBAColor_new, Color.RGBColor_new.
    cbn [Color.value Color.upper Color.map_string Color.slice_from Color.slice
         String.length substring Nat.sub Nat.eqb].
    rewrite Hi1, Hi2, Hi3. cbn [rbind]. rewrite Hb1, Hb2, Hb3. cbn [andb Qle_bool].
    eexists. eexists. repeat split.
  - destruct (string_of_length_8 d Hlen)
      as (c1 & c2 & c3 & c4 & c5 & c6 & c7 & c8 & ->).
    destruct (Hpair 0%nat c1 c2 eq_refl eq_refl) as (n1 & Hi1 & Hb1).
    destruct (Hpair 2%nat c3 c4 eq_refl eq_refl) as (n2 & Hi2 & Hb2).
    destruct (Hpair 4%nat c5 c6 eq_refl eq_refl) as (n3 & Hi3 & Hb3).
    destruct (Hpair 6%nat c7 c8 eq_refl eq_refl) as (n4 & Hi4 & Hb4).
    unfold Color.to_rgba, Color.to_rgb, Color.RGBAColor_new, Color.RGBColor_new.
    cbn [Color.value Color.upper Color.map_string Color.slice_from Color.slice
         String.length substring Nat.sub Nat.eqb].
    rewrite Hi1, Hi2, Hi3, Hi4. cbn [rbind]. rewrite Hb1, Hb2, Hb3.
    cbn [andb]. rewrite (byte_alpha n4 Hb4).
    eexists. eexists. repeat split. discriminate.
Qed.

Lemma hex_color_conversions_total_witness :
  Color.HexColor_new "#FF804"%string
  = Raise InvalidStyleError
  /\ exists h rgb,
       Color.HexColor_new (String "F" (String "f" (String "8" (String "0"
                             (String "4" (String "010" EmptyString)))))) = Ok h
       /\ Color.HexColor_new (Color.value h) = Ok h
       /\ Color.to_rgb h = Ok rgb
       /\ rgb = {| Color.rgb_r := 255; Color.rgb_g := 128; Color.rgb_b := 4 |}.
Proof.
  split; [reflexivity|].
  destruct (hex_color_conversions_total
              (String "F" (String "f" (String "8" (String "0"
                 (String "4" (String "010" EmptyString)))))) _ eq_refl)
    as (Hagain & _).
  eexists. eexists. split; [reflexivity|]. split; [exact Hagain|].
  split; reflexivity.
Defined.

(** ** Gradients from their own stops *)

Lemma sorted_fixed {A} (key : A -> Q) (l : list A) :
  StronglySorted (key_le key) l -> Style.sorted key l = l.
Proof.
  induction 1 as [|y l Hs IH Hy]; simpl; [reflexivity|].
  rewrite IH. destruct l as [|y' l]; simpl; [reflexivity|].
  apply Forall_cons in Hy as [Hy _]. unfold key_le in Hy.
  apply Qle_bool_iff in Hy. rewrite Hy. reflexivity.
Qed.

Lemma validate_stops_inv (stops stored : list Style.GradientStop) :
  Style.validate_stops stops = Ok stored ->
  (2 <= length stops)%nat
  /\ stored = Style.sorted Style.position stops
  /\ ascending stored.
Proof.
  intros Hok.
  assert (2 <= length stops)%nat as Hlen.
  { unfold Style.validate_stops in Hok.
    destruct (length stops <? 2)%nat eqn:Hl; [discriminate|].
    apply Nat.ltb_ge in Hl. exact Hl. }
  destruct (validate_stops_long stops Hlen) as [Hdup Hnodup].
  destruct (nodup_q (Style.position <$> stops)) eqn:Hn.
  - destruct Hnodup as [Hv Hasc].
    + intros Hd. apply duplicate_position_nodup in Hd. congruence.
    + rewrite Hv in Hok. injection Hok as <-. auto.
  - rewrite Hdup in Hok by (apply duplicate_position_nodup; exact Hn).
    discriminate.
Qed.

(** X19.  The stops that a gradient stores pass the validator again and
    come out unchanged, so a gradient can be built again from its own
    fields (as when it is written out and read back): any stops that
    [validate_stops] returned are accepted by [validate_stops], by
    [LinearGradient] and, with a radius that is not negative, by
    [RadialGradient], and are stored as they are. *)
Theorem gradient_stops_validate_again (stops stored : list Style.GradientStop)
    (Hok : Style.validate_stops stops = Ok stored) :
  Style.validate_stops stored = Ok stored
  /\ (forall id sx sy ex ey,
         Style.LinearGradient_new id sx sy ex ey stored
         = Ok {| Style.lg_id := id; Style.start_x := sx; Style.start_y := sy;
                 Style.end_x := ex; Style.end_y := ey; Style.lg_stops := stored |})
  /\ (forall id cx cy radius,
         Qle_bool 0 radius = true ->
         Style.RadialGradient_new id cx cy radius stored
         = Ok {| Style.rg_id := id; Style.center_x := cx; Style.center_y := cy;
                 Style.radius := radius; Style.rg_stops := stored |}).
Proof.
  destruct (validate_stops_inv stops stored Hok) as (Hlen & -> & Hasc).
  set (stored := Style.sorted Style.position stops) in *.
  assert (length stored = length stops) as Hsame
    by (apply Permutation_length, sorted_perm).
  assert (Style.validate_stops stored = Ok stored) as Hagain.
  { destruct (validate_stops_long stored) as [_ Hnodup]; [lia|].
    destruct Hnodup as [Hv _].
    - intros (i & j & a & b & Hij & Hi & Hj & Heq).
      pose proof (Hasc i j a b Hij Hi Hj) as Hlt.
      rewrite Heq in Hlt. exact (Qlt_irrefl _ Hlt).
    - rewrite Hv. f_equal. apply sorted_fixed, sorted_sorted. }
  assert ((length stored <? 2)%nat = false) as Hl by (apply Nat.ltb_ge; lia).
  split; [exact Hagain|]. split.
  - intros id sx sy ex ey. unfold Style.LinearGradient_new.
    rewrite Hl, Hagain. reflexivity.
  - intros id cx cy radius Hr. unfold Style.RadialGradient_new.
    rewrite Hl, Hagain, Hr. reflexivity.
Qed.

Lemma gradient_stops_validate_again_witness :
  Style.validate_stops [stop_at 0.1 blue; stop_at 0.3 red; stop_at 0.7 red]
  = Ok [stop_at 0.1 blue; stop_at 0.3 red; stop_at 0.7 red].
Proof.
  exact (proj1 (gradient_stops_validate_again
                  [stop_at 0.3 red; stop_at 0.1 blue; stop_at 0.7 red]
                  [stop_at 0.1 blue; stop_at 0.3 red; stop_at 0.7 red]
                  eq_refl)).
Defined.

(** X20.  A fill that was constructed passes its validator again and comes
    out unchanged, and building a fill from its own fields gives the same
    fill: the validator has nothing left to clear. *)
Theorem fill_validates_again (t : Style.FillType) (color : option Style.Color)
    (lg : option Style.LinearGradient) (rg : option Style.RadialGradient)
    (pat : option Style.PatternFill) (opacity : Q) (f : Style.FillProperties)
    (Hf : Style.FillProperties_new t color lg rg pat opacity = Ok f) :
  Style.validate_fill_consistency f = Ok f
  /\ Style.FillProperties_new (Style.type f) (Style.fill_color f)
       (Style.linear_gradient f) (Style.radial_gradient f) (Style.pattern f)
       (Style.opacity f) = Ok f.
Proof.
  unfold Style.FillProperties_new in *.
  destruct (Qle_bool 0 opacity && Qle_bool opacity 1) eqn:Ho; [|discriminate].
  assert (Style.opacity f = opacity /\ Style.validate_fill_consistency f = Ok f)
    as [Hop Hagain].
  { unfold Style.validate_fill_consistency in *.
    destruct t, color, lg, rg, pat; simpl in Hf; try discriminate Hf;
      injection Hf as <-; split; reflexivity. }
  split; [exact Hagain|]. rewrite Hop, Ho.
  destruct f; simpl in Hop; subst; exact Hagain.
Qed.

Lemma fill_validates_again_witness :
  exists f,
    Style.FillProperties_new Style.SOLID (Some red) None None
      (Some {| Style.pf_id := "p"; Style.image_data := "data";
               Style.pf_width := 1; Style.pf_height := 1;
               Style.repeat_x := true; Style.repeat_y := true |}) 0.8 = Ok f
    /\ Style.pattern f = None
    /\ Style.validate_fill_consistency f = Ok f.
Proof.
  eexists. split; [reflexivity|]. split; [reflexivity|].
  refine (proj1 (fill_validates_again Style.SOLID (Some red) None None
                   (Some {| Style.pf_id := "p"; Style.image_data := "data";
                            Style.pf_width := 1; Style.pf_height := 1;
                            Style.repeat_x := true; Style.repeat_y := true |})
                   0.8 _ eq_refl)).
Defined.

(** ** Reordering the tree by z-index *)

Lemma sort_tree_children (f : Layers.GroupFields) (cs : list Layers.child) :
  sort_tree (Layers.Group f cs)
  = Layers.Group f (Manager.sorted Manager.child_z_index (sort_child <$> cs)).
Proof.
  cbn [sort_tree]. do 2 f_equal.
  induction cs as [|[l|g] cs IH]; [reflexivity| |].
  - rewrite fmap_cons, <- IH. reflexivity.
  - rewrite fmap_cons, <- IH. reflexivity.
Qed.

Lemma sort_group_step (fuel : nat) (g : Layers.LayerGroup) :
  Manager.sort_group (S fuel) g
  = match sort_walk (Manager.sort_group fuel)
            (Manager.sorted Manager.child_z_index (Layers.children g)) with
    | Some children' => Some (Layers.with_children g children')
    | None => None
    end.
Proof. reflexivity. Qed.

Lemma depth_children (f : Layers.GroupFields) (cs : list Layers.child) :
  Manager.depth (Layers.Group f cs) = S (depth_walk cs).
Proof.
  reflexivity.
Qed.

Lemma depth_walk_bound (cs : list Layers.child) (g : Layers.LayerGroup) :
  inr g ∈ cs -> (Manager.depth g <= depth_walk cs)%nat.
Proof.
  induction cs as [|[l|g0] cs IH]; intros Hin.
  - apply elem_of_nil in Hin as [].
  - apply elem_of_cons in Hin as [Hin|Hin]; [discriminate|]. simpl. auto.
  - apply elem_of_cons in Hin as [[= ->]|Hin]; simpl; [lia|].
    specialize (IH Hin). lia.
Qed.

Lemma child_z_index_sorted (c : Layers.child) :
  Manager.child_z_index (sort_child c) = Manager.child_z_index c.
Proof. destruct c as [l|[f cs]]; reflexivity. Qed.

Lemma insert_by_fmap {A} (key : A -> Z) (h : A -> A) (x : A) (l : list A) :
  (forall a, key (h a) = key a) ->
  Manager.insert_by key (h x) (h <$> l) = h <$> Manager.insert_by key x l.
Proof.
  intros Hkey. induction l as [|y l IH]; simpl; [reflexivity|].
  rewrite !Hkey. destruct (key x <=? key y); simpl; [reflexivity|].
  f_equal. exact IH.
Qed.

Lemma sorted_fmap {A} (key : A -> Z) (h : A -> A) (l : list A) :
  (forall a, key (h a) = key a) ->
  Manager.sorted key (h <$> l) = h <$> Manager.sorted key l.
Proof.
  intros Hkey. induction l as [|x l IH]; [reflexivity|].
  rewrite fmap_cons. cbn [Manager.sorted].
  rewrite IH. apply insert_by_fmap, Hkey.
Qed.

Lemma sort_walk_children (sort_sub : Layers.LayerGroup -> option Layers.LayerGroup)
    (cs : list Layers.child) :
  (forall g, inr g ∈ cs -> sort_sub g = Some (sort_tree g)) ->
  sort_walk sort_sub cs = Some (sort_child <$> cs).
Proof.
  induction cs as [|[l|g] cs IH]; intros Hsub; simpl.
  - reflexivity.
  - rewrite IH; [reflexivity|]. intros g Hg. apply Hsub. right. exact Hg.
  - rewrite (Hsub g) by left.
    rewrite IH; [reflexivity|]. intros g' Hg. apply Hsub. right. exact Hg.
Qed.

(** With fuel for the depth of the tree, [sort_group] returns, and what it
    returns is the tree in order. *)
Lemma sort_group_sort_tree (fuel : nat) :
  forall g, (Manager.depth g <= fuel)%nat ->
            Manager.sort_group fuel g = Some (sort_tree g).
Proof.
  induction fuel as [|fuel IH]; intros [f cs] Hd.
  - rewrite depth_children in Hd. lia.
  - rewrite sort_group_step, sort_tree_children. cbn [Layers.children].
    rewrite depth_children in Hd.
    rewrite sort_walk_children.
    + unfold Layers.with_children. cbn [Layers.fields].
      rewrite <- sorted_fmap by exact child_z_index_sorted. reflexivity.
    + intros g Hg. apply IH.
      assert (inr g ∈ cs) as Hin.
      { rewrite <- (z_sorted_perm Manager.child_z_index cs). exact Hg. }
      pose proof (depth_walk_bound cs g Hin). lia.
Qed.

Lemma ordered_children (f : Layers.GroupFields) (cs : list Layers.child) :
  ordered (Layers.Group f cs)
  <-> StronglySorted (z_le Manager.child_z_index) cs
      /\ forall sub, inr sub ∈ cs -> ordered sub.
Proof.
  cbn [ordered]. apply and_iff_compat_l.
  induction cs as [|[l|g] cs IH].
  - split; [|trivial]. intros _ sub Hs. apply elem_of_nil in Hs as [].
  - rewrite IH. split; intros H sub Hs.
    + apply elem_of_cons in Hs as [Hs|Hs]; [discriminate|]. exact (H sub Hs).
    + apply H. right. exact Hs.
  - rewrite IH. split.
    + intros [Hg H] sub Hs.
      apply elem_of_cons in Hs as [[= ->]|Hs]; [exact Hg|exact (H sub Hs)].
    + intros H. split; [apply H; left|].
      intros sub Hs. apply H. right. exact Hs.
Qed.

Lemma sort_tree_ordered : forall g, ordered (sort_tree g).
Proof.
  induction g as [f cs IH] using LayerGroup_induction.
  rewrite sort_tree_children. apply ordered_children. split.
  - apply z_sorted_sorted.
  - intros sub Hsub. rewrite (z_sorted_perm Manager.child_z_index) in Hsub.
    apply list_elem_of_fmap in Hsub as ([l|g] & Heq & Hin); [discriminate|].
    injection Heq as ->. exact (IH g Hin).
Qed.

Lemma sort_tree_layers :
  forall g, Layers.get_all_layers true (sort_tree g) ≡ₚ Layers.get_all_layers true g.
Proof.
  induction g as [f cs IH] using LayerGroup_induction.
  rewrite sort_tree_children, !get_all_layers_children.
  rewrite (z_sorted_perm Manager.child_z_index).
  induction cs as [|c cs IHcs]; [reflexivity|].
  rewrite fmap_cons, !bind_cons. apply Permutation_app.
  - destruct c as [l|g]; [reflexivity|]. simpl. apply IH. left.
  - apply IHcs. intros g Hg. apply IH. right. exact Hg.
Qed.

Lemma ordered_sort_tree : forall g, ordered g -> sort_tree g = g.
Proof.
  induction g as [f cs IH] using LayerGroup_induction. intros Hord.
  apply ordered_children in Hord as [Hsorted Hsubs].
  rewrite sort_tree_children. f_equal.
  assert (sort_child <$> cs = cs) as ->.
  { clear Hsorted. induction cs as [|c cs IHcs]; [reflexivity|].
    rewrite fmap_cons. f_equal.
    - destruct c as [l|g]; [reflexivity|]. simpl. f_equal.
      apply IH; [left|apply Hsubs; left].
    - apply IHcs.
      + intros g Hg. apply IH. right. exact Hg.
      + intros g Hg. apply Hsubs. right. exact Hg. }
  apply z_sorted_fixed. exact Hsorted.
Qed.

(** X21.  [reorder_layers_by_z_index] comes back for every tree, and
    afterwards the children of every group, at any depth, are in ascending
    order of [z_index]; children of the root with the same [z_index] keep
    their order.  The layers of the document are the same ones (only their
    order in [get_all_layers] can differ), the active layer is kept and is
    reachable exactly when it was, and a second call changes nothing. *)
Theorem reorder_layers_by_z_index_orders (self : Layers.LayerManager) :
  exists self',
    Manager.reorder_layers_by_z_index self = Some self'
    /\ ordered (Layers.root_group self')
    /\ Manager.get_all_layers self' ≡ₚ Manager.get_all_layers self
    /\ (forall z,
           with_key Manager.child_z_index z (Layers.children (Layers.root_group self'))
           = with_key Manager.child_z_index z
               (sort_child <$> Layers.children (Layers.root_group self)))
    /\ Layers.active_layer_id self' = Layers.active_layer_id self
    /\ Layers.active_reachable self' = Layers.active_reachable self
    /\ Manager.reorder_layers_by_z_index self' = Some self'.
Proof.
  destruct self as [root active].
  exists {| Layers.root_group := sort_tree root; Layers.active_layer_id := active |}.
  unfold Manager.reorder_layers_by_z_index, Manager.get_all_layers.
  cbn [Layers.root_group Layers.active_layer_id].
  rewrite (sort_group_sort_tree _ root (Nat.le_refl _)).
  rewrite (sort_group_sort_tree _ (sort_tree root) (Nat.le_refl _)).
  rewrite (ordered_sort_tree _ (sort_tree_ordered root)).
  split; [reflexivity|]. split; [apply sort_tree_ordered|].
  split; [apply sort_tree_layers|]. split; [|split; [reflexivity|split; [|reflexivity]]].
  - intros z. destruct root as [f cs]. rewrite sort_tree_children.
    cbn [Layers.children]. apply z_sorted_with_key.
  - unfold Layers.active_reachable. cbn [Layers.root_group Layers.active_layer_id].
    destruct active as [a|]; [|reflexivity].
    pose proof (find_layer_iff a (sort_tree root)) as Hnew.
    pose proof (find_layer_iff a root) as Hold.
    assert (a ∈ layer_ids (sort_tree root) <-> a ∈ layer_ids root) as Hids.
    { unfold layer_ids. rewrite (sort_tree_layers root). reflexivity. }
    destruct (Layers.find_layer_by_id a true (sort_tree root)) as [l|];
      destruct (Layers.find_layer_by_id a true root) as [l'|]; try reflexivity.
    + exfalso. assert (is_Some (@None Layers.Layer)) as [? ?]; [|discriminate].
      apply Hold, Hids, Hnew. eauto.
    + exfalso. assert (is_Some (@None Layers.Layer)) as [? ?]; [|discriminate].
      apply Hnew, Hids, Hold. eauto.
Qed.

Example reorder_out_of_order :
  (do m <- of_option (Manager.reorder_layers_by_z_index manager_out_of_order)
             RuntimeError;
   Ok (Layers.id <$> Manager.get_all_layers m))
  = Ok ["layer-3"; "layer-2"; "layer-1"]%string
  /\ Layers.id <$> Manager.get_all_layers manager_out_of_order
     = ["layer-1"; "layer-2"; "layer-3"]%string
  /\ Layers.id <$> Manager.get_layers_by_z_order manager_out_of_order
     = ["layer-3"; "layer-2"; "layer-1"]%string.
Proof. repeat split. Qed.

(** ** The active layer along sequences of operations *)

(** X22.  As long as no group is deleted, [get_active_layer] finds the
    active layer: after any sequence of [create_layer], [create_group] (with
    a parent group of the manager's own tree, or none), [delete_layer] and
    [set_active_layer] on a new manager, when [active_layer_id] is set (to
    something other than the empty string) [get_active_layer] returns a layer
    of the document that carries it, and when it is not set
    [get_active_layer] returns [None]. *)
Theorem get_active_layer_without_delete_group (root_id : Layers.ID)
    (ops : list Layers.op)
    (Hops : all_within_tree (Layers.LayerManager_new root_id) ops = true) :
  match Layers.active_layer_id (Layers.run (Layers.LayerManager_new root_id) ops) with
  | Some a =>
      a <> EmptyString ->
      exists layer,
        Manager.get_active_layer (Layers.run (Layers.LayerManager_new root_id) ops)
        = Some layer
        /\ Layers.id layer = a
        /\ layer ∈ Manager.get_all_layers
                     (Layers.run (Layers.LayerManager_new root_id) ops)
  | None =>
      Manager.get_active_layer (Layers.run (Layers.LayerManager_new root_id) ops)
      = None
  end.
Proof.
  pose proof (run_keeps_active ops (Layers.LayerManager_new root_id) Hops eq_refl)
    as Hreach.
  set (m := Layers.run (Layers.LayerManager_new root_id) ops) in *.
  unfold Manager.get_active_layer, Manager.find_layer_by_id.
  unfold Layers.active_reachable in Hreach.
  destruct (Layers.active_layer_id m) as [a|]; [|reflexivity].
  intros Ha. apply String.eqb_neq in Ha. rewrite Ha.
  pose proof (find_layer_by_id_find a true (Layers.root_group m)) as Hfind.
  destruct (Layers.find_layer_by_id a true (Layers.root_group m)) as [layer|];
    [|discriminate].
  symmetry in Hfind. apply find_some in Hfind as [Hin Hid].
  exists layer. split; [reflexivity|]. split.
  - apply String.eqb_eq. exact Hid.
  - apply list_elem_of_In. exact Hin.
Qed.

Lemma get_active_layer_without_delete_group_witness :
  exists layer,
    Manager.get_active_layer
      (Layers.run (Layers.LayerManager_new "root")
         [Layers.CreateGroup "group-1" "Folder" Layers.NoGroup;
          Layers.CreateLayer "layer-1" "Sketch" (Layers.TreeGroup [0%nat]);
          Layers.CreateLayer "layer-2" "Ink" Layers.NoGroup;
          Layers.DeleteLayer "layer-1";
          Layers.SetActiveLayer "layer-2"]) = Some layer
    /\ Layers.id layer = "layer-2"%string.
Proof.
  destruct (get_active_layer_without_delete_group "root"
              [Layers.CreateGroup "group-1" "Folder" Layers.NoGroup;
               Layers.CreateLayer "layer-1" "Sketch" (Layers.TreeGroup [0%nat]);
               Layers.CreateLayer "layer-2" "Ink" Layers.NoGroup;
               Layers.DeleteLayer "layer-1";
               Layers.SetActiveLayer "layer-2"] eq_refl)
    as (layer & Hget & Hid & _); [discriminate|].
  exists layer. split; assumption.
Defined.

(** ** What [delete_group] removes *)

Section TreeDeleteGroup.
Variable a : Layers.ID.

Lemma search_none_no_group :
  forall g, Layers.search_group a g = None ->
            find_group_walk a (Layers.children g) = None.
Proof.
  induction g as [f cs IH] using LayerGroup_induction. intros Hsearch.
  rewrite search_group_walk in Hsearch. cbn [Layers.children].
  apply find_group_walk_None. intros sub Hsub.
  destruct (search_walk_None a cs 0 Hsearch (inr sub) Hsub) as [Hid Hnone].
  destruct sub as [f' cs']. rewrite find_group_by_id_walk.
  simpl in Hid. unfold Layers.group_id in Hid. simpl in Hid. rewrite Hid.
  exact (IH (Layers.Group f' cs') Hsub (Hnone _ eq_refl)).
Qed.

(** [parent.remove_child(a)] on the group that [_find_parent_group] found
    for [a]: the first child of that group with the id leaves it. *)
Lemma remove_first_child (root : Layers.LayerGroup) (p : Layers.path) :
  Layers.search_group a root = Some p ->
  exists parent before c after root',
    Layers.group_at p root = Some parent
    /\ Layers.children parent = before ++ c :: after
    /\ (forall x, x ∈ before -> Layers.child_id x <> a)
    /\ Layers.child_id c = a
    /\ Layers.remove_from_parent root p a = Some (true, root')
    /\ Layers.group_at p root'
       = Some (Layers.with_children parent (before ++ after))
    /\ Layers.get_all_layers true root
       = layers_before p root
         ++ ((before ≫= child_layers true) ++ child_layers true c
             ++ (after ≫= child_layers true))
         ++ layers_after p root
    /\ Layers.get_all_layers true root'
       = layers_before p root
         ++ ((before ≫= child_layers true) ++ (after ≫= child_layers true))
         ++ layers_after p root.
Proof.
  intros Hsearch.
  destruct (search_group_target a root p Hsearch)
    as (target & before & c & after & Hat & Hchildren & Hbefore & Hc).
  destruct (at_path_stretch p root target Hat) as (Hlayers & Hh).
  destruct (Hh bool (fun g => let '(success, g', _) :=
                                Layers.remove_child g (Layers.ChildId a) in
                              (success, g')))
    as (root' & Hroot' & Hat' & Hlayers').
  destruct target as [f cs]. cbn [Layers.children] in Hchildren. subst cs.
  pose proof (remove_child_id_at a f before after c Hbefore Hc) as Hrm.
  unfold Layers.remove_from_parent in *. cbn [Layers.at_path] in Hrm.
  injection Hrm as Hrm. rewrite Hrm in Hroot', Hat', Hlayers'. cbn [fst snd] in *.
  exists (Layers.Group f (before ++ c :: after)), before, c, after, root'.
  split; [exact Hat|]. split; [reflexivity|].
  split; [intros x Hx; apply String.eqb_neq, Hbefore, Hx|].
  split; [apply String.eqb_eq; exact Hc|].
  split; [exact Hroot'|]. split; [exact Hat'|]. split.
  - rewrite Hlayers, get_all_layers_children, bind_app, bind_cons. reflexivity.
  - rewrite Hlayers', get_all_layers_children, bind_app. reflexivity.
Qed.
End TreeDeleteGroup.

(** X23.  [delete_group], called with an identifier that is not the root's
    and that no layer carries, takes a whole group out of the tree when a
    group with the identifier exists.  The group taken is a group of the
    tree: the first child with the identifier of the group that
    [_find_parent_group] finds.  Afterwards that parent has the children it
    had without this one, so the group is gone from it; the layers of the
    group, at any depth, have left [get_all_layers] together, every other
    layer stays in its place, and [active_layer_id] is left as it was,
    whether or not the active layer was among them.  When no group has the
    identifier it returns [False] and changes nothing; and so it does for
    the identifier of the root. *)
Theorem delete_group_removes_subtree (self : Layers.LayerManager)
    (group_id' : Layers.ID)
    (Hlayers : forall l, l ∈ Manager.get_all_layers self -> Layers.id l <> group_id') :
  (group_id' = Layers.group_id (Layers.root_group self) ->
   Layers.delete_group self group_id' = (false, self))
  /\ (group_id' <> Layers.group_id (Layers.root_group self) ->
      match Manager.find_group_by_id self group_id' with
      | Some _ =>
          exists p parent before sub after self',
            let root := Layers.root_group self in
            let kept := (before ≫= child_layers true)
                        ++ (after ≫= child_layers true) in
            Layers.search_group group_id' root = Some p
            /\ Layers.group_at p root = Some parent
            /\ Layers.children parent = before ++ inr sub :: after
            /\ (forall c, c ∈ before -> Layers.child_id c <> group_id')
            /\ Layers.group_id sub = group_id'
            /\ Layers.delete_group self group_id' = (true, self')
            /\ Layers.group_at p (Layers.root_group self')
               = Some (Layers.with_children parent (before ++ after))
            /\ Manager.get_all_layers self
               = layers_before p root
                 ++ ((before ≫= child_layers true)
                     ++ Layers.get_all_layers true sub
                     ++ (after ≫= child_layers true))
                 ++ layers_after p root
            /\ Manager.get_all_layers self'
               = layers_before p root ++ kept ++ layers_after p root
            /\ Layers.active_layer_id self' = Layers.active_layer_id self
      | None => Layers.delete_group self group_id' = (false, self)
      end).
Proof.
  unfold Layers.delete_group, Manager.find_group_by_id, Manager.get_all_layers in *.
  split.
  - intros ->. rewrite string_eqb_same. reflexivity.
  - intros Hroot. apply String.eqb_neq in Hroot. rewrite Hroot.
    destruct (Layers.find_group_by_id group_id' true (Layers.root_group self))
      as [found|] eqn:Hfind; [|reflexivity].
    destruct (Layers.search_group group_id' (Layers.root_group self)) as [p|] eqn:Hs.
    + destruct (remove_first_child group_id' _ p Hs)
        as (parent & before & c & after & root' & Hat & Hch & Hb & Hc & Hrm
            & Hat' & Hl & Hl').
      rewrite Hrm. destruct c as [l|sub].
      * exfalso. apply (Hlayers l); [|exact Hc].
        rewrite Hl. apply elem_of_app. right. apply elem_of_app. left.
        apply elem_of_app. right. apply elem_of_app. left. simpl. left.
      * exists p, parent, before, sub, after. eexists. cbn zeta.
        cbn [Layers.root_group Layers.active_layer_id].
        split; [reflexivity|]. split; [exact Hat|]. split; [exact Hch|].
        split; [exact Hb|]. split; [exact Hc|]. split; [reflexivity|].
        split; [exact Hat'|]. split; [exact Hl|]. split; [exact Hl'|reflexivity].
    + exfalso. apply search_none_no_group in Hs.
      destruct (Layers.root_group self) as [f cs].
      rewrite find_group_by_id_walk in Hfind.
      unfold Layers.group_id in Hroot. cbn [Layers.fields] in Hroot.
      rewrite String.eqb_sym in Hroot. rewrite Hroot in Hfind.
      cbn [Layers.children] in Hs. congruence.
Qed.

Lemma delete_group_removes_subtree_witness :
  exists p parent before sub after self',
    Layers.search_group "group-1" (Layers.root_group manager_with_nested_layer)
    = Some p
    /\ Layers.group_at p (Layers.root_group manager_with_nested_layer) = Some parent
    /\ Layers.children parent = before ++ inr sub :: after
    /\ Layers.group_id sub = "group-1"%string
    /\ Layers.delete_group manager_with_nested_layer "group-1" = (true, self')
    /\ Layers.group_at p (Layers.root_group self')
       = Some (Layers.with_children parent (before ++ after))
    /\ Manager.get_all_layers self'
       = layers_before p (Layers.root_group manager_with_nested_layer)
         ++ ((before ≫= child_layers true) ++ (after ≫= child_layers true))
         ++ layers_after p (Layers.root_group manager_with_nested_layer)
    /\ Layers.active_layer_id self' = Some "layer-1"%string.
Proof.
  assert (forall l, l ∈ Manager.get_all_layers manager_with_nested_layer ->
                    Layers.id l <> "group-1"%string) as Hlayers.
  { intros l Hl. apply list_elem_of_In in Hl. simpl in Hl.
    destruct Hl as [<-|[]]. discriminate. }
  destruct (proj2 (delete_group_removes_subtree manager_with_nested_layer "group-1"
                     Hlayers) ltac:(discriminate))
    as (p & parent & before & sub & after & self' & Hs & Hat & Hch & Hb & Hid
        & Hdel & Hat' & Hl & Hl' & Hact).
  exists p, parent, before, sub, after, self'. auto 10.
Defined.

(** ** A new document *)

(** X24.  [create_new] gives a document exactly when the width and the
    height are positive (and the unit is one of the enumeration), and
    raises pydantic's [ValidationError] otherwise.  The document has one
    layer, named [Layer 1], empty and active; it has no shapes;
    [validate_document] finds no error in it and warns of both the missing
    shapes and the empty layer; and [cleanup_empty_layers] on it removes
    that one layer, which leaves the document with no layer and no active
    layer. *)
Theorem create_new_document (doc_id root_id layer_id : Layers.ID)
    (width height : Q) (units : Document.Units) :
  match Drawing.create_new doc_id root_id layer_id width height units with
  | Ok doc =>
      (0 < width /\ 0 < height)%Q
      /\ Drawing.canvas doc = canvas width height units
      /\ Manager.get_all_layers (Drawing.layer_manager doc)
         = [Layers.with_parent (Layers.Layer_new layer_id "Layer 1") (Some root_id)]
      /\ Layers.active_layer_id (Drawing.layer_manager doc) = Some layer_id
      /\ Drawing.get_total_shape_count doc = 0%nat
      /\ Drawing.errors (Drawing.validate_document doc) = []
      /\ Drawing.NoShapes ∈ Drawing.warnings (Drawing.validate_document doc)
      /\ Drawing.EmptyLayers ["Layer 1"%string]
         ∈ Drawing.warnings (Drawing.validate_document doc)
      /\ (Drawing.cleanup_empty_layers doc).1 = 1%nat
      /\ Manager.get_all_layers
           (Drawing.layer_manager (Drawing.cleanup_empty_layers doc).2) = []
      /\ Layers.active_layer_id
           (Drawing.layer_manager (Drawing.cleanup_empty_layers doc).2) = None
  | Raise e =>
      e = ValidationError
      /\ ((exists v, units = Document.UNKNOWN v)
          \/ ~ (0 < width /\ 0 < height)%Q)
  end.
Proof.
  unfold Drawing.create_new.
  destruct (Document.CanvasSize_new width height units) as [c|e] eqn:Hc;
    cbn [rbind].
  - destruct (CanvasSize_new_units width height units c Hc) as (-> & _ & Hw & Hh).
    set (doc := Drawing.create_layer _ _ _ _).
    assert (Drawing.errors (Drawing.validate_document doc) = []) as Herr.
    { unfold Drawing.validate_document. cbn [Drawing.errors].
      change (Drawing.canvas doc) with (canvas width height units).
      cbn [canvas Document.width Document.height].
      assert (Qle_bool width 0 = false) as ->.
      { destruct (Qle_bool width 0) eqn:E; [|reflexivity].
        apply Qle_bool_iff in E. lra. }
      assert (Qle_bool height 0 = false) as ->.
      { destruct (Qle_bool height 0) eqn:E; [|reflexivity].
        apply Qle_bool_iff in E. lra. }
      reflexivity. }
    assert (Drawing.cleanup_empty_layers doc
            = (1%nat,
               {| Drawing.id := doc_id; Drawing.canvas := canvas width height units;
                  Drawing.background := Drawing.BackgroundProperties_default;
                  Drawing.layer_manager :=
                    {| Layers.root_group :=
                         Layers.Group (Layers.fields (Layers.LayerGroup_new root_id "Root")) [];
                       Layers.active_layer_id := None |} |})) as Hclean.
    { assert (Layers.delete_layer
                (Layers.create_layer (Layers.LayerManager_new root_id) layer_id
                   "Layer 1" Layers.NoGroup) layer_id
              = (true,
                 {| Layers.root_group :=
                      Layers.Group
                        (Layers.fields (Layers.LayerGroup_new root_id "Root")) [];
                    Layers.active_layer_id := None |})) as Hdel.
      { unfold Layers.delete_layer, Layers.create_layer, Layers.remove_from_parent,
          Layers.remove_child, PyList.remove, PyList.pop.
        cbn. rewrite !string_eqb_same. cbn. rewrite ?string_eqb_same. reflexivity. }
      unfold Drawing.cleanup_empty_layers, doc. cbn. rewrite Hdel. reflexivity. }
    split; [split; assumption|]. split; [reflexivity|]. split; [reflexivity|].
    split; [reflexivity|]. split; [reflexivity|]. split; [exact Herr|].
    split; [|split].
    + unfold Drawing.validate_document. cbn [Drawing.warnings].
      rewrite !elem_of_app. right. left. left.
    + unfold Drawing.validate_document. cbn [Drawing.warnings].
      rewrite !elem_of_app. right. right. left.
    + rewrite Hclean. repeat split.
  - split.
    + unfold Document.CanvasSize_new in Hc.
      destruct units;
        try destruct (negb (Qle_bool width 0) && negb (Qle_bool height 0));
        congruence.
    + unfold Document.CanvasSize_new in Hc.
      assert ((0 < width /\ 0 < height)%Q ->
              negb (Qle_bool width 0) && negb (Qle_bool height 0) = true) as Hpos.
      { intros [Hw Hh]. apply andb_true_iff. split; apply negb_true_iff.
        - destruct (Qle_bool width 0) eqn:E; [|reflexivity].
          apply Qle_bool_iff in E. lra.
        - destruct (Qle_bool height 0) eqn:E; [|reflexivity].
          apply Qle_bool_iff in E. lra. }
      destruct units; try (left; eexists; reflexivity); right; intros H;
        rewrite (Hpos H) in Hc; discriminate.
Qed.

Example create_new_tests :
  (do doc <- Drawing.create_new "document-1" "root" "layer-1" 800 600 Document.PIXELS;
   Ok (Manager.get_layer_count (Drawing.layer_manager doc),
       Drawing.get_canvas_bounds doc))
  = Ok (1%nat, (0, 0, 800, 600)%Q)
  /\ Drawing.create_new "document-1" "root" "layer-1" 0 600 Document.PIXELS
     = Raise ValidationError.
Proof. split; reflexivity. Qed.

(** ** Direct and nested layers *)

(** X25.  The layers that [get_all_layers] gives without recursion are
    among the layers it gives with recursion, in the same order, and so are
    the shapes of [get_all_shapes]; for a group with no group among its
    children the two agree. *)
Theorem get_all_layers_direct_among_all (self : Layers.LayerGroup) :
  Layers.get_all_layers false self `sublist_of` Layers.get_all_layers true self
  /\ GroupMore.get_all_shapes false self `sublist_of` GroupMore.get_all_shapes true self
  /\ ((forall g, inr g ∉ Layers.children self) ->
      Layers.get_all_layers false self = Layers.get_all_layers true self).
Proof.
  destruct self as [f cs]. rewrite !get_all_layers_children.
  assert ((cs ≫= child_layers false) `sublist_of` (cs ≫= child_layers true)) as Hsub.
  { induction cs as [|c cs IH]; [constructor|].
    rewrite !bind_cons. apply sublist_app; [|exact IH].
    destruct c as [l|g]; simpl; [reflexivity|apply sublist_nil_l]. }
  split; [exact Hsub|]. split.
  - unfold GroupMore.get_all_shapes. rewrite !get_all_layers_children.
    induction Hsub as [|x l1 l2 Hs IH|x l1 l2 Hs IH]; simpl.
    + constructor.
    + apply sublist_app; [reflexivity|exact IH].
    + apply sublist_inserts_l. exact IH.
  - cbn [Layers.children]. intros Hno. clear Hsub.
    induction cs as [|c cs IH]; [reflexivity|].
    rewrite !bind_cons. f_equal.
    + destruct c as [l|g]; [reflexivity|]. exfalso. apply (Hno g). left.
    + apply IH. intros g Hg. apply (Hno g). right. exact Hg.
Qed.

(** ** Geometry keys that are not read *)

Lemma validate_by_type_agree (ty : Shape.ShapeType) (g g' : gmap string Shape.pyval) :
  (forall k, k ∈ keys_read ty -> g !! k = g' !! k) ->
  Shape.validate_by_type ty g = Shape.validate_by_type ty g'.
Proof.
  intros H.
  assert (forall k, In k (keys_read ty) -> g !! k = g' !! k) as Hin
    by (intros k Hk; apply H, list_elem_of_In, Hk).
  destruct ty; simpl in Hin; cbn [Shape.validate_by_type];
    unfold Shape._validate_rectangle_geometry, Shape._validate_circle_geometry,
      Shape._validate_ellipse_geometry, Shape._validate_line_geometry,
      Shape._validate_polyline_geometry, Shape._validate_polygon_geometry,
      Shape._validate_points, Shape._validate_path_geometry,
      Shape._validate_group_geometry, Shape.has_key, Shape.get;
    cbn [forallb];
    repeat match goal with
           | |- context [g !! ?k] => rewrite (Hin k) by (simpl; tauto)
           end;
    reflexivity.
Qed.

Lemma get_bounds_agree (s s' : Shape.Shape) :
  Shape.type s' = Shape.type s -> Shape.transform s' = Shape.transform s ->
  (forall k, k ∈ keys_read (Shape.type s) ->
             Shape.geometry s !! k = Shape.geometry s' !! k) ->
  Shape.get_bounds s = Shape.get_bounds s'.
Proof.
  intros Hty Htr H.
  assert (forall k, In k (keys_read (Shape.type s)) ->
                    Shape.geometry s !! k = Shape.geometry s' !! k) as Hin
    by (intros k Hk; apply H, list_elem_of_In, Hk).
  unfold Shape.get_bounds, Shape._calculate_base_bounds, Shape.item.
  rewrite Hty, Htr.
  destruct (Shape.type s); simpl in Hin;
    repeat match goal with
           | |- context [Shape.geometry s !! ?k] => rewrite (Hin k) by (simpl; tauto)
           end;
    reflexivity.
Qed.

(** X26.  Entries of the geometry dictionary under keys that the shape's
    kind does not use are ignored: adding, changing or removing such an
    entry changes neither the outcome of the validation nor the bounding
    box. *)
Theorem geometry_other_keys_ignored (s : Shape.Shape) (k : string)
    (Hk : k ∉ keys_read (Shape.type s)) :
  (forall v,
      Shape.validate_by_type (Shape.type s) (<[k := v]> (Shape.geometry s))
      = Shape.validate_by_type (Shape.type s) (Shape.geometry s)
      /\ Shape.get_bounds (with_geometry s (<[k := v]> (Shape.geometry s)))
         = Shape.get_bounds s)
  /\ Shape.validate_by_type (Shape.type s) (delete k (Shape.geometry s))
     = Shape.validate_by_type (Shape.type s) (Shape.geometry s)
  /\ Shape.get_bounds (with_geometry s (delete k (Shape.geometry s)))
     = Shape.get_bounds s.
Proof.
  assert (forall k', k' ∈ keys_read (Shape.type s) -> k <> k') as Hne
    by (intros k' Hk' ->; contradiction).
  split; [intros v; split|split].
  - apply validate_by_type_agree. intros k' Hk'.
    apply lookup_insert_ne, Hne, Hk'.
  - symmetry. apply get_bounds_agree; [reflexivity|reflexivity|].
    intros k' Hk'. cbn [with_geometry Shape.geometry].
    symmetry. apply lookup_insert_ne, Hne, Hk'.
  - apply validate_by_type_agree. intros k' Hk'.
    apply lookup_delete_ne, Hne, Hk'.
  - symmetry. apply get_bounds_agree; [reflexivity|reflexivity|].
    intros k' Hk'. cbn [with_geometry Shape.geometry].
    symmetry. apply lookup_delete_ne, Hne, Hk'.
Qed.

Lemma geometry_other_keys_ignored_witness :
  Shape.validate_by_type Shape.POLYLINE
    (<["label" := Shape.VStr "outline"]> polyline_geometry) = Ok tt
  /\ Shape.get_bounds
       (with_geometry polyline_shape
          (<["label" := Shape.VStr "outline"]> polyline_geometry))
     = Shape.get_bounds polyline_shape.
Proof.
  assert ("label"%string ∉ keys_read (Shape.type polyline_shape)) as Hk.
  { intros H. apply list_elem_of_singleton in H. discriminate. }
  exact (proj1 (geometry_other_keys_ignored polyline_shape "label" Hk)
           (Shape.VStr "outline")).
Defined.
